(** * Tabular data engine and chart derivations of the grapher

    A shallow embedding of
      - [charts/owidData/OwidTable.ts]  (rows, columns, filter columns,
        delimited export, legacy ingestion, grouped rolling averages),
      - [charts/ChartData.ts]           (ready state, filled dimensions,
        entity-dimension keys, selection read and write paths),
      - [charts/ChartConfig.tsx]        (the population filter),
    followed by the properties proved about them.

    JavaScript numbers are modelled by [Z]: every number that the modelled
    code inspects is an id, an index, a year or a day offset. *)

From Stdlib Require Import Ascii.
From stdpp Require Import gmap strings list pretty.

Set Default Proof Using "Type".
Set Warnings "-clear-no-such-hyp".
Open Scope string_scope.
Open Scope list_scope.
Open Scope Z_scope.

(** ** JavaScript values *)

Inductive Value : Type :=
  | VUndef
  | VNull
  | VBool (b : bool)
  | VNum (n : Z)
  | VStr (s : string).

#[global] Instance Value_eq_dec : EqDecision Value.
Proof. solve_decision. Defined.

#[global] Instance Value_inhabited : Inhabited Value := populate VUndef.

(** [!!v] *)
Definition truthy (v : Value) : bool :=
  match v with
  | VUndef | VNull => false
  | VBool b => b
  | VNum n => negb (Z.eqb n 0)
  | VStr s => negb (String.eqb s "")
  end.

(** [String(v)], as used by template literals and [+] on strings. *)
Definition toStr (v : Value) : string :=
  match v with
  | VUndef => "undefined"
  | VNull => "null"
  | VBool true => "true"
  | VBool false => "false"
  | VNum n => pretty n
  | VStr s => s
  end.

(** [v ?? d] *)
Definition nullish_or (v d : Value) : Value :=
  match v with
  | VUndef | VNull => d
  | _ => v
  end.

(** [a || b] *)
Definition js_or (a b : Value) : Value := if truthy a then a else b.

(** [Array.prototype.join]: [null] and [undefined] elements print as the
    empty string. *)
Definition join_elem (v : Value) : string :=
  match v with
  | VUndef | VNull => ""
  | _ => toStr v
  end.

Fixpoint join (sep : string) (l : list string) : string :=
  match l with
  | [] => ""
  | [x] => x
  | x :: rest => x +:+ sep +:+ join sep rest
  end.

(** ["\n"] *)
Definition newline : string := String "010"%char "".

(** ** Rows: objects used as maps from column slug to value *)

Abbreviation Row := (gmap string Value).

(** [row[k]]: an absent property reads as [undefined]. *)
Definition get (row : Row) (k : string) : Value := default VUndef (row !! k).

(** ** JavaScript [Map] and [Set]: insertion ordered, keys unique *)

Section JSMap.
Context {K V : Type} `{EqDecision K}.

Fixpoint Map_set (k : K) (v : V) (m : list (K * V)) : list (K * V) :=
  match m with
  | [] => [(k, v)]
  | (k', v') :: rest =>
      if decide (k = k') then (k, v) :: rest else (k', v') :: Map_set k v rest
  end.

Fixpoint Map_get (k : K) (m : list (K * V)) : option V :=
  match m with
  | [] => None
  | (k', v') :: rest => if decide (k = k') then Some v' else Map_get k rest
  end.

Definition Map_has (k : K) (m : list (K * V)) : bool :=
  bool_decide (is_Some (Map_get k m)).

Definition Map_keys (m : list (K * V)) : list K := m.*1.
Definition Map_values (m : list (K * V)) : list V := m.*2.
End JSMap.

Section JSSet.
Context {K : Type} `{EqDecision K}.

Definition Set_add (k : K) (s : list K) : list K :=
  if decide (k ∈ s) then s else s ++ [k].

(** [new Set(array)] *)
Definition Set_from (l : list K) : list K := foldl (λ s k, Set_add k s) [] l.

Definition Set_delete (k : K) (s : list K) : list K :=
  filter (λ x, x ≠ k) s.
End JSSet.

(** ** Column specifications and tables *)

Definition RowToValueMapper : Type := Row → option nat → Value.

Record OwidVariableDisplaySettings := {
  display_name : option string;
  yearIsDay : bool;
  zeroDay : option string;
  entityAnnotationsMap : option string;
}.

Module ColumnSpec.
Record t := {
  slug : string;
  name : option string;
  owidVariableId : option Z;
  unit : option string;
  shortUnit : option string;
  isDailyMeasurement : bool;
  description : option string;
  coverage : option string;
  datasetId : option string;
  datasetName : option string;
  display : option OwidVariableDisplaySettings;
  isFilterColumn : bool;
  annotationsColumnSlug : option string;
  (** [ComputedColumnSpec.fn], present on computed and filter columns *)
  fn : option RowToValueMapper;
}.

(** [{ slug }] *)
Definition of_slug (s : string) : t :=
  {| slug := s; name := None; owidVariableId := None; unit := None;
     shortUnit := None; isDailyMeasurement := false; description := None;
     coverage := None; datasetId := None; datasetName := None;
     display := None; isFilterColumn := false;
     annotationsColumnSlug := None; fn := None |}.

Definition with_fn (f : RowToValueMapper) (s : t) : t :=
  {| slug := slug s; name := name s; owidVariableId := owidVariableId s;
     unit := unit s; shortUnit := shortUnit s;
     isDailyMeasurement := isDailyMeasurement s;
     description := description s; coverage := coverage s;
     datasetId := datasetId s; datasetName := datasetName s;
     display := display s; isFilterColumn := isFilterColumn s;
     annotationsColumnSlug := annotationsColumnSlug s; fn := Some f |}.

Definition as_filter (s : t) : t :=
  {| slug := slug s; name := name s; owidVariableId := owidVariableId s;
     unit := unit s; shortUnit := shortUnit s;
     isDailyMeasurement := isDailyMeasurement s;
     description := description s; coverage := coverage s;
     datasetId := datasetId s; datasetName := datasetName s;
     display := display s; isFilterColumn := true;
     annotationsColumnSlug := annotationsColumnSlug s; fn := fn s |}.
End ColumnSpec.

Inductive ColumnType := AnyColumn | BooleanColumn.

(** [AbstractColumn]: the back reference to the owning table is the table
    argument of the column accessors below. *)
Record Column := {
  columnType : ColumnType;
  spec : ColumnSpec.t;
}.

(** [AbstractColumn.name], [AbstractColumn.slug] *)
Definition column_name (c : Column) : string :=
  match ColumnSpec.name (spec c) with
  | Some n => n
  | None => ColumnSpec.slug (spec c)
  end.
Definition column_slug (c : Column) : string := ColumnSpec.slug (spec c).

Record Table := {
  rows : list Row;
  columns : list (string * Column);
}.

(** [new AbstractTable(rows, columnSpecs)] with the specs given. *)
Definition newTable (rs : list Row) (columnSpecs : list (string * ColumnSpec.t))
    : Table :=
  {| rows := rs;
     columns :=
       foldl (λ cols slug,
                match Map_get slug columnSpecs with
                | Some s => Map_set slug {| columnType := AnyColumn; spec := s |} cols
                | None => cols
                end)
             [] (Map_keys columnSpecs) |}.

Definition columnsAsArray (t : Table) : list Column := Map_values (columns t).

(** [columnNames]: a fresh [Set] built from the registry on every
    evaluation of the getter. *)
Definition columnNames (t : Table) : list string :=
  Set_from (column_name <$> columnsAsArray t).

Definition filterColumnSlugs (t : Table) : list string :=
  column_slug <$> filter (λ c, ColumnSpec.isFilterColumn (spec c) = true)
                         (columnsAsArray t).

(** [deleteColumnBySlug]: the field is deleted from every row; the second
    statement deletes the slug from the set returned by the [columnNames]
    getter, which is derived from [columns] and is not written back. *)
Definition deleteColumnBySlug (s : string) (t : Table) : Table :=
  let rows' := delete s <$> rows t in
  let _names := Set_delete s (columnNames t) in
  {| rows := rows'; columns := columns t |}.

(** [_addComputedColumn(spec, columnType)] *)
Definition _addComputedColumn (sp : ColumnSpec.t) (f : RowToValueMapper)
    (ty : ColumnType) (t : Table) : Table :=
  let s := ColumnSpec.slug sp in
  {| columns :=
       Map_set s {| columnType := ty; spec := ColumnSpec.with_fn f sp |} (columns t);
     rows := imap (λ index row, <[s := f row (Some index)]> row) (rows t) |}.

(** [addFilterColumn(slug, predicate)] *)
Definition predicate_fn (predicate : Row → bool) : RowToValueMapper :=
  λ row _, VBool (predicate row).

Definition addFilterColumn (s : string) (predicate : Row → bool) (t : Table)
    : Table :=
  _addComputedColumn (ColumnSpec.as_filter (ColumnSpec.of_slug s))
                     (predicate_fn predicate) BooleanColumn t.

Definition addColumnSpec (sp : ColumnSpec.t) (t : Table) : Table :=
  {| rows := rows t;
     columns := Map_set (ColumnSpec.slug sp)
                        {| columnType := AnyColumn; spec := sp |} (columns t) |}.

Definition addComputedColumn (sp : ColumnSpec.t) (f : RowToValueMapper)
    (t : Table) : Table :=
  _addComputedColumn sp f AnyColumn t.

(** [unfilteredRows].  [slugs.every(...)] on one row: a missing filter
    value is computed and stored on the row, and the walk stops at the first
    falsy value.  [None] is the [TypeError] raised when the registry has no
    function for a filter slug whose value must be computed. *)
Fixpoint filterFn (fs : list (string * option RowToValueMapper)) (row : Row)
    : option (Row * bool) :=
  match fs with
  | [] => Some (row, true)
  | (s, f) :: rest =>
      row1 ← (if decide (get row s = VUndef)
               then (λ f, <[s := f row None]> row) <$> f
               else Some row);
      if truthy (get row1 s) then filterFn rest row1 else Some (row1, false)
  end.

(** The functions of the filter columns, looked up through
    [columnsBySlug.get(slug)!.spec.fn]. *)
Definition filterFns (t : Table) : option (list (string * option RowToValueMapper)) :=
  mapM (λ s, c ← Map_get s (columns t); Some (s, ColumnSpec.fn (spec c)))
       (filterColumnSlugs t).

(** One pass of [this.rows.filter(filterFn)]: every row with its cached
    filter values, paired with the verdict. *)
Definition filterPass (t : Table) : option (list (Row * bool)) :=
  fs ← filterFns t;
  mapM (filterFn fs) (rows t).

(** The rows returned, and the table left behind (its rows carry the
    cached filter values). *)
Definition unfilteredRows (t : Table) : option (list Row * Table) :=
  if decide (filterColumnSlugs t = []) then Some (rows t, t)
  else
    pass ← filterPass t;
    Some ((filter (λ rb, rb.2 = true) pass).*1,
          {| rows := pass.*1; columns := columns t |}).

(** [toDelimited(delimiter = ",", rowLimit?)] *)
Definition toDelimited (delimiter : string) (rowLimit : option nat) (t : Table)
    : string :=
  let cols := columnNames t in
  let header := join delimiter cols +:+ newline in
  let rs := match rowLimit with
            | Some (S n) => take (S n) (rows t)
            | _ => rows t
            end in
  let body :=
    join newline ((λ row, join delimiter
                   ((λ cName, join_elem (nullish_or (get row cName) (VStr "")))
                      <$> cols)) <$> rs) in
  header +:+ body.

(** ** Grouped rolling averages *)

Section Smoothing.
(** [computeRollingAverage] (with its default alignment) and
    [insertMissingValuePlaceholders] are helpers of [charts/Util]. *)
Variable computeRollingAverage : list Value → Z → list Value.
Variable insertMissingValuePlaceholders : list Value → list Value → list Value.

Variable valueAccessor : Row → Value.
Variable groupColName dateColName : string.
Variable rollingAverage : Z.

(** The averages pushed for one group of rows. *)
Definition groupAverages (currentRows : list Row) : list Value :=
  filter (λ value, value ≠ VNull)
    (computeRollingAverage
       (insertMissingValuePlaceholders
          (valueAccessor <$> currentRows)
          ((λ row, get row dateColName) <$> currentRows))
       rollingAverage).

(** The body of [for (let i = 0; i < rows.length; i++)], over the rows
    still to visit; the loop ends when the rows are exhausted.  A row is
    an object, hence [row && row[groupColName]] is [row[groupColName]]
    and [if (!row) break] is never taken. *)
Fixpoint forEachGroup_loop (todo : list Row) (currentGroup : Value)
    (currentRows : list Row) (groups : list (list Value)) : list (list Value) :=
  match todo with
  | [] => groups
  | row :: rest =>
      let groupName := get row groupColName in
      if decide (currentGroup ≠ groupName)
      then forEachGroup_loop rest groupName [row]
             (groups ++ [groupAverages currentRows])
      else forEachGroup_loop rest currentGroup (currentRows ++ [row]) groups
  end.

(** [None]: [rows[0][groupColName]] on an empty array raises a
    [TypeError]. *)
Definition computeRollingAveragesForEachGroup (rs : list Row)
    : option (list Value) :=
  match rs with
  | [] => None
  | row0 :: _ =>
      Some (concat (forEachGroup_loop rs (get row0 groupColName) [] []))
  end.
End Smoothing.

(** [addRollingAverageColumn(spec, windowSize, valueAccessor, dateColName, groupBy)] *)
Definition addRollingAverageColumn
    (computeRollingAverage : list Value → Z → list Value)
    (insertMissingValuePlaceholders : list Value → list Value → list Value)
    (sp : ColumnSpec.t) (windowSize : Z) (valueAccessor : Row → Value)
    (dateColName groupBy : string) (t : Table) : option Table :=
  averages ← computeRollingAveragesForEachGroup computeRollingAverage
                insertMissingValuePlaceholders valueAccessor groupBy
                dateColName windowSize (rows t);
  Some (_addComputedColumn sp
          (λ _ index, default VUndef (index ≫= (averages !!.)))
          AnyColumn t).

(** ** Legacy ingestion *)

(** [String.prototype.split] on a one-character separator. *)
Fixpoint split (d : ascii) (s : string) : list string :=
  match s with
  | EmptyString => [""]
  | String c rest =>
      if decide (c = d) then "" :: split d rest
      else match split d rest with
           | w :: ws => String c w :: ws
           | [] => [String c ""]
           end
  end.

(** A [string] holds the bytes of the UTF-8 encoding of the program's
    string.  [WhiteSpace] lists the encodings of the code points that
    [String.prototype.trim] strips, the white space and the line
    terminators of the language: U+0009 to U+000D, U+0020, U+00A0, U+1680,
    U+2000 to U+200A, U+2028, U+2029, U+202F, U+205F, U+3000 and U+FEFF. *)
Definition utf8 (bytes : list ascii) : string :=
  foldr String EmptyString bytes.

Definition WhiteSpace : list string :=
  (utf8 <$> [["009"]; ["010"]; ["011"]; ["012"]; ["013"]; ["032"];
             ["194"; "160"]; ["225"; "154"; "128"]]%char)
  ++ ((λ b, utf8 ["226"; "128"; b]%char)
        <$> ["128"; "129"; "130"; "131"; "132"; "133"; "134"; "135"; "136";
             "137"; "138"; "168"; "169"; "175"]%char)
  ++ (utf8 <$> [["226"; "129"; "159"]; ["227"; "128"; "128"];
                ["239"; "187"; "191"]]%char).

(** [strip_prefix p s] is the rest of [s] after its prefix [p]. *)
Fixpoint strip_prefix (p s : string) : option string :=
  match p, s with
  | EmptyString, _ => Some s
  | String a p', String b s' => if decide (a = b) then strip_prefix p' s' else None
  | String _ _, EmptyString => None
  end.

Definition strip_one (white : list string) (s : string) : option string :=
  head (omap (λ w, strip_prefix w s) white).

Fixpoint strip_all (white : list string) (fuel : nat) (s : string) : string :=
  match fuel with
  | O => s
  | S fuel => match strip_one white s with
              | Some rest => strip_all white fuel rest
              | None => s
              end
  end.

(** [String.prototype.trim]; at most one code point goes with each byte
    of the string. *)
Definition trim_start (s : string) : string :=
  strip_all WhiteSpace (String.length s) s.
Definition trim_end (s : string) : string :=
  String.rev (strip_all (String.rev <$> WhiteSpace) (String.length s)
                        (String.rev s)).
Definition trim (s : string) : string := trim_end (trim_start s).

Record OwidVariable := {
  id : Z;
  name : string;
  entities : list Z;
  years : list Z;
  values : list Value;
  unit : option string;
  shortUnit : option string;
  description : option string;
  coverage : option string;
  datasetId : option string;
  datasetName : option string;
  display : OwidVariableDisplaySettings;
}.

Record EntityMeta := {
  entity_name : string;
  entity_code : string;
}.

(** The legacy wire format.  [variables] lists the members of the
    [variables] object in the order in which [for ... in] enumerates
    them; [entityKey] is keyed by the printed entity id. *)
Record OwidVariablesAndEntityKey := {
  variables : list (string * OwidVariable);
  entityKey : gmap string EntityMeta;
}.

Section LegacyIngestion.
(** [slugify] and [diffDateISOStringInDays] are helpers of
    [charts/Util]; [EPOCH_DATE] is a constant of [settings]. *)
Variable slugify : string → string.
Variable diffDateISOStringInDays : string → string → Z.
Variable EPOCH_DATE : string.

Definition annotationsToMap (annotations : string) : list (string * string) :=
  foldl (λ entityAnnotationsMap line,
           match trim <$> split ":"%char line with
           | key :: words => Map_set key (join ":" words) entityAnnotationsMap
           | [] => entityAnnotationsMap
           end)
        [] (split "010"%char annotations).

Definition makeAnnotationColumnSlug (columnSlug : string) : string :=
  columnSlug +:+ "-annotations".

(** [columnSpecFromLegacyVariable]; the annotations cross reference is
    the one that [fromLegacy] assigns to the spec object afterwards. *)
Definition columnSpecFromLegacyVariable (variable : OwidVariable)
    (annotationsColumnSlug : option string) : ColumnSpec.t :=
  {| ColumnSpec.name := Some (name variable);
     ColumnSpec.slug := pretty (id variable) +:+ "-" +:+ slugify (name variable);
     ColumnSpec.isDailyMeasurement := yearIsDay (display variable);
     ColumnSpec.unit := unit variable;
     ColumnSpec.shortUnit := shortUnit variable;
     ColumnSpec.description := description variable;
     ColumnSpec.coverage := coverage variable;
     ColumnSpec.datasetId := datasetId variable;
     ColumnSpec.datasetName := datasetName variable;
     ColumnSpec.display := Some (display variable);
     ColumnSpec.owidVariableId := Some (id variable);
     ColumnSpec.isFilterColumn := false;
     ColumnSpec.annotationsColumnSlug := annotationsColumnSlug;
     ColumnSpec.fn := None |}.

Definition convertLegacyYears (ys : list Z) (zeroDay : string) : list Z :=
  let diff := diffDateISOStringInDays zeroDay EPOCH_DATE in
  (λ y, y + diff) <$> ys.

(** [display.yearIsDay && display.zeroDay !== undefined &&
     display.zeroDay !== EPOCH_DATE] *)
Definition yearsNeedTransform (d : OwidVariableDisplaySettings) : bool :=
  yearIsDay d &&
  match zeroDay d with
  | Some z => bool_decide (z ≠ EPOCH_DATE)
  | None => false
  end.

(** The [years] array that the rows of a variable are built from. *)
Definition legacyYears (variable : OwidVariable) : list Z :=
  if yearsNeedTransform (display variable)
  then match zeroDay (display variable) with
       | Some z => convertLegacyYears (years variable) z
       | None => years variable
       end
  else years variable.

Definition timeColumnName (variable : OwidVariable) : string :=
  if yearIsDay (display variable) then "day" else "year".

(** The annotations column of a variable: its slug and the parsed
    annotations, when [display.entityAnnotationsMap] is truthy. *)
Definition legacyAnnotations (columnSlug : string) (variable : OwidVariable)
    : option (string * list (string * string)) :=
  match entityAnnotationsMap (display variable) with
  | Some a =>
      if truthy (VStr a)
      then Some (makeAnnotationColumnSlug columnSlug, annotationsToMap a)
      else None
  | None => None
  end.

(** [array[index]] as a value *)
Definition at_index {A} (inj : A → Value) (l : list A) (index : nat) : Value :=
  default VUndef (inj <$> l !! index).

(** One element of [variable.values.map((value, index) => ...)]. *)
Definition legacyRow (variable : OwidVariable) (columnSlug : string)
    (entityNames entityCodes : list string)
    (annotations : option (string * list (string * string)))
    (index : nat) (value : Value) : Row :=
  let entityName := at_index VStr entityNames index in
  let row : Row :=
    <["entityCode" := at_index VStr entityCodes index]>
      (<["entityId" := at_index VNum (entities variable) index]>
         (<["entityName" := entityName]>
            (<[columnSlug := value]>
               (<[timeColumnName variable :=
                    at_index VNum (legacyYears variable) index]> ∅)))) in
  match annotations with
  | Some (annotationsColumnSlug, annotationMap) =>
      <[annotationsColumnSlug :=
          match entityName with
          | VStr n => default VUndef (VStr <$> Map_get n annotationMap)
          | _ => VUndef
          end]> row
  | None => row
  end.

(** The body of [for (const key in json.variables)], from the rows and
    specs accumulated so far.  [None]: an entity id without an entry in
    [entityKey] ([entityMetaById[id].name] raises a [TypeError]). *)
Definition ingestVariable (entityMetaById : gmap string EntityMeta)
    (acc : list Row * list (string * ColumnSpec.t)) (variable : OwidVariable)
    : option (list Row * list (string * ColumnSpec.t)) :=
  let '(rs, columnSpecs) := acc in
  entityNames ← mapM (λ i, entity_name <$> entityMetaById !! pretty i)
                     (entities variable);
  entityCodes ← mapM (λ i, entity_code <$> entityMetaById !! pretty i)
                     (entities variable);
  let columnSlug :=
    ColumnSpec.slug (columnSpecFromLegacyVariable variable None) in
  let annotations := legacyAnnotations columnSlug variable in
  let columnSpec := columnSpecFromLegacyVariable variable (fst <$> annotations) in
  let columnSpecs :=
    Map_set (timeColumnName variable)
            (ColumnSpec.of_slug (timeColumnName variable)) columnSpecs in
  let columnSpecs := Map_set columnSlug columnSpec columnSpecs in
  let columnSpecs :=
    match annotations with
    | Some (annotationsColumnSlug, _) =>
        Map_set annotationsColumnSlug
                (ColumnSpec.of_slug annotationsColumnSlug) columnSpecs
    | None => columnSpecs
    end in
  let newRows :=
    imap (legacyRow variable columnSlug entityNames entityCodes annotations)
         (values variable) in
  Some (rs ++ newRows, columnSpecs).

(** The key under which [fromLegacy] groups the rows. *)
Definition groupKey (row : Row) : string :=
  let timePart :=
    if decide (get row "year" ≠ VUndef)
    then "year:" +:+ toStr (get row "year")
    else "day:" +:+ toStr (get row "day") in
  timePart +:+ " " +:+ toStr (get row "entityName").

(** [groupBy]: the groups in the order in which their keys first occur. *)
Definition groupBy {A} (key : A → string) (l : list A) : list (string * list A) :=
  foldl (λ m x, Map_set (key x) (default [] (Map_get (key x) m) ++ [x]) m) [] l.

(** [Object.assign({}, ...rows)]: the fields of later rows win. *)
Definition Object_assign (rs : list Row) : Row :=
  foldl (λ target source, source ∪ target) ∅ rs.

Definition identityColumnSpecs : list (string * ColumnSpec.t) :=
  Map_set "entityCode" (ColumnSpec.of_slug "entityCode")
    (Map_set "entityId" (ColumnSpec.of_slug "entityId")
       (Map_set "entityName" (ColumnSpec.of_slug "entityName") [])).

Definition fromLegacy (json : OwidVariablesAndEntityKey) : option Table :=
  '(rs, columnSpecs) ←
     foldl (λ acc kv, acc ≫= λ a, ingestVariable (entityKey json) a kv.2)
           (Some ([], identityColumnSpecs)) (variables json);
  let groupMap := groupBy groupKey rs in
  let joinedRows := Object_assign <$> Map_values groupMap in
  Some (newTable joinedRows columnSpecs).
End LegacyIngestion.

(** ** Chart configuration *)

Module ChartDimension.
Record t := {
  property : string;
  variableId : Z;
  display : OwidVariableDisplaySettings;
}.
End ChartDimension.

(** [ChartDimensionWithOwidVariable] *)
Module Dimension.
Record t := {
  index : nat;
  props : ChartDimension.t;
  column : Column;
}.
Definition variableId (d : t) : Z := ChartDimension.variableId (props d).
Definition property (d : t) : string := ChartDimension.property (props d).
End Dimension.

(** An entry of the persisted selection.  The entity id is whatever the
    configuration or [entityNameToIdMap] holds, the colour is optional. *)
Module EntitySelection.
Record t := {
  entityId : Value;
  index : Z;
  color : option string;
}.
Definition with_color (c : option string) (d : t) : t :=
  {| entityId := entityId d; index := index d; color := c |}.
End EntitySelection.

Inductive AddCountryMode := add_country | change_country | disabled.

#[global] Instance AddCountryMode_eq_dec : EqDecision AddCountryMode.
Proof. solve_decision. Defined.

Record ChartConfigProps := {
  selectedData : list EntitySelection.t;
  dimensions : list ChartDimension.t;
  props_addCountryMode : option AddCountryMode;
  minPopulationFilter : option Z;
}.

Record ChartConfig := {
  props : ChartConfigProps;
  table : Table;
}.

Definition set_table (t : Table) (c : ChartConfig) : ChartConfig :=
  {| props := props c; table := t |}.

Definition set_selectedData (l : list EntitySelection.t) (c : ChartConfig)
    : ChartConfig :=
  {| props := {| selectedData := l;
                 dimensions := dimensions (props c);
                 props_addCountryMode := props_addCountryMode (props c);
                 minPopulationFilter := minPopulationFilter (props c) |};
     table := table c |}.

Definition set_minPopulationFilter (v : option Z) (c : ChartConfig)
    : ChartConfig :=
  {| props := {| selectedData := selectedData (props c);
                 dimensions := dimensions (props c);
                 props_addCountryMode := props_addCountryMode (props c);
                 minPopulationFilter := v |};
     table := table c |}.

(** [chart.addCountryMode]: [props.addCountryMode || "add-country"] *)
Definition addCountryMode (c : ChartConfig) : AddCountryMode :=
  default add_country (props_addCountryMode (props c)).

(** The members that a plain object inherits from [Object.prototype]:
    [object[name]] finds them when the object has no member of its own
    under [name].  Each of them is a function, or for [__proto__] the
    prototype object itself. *)
Definition Object_prototype_members : list string :=
  ["constructor"; "__defineGetter__"; "__defineSetter__"; "hasOwnProperty";
   "__lookupGetter__"; "__lookupSetter__"; "isPrototypeOf";
   "propertyIsEnumerable"; "toString"; "valueOf"; "__proto__";
   "toLocaleString"].

Section PopulationFilter.
(** [populationMap] is the table of [charts/PopulationMap], a plain
    object; the map holds its own members. *)
Variable populationMap : gmap string Z.

(** The predicate installed by [updatePopulationFilter]:
    [const pop = populationMap[name]; return !pop || pop >= minPop].
    For a name that the object only inherits, [pop] is a function or an
    object: [!pop] is false, and [pop >= minPop] compares [NaN] and is
    false as well. *)
Definition populationPredicate (minPop : Z) (row : Row) : bool :=
  let name := get row "entityName" in
  match populationMap !! toStr name with
  | None => negb (bool_decide (toStr name ∈ Object_prototype_members))
  | Some pop => Z.eqb pop 0 || bool_decide (pop >= minPop)
  end.

Definition updatePopulationFilter (c : ChartConfig) : ChartConfig :=
  let slug := "pop_filter" in
  match minPopulationFilter (props c) with
  | Some minPop =>
      if Z.eqb minPop 0
      then set_table (deleteColumnBySlug slug (table c)) c
      else set_table (addFilterColumn slug (populationPredicate minPop) (table c)) c
  | None => set_table (deleteColumnBySlug slug (table c)) c
  end.

(** Assigning [props.minPopulationFilter] a new value runs the reaction
    registered by the constructor. *)
Definition assign_minPopulationFilter (v : option Z) (c : ChartConfig)
    : ChartConfig :=
  if decide (v = minPopulationFilter (props c)) then c
  else updatePopulationFilter (set_minPopulationFilter v c).
End PopulationFilter.

(** ** [OwidTable] maps *)

Definition columnsByOwidVarId (t : Table) : list (Z * Column) :=
  foldl (λ m ic,
           Map_set (default (Z.of_nat ic.1) (ColumnSpec.owidVariableId (spec ic.2)))
                   ic.2 m)
        [] (imap (λ index column, (index, column)) (columnsAsArray t)).

Definition availableEntities (t : Table) : list Value :=
  Set_from ((λ row, get row "entityName") <$> rows t).

Definition entityIdToNameMap (t : Table) : list (Value * Value) :=
  foldl (λ m row, Map_set (get row "entityId") (get row "entityName") m) [] (rows t).

Definition entityNameToIdMap (t : Table) : list (Value * Value) :=
  foldl (λ m row, Map_set (get row "entityName") (get row "entityId") m) [] (rows t).

Definition entityNameToCodeMap (t : Table) : list (Value * Value) :=
  foldl (λ m row, Map_set (get row "entityName") (get row "entityCode") m) [] (rows t).

(** [map.get(k)] as a value *)
Definition Map_get_value {K} `{EqDecision K} (k : K) (m : list (K * Value)) : Value :=
  default VUndef (Map_get k m).

(** ** Reading and writing chart state

    A computation reads and writes the chart configuration (the persisted
    props and the table it owns) and may raise. *)

Definition M (A : Type) : Type := ChartConfig → option (A * ChartConfig).

#[global] Instance M_ret : MRet M := λ A a c, Some (a, c).
#[global] Instance M_bind : MBind M := λ A B k m c,
  match m c with
  | Some (a, c') => k a c'
  | None => None
  end.

Definition throw {A} : M A := λ _, None.
Definition getChart : M ChartConfig := λ c, Some (c, c).
Definition assign_selectedData (l : list EntitySelection.t) : M () :=
  λ c, Some ((), set_selectedData l c).

(** [chart.table.unfilteredRows]: the rows returned; the cached filter
    values stay on the rows of the table. *)
Definition table_unfilteredRows : M (list Row) := λ c,
  match unfilteredRows (table c) with
  | Some (view, t') => Some (view, set_table t' c)
  | None => None
  end.

Fixpoint filterM {A} (p : A → M bool) (l : list A) : M (list A) :=
  match l with
  | [] => mret []
  | x :: rest =>
      b ← p x;
      kept ← filterM p rest;
      mret (if b : bool then x :: kept else kept)
  end.

(** ** [AbstractColumn] accessors *)

Definition column_rows (col : Column) : M (list Row) :=
  view ← table_unfilteredRows;
  mret (filter (λ row, get row (column_slug col) ≠ VUndef) view).

Definition column_entityNames (col : Column) : M (list Value) :=
  rs ← column_rows col;
  mret ((λ row, get row "entityName") <$> rs).

Definition column_entityNamesUniq (col : Column) : M (list Value) :=
  names ← column_entityNames col;
  mret (Set_from names).

(** [AbstractColumn.display]: [spec.display || new OwidVariableDisplaySettings()] *)
Definition column_display (col : Column) : OwidVariableDisplaySettings :=
  default {| display_name := None; yearIsDay := false; zeroDay := None;
             entityAnnotationsMap := None |}
          (ColumnSpec.display (spec col)).

(** ** [ChartDimensionWithOwidVariable] accessors *)

Definition dimension_entityNamesUniq (d : Dimension.t) : M (list Value) :=
  column_entityNamesUniq (Dimension.column d).

(** [defaultTo(defaultTo(props.display.name, column.display.name), column.name)] *)
Definition dimension_displayName (d : Dimension.t) : string :=
  match display_name (ChartDimension.display (Dimension.props d)) with
  | Some n => n
  | None =>
      match display_name (column_display (Dimension.column d)) with
      | Some n => n
      | None => column_name (Dimension.column d)
      end
  end.

(** ** [ChartData] *)

Definition loadingVarIds (c : ChartConfig) : list Z :=
  filter (λ i, Map_has i (columnsByOwidVarId (table c)) = false)
         (ChartDimension.variableId <$> dimensions (props c)).

Definition isReady (c : ChartConfig) : bool :=
  bool_decide (length (loadingVarIds c) = 0%nat).

(** [filledDimensions]; a dimension whose column is missing cannot occur
    once [isReady] holds, the model drops it. *)
Definition filledDimensions (c : ChartConfig) : list Dimension.t :=
  if isReady c
  then omap (λ x, x)
         (imap (λ i dim,
                  col ← Map_get (ChartDimension.variableId dim)
                                (columnsByOwidVarId (table c));
                  Some {| Dimension.index := i; Dimension.props := dim;
                          Dimension.column := col |})
               (dimensions (props c)))
  else [].

Definition primaryDimensions (c : ChartConfig) : list Dimension.t :=
  filter (λ dim, Dimension.property dim = "y") (filledDimensions c).

Definition axisDimensions (c : ChartConfig) : list Dimension.t :=
  filter (λ dim, Dimension.property dim = "y" ∨ Dimension.property dim = "x")
         (filledDimensions c).

Definition makeEntityDimensionKey (entityName : Value) (dimensionIndex : Z)
    : string :=
  toStr entityName +:+ "_" +:+ pretty dimensionIndex.

(** [array[i]] for a number [i] *)
Definition at_number {A} (l : list A) (i : Z) : option A :=
  if decide (0 ≤ i) then l !! Z.to_nat i else None.

(** [uniqWith]: the first element of every class of the comparator. *)
Definition uniqWith {A} (comparator : A → A → bool) (l : list A) : list A :=
  foldl (λ result value,
           if existsb (λ seen, comparator seen value) result
           then result else result ++ [value])
        [] l.

Definition sameSelection (a b : EntitySelection.t) : bool :=
  bool_decide (EntitySelection.entityId a = EntitySelection.entityId b) &&
  bool_decide (EntitySelection.index a = EntitySelection.index b).

(** The callback of [chart.props.selectedData.filter(...)] in
    [selectionData]. *)
Definition isValidSelection (primaryDims : list Dimension.t)
    (idToName : list (Value * Value)) (sel : EntitySelection.t) : M bool :=
  match at_number primaryDims (EntitySelection.index sel) with
  | None => mret false
  | Some dimension =>
      let entityName := Map_get_value (EntitySelection.entityId sel) idToName in
      if negb (truthy entityName) then mret false
      else
        names ← dimension_entityNamesUniq dimension;
        if negb (bool_decide (entityName ∈ names)) then mret false
        else
          chart ← getChart;
          if bool_decide (addCountryMode chart = change_country) &&
             negb (bool_decide
                     (Some (EntitySelection.entityId sel) =
                      EntitySelection.entityId <$> last (selectedData (props chart))))
          then mret false
          else mret true
  end.

Definition selectionData : M (list (string * option string)) :=
  chart ← getChart;
  let primaryDims := primaryDimensions chart in
  let idToName := entityIdToNameMap (table chart) in
  validSelections ← filterM (isValidSelection primaryDims idToName)
                            (selectedData (props chart));
  let validSelections := uniqWith sameSelection validSelections in
  mret ((λ sel,
           (makeEntityDimensionKey
              (Map_get_value (EntitySelection.entityId sel) idToName)
              (EntitySelection.index sel),
            EntitySelection.color sel)) <$> validSelections).

(** [keyColors]: only truthy colours are recorded. *)
Definition keyColors : M (gmap string string) :=
  sd ← selectionData;
  mret (foldl (λ kc d,
                 match d.2 with
                 | Some col => if truthy (VStr col) then <[d.1 := col]> kc else kc
                 | None => kc
                 end)
              ∅ sd).

(** The [selectedKeys] getter *)
Definition selectedKeys : M (list string) :=
  sd ← selectionData;
  mret (sd.*1).

Module Info.
(** [EntityDimensionInfo] *)
Record t := {
  entity : Value;
  entityId : Value;
  dimension : Dimension.t;
  index : nat;
  entityDimensionKey : string;
  fullLabel : string;
  label : string;
  shortCode : string;
}.
End Info.

(** [chart.isSingleEntity], [chart.isSingleVariable] *)
Definition isSingleEntity (c : ChartConfig) : bool :=
  bool_decide (length (availableEntities (table c)) = 1%nat) ||
  bool_decide (addCountryMode c = change_country).

Definition isSingleVariable (c : ChartConfig) : bool :=
  bool_decide (length (primaryDimensions c) = 1%nat).

(** What [entityDimensionMap] evaluates before its loops. *)
Record KeyDataScope := {
  scope_primaryDimensions : list Dimension.t;
  scope_isSingleEntity : bool;
  scope_isSingleVariable : bool;
}.

Definition keyDataScope (chart : ChartConfig) : KeyDataScope :=
  {| scope_primaryDimensions := primaryDimensions chart;
     scope_isSingleEntity := isSingleEntity chart;
     scope_isSingleVariable := isSingleVariable chart |}.

(** The entry that [entityDimensionMap] stores for one entity of one
    primary dimension. *)
Definition entityDimensionInfo (chart : ChartConfig) (scope : KeyDataScope)
    (dimension : Dimension.t) (dimensionIndex : nat) (entityName : Value)
    : Info.t :=
  let entityCode := Map_get_value entityName (entityNameToCodeMap (table chart)) in
  let entityId := Map_get_value entityName (entityNameToIdMap (table chart)) in
  let entityDimensionKey :=
    makeEntityDimensionKey entityName (Z.of_nat dimensionIndex) in
  let fullLabel :=
    toStr entityName +:+ " - " +:+ dimension_displayName dimension in
  let label :=
    if scope_isSingleVariable scope then toStr entityName
    else if scope_isSingleEntity scope then dimension_displayName dimension
    else fullLabel in
  {| Info.entityDimensionKey := entityDimensionKey;
     Info.entityId := entityId;
     Info.entity := entityName;
     Info.dimension := dimension;
     Info.index := dimensionIndex;
     Info.fullLabel := fullLabel;
     Info.label := label;
     Info.shortCode :=
       if bool_decide (1 < length (scope_primaryDimensions scope))%nat &&
          negb (bool_decide (addCountryMode chart = change_country))
       then toStr (js_or entityCode entityName) +:+ "-" +:+
            pretty (Dimension.index dimension)
       else toStr (js_or entityCode entityName) |}.

(** [primaryDimensions.forEach((dimension, dimensionIndex) => ...)],
    from index [i] on. *)
Fixpoint entityDimensionMap_loop (scope : KeyDataScope) (todo : list Dimension.t) (i : nat)
    (keyData : list (string * Info.t)) : M (list (string * Info.t)) :=
  match todo with
  | [] => mret keyData
  | dimension :: rest =>
      names ← dimension_entityNamesUniq dimension;
      chart ← getChart;
      let keyData :=
        foldl (λ kd entityName,
                 let info := entityDimensionInfo chart scope dimension i entityName in
                 Map_set (Info.entityDimensionKey info) info kd)
              keyData names in
      entityDimensionMap_loop scope rest (S i) keyData
  end.

Definition entityDimensionMap : M (list (string * Info.t)) :=
  chart ← getChart;
  if negb (isReady chart) then mret []
  else
    let scope := keyDataScope chart in
    entityDimensionMap_loop scope (scope_primaryDimensions scope) 0 [].

(** [lookupKey]: raises on a key outside the index. *)
Definition lookupKey (key : string) : M Info.t :=
  keyData ← entityDimensionMap;
  match Map_get key keyData with
  | Some keyDatum => mret keyDatum
  | None => throw
  end.

(** The entry that the [selectedKeys] setter stores for one key. *)
Definition selectionOfKey (key : string) : M EntitySelection.t :=
  info ← lookupKey key;
  chart ← getChart;
  kc ← keyColors;
  mret {| EntitySelection.entityId :=
            Map_get_value (Info.entity info) (entityNameToIdMap (table chart));
          EntitySelection.index := Z.of_nat (Info.index info);
          EntitySelection.color := kc !! key |}.

(** The [selectedKeys] setter *)
Definition selectedKeys_set (keys : list string) : M () :=
  chart ← getChart;
  if negb (isReady chart) then mret ()
  else
    selection ← mapM selectionOfKey keys;
    assign_selectedData selection.

Definition setKeyColor (key : string) (color : option string) : M () :=
  meta ← lookupKey key;
  chart ← getChart;
  let selectedData' :=
    (λ d, if bool_decide (EntitySelection.entityId d = Info.entityId meta) &&
             bool_decide (EntitySelection.index d = Z.of_nat (Info.index meta))
          then EntitySelection.with_color color d
          else d) <$> selectedData (props chart) in
  assign_selectedData selectedData'.

(** ** Columns detected from the rows *)

Section DetectColumns.
(** [Object.keys(row)]: the own properties of a row, in the order in which
    the engine enumerates them. *)
Variable Object_keys : Row → list string.

(** [AbstractTable.makeSpecsFromRows] *)
Definition makeSpecsFromRows (rs : list Row) : list (string * ColumnSpec.t) :=
  foldl (λ map row,
           foldl (λ map key, Map_set key (ColumnSpec.of_slug key) map)
                 map (Object_keys row))
        [] rs.

(** [detectAndAddColumnsFromRows(rows)]: the specs are made from
    [this.rows], not from the argument; a slug that is already registered
    keeps its column. *)
Definition detectAndAddColumnsFromRows (_rows : list Row) (t : Table) : Table :=
  let specs := makeSpecsFromRows (rows t) in
  {| rows := rows t;
     columns :=
       foldl (λ cols slug,
                if Map_has slug cols then cols
                else match Map_get slug specs with
                     | Some s => Map_set slug {| columnType := AnyColumn; spec := s |} cols
                     | None => cols
                     end)
             (columns t) (Map_keys specs) |}.

(** [new AbstractTable(rows)], without column specs *)
Definition newTable_detect (rs : list Row) : Table :=
  detectAndAddColumnsFromRows rs {| rows := rs; columns := [] |}.

(** [addRowsAndDetectColumns(rows)] *)
Definition addRowsAndDetectColumns (rs : list Row) (t : Table) : Table :=
  detectAndAddColumnsFromRows rs {| rows := rows t ++ rs; columns := columns t |}.
End DetectColumns.

(** [OwidTable.hasDayColumn], [OwidTable.dayColumn] *)
Definition hasDayColumn (t : Table) : bool :=
  bool_decide ("day" ∈ columnNames t).

Definition dayColumn (t : Table) : option Column :=
  Map_get "day" (columns t).

(** [uniq]: the first occurrence of every element, in order. *)
Definition uniq {K} `{EqDecision K} (l : list K) : list K := Set_from l.

Definition selectEntityDimensionKey (key : string) : M () :=
  keys ← selectedKeys;
  selectedKeys_set (keys ++ [key]).

Definition selectedEntities : M (list Value) :=
  keys ← selectedKeys;
  entities ← mapM (λ key, info ← lookupKey key; mret (Info.entity info)) keys;
  mret (uniq entities).

(** [toggleKey]: each branch reads the [selectedKeys] getter again. *)
Definition toggleKey (key : string) : M () :=
  keys ← selectedKeys;
  if bool_decide (key ∈ keys)
  then keys ← selectedKeys; selectedKeys_set (filter (λ k, k ≠ key) keys)
  else keys ← selectedKeys; selectedKeys_set (keys ++ [key]).

(** ** Dimension slots *)

#[global] Instance OwidVariableDisplaySettings_eq_dec :
  EqDecision OwidVariableDisplaySettings.
Proof. solve_decision. Defined.

#[global] Instance ChartDimension_eq_dec : EqDecision ChartDimension.t.
Proof. solve_decision. Defined.

Definition set_dimensions (l : list ChartDimension.t) (c : ChartConfig)
    : ChartConfig :=
  {| props := {| selectedData := selectedData (props c);
                 dimensions := l;
                 props_addCountryMode := props_addCountryMode (props c);
                 minPopulationFilter := minPopulationFilter (props c) |};
     table := table c |}.

Section DimensionSlots.
(** [ChartType.ScatterPlot], [ChartType.TimeScatter] and
    [ChartType.SlopeChart] of [charts/ChartType], and [props.type]. *)
Variables ScatterPlot TimeScatter SlopeChart : string.
Variable type : string.

Definition isScatter : bool := bool_decide (type = ScatterPlot).
Definition isTimeScatter : bool := bool_decide (type = TimeScatter).
Definition isSlopeChart : bool := bool_decide (type = SlopeChart).

(** The slots of the chart, each given by its [property]. *)
Definition dimensionSlots : list string :=
  if isScatter then ["y"; "x"; "size"; "color"]
  else if isTimeScatter then ["y"; "x"]
  else if isSlopeChart then ["y"; "size"; "color"]
  else ["y"].

(** [DimensionSlot.allowMultiple] *)
Definition allowMultiple (property : string) : bool :=
  bool_decide (property = "y") &&
  negb (isScatter || isTimeScatter || isSlopeChart).

(** [DimensionSlot.dimensions] (getter) *)
Definition slot_dimensions (property : string) (c : ChartConfig)
    : list ChartDimension.t :=
  filter (λ d, ChartDimension.property d = property) (dimensions (props c)).

(** [DimensionSlot.dimensions] (setter) *)
Definition slot_dimensions_set (property : string)
    (dims : list ChartDimension.t) (c : ChartConfig) : ChartConfig :=
  let newDimensions :=
    foldl (λ newDimensions slot,
             if bool_decide (slot = property)
             then newDimensions ++ dims
             else newDimensions ++ slot_dimensions slot c)
          [] dimensionSlots in
  set_dimensions newDimensions c.

(** The comparator that [validDimensions] hands to [uniqWith] for a slot;
    it gives the same answer with its arguments swapped. *)
Definition sameSlot (slot : string) (a b : ChartDimension.t) : bool :=
  bool_decide (ChartDimension.property a = slot) &&
  bool_decide (ChartDimension.property a = ChartDimension.property b).

Definition validDimensions (c : ChartConfig) : list ChartDimension.t :=
  let validProperties := dimensionSlots in
  let validDimensions :=
    filter (λ dim, ChartDimension.property dim ∈ validProperties)
           (dimensions (props c)) in
  foldl (λ validDimensions slot,
           if negb (allowMultiple slot)
           then uniqWith (sameSlot slot) validDimensions
           else validDimensions)
        validDimensions dimensionSlots.

(** The reaction of [ensureValidConfig] that repairs the dimensions. *)
Definition ensureValidDimensions (c : ChartConfig) : ChartConfig :=
  if bool_decide (dimensions (props c) = validDimensions c)
  then c
  else set_dimensions (validDimensions c) c.

End DimensionSlots.

(** Assigning [slot.dimensions = dims] in a chart: the setter stores the
    new list; the constructor has installed [ensureValidConfig] unless the
    chart runs in Node ([if (!this.isNode) this.ensureValidConfig()]), and
    its reaction on [props.dimensions] then runs on the stored list. *)
Definition slot_dimensions_assign
    (ScatterPlot TimeScatter SlopeChart type : string) (isNode : bool)
    (property : string) (dims : list ChartDimension.t) (c : ChartConfig)
    : ChartConfig :=
  let c' := slot_dimensions_set ScatterPlot TimeScatter SlopeChart type
              property dims c in
  if isNode then c'
  else ensureValidDimensions ScatterPlot TimeScatter SlopeChart type c'.

(** [setSelectedEntity]: every entry of a copy of the selection is given
    the entity id. *)
Definition setSelectedEntity (entityId : Z) : M () :=
  chart ← getChart;
  let selectedData' :=
    (λ d, {| EntitySelection.entityId := VNum entityId;
             EntitySelection.index := EntitySelection.index d;
             EntitySelection.color := EntitySelection.color d |})
      <$> selectedData (props chart) in
  assign_selectedData selectedData'.

(** [availableKeysByEntity]: the keys of the index, filed under the entity
    of their record. *)
Definition availableKeysByEntity : M (list (Value * list string)) :=
  keyData ← entityDimensionMap;
  mret (foldl (λ keysByEntity entry,
                 let key := entry.1 in
                 let info := entry.2 in
                 let keys :=
                   default [] (Map_get (Info.entity info) keysByEntity) in
                 Map_set (Info.entity info) (keys ++ [key]) keysByEntity)
              [] keyData).

(** ** [HorizontalAxis]: which ticks are shown *)

Section HorizontalAxis.
(** Tick values are numbers of the scale; [Bounds], with [intersects] and
    [padWidth], is the class of [charts/Bounds].  [boundsOf] stands for
    the rectangle that [tickPlacements] computes for the label of a tick. *)
Context {Tick Bounds : Type}.
Variable intersects : Bounds → Bounds → bool.
Variable padWidth : Bounds → Z → Bounds.
Variable boundsOf : Tick → Bounds.

Record TickPlacement := {
  tick : Tick;
  bounds : Bounds;
  isHidden : bool;
}.

Definition tickPlacements (baseTicks : list Tick) : list TickPlacement :=
  (λ tick, {| tick := tick; bounds := boundsOf tick; isHidden := false |})
    <$> baseTicks.

(** [t.isHidden = true] *)
Definition hide (t : TickPlacement) : TickPlacement :=
  {| tick := tick t; bounds := bounds t; isHidden := true |}.

(** The body of the inner loop for the pair [(i, j)]; the placements are
    distinct objects, so [t1 == t2] holds exactly when [i = j]. *)
Definition visit (i j : nat) (tickPlacements : list TickPlacement)
    : list TickPlacement :=
  match tickPlacements !! i, tickPlacements !! j with
  | Some t1, Some t2 =>
      if bool_decide (i = j) || isHidden t1 || isHidden t2
      then tickPlacements
      else if intersects (bounds t1) (padWidth (bounds t2) (-5))
      then
        if bool_decide (i = 0%nat) then alter hide j tickPlacements
        else if bool_decide (j = (length tickPlacements - 1)%nat)
        then alter hide i tickPlacements
        else alter hide j tickPlacements
      else tickPlacements
  | _, _ => tickPlacements
  end.

(** The two loops of [ticks]: [i] from 0 and [j] from 1, both below the
    number of placements. *)
Definition hideCollisions (tickPlacements : list TickPlacement)
    : list TickPlacement :=
  let n := length tickPlacements in
  foldl (λ tickPlacements i,
           foldl (λ tickPlacements j, visit i j tickPlacements)
                 tickPlacements (seq 1 (n - 1)))
        tickPlacements (seq 0 n).

(** [ticks], for freshly computed placements of [baseTicks];
    [tickValues] is [scale.getTickValues()]. *)
Definition ticks (isDiscrete : bool) (tickValues baseTicks : list Tick)
    : list Tick :=
  if isDiscrete then tickValues
  else tick <$> filter (λ t, isHidden t = false)
                       (hideCollisions (tickPlacements baseTicks)).

End HorizontalAxis.

Arguments tick {_ _} _.
Arguments bounds {_ _} _.
Arguments isHidden {_ _} _.

(** [AbstractColumn.entityMap] *)
Definition column_entityMap (col : Column) : M (list (Value * Value)) :=
  rs ← column_rows col;
  mret (foldl (λ map row,
                 Map_set (get row "entityName") (get row (column_slug col)) map)
              [] rs).

(** [AbstractColumn.annotationsMap] *)
Definition column_annotationsMap (col : Column)
    : M (option (list (Value * Value))) :=
  match ColumnSpec.annotationsColumnSlug (spec col) with
  | Some annotationsColumnSlug =>
      if negb (truthy (VStr annotationsColumnSlug)) then mret None
      else
        chart ← getChart;
        match Map_get annotationsColumnSlug (columns (table chart)) with
        | Some column => map ← column_entityMap column; mret (Some map)
        | None => mret None
        end
  | None => mret None
  end.

(** [AbstractColumn.getAnnotationsFor] *)
Definition getAnnotationsFor (col : Column) (entityName : string) : M Value :=
  map ← column_annotationsMap col;
  mret (match map with
        | Some map => Map_get_value (VStr entityName) map
        | None => VUndef
        end).

(** * Properties *)

(** ** Insertion-ordered maps *)

Section JSMap_facts.
Context {K V : Type} `{EqDecision K}.
Implicit Types (m : list (K * V)) (k : K) (v : V).

Lemma Map_get_set_eq k v m : Map_get k (Map_set k v m) = Some v.
Proof.
  induction m as [|[k' v'] m IH]; simpl.
  - by rewrite decide_True.
  - destruct (decide (k = k')); simpl.
    + by rewrite decide_True.
    + by rewrite decide_False.
Qed.

Lemma Map_get_set_ne k k' v m :
  k ≠ k' → Map_get k' (Map_set k v m) = Map_get k' m.
Proof.
  intros Hne. induction m as [|[k0 v0] m IH]; simpl.
  - by rewrite decide_False.
  - destruct (decide (k = k0)) as [->|]; simpl.
    + by rewrite !decide_False.
    + destruct (decide (k' = k0)); done.
Qed.

Lemma Map_get_set k k' v m :
  Map_get k' (Map_set k v m) = if decide (k = k') then Some v else Map_get k' m.
Proof.
  destruct (decide (k = k')) as [->|]; auto using Map_get_set_eq, Map_get_set_ne.
Qed.

Lemma Map_get_Some_elem k v m : Map_get k m = Some v → (k, v) ∈ m.
Proof.
  induction m as [|[k' v'] m IH]; simpl; [done|].
  destruct (decide (k = k')) as [->|]; intros ?; simplify_eq.
  - left.
  - right. auto.
Qed.

Lemma Map_get_None k m : Map_get k m = None ↔ k ∉ Map_keys m.
Proof.
  unfold Map_keys. induction m as [|[k' v'] m IH]; simpl.
  - split; [intros _; apply not_elem_of_nil|done].
  - rewrite not_elem_of_cons. destruct (decide (k = k')); [|tauto].
    split; [done|]. intros [? _]. done.
Qed.

Lemma Map_get_is_Some k m : is_Some (Map_get k m) ↔ k ∈ Map_keys m.
Proof.
  destruct (Map_get k m) eqn:E.
  - split; [intros _|eauto].
    destruct (decide (k ∈ Map_keys m)) as [|Hn]; [done|].
    apply Map_get_None in Hn. congruence.
  - apply Map_get_None in E. split; [by intros [??]|done].
Qed.

Lemma Map_keys_set k v m :
  Map_keys (Map_set k v m) =
  if decide (k ∈ Map_keys m) then Map_keys m else Map_keys m ++ [k].
Proof.
  unfold Map_keys. induction m as [|[k' v'] m IH]; [done|].
  cbn [Map_set fmap list_fmap fst].
  destruct (decide (k = k')) as [->|Hne].
  - rewrite decide_True; [done|left].
  - cbn [fmap list_fmap fst]. rewrite IH. destruct (decide (k ∈ m.*1)).
    + rewrite decide_True; [done|by right].
    + rewrite decide_False; [done|]. rewrite not_elem_of_cons. done.
Qed.

Lemma Map_set_NoDup k v m : NoDup (Map_keys m) → NoDup (Map_keys (Map_set k v m)).
Proof.
  intros Hnd. rewrite Map_keys_set. case_decide; [done|].
  apply NoDup_app. split_and!; [done| |apply NoDup_singleton].
  intros x Hx Hx'. apply list_elem_of_singleton in Hx'. by subst.
Qed.

Lemma Map_get_elem_NoDup k v m :
  NoDup (Map_keys m) → (k, v) ∈ m → Map_get k m = Some v.
Proof.
  unfold Map_keys. induction m as [|[k' v'] m IH]; simpl.
  - intros _ Hin. by apply elem_of_nil in Hin.
  - intros Hnd Hin. apply NoDup_cons in Hnd as [Hk' Hnd].
    apply elem_of_cons in Hin as [Heq|Hin].
    + simplify_eq. by rewrite decide_True.
    + rewrite decide_False; [by apply IH|].
      intros ->. apply Hk'. apply list_elem_of_fmap. by exists (k', v).
Qed.

(** A map filled by successive [set] calls holds, under each key, the
    value written last. *)
Lemma Map_get_foldl {A} (f : A → K) (g : A → V) (l : list A) m k :
  Map_get k (foldl (λ m x, Map_set (f x) (g x) m) m l) =
  match last (filter (λ x, f x = k) l) with
  | Some x => Some (g x)
  | None => Map_get k m
  end.
Proof.
  revert m. induction l as [|x l IH]; intros m; simpl; [done|].
  rewrite IH, filter_cons. case_decide as Hk.
  - subst k. rewrite Map_get_set_eq.
    destruct (filter _ l) as [|y l'] eqn:E; simpl; [done|].
    rewrite last_cons. by destruct (last l').
  - by rewrite Map_get_set_ne.
Qed.

Lemma Map_keys_foldl_NoDup {A} (f : A → K) (g : A → V) (l : list A) m :
  NoDup (Map_keys m) →
  NoDup (Map_keys (foldl (λ m x, Map_set (f x) (g x) m) m l)).
Proof.
  revert m. induction l as [|x l IH]; intros m Hm; simpl; [done|].
  apply IH. by apply Map_set_NoDup.
Qed.

Lemma Map_keys_foldl_elem {A} (f : A → K) (g : A → V) (l : list A) m k :
  k ∈ Map_keys (foldl (λ m x, Map_set (f x) (g x) m) m l) ↔
  k ∈ Map_keys m ∨ k ∈ f <$> l.
Proof.
  revert m. induction l as [|x l IH]; intros m; simpl.
  - rewrite elem_of_nil. naive_solver.
  - rewrite IH, Map_keys_set, elem_of_cons.
    case_decide; [|rewrite elem_of_app, list_elem_of_singleton];
      naive_solver.
Qed.
End JSMap_facts.

(** ** Strings and printed numbers *)

Fixpoint String_Forall (P : ascii → Prop) (s : string) : Prop :=
  match s with
  | EmptyString => True
  | String c rest => P c ∧ String_Forall P rest
  end.

Lemma String_Forall_app P a b :
  String_Forall P (a +:+ b) ↔ String_Forall P a ∧ String_Forall P b.
Proof.
  induction a as [|c a IH]; simpl; [tauto|].
  change (String c a +:+ b) with (String c (a +:+ b)). simpl.
  rewrite IH. tauto.
Qed.

Lemma pretty_N_go_Forall (P : ascii → Prop) x s :
  (∀ d, P (pretty_N_char d)) → String_Forall P s →
  String_Forall P (pretty_N_go x s).
Proof.
  intros Hd. revert s. induction (N.lt_wf_0 x) as [x _ IH]; intros s Hs.
  destruct (decide (x = 0)%N) as [->|Hx].
  - by rewrite pretty_N_go_0.
  - rewrite pretty_N_go_step by lia. apply IH.
    + apply N.div_lt; lia.
    + simpl. auto.
Qed.

Lemma pretty_N_Forall (P : ascii → Prop) (x : N) :
  (∀ d, P (pretty_N_char d)) → String_Forall P (pretty x).
Proof.
  intros Hd. unfold pretty, pretty_N. case_decide.
  - simpl. split; [|done]. apply (Hd 0%N).
  - by apply pretty_N_go_Forall.
Qed.

Lemma pretty_Z_Forall (P : ascii → Prop) (x : Z) :
  (∀ d, P (pretty_N_char d)) → P "-"%char → String_Forall P (pretty x).
Proof.
  intros Hd Hdash. destruct x as [|p|p].
  - split; [|done]. apply (Hd 0%N).
  - by apply (pretty_N_Forall P (N.pos p)).
  - change (pretty (Z.neg p)) with (String "-" (pretty (N.pos p))).
    split; [done|]. by apply pretty_N_Forall.
Qed.

Lemma pretty_N_char_ne c :
  (∀ d, (d < 10)%N → pretty_N_char d ≠ c) → ∀ d, pretty_N_char d ≠ c.
Proof.
  intros H d. destruct (decide (d < 10)%N); [by apply H|].
  replace (pretty_N_char d) with (pretty_N_char 9); [apply H; lia|].
  unfold pretty_N_char. destruct d as [|p]; [lia|].
  do 4 (destruct p as [p|p|]; try done; try lia).
Qed.

Lemma pretty_Z_no_underscore (x : Z) : String_Forall (λ c, c ≠ "_"%char) (pretty x).
Proof.
  apply pretty_Z_Forall; [|done]. apply pretty_N_char_ne.
  intros d Hd.
  assert (d = 0 ∨ d = 1 ∨ d = 2 ∨ d = 3 ∨ d = 4 ∨ d = 5 ∨ d = 6 ∨ d = 7
          ∨ d = 8 ∨ d = 9)%N as Hcases by lia.
  destruct Hcases as [->|[->|[->|[->|[->|[->|[->|[->|[->| ->]]]]]]]]]; done.
Qed.

(** Two strings that end in a separator followed by separator-free
    suffixes are equal only if their parts are. *)
Lemma append_separator_inj sep s1 d1 s2 d2 :
  String_Forall (λ c, c ≠ sep) d1 → String_Forall (λ c, c ≠ sep) d2 →
  s1 +:+ String sep d1 = s2 +:+ String sep d2 → s1 = s2 ∧ d1 = d2.
Proof.
  intros H1 H2. revert s2. induction s1 as [|c s1 IH]; intros [|c' s2] Heq.
  - by injection Heq as ->.
  - exfalso. injection Heq as -> ->.
    apply String_Forall_app in H1 as [_ [Hsep _]]. done.
  - exfalso. injection Heq as -> <-.
    apply String_Forall_app in H2 as [_ [Hsep _]]. done.
  - injection Heq as -> Heq. destruct (IH _ Heq) as [-> ->]. done.
Qed.

Lemma makeEntityDimensionKey_inj s1 i1 s2 i2 :
  makeEntityDimensionKey (VStr s1) i1 = makeEntityDimensionKey (VStr s2) i2 →
  s1 = s2 ∧ i1 = i2.
Proof.
  unfold makeEntityDimensionKey. simpl. intros Heq.
  apply append_separator_inj in Heq as [-> Hi];
    [|apply pretty_Z_no_underscore..].
  split; [done|]. by apply (inj pretty).
Qed.


(** A string with a separator-free prefix splits at its first separator. *)
Lemma prefix_separator_inj sep a1 b1 a2 b2 :
  String_Forall (λ c, c ≠ sep) a1 → String_Forall (λ c, c ≠ sep) a2 →
  a1 +:+ String sep b1 = a2 +:+ String sep b2 → a1 = a2 ∧ b1 = b2.
Proof.
  revert a2. induction a1 as [|c a1 IH]; intros [|c' a2] H1 H2 Heq.
  - by injection Heq as ->.
  - exfalso. injection Heq as -> _. by destruct H2 as [? _].
  - exfalso. injection Heq as -> _. by destruct H1 as [? _].
  - injection Heq as -> Heq. destruct H1 as [_ H1], H2 as [_ H2].
    destruct (IH _ H1 H2 Heq) as [-> ->]. done.
Qed.

Lemma pretty_Z_chars (P : ascii → Prop) (x : Z) :
  P "0"%char → P "1"%char → P "2"%char → P "3"%char → P "4"%char →
  P "5"%char → P "6"%char → P "7"%char → P "8"%char → P "9"%char →
  P "-"%char → String_Forall P (pretty x).
Proof.
  intros. apply pretty_Z_Forall; [|done]. intros d. unfold pretty_N_char.
  repeat case_match; done.
Qed.

(** A string with a dash in it is none of the dash-free names. *)
Lemma append_dash_ne a b s :
  String_Forall (λ c, c ≠ "-"%char) s → a +:+ "-" +:+ b ≠ s.
Proof.
  intros Hs Heq. rewrite <-Heq in Hs.
  apply String_Forall_app in Hs as [_ [Hdash _]]. done.
Qed.

(** ** Ready state and filled dimensions *)

Lemma columnsByOwidVarId_get t k col :
  Map_get k (columnsByOwidVarId t) = Some col →
  ∃ pos : nat, columnsAsArray t !! pos = Some col ∧
    default (Z.of_nat pos) (ColumnSpec.owidVariableId (spec col)) = k.
Proof.
  unfold columnsByOwidVarId. rewrite Map_get_foldl. simpl.
  destruct (last _) as [[pos c]|] eqn:E; [|done].
  intros [= <-]. apply last_Some_elem_of in E.
  apply list_elem_of_filter in E as [Hk E]. simpl in Hk.
  apply list_elem_of_lookup in E as [i E].
  rewrite list_lookup_imap in E.
  destruct (columnsAsArray t !! i) eqn:Ei; simplify_eq/=. eauto.
Qed.

Lemma isReady_true c :
  isReady c = true →
  Forall (λ dim, is_Some (Map_get (ChartDimension.variableId dim)
                                  (columnsByOwidVarId (table c))))
         (dimensions (props c)).
Proof.
  unfold isReady, loadingVarIds. intros Hr. apply bool_decide_eq_true in Hr.
  apply length_zero_iff_nil in Hr. apply Forall_forall. intros dim Hdim.
  destruct (Map_get _ _) eqn:E; [eauto|]. exfalso.
  assert (ChartDimension.variableId dim ∈
          filter (λ i, Map_has i (columnsByOwidVarId (table c)) = false)
                 (ChartDimension.variableId <$> dimensions (props c))) as Hin.
  { apply list_elem_of_filter. split.
    - unfold Map_has. rewrite E. apply bool_decide_eq_false. by intros [??].
    - apply list_elem_of_fmap. eauto. }
  rewrite Hr in Hin. by apply elem_of_nil in Hin.
Qed.

Lemma filledDimensions_lookup c i d :
  filledDimensions c !! i = Some d →
  isReady c = true ∧
  ∃ dim, dimensions (props c) !! i = Some dim ∧
    Map_get (ChartDimension.variableId dim) (columnsByOwidVarId (table c))
      = Some (Dimension.column d) ∧
    Dimension.index d = i ∧ Dimension.props d = dim.
Proof.
  unfold filledDimensions. destruct (isReady c) eqn:Hr; [|done].
  intros Hd. split; [done|]. apply isReady_true in Hr.
  revert i d Hd Hr. generalize (columnsByOwidVarId (table c)) as m.
  intros m. generalize (dimensions (props c)) as dims.
  intros dims. change (λ i0 dim, ?f i0 dim) with (λ i0 dim, f i0 dim).
  assert (∀ (f : nat → nat) dims i d,
    omap (λ x, x)
      (imap (λ i dim, col ← Map_get (ChartDimension.variableId dim) m;
                      Some {| Dimension.index := f i; Dimension.props := dim;
                              Dimension.column := col |}) dims) !! i = Some d →
    Forall (λ dim, is_Some (Map_get (ChartDimension.variableId dim) m)) dims →
    ∃ dim, dims !! i = Some dim ∧
      Map_get (ChartDimension.variableId dim) m = Some (Dimension.column d) ∧
      Dimension.index d = f i ∧ Dimension.props d = dim) as Hgen.
  { clear. intros f dims. revert f.
    induction dims as [|dim dims IH]; intros f i d Hd Hall; [done|].
    apply Forall_cons in Hall as [[col Hcol] Hall].
    simpl in Hd. rewrite Hcol in Hd. simpl in Hd.
    destruct i as [|i]; simpl in *.
    - simplify_eq. exists dim. done.
    - apply (IH (f ∘ S) i d); done. }
  intros i d Hd Hall. apply (Hgen (λ i, i) dims i d); done.
Qed.

Lemma filledDimensions_length c :
  isReady c = true → length (filledDimensions c) = length (dimensions (props c)).
Proof.
  intros Hr. unfold filledDimensions. rewrite Hr. apply isReady_true in Hr.
  revert Hr. generalize (columnsByOwidVarId (table c)) as m.
  generalize (dimensions (props c)) as dims. intros dims m.
  assert (∀ (f : nat → nat) dims,
    Forall (λ dim, is_Some (Map_get (ChartDimension.variableId dim) m)) dims →
    length (omap (λ x, x)
      (imap (λ i dim, col ← Map_get (ChartDimension.variableId dim) m;
                      Some {| Dimension.index := f i; Dimension.props := dim;
                              Dimension.column := col |}) dims)) = length dims)
    as Hgen.
  { clear. intros f dims. revert f.
    induction dims as [|dim dims IH]; intros f Hall; [done|].
    apply Forall_cons in Hall as [[col Hcol] Hall].
    simpl. rewrite Hcol. simpl. f_equal. apply (IH (f ∘ S)). done. }
  intros Hall. apply (Hgen (λ i, i)). done.
Qed.

(** A chart over one ingested daily variable (id 5) that carries entity
    annotations, with that variable as its only dimension. *)
Definition annotated_variable : OwidVariable :=
  {| id := 5; name := "cases"; entities := [1; 2]; years := [0; 3];
     values := [VNum 10; VNum 20];
     unit := None; shortUnit := None; description := None; coverage := None;
     datasetId := None; datasetName := None;
     display := {| display_name := None; yearIsDay := true; zeroDay := None;
                   entityAnnotationsMap := Some "France: provisional" |} |}.

Definition two_entities : gmap string EntityMeta :=
  <["1" := {| entity_name := "France"; entity_code := "FRA" |}]>
    (<["2" := {| entity_name := "Spain"; entity_code := "ESP" |}]> ∅).

Definition plain_display : OwidVariableDisplaySettings :=
  {| display_name := None; yearIsDay := false; zeroDay := None;
     entityAnnotationsMap := None |}.

Definition annotated_chart : ChartConfig :=
  {| props := {| selectedData := [];
                 dimensions := [ {| ChartDimension.property := "y";
                                    ChartDimension.variableId := 5;
                                    ChartDimension.display := plain_display |} ];
                 props_addCountryMode := None;
                 minPopulationFilter := None |};
     table := default (newTable [] [])
                (fromLegacy (λ s, s) (λ _ _, 0) "2020-01-21"
                   {| variables := [("5", annotated_variable)];
                      entityKey := two_entities |}) |}.

(** A chart over the same table whose only dimension asks for variable 1,
    which was not ingested. *)
Definition unretrieved_chart : ChartConfig :=
  set_dimensions [ {| ChartDimension.property := "y";
                      ChartDimension.variableId := 1;
                      ChartDimension.display := plain_display |} ]
                 annotated_chart.

(** C1: [columnsByOwidVarId] files a column without [owidVariableId]
    under its position in the registry, and that key can be a variable
    id.  The registry of the chart above holds the column of variable 5
    at position 4 and its annotations column, which has no
    [owidVariableId], at position 5: the map holds the annotations column
    under key 5, the chart is ready, and its dimension resolves to that
    column, whose [owidVariableId] is not the dimension's [variableId].
    The chart that asks for variable 1 is ready although no column of the
    table belongs to that variable, and its dimension resolves to the
    [entityId] column at position 1. *)
Theorem filledDimensions_resolves_unnumbered_column :
  (λ col, (column_slug col, ColumnSpec.owidVariableId (spec col)))
    <$> columnsAsArray (table annotated_chart)
  = [("entityName", None); ("entityId", None); ("entityCode", None);
     ("day", None); ("5-cases", Some 5); ("5-cases-annotations", None)] ∧
  (λ kc, (kc.1, column_slug kc.2)) <$> columnsByOwidVarId (table annotated_chart)
  = [(0, "entityName"); (1, "entityId"); (2, "entityCode"); (3, "day");
     (5, "5-cases-annotations")] ∧
  isReady annotated_chart = true ∧
  (λ d, (column_slug (Dimension.column d),
         ColumnSpec.owidVariableId (spec (Dimension.column d)),
         Dimension.variableId d)) <$> filledDimensions annotated_chart
  = [("5-cases-annotations", None, 5)] ∧
  isReady unretrieved_chart = true ∧
  (λ d, (column_slug (Dimension.column d),
         ColumnSpec.owidVariableId (spec (Dimension.column d)),
         Dimension.variableId d)) <$> filledDimensions unretrieved_chart
  = [("entityId", None, 1)].
Proof. vm_compute. split_and!; reflexivity. Qed.

(** ** Deleting a column *)

Lemma deleteColumnBySlug_columns s t :
  columns (deleteColumnBySlug s t) = columns t.
Proof. done. Qed.

Lemma deleteColumnBySlug_rows s t row :
  row ∈ rows (deleteColumnBySlug s t) → get row s = VUndef.
Proof.
  unfold deleteColumnBySlug. simpl. intros Hin.
  apply list_elem_of_fmap in Hin as (r & -> & _).
  unfold get. by rewrite lookup_delete_eq.
Qed.

(** Two countries, one below a population threshold of 1000. *)
Definition small_and_big : ChartConfig :=
  {| props := {| selectedData := []; dimensions := [];
                 props_addCountryMode := None; minPopulationFilter := None |};
     table := newTable [ {[ "entityName" := VStr "Small" ]};
                         {[ "entityName" := VStr "Big" ]} ]
                       [("entityName", ColumnSpec.of_slug "entityName")] |}.

Definition small_and_big_population : gmap string Z :=
  <["Small" := 100]> (<["Big" := 1000000]> ∅).

(** C2: on the chart above, setting [minPopulationFilter] to 1000 and
    then back to [undefined] strips the [pop_filter] field from every row,
    but the column stays in the registry as a filter column, so
    [unfilteredRows] computes the filter again and still returns one row
    instead of the original two. *)
Theorem deleteColumnBySlug_keeps_pop_filter :
  let c0 := small_and_big in
  let c1 := assign_minPopulationFilter small_and_big_population (Some 1000) c0 in
  let c2 := assign_minPopulationFilter small_and_big_population None c1 in
  (length ∘ fst <$> unfilteredRows (table c0)) = Some 2%nat ∧
  (length ∘ fst <$> unfilteredRows (table c1)) = Some 1%nat ∧
  minPopulationFilter (props c2) = None ∧
  Forall (λ row, get row "pop_filter" = VUndef) (rows (table c2)) ∧
  Map_keys (columns (table c2)) = ["entityName"; "pop_filter"] ∧
  filterColumnSlugs (table c2) = ["pop_filter"] ∧
  (length ∘ fst <$> unfilteredRows (table c2)) = Some 1%nat.
Proof.
  vm_compute. split_and!; try reflexivity.
  repeat constructor.
Qed.

(** ** Delimited export *)

Definition gdp_table : Table :=
  newTable [ <["1-gdp" := VNum 5]> {[ "entityName" := VStr "France" ]} ]
    [ ("entityName", ColumnSpec.of_slug "entityName");
      ("1-gdp",
       {| ColumnSpec.slug := "1-gdp"; ColumnSpec.name := Some "GDP";
          ColumnSpec.owidVariableId := Some 1; ColumnSpec.unit := None;
          ColumnSpec.shortUnit := None; ColumnSpec.isDailyMeasurement := false;
          ColumnSpec.description := None; ColumnSpec.coverage := None;
          ColumnSpec.datasetId := None; ColumnSpec.datasetName := None;
          ColumnSpec.display := None; ColumnSpec.isFilterColumn := false;
          ColumnSpec.annotationsColumnSlug := None; ColumnSpec.fn := None |}) ].

(** C8: the only row of the table above holds 5 in the column named GDP
    (slug [1-gdp]), but [toDelimited] reads the row under the column's
    name and prints an empty cell. *)
Theorem toDelimited_reads_cells_by_name :
  (λ row, get row "1-gdp") <$> rows gdp_table = [VNum 5] ∧
  (λ c, (column_slug c, column_name c)) <$> columnsAsArray gdp_table
    = [("entityName", "entityName"); ("1-gdp", "GDP")] ∧
  toDelimited "," None gdp_table = "entityName,GDP" +:+ newline +:+ "France,".
Proof. vm_compute. done. Qed.

(** ** Grouped rolling averages *)

(** The maximal runs of consecutive rows with the same group value. *)
Fixpoint contiguousGroups (key : Row → Value) (l : list Row) : list (list Row) :=
  match l with
  | [] => []
  | x :: rest =>
      match contiguousGroups key rest with
      | (y :: g) :: gs =>
          if decide (key x = key y) then (x :: y :: g) :: gs
          else [x] :: (y :: g) :: gs
      | _ => [[x]]
      end
  end.

Section Smoothing_facts.
Variable computeRollingAverage : list Value → Z → list Value.
Variable insertMissingValuePlaceholders : list Value → list Value → list Value.
Variable valueAccessor : Row → Value.
Variable groupColName dateColName : string.
Variable rollingAverage : Z.

Let key (row : Row) : Value := get row groupColName.
Let averages : list Row → list Value :=
  groupAverages computeRollingAverage insertMissingValuePlaceholders
                valueAccessor dateColName rollingAverage.
Let loop :=
  forEachGroup_loop computeRollingAverage insertMissingValuePlaceholders
                    valueAccessor groupColName dateColName rollingAverage.

Lemma contiguousGroups_head x rest :
  ∃ g gs, contiguousGroups key (x :: rest) = (x :: g) :: gs.
Proof.
  simpl. destruct (contiguousGroups key rest) as [|[|y g] gs]; eauto.
  case_decide; eauto.
Qed.

Lemma contiguousGroups_same cur :
  cur ≠ [] → (∀ r, r ∈ cur → ∀ r', r' ∈ cur → key r = key r') →
  contiguousGroups key cur = [cur].
Proof.
  induction cur as [|x cur IH]; [done|]. intros _ Hall.
  destruct cur as [|y cur]; [done|].
  change (contiguousGroups key (x :: y :: cur)) with
    (match contiguousGroups key (y :: cur) with
     | (y :: g) :: gs =>
         if decide (key x = key y) then (x :: y :: g) :: gs
         else [x] :: (y :: g) :: gs
     | _ => [[x]]
     end).
  rewrite IH; [|done|].
  - rewrite decide_True; [done|]. apply Hall; [left|right; left].
  - intros r Hr r' Hr'. apply Hall; by right.
Qed.

Lemma contiguousGroups_boundary cur cg r rest :
  cur ≠ [] → (∀ x, x ∈ cur → key x = cg) → key r ≠ cg →
  contiguousGroups key (cur ++ r :: rest)
  = cur :: contiguousGroups key (r :: rest).
Proof.
  intros Hne Hcur Hr.
  induction cur as [|x cur IH]; [done|].
  destruct (contiguousGroups_head r rest) as (g & gs & Hrs).
  destruct cur as [|y cur].
  - change (contiguousGroups key ([x] ++ r :: rest)) with
      (match contiguousGroups key (r :: rest) with
       | (y :: g) :: gs =>
           if decide (key x = key y) then (x :: y :: g) :: gs
           else [x] :: (y :: g) :: gs
       | _ => [[x]]
       end).
    rewrite Hrs. rewrite decide_False; [done|].
    rewrite (Hcur x); [congruence|left].
  - change (contiguousGroups key ((x :: y :: cur) ++ r :: rest)) with
      (match contiguousGroups key ((y :: cur) ++ r :: rest) with
       | (y :: g) :: gs =>
           if decide (key x = key y) then (x :: y :: g) :: gs
           else [x] :: (y :: g) :: gs
       | _ => [[x]]
       end).
    rewrite IH; [|done|intros ? ?; apply Hcur; by right].
    rewrite decide_True; [done|].
    rewrite (Hcur x), (Hcur y); [done|right; left|left].
Qed.

(** The loop, from any point at which [currentRows] holds the rows of
    the open group: the groups closed so far, then every further group
    except the last one. *)
Lemma forEachGroup_loop_spec todo cg cur groups :
  (∀ x, x ∈ cur → key x = cg) →
  (cur = [] → ∃ r rest, todo = r :: rest ∧ key r = cg) →
  loop todo cg cur groups
  = groups ++ (averages <$> removelast (contiguousGroups key (cur ++ todo))).
Proof.
  revert cg cur groups.
  induction todo as [|row rest IH]; intros cg cur groups Hcur Hnil.
  - simpl. rewrite app_nil_r. destruct cur as [|x cur].
    + destruct Hnil as (? & ? & ? & ?); done.
    + rewrite contiguousGroups_same; [by rewrite app_nil_r|done|].
      intros r Hr r' Hr'. by rewrite (Hcur r), (Hcur r').
  - unfold loop. cbn [forEachGroup_loop]. fold loop. fold (key row).
    destruct (decide (cg ≠ key row)) as [Hne|Heq].
    + rewrite IH.
      * destruct cur as [|x cur].
        { destruct Hnil as (? & ? & ? & ?); [done|]. simplify_eq. }
        rewrite (contiguousGroups_boundary (x :: cur) cg); [|done|done|done].
        destruct (contiguousGroups_head row rest) as (g & gs & Hrs).
        change ([row] ++ rest) with (row :: rest). rewrite Hrs.
        change (removelast (?a :: (row :: g) :: gs)) with
          (a :: removelast ((row :: g) :: gs)).
        rewrite fmap_cons, <-app_assoc. done.
      * intros x Hx. apply list_elem_of_singleton in Hx. by subst.
      * done.
    + apply dec_stable in Heq. rewrite IH.
      * by rewrite <-app_assoc.
      * intros x Hx. apply elem_of_app in Hx as [Hx|Hx]; [by apply Hcur|].
        apply list_elem_of_singleton in Hx. by subst.
      * intros Habs. by destruct cur.
Qed.

(** Every contiguous group except the last one contributes its averages. *)
Lemma forEachGroup_all_but_last row0 rest :
  concat (loop (row0 :: rest) (key row0) [] [])
  = concat (averages <$> removelast (contiguousGroups key (row0 :: rest))).
Proof.
  rewrite forEachGroup_loop_spec; [done|..].
  - intros x Hx. by apply elem_of_nil in Hx.
  - intros _. eauto.
Qed.

(** C3: what [computeRollingAveragesForEachGroup] returns on a non-empty
    row list is the concatenation of the averages of every contiguous
    group except the last one; the last group is never pushed. *)
Theorem computeRollingAveragesForEachGroup_omits_last_group row0 rest :
  computeRollingAveragesForEachGroup computeRollingAverage
    insertMissingValuePlaceholders valueAccessor groupColName dateColName
    rollingAverage (row0 :: rest)
  = Some (concat (averages <$>
            removelast (contiguousGroups key (row0 :: rest)))).
Proof.
  unfold computeRollingAveragesForEachGroup. f_equal.
  apply forEachGroup_all_but_last.
Qed.

(** In particular a row list that forms a single group yields no
    average at all. *)
Lemma forEachGroup_single_group row0 rest :
  (∀ r, r ∈ rest → key r = key row0) →
  computeRollingAveragesForEachGroup computeRollingAverage
    insertMissingValuePlaceholders valueAccessor groupColName dateColName
    rollingAverage (row0 :: rest) = Some [].
Proof.
  intros Hall. unfold computeRollingAveragesForEachGroup. f_equal.
  fold loop. fold (key row0). rewrite forEachGroup_all_but_last.
  rewrite contiguousGroups_same; [done|done|].
  intros r Hr r' Hr'.
  assert (∀ x, x ∈ row0 :: rest → key x = key row0) as Hk.
  { intros x Hx. apply elem_of_cons in Hx as [->|Hx]; auto. }
  by rewrite (Hk r), (Hk r').
Qed.
End Smoothing_facts.

(** ** Filter columns and the unfiltered-row view *)

Definition filterColumns (t : Table) : list Column :=
  filter (λ c, ColumnSpec.isFilterColumn (spec c) = true) (columnsAsArray t).

(** The registry is a map from slug to column: keys are unique and each
    column sits under its own slug. *)
Record WellKeyed (t : Table) : Prop := {
  keys_NoDup : NoDup (Map_keys (columns t));
  keys_slug : ∀ k col, (k, col) ∈ columns t → column_slug col = k;
}.

(** Every filter value is present on every row. *)
Definition Materialized (t : Table) : Prop :=
  ∀ row s, row ∈ rows t → s ∈ filterColumnSlugs t → get row s ≠ VUndef.

(** What [unfilteredRows] returns once the filter values are on the rows. *)
Definition visibleRows (t : Table) : list Row :=
  filter (λ row, forallb (λ s, truthy (get row s)) (filterColumnSlugs t) = true)
         (rows t).

(** The function of a filter column does not look at field [s]. *)
Definition ignores (f : RowToValueMapper) (s : string) : Prop :=
  ∀ row v i, f (<[s := v]> row) i = f row i.

(** The verdict of the filter columns of [t] on a row, from their
    functions. *)
Definition passesFilters (t : Table) (row : Row) : bool :=
  forallb (λ c, match ColumnSpec.fn (spec c) with
                | Some f => truthy (f row None)
                | None => false
                end) (filterColumns t).

(** The filter columns carry their function, the functions look neither at
    the row index nor at the filter fields, and a filter field that is
    present on a row holds the value of the column's function. *)
Record FilterSound (t : Table) : Prop := {
  sound_keys : WellKeyed t;
  sound_fn : ∀ c, c ∈ filterColumns t →
    ∃ f, ColumnSpec.fn (spec c) = Some f ∧
         (∀ row i, f row i = f row None) ∧
         (∀ s, s ∈ filterColumnSlugs t → ignores f s) ∧
         (∀ row, row ∈ rows t →
            get row (column_slug c) = VUndef ∨
            get row (column_slug c) = f row None);
}.

(** A row after some filter fields were written on it. *)
Inductive cached_from (S : list string) (row : Row) : Row → Prop :=
  | cached_refl : cached_from S row row
  | cached_step row' s v :
      cached_from S row row' → s ∈ S → cached_from S row (<[s := v]> row').

Lemma get_insert_eq (row : Row) s v : get (<[s := v]> row) s = v.
Proof. unfold get. by rewrite lookup_insert_eq. Qed.

Lemma get_insert_ne (row : Row) s s' v :
  s ≠ s' → get (<[s := v]> row) s' = get row s'.
Proof. intros. unfold get. by rewrite lookup_insert_ne. Qed.

Lemma cached_from_get S row row' s :
  cached_from S row row' → s ∉ S → get row' s = get row s.
Proof.
  induction 1 as [|row' s' v _ IH Hs']; intros Hs; [done|].
  rewrite get_insert_ne; [auto|]. intros ->. done.
Qed.

Lemma cached_from_ignores S row row' f i :
  (∀ s, s ∈ S → ignores f s) → cached_from S row row' → f row' i = f row i.
Proof.
  intros Hf. induction 1 as [|row' s' v _ IH Hs']; [done|].
  rewrite (Hf s' Hs'). done.
Qed.

Lemma filterColumnSlugs_filterColumns t :
  filterColumnSlugs t = column_slug <$> filterColumns t.
Proof. done. Qed.

Lemma filterColumns_elem t c :
  c ∈ filterColumns t → ∃ k, (k, c) ∈ columns t.
Proof.
  unfold filterColumns, columnsAsArray, Map_values.
  intros Hc. apply list_elem_of_filter in Hc as [_ Hc].
  apply list_elem_of_fmap in Hc as ([k c'] & -> & Hin). eauto.
Qed.

Lemma filterFns_wellkeyed t :
  WellKeyed t →
  filterFns t
  = Some ((λ c, (column_slug c, ColumnSpec.fn (spec c))) <$> filterColumns t).
Proof.
  intros [Hnd Hk]. unfold filterFns. rewrite filterColumnSlugs_filterColumns.
  apply mapM_Some. apply Forall2_fmap_l, Forall2_fmap_r, Forall_Forall2_diag.
  apply Forall_forall. intros c Hc.
  destruct (filterColumns_elem _ _ Hc) as [k Hin]. unfold compose.
  rewrite (Hk _ _ Hin). by rewrite (Map_get_elem_NoDup _ _ _ Hnd Hin).
Qed.

Lemma filterColumnSlugs_NoDup t :
  WellKeyed t → NoDup (filterColumnSlugs t).
Proof.
  intros [Hnd Hk]. unfold filterColumnSlugs, columnsAsArray, Map_values.
  assert (∀ m : list (string * Column),
    (∀ k col, (k, col) ∈ m → column_slug col = k) → NoDup m.*1 →
    NoDup (column_slug <$>
           filter (λ c, ColumnSpec.isFilterColumn (spec c) = true) m.*2)) as H.
  { clear. induction m as [|[k c] m IH]; intros Hk Hnd; [constructor|].
    simpl in *. apply NoDup_cons in Hnd as [Hnotin Hnd].
    assert (∀ k0 col, (k0, col) ∈ m → column_slug col = k0) as Hk'.
    { intros ???. apply Hk. by right. }
    rewrite filter_cons. case_decide; [|by apply IH].
    rewrite fmap_cons. apply NoDup_cons. split; [|by apply IH].
    intros Hin. apply list_elem_of_fmap in Hin as (c' & Heq & Hc').
    apply list_elem_of_filter in Hc' as [_ Hc'].
    apply list_elem_of_fmap in Hc' as ([k' c''] & -> & Hin'). simpl in *.
    apply Hnotin. rewrite <-(Hk k c); [|left].
    rewrite Heq, (Hk' k' c''); [|done].
    apply list_elem_of_fmap. by exists (k', c''). }
  by apply H.
Qed.

(** One row through [slugs.every(...)] when no value has to be computed. *)
Lemma filterFn_materialized fs row :
  (∀ s, s ∈ fs.*1 → get row s ≠ VUndef) →
  filterFn fs row = Some (row, forallb (λ s, truthy (get row s)) fs.*1).
Proof.
  induction fs as [|[s f] fs IH]; intros Hm; [done|].
  cbn [filterFn]. rewrite decide_False; [|apply Hm; left].
  simpl. destruct (truthy (get row s)); [|done].
  apply IH. intros s' Hs'. apply Hm. by right.
Qed.

Lemma filter_fmap_fst {A} (P : A → bool) (l : list A) :
  (filter (λ rb, rb.2 = true) ((λ x, (x, P x)) <$> l)).*1
  = filter (λ x, P x = true) l.
Proof.
  induction l as [|x l IH]; [done|].
  rewrite fmap_cons, !filter_cons. simpl.
  destruct (P x) eqn:E.
  - rewrite !decide_True by done. simpl. by f_equal.
  - rewrite !decide_False by done. done.
Qed.

Lemma filter_all {A} (P : A → Prop) `{∀ x, Decision (P x)} (l : list A) :
  Forall P l → filter P l = l.
Proof.
  induction 1 as [|x l Hx _ IH]; [done|].
  rewrite filter_cons_True by done. by f_equal.
Qed.

(** On a materialized table [unfilteredRows] computes nothing and writes
    nothing: it returns the rows whose filter values are all truthy and
    leaves the table as it is. *)
Lemma unfilteredRows_materialized t :
  WellKeyed t → Materialized t → unfilteredRows t = Some (visibleRows t, t).
Proof.
  intros Hwk Hm. unfold unfilteredRows, visibleRows.
  case_decide as Hs.
  - rewrite Hs. simpl. f_equal. f_equal. symmetry.
    apply filter_all. apply Forall_forall. done.
  - unfold filterPass. rewrite (filterFns_wellkeyed t Hwk). simpl.
    set (fs := (λ c, (column_slug c, ColumnSpec.fn (spec c))) <$> filterColumns t).
    assert (fs.*1 = filterColumnSlugs t) as Hfs.
    { unfold fs. rewrite filterColumnSlugs_filterColumns, <-list_fmap_compose.
      done. }
    assert (mapM (filterFn fs) (rows t)
            = Some ((λ row, (row, forallb (λ s, truthy (get row s))
                                          (filterColumnSlugs t))) <$> rows t))
      as ->.
    { apply mapM_Some. apply Forall2_fmap_r, Forall_Forall2_diag.
      apply Forall_forall. intros row Hrow. rewrite <-Hfs.
      apply filterFn_materialized. intros s Hs'. apply Hm; [done|].
      by rewrite <-Hfs. }
    simpl. f_equal. f_equal.
    + apply (filter_fmap_fst (λ row, forallb (λ s, truthy (get row s))
                                             (filterColumnSlugs t))).
    + destruct t as [rs cs]. simpl. f_equal.
      rewrite <-list_fmap_compose. apply list_fmap_id.
Qed.

(** The verdict of a list of filter functions on a row. *)
Definition verdict (fs : list (string * option RowToValueMapper)) (row : Row)
    : bool :=
  forallb (λ sf, match sf.2 with
                 | Some g => truthy (g row None)
                 | None => false
                 end) fs.

Lemma passesFilters_verdict t row :
  passesFilters t row
  = verdict ((λ c, (column_slug c, ColumnSpec.fn (spec c))) <$> filterColumns t) row.
Proof.
  unfold passesFilters, verdict.
  induction (filterColumns t) as [|c l IH]; [done|].
  simpl. by rewrite IH.
Qed.

(** One row through [slugs.every(...)]: the values missing on the row are
    computed and stored, and the verdict is that of the filter functions
    on the row as it was. *)
Lemma filterFn_sound S fs row0 row :
  cached_from S row0 row → NoDup fs.*1 →
  (∀ s f, (s, f) ∈ fs →
     s ∈ S ∧ ∃ g, f = Some g ∧ (∀ s', s' ∈ S → ignores g s') ∧
       (get row s = VUndef ∨ get row s = g row None)) →
  ∃ row', filterFn fs row = Some (row', verdict fs row0) ∧
          cached_from S row0 row'.
Proof.
  revert row. induction fs as [|[s f] fs IH]; intros row Hc Hnd Hfs.
  - exists row. done.
  - destruct (Hfs s f) as (HsS & g & -> & Hg & Hcoh); [left|].
    apply NoDup_cons in Hnd as [Hs Hnd].
    set (row1 := if decide (get row s = VUndef)
                 then <[s := g row None]> row else row).
    assert (get row1 s = g row None) as Hrow1.
    { unfold row1. case_decide as Hu; [apply get_insert_eq|].
      by destruct Hcoh. }
    assert (cached_from S row0 row1) as Hc1.
    { unfold row1. case_decide; [by constructor|done]. }
    assert (∀ g' i, (∀ s', s' ∈ S → ignores g' s') → g' row1 i = g' row i)
      as Hsame.
    { intros g' i Hg'. unfold row1. case_decide; [|done]. by apply Hg'. }
    assert (filterFn ((s, Some g) :: fs) row
            = if truthy (get row1 s) then filterFn fs row1 else Some (row1, false))
      as ->.
    { cbn [filterFn]. unfold row1. by case_decide. }
    rewrite Hrow1. unfold verdict. cbn [forallb snd].
    rewrite <-(cached_from_ignores S row0 row g None Hg Hc).
    destruct (truthy (g row None)); [|by exists row1].
    apply IH; [done..|].
    intros s' f' Hin. destruct (Hfs s' f') as (? & g' & -> & Hg' & Hcoh');
      [by right|].
    split; [done|]. exists g'. split_and!; [done..|].
    assert (s ≠ s') as Hne.
    { intros ->. apply Hs. apply list_elem_of_fmap. by exists (s', Some g'). }
    rewrite (Hsame g' None Hg').
    unfold row1. case_decide; [|done]. by rewrite get_insert_ne.
Qed.

Lemma filterPass_sound t :
  FilterSound t →
  ∃ pass, filterPass t = Some pass ∧
    Forall2 (λ row rb, rb.2 = passesFilters t row ∧
                       cached_from (filterColumnSlugs t) row rb.1)
            (rows t) pass.
Proof.
  intros [Hwk Hfn]. unfold filterPass. rewrite (filterFns_wellkeyed t Hwk).
  simpl.
  set (fs := (λ c, (column_slug c, ColumnSpec.fn (spec c))) <$> filterColumns t).
  assert (fs.*1 = filterColumnSlugs t) as Hfs.
  { unfold fs. rewrite filterColumnSlugs_filterColumns, <-list_fmap_compose.
    done. }
  assert (∀ row, row ∈ rows t →
    ∃ row', filterFn fs row = Some (row', passesFilters t row) ∧
            cached_from (filterColumnSlugs t) row row') as Hrow.
  { intros row Hin. rewrite passesFilters_verdict. fold fs.
    apply filterFn_sound; [constructor| |].
    - rewrite Hfs. by apply filterColumnSlugs_NoDup.
    - intros s f Hsf. apply list_elem_of_fmap in Hsf as (c & [= -> ->] & Hc).
      split.
      + rewrite filterColumnSlugs_filterColumns. apply list_elem_of_fmap. eauto.
      + destruct (Hfn c Hc) as (g & Hg & _ & Hign & Hcoh). eauto. }
  revert Hrow. generalize (rows t) as rs. induction rs as [|row rs IH]; intros Hrow.
  - exists []. split; [done|constructor].
  - destruct (Hrow row) as (row' & Hf & Hc); [left|].
    destruct IH as (pass & Hpass & Hall); [intros ??; apply Hrow; by right|].
    exists ((row', passesFilters t row) :: pass). split.
    + rewrite mapM_Some. rewrite mapM_Some in Hpass. by constructor.
    + by constructor.
Qed.

Lemma cached_from_passesFilters t row row' :
  FilterSound t → cached_from (filterColumnSlugs t) row row' →
  passesFilters t row' = passesFilters t row.
Proof.
  intros [_ Hfn] Hc. unfold passesFilters.
  assert (∀ c, c ∈ filterColumns t →
    match ColumnSpec.fn (spec c) with
    | Some f => truthy (f row' None) | None => false end
    = match ColumnSpec.fn (spec c) with
      | Some f => truthy (f row None) | None => false end) as Hcol.
  { intros c Hin. destruct (Hfn c Hin) as (g & -> & _ & Hign & _).
    by rewrite (cached_from_ignores _ _ _ _ _ Hign Hc). }
  revert Hcol. generalize (filterColumns t) as l.
  induction l as [|c l IH]; intros Hcol; [done|].
  simpl. rewrite Hcol by left. rewrite IH; [done|].
  intros ??. apply Hcol. by right.
Qed.

Lemma filter_verdict_fst (P : Row → bool) (pass : list (Row * bool)) :
  Forall (λ rb, rb.2 = P rb.1) pass →
  (filter (λ rb, rb.2 = true) pass).*1 = filter (λ row, P row = true) pass.*1.
Proof.
  induction 1 as [|[row b] pass Hb _ IH]; [done|]. simpl in Hb. subst b.
  rewrite fmap_cons, !filter_cons. simpl. destruct (P row) eqn:E.
  - rewrite !decide_True by done. simpl. by f_equal.
  - rewrite !decide_False by done. done.
Qed.

(** The rows that [unfilteredRows] returns, from any sound table. *)
Lemma unfilteredRows_sound t :
  FilterSound t →
  ∃ view t', unfilteredRows t = Some (view, t') ∧
    columns t' = columns t ∧
    view = filter (λ row, passesFilters t row = true) (rows t') ∧
    Forall2 (λ row row', cached_from (filterColumnSlugs t) row row' ∧
                         passesFilters t row' = passesFilters t row)
            (rows t) (rows t').
Proof.
  intros Hs. unfold unfilteredRows. case_decide as Hnil.
  - exists (rows t), t. split_and!; [done..| |].
    + symmetry. apply filter_all. apply Forall_forall. intros row _.
      unfold passesFilters.
      rewrite filterColumnSlugs_filterColumns in Hnil.
      apply fmap_nil_inv in Hnil. by rewrite Hnil.
    + apply Forall_Forall2_diag, Forall_forall. intros row _.
      split; [constructor|done].
  - destruct (filterPass_sound t Hs) as (pass & -> & Hall). simpl.
    eexists _, _. split; [done|]. simpl. split_and!; [done| |].
    + apply filter_verdict_fst.
      induction Hall as [|row [row' b] rs pass' [Hb Hc] _ IH];
        constructor; [|done].
      simpl in *. subst b. symmetry. by apply cached_from_passesFilters.
    + apply Forall2_fmap_r. eapply Forall2_impl; [exact Hall|].
      intros row [row' b] [_ Hc]. simpl.
      split; [done|]. by apply cached_from_passesFilters.
Qed.




Lemma Map_set_fresh {K V} `{EqDecision K} (k : K) (v : V) m :
  k ∉ Map_keys m → Map_set k v m = m ++ [(k, v)].
Proof.
  unfold Map_keys. induction m as [|[k' v'] m IH]; intros Hk; [done|].
  simpl in *. apply not_elem_of_cons in Hk as [Hne Hk].
  rewrite decide_False by done. by rewrite IH.
Qed.

Lemma addFilterColumn_rows s p t :
  rows (addFilterColumn s p t) = (λ row, <[s := VBool (p row)]> row) <$> rows t.
Proof.
  unfold addFilterColumn, _addComputedColumn. simpl.
  rewrite <-imap_const. done.
Qed.

Definition filterColumnOf (s : string) (p : Row → bool) : Column :=
  {| columnType := BooleanColumn;
     spec := ColumnSpec.with_fn (predicate_fn p)
               (ColumnSpec.as_filter (ColumnSpec.of_slug s)) |}.

Lemma addFilterColumn_columns s p t :
  s ∉ Map_keys (columns t) →
  columns (addFilterColumn s p t) = columns t ++ [(s, filterColumnOf s p)].
Proof. intros Hs. unfold addFilterColumn, _addComputedColumn. simpl.
  by rewrite Map_set_fresh. Qed.

Lemma addFilterColumn_filterColumns s p t :
  s ∉ Map_keys (columns t) →
  filterColumns (addFilterColumn s p t) = filterColumns t ++ [filterColumnOf s p].
Proof.
  intros Hs. unfold filterColumns, columnsAsArray, Map_values.
  rewrite addFilterColumn_columns by done.
  rewrite fmap_app, filter_app. done.
Qed.


(** A predicate that does not look at field [s]. *)
Definition predicate_ignores (p : Row → bool) (s : string) : Prop :=
  ∀ row v, p (<[s := v]> row) = p row.

(** Registering a filter column under a fresh slug keeps the table sound,
    when the functions already registered ignore the new field and the new
    predicate ignores the filter fields. *)
Lemma addFilterColumn_sound s p t :
  FilterSound t → s ∉ Map_keys (columns t) →
  (∀ c f, c ∈ filterColumns t → ColumnSpec.fn (spec c) = Some f → ignores f s) →
  predicate_ignores p s →
  (∀ s', s' ∈ filterColumnSlugs t → predicate_ignores p s') →
  FilterSound (addFilterColumn s p t).
Proof.
  intros [[Hnd Hk] Hfn] Hs Hold Hps Hpold. split; [split|].
  - unfold addFilterColumn, _addComputedColumn. simpl. by apply Map_set_NoDup.
  - intros k col. rewrite addFilterColumn_columns by done.
    rewrite elem_of_app, list_elem_of_singleton.
    intros [Hin|[= -> ->]]; [by apply Hk|done].
  - assert (filterColumnSlugs (addFilterColumn s p t)
            = filterColumnSlugs t ++ [s]) as Hslugs.
    { rewrite !filterColumnSlugs_filterColumns,
        addFilterColumn_filterColumns by done. by rewrite fmap_app. }
    intros c. rewrite addFilterColumn_filterColumns by done.
    rewrite elem_of_app, list_elem_of_singleton. intros [Hc| ->].
    + destruct (Hfn c Hc) as (f & Hf & Hidx & Hign & Hcoh).
      exists f. split_and!; [done..| |].
      * intros s'. rewrite Hslugs, elem_of_app, list_elem_of_singleton.
        intros [?| ->]; [by apply Hign|by eapply Hold].
      * intros row. rewrite addFilterColumn_rows.
        intros Hrow. apply list_elem_of_fmap in Hrow as (r & -> & Hr).
        assert (s ≠ column_slug c) as Hne.
        { intros ->. apply Hs. destruct (filterColumns_elem _ _ Hc) as [k Hin].
          rewrite (Hk _ _ Hin). apply list_elem_of_fmap. by exists (k, c). }
        rewrite get_insert_ne by done. rewrite (Hold c f Hc Hf).
        by apply Hcoh.
    + exists (predicate_fn p). split_and!; [done|done| |].
      * intros s'. rewrite Hslugs, elem_of_app, list_elem_of_singleton.
        intros [Hs'| ->] row v i; unfold predicate_fn; f_equal;
          [by apply Hpold|by apply Hps].
      * intros row. rewrite addFilterColumn_rows.
        intros Hrow. apply list_elem_of_fmap in Hrow as (r & -> & Hr).
        right. unfold column_slug, filterColumnOf. simpl.
        rewrite get_insert_eq. unfold predicate_fn. by rewrite Hps.
Qed.






(** A table whose only filter is the population filter at threshold 1000. *)
Definition pop_filtered_table : Table :=
  addFilterColumn "pop_filter"
    (populationPredicate small_and_big_population 1000) (table small_and_big).

Lemma populationPredicate_ignores pm minPop s :
  s ≠ "entityName" → predicate_ignores (populationPredicate pm minPop) s.
Proof.
  intros Hs row v. unfold populationPredicate. by rewrite get_insert_ne.
Qed.

Lemma pop_filtered_table_sound : FilterSound pop_filtered_table.
Proof.
  apply addFilterColumn_sound.
  - split; [split|].
    + vm_compute. apply NoDup_singleton.
    + intros k col Hin. vm_compute in Hin.
      apply list_elem_of_singleton in Hin. by simplify_eq.
    + intros c Hc. vm_compute in Hc. by apply elem_of_nil in Hc.
  - vm_compute. intros Hin. apply list_elem_of_singleton in Hin. done.
  - intros c f Hc. vm_compute in Hc. by apply elem_of_nil in Hc.
  - by apply populationPredicate_ignores.
  - intros s' Hs'. vm_compute in Hs'. by apply elem_of_nil in Hs'.
Qed.




(** ** Legacy ingestion *)

Lemma newTable_rows rs specs : rows (newTable rs specs) = rs.
Proof. done. Qed.

Lemma newTable_keys rs specs k :
  k ∈ Map_keys (columns (newTable rs specs)) → k ∈ Map_keys specs.
Proof.
  unfold newTable. simpl.
  assert (∀ (l : list string) cols,
    k ∈ Map_keys (foldl (λ cols slug,
            match Map_get slug specs with
            | Some s => Map_set slug {| columnType := AnyColumn; spec := s |} cols
            | None => cols
            end) cols l) →
    k ∈ Map_keys cols ∨ k ∈ l) as H.
  { induction l as [|s l IH]; intros cols Hk; simpl in *; [by left|].
    apply IH in Hk as [Hk|Hk]; [|right; by right].
    destruct (Map_get s specs); [|by left].
    rewrite Map_keys_set in Hk. case_decide; [by left|].
    apply elem_of_app in Hk as [Hk|Hk]; [by left|].
    apply list_elem_of_singleton in Hk. subst. right. left. }
  intros Hk. apply H in Hk as [Hk|Hk]; [|done].
  by apply elem_of_nil in Hk.
Qed.

Section LegacyIngestion_facts.
Variable slugify : string → string.
Variable diffDateISOStringInDays : string → string → Z.
Variable EPOCH_DATE : string.

Let columnSlugOf (variable : OwidVariable) : string :=
  ColumnSpec.slug (columnSpecFromLegacyVariable slugify variable None).

(** The slugs that ingesting one variable registers. *)
Definition registeredFor (variable : OwidVariable) (k : string) : Prop :=
  k = timeColumnName variable ∨
  k = ColumnSpec.slug (columnSpecFromLegacyVariable slugify variable None) ∨
  (k = makeAnnotationColumnSlug
         (ColumnSpec.slug (columnSpecFromLegacyVariable slugify variable None)) ∧
   ∃ a, entityAnnotationsMap (display variable) = Some a ∧ a ≠ "").

Lemma legacyAnnotations_Some columnSlug variable aslug amap :
  legacyAnnotations columnSlug variable = Some (aslug, amap) →
  aslug = makeAnnotationColumnSlug columnSlug ∧
  ∃ a, entityAnnotationsMap (display variable) = Some a ∧ a ≠ "".
Proof.
  unfold legacyAnnotations.
  destruct (entityAnnotationsMap (display variable)) as [a|]; [|done].
  simpl. destruct (String.eqb a "") eqn:E; simpl; [done|].
  intros [= <- <-]. split; [done|]. exists a. split; [done|].
  intros ->. done.
Qed.

(** The specs after ingesting one variable. *)
Definition specsAfter (variable : OwidVariable)
    (specs : list (string * ColumnSpec.t)) : list (string * ColumnSpec.t) :=
  let columnSlug :=
    ColumnSpec.slug (columnSpecFromLegacyVariable slugify variable None) in
  let annotations := legacyAnnotations columnSlug variable in
  let specs1 :=
    Map_set columnSlug
      (columnSpecFromLegacyVariable slugify variable (fst <$> annotations))
      (Map_set (timeColumnName variable)
               (ColumnSpec.of_slug (timeColumnName variable)) specs) in
  match annotations with
  | Some (annotationsColumnSlug, _) =>
      Map_set annotationsColumnSlug (ColumnSpec.of_slug annotationsColumnSlug)
              specs1
  | None => specs1
  end.

Lemma ingestVariable_Some entityMetaById rs specs variable rs' specs' :
  ingestVariable slugify diffDateISOStringInDays EPOCH_DATE entityMetaById
                 (rs, specs) variable = Some (rs', specs') →
  ∃ entityNames entityCodes,
    mapM (λ i, entity_name <$> entityMetaById !! pretty i) (entities variable)
      = Some entityNames ∧
    mapM (λ i, entity_code <$> entityMetaById !! pretty i) (entities variable)
      = Some entityCodes ∧
    rs' = rs ++ imap (legacyRow diffDateISOStringInDays EPOCH_DATE variable
                        (ColumnSpec.slug
                           (columnSpecFromLegacyVariable slugify variable None))
                        entityNames entityCodes
                        (legacyAnnotations
                           (ColumnSpec.slug
                              (columnSpecFromLegacyVariable slugify variable None))
                           variable))
                     (values variable) ∧
    specs' = specsAfter variable specs.
Proof.
  unfold ingestVariable. intros Hi.
  destruct (mapM (λ i, entity_name <$> entityMetaById !! pretty i)
                 (entities variable)) as [entityNames|]; [|done].
  destruct (mapM (λ i, entity_code <$> entityMetaById !! pretty i)
                 (entities variable)) as [entityCodes|]; [|done].
  simpl in Hi. injection Hi as <- <-. exists entityNames, entityCodes.
  split_and!; [done..|]. unfold specsAfter.
  by destruct (legacyAnnotations _ variable) as [[??]|].
Qed.

Lemma ingestVariable_keys entityMetaById rs specs variable rs' specs' k :
  ingestVariable slugify diffDateISOStringInDays EPOCH_DATE entityMetaById
                 (rs, specs) variable = Some (rs', specs') →
  k ∈ Map_keys specs' → k ∈ Map_keys specs ∨ registeredFor variable k.
Proof.
  intros Hi. apply ingestVariable_Some in Hi as (_ & _ & _ & _ & _ & ->).
  unfold specsAfter.
  set (cs := ColumnSpec.slug (columnSpecFromLegacyVariable slugify variable None)).
  destruct (legacyAnnotations cs variable) as [[aslug amap]|] eqn:Ha.
  - apply legacyAnnotations_Some in Ha as [-> Ha].
    rewrite !Map_keys_set. unfold registeredFor. fold cs.
    repeat case_decide; rewrite ?elem_of_app, ?list_elem_of_singleton;
      naive_solver.
  - rewrite !Map_keys_set. unfold registeredFor. fold cs.
    repeat case_decide; rewrite ?elem_of_app, ?list_elem_of_singleton;
      naive_solver.
Qed.

Definition ingestAll (json : OwidVariablesAndEntityKey)
    (vars : list (string * OwidVariable))
    : option (list Row * list (string * ColumnSpec.t)) :=
  foldl (λ acc kv, acc ≫= λ a,
           ingestVariable slugify diffDateISOStringInDays EPOCH_DATE
                          (entityKey json) a kv.2)
        (Some ([], identityColumnSpecs)) vars.

Lemma ingestAll_snoc json vars kv :
  ingestAll json (vars ++ [kv])
  = ingestAll json vars ≫= λ a,
      ingestVariable slugify diffDateISOStringInDays EPOCH_DATE
                     (entityKey json) a kv.2.
Proof. unfold ingestAll. by rewrite foldl_snoc. Qed.

Lemma ingestAll_keys json vars rs specs k :
  ingestAll json vars = Some (rs, specs) →
  k ∈ Map_keys specs →
  k ∈ ["entityName"; "entityId"; "entityCode"] ∨
  ∃ key variable, (key, variable) ∈ vars ∧ registeredFor variable k.
Proof.
  revert rs specs. induction vars as [|kv vars IH] using rev_ind;
    intros rs specs Hi Hk.
  - injection Hi as <- <-. left. exact Hk.
  - rewrite ingestAll_snoc in Hi.
    destruct (ingestAll json vars) as [[rs0 specs0]|] eqn:E; [|done].
    simpl in Hi. eapply ingestVariable_keys in Hi as [Hk'|Hk']; [| |exact Hk].
    + destruct (IH _ _ eq_refl Hk') as [?|(key & v & Hin & ?)]; [by left|].
      right. exists key, v. split; [|done]. apply elem_of_app. by left.
    + right. exists kv.1, kv.2. split; [|done].
      apply elem_of_app. right. apply list_elem_of_singleton. by destruct kv.
Qed.

(** C9: an empty [variables] mapping yields a table without rows whose
    registry holds exactly the columns entityName, entityId and
    entityCode; and in every ingested table each registered column is one
    of these three, or the time column or value column of some variable,
    or the annotations column of a variable whose [entityAnnotationsMap]
    is present and not empty - a variable without it gets no annotations
    column. *)
Theorem fromLegacy_registry :
  (∀ entityMetaById,
     fromLegacy slugify diffDateISOStringInDays EPOCH_DATE
       {| variables := []; entityKey := entityMetaById |}
     = Some {| rows := [];
               columns :=
                 (λ s, (s, {| columnType := AnyColumn;
                              spec := ColumnSpec.of_slug s |}))
                   <$> ["entityName"; "entityId"; "entityCode"] |}) ∧
  (∀ json t k,
     fromLegacy slugify diffDateISOStringInDays EPOCH_DATE json = Some t →
     k ∈ Map_keys (columns t) →
     k ∈ ["entityName"; "entityId"; "entityCode"] ∨
     ∃ key variable, (key, variable) ∈ variables json ∧
                     registeredFor variable k).
Proof.
  split.
  - intros entityMetaById. reflexivity.
  - intros json t k Hf Hk. unfold fromLegacy in Hf.
    fold (ingestAll json (variables json)) in Hf.
    destruct (ingestAll json (variables json)) as [[rs specs]|] eqn:E; [|done].
    simpl in Hf. injection Hf as <-.
    apply newTable_keys in Hk. by eapply ingestAll_keys.
Qed.
End LegacyIngestion_facts.

Lemma fromLegacy_registry_witness :
  "5-cases-annotations" ∈ ["entityName"; "entityId"; "entityCode"] ∨
  ∃ key variable,
    (key, variable) ∈ [("5", annotated_variable)] ∧
    registeredFor (λ s, s) variable "5-cases-annotations".
Proof.
  apply (proj2 (fromLegacy_registry (λ s, s) (λ _ _, 0) "2020-01-21")
           {| variables := [("5", annotated_variable)];
              entityKey := two_entities |}
           (table annotated_chart)).
  - vm_compute. reflexivity.
  - vm_compute. do 5 right. left.
Defined.

(** *** Grouping and merging rows *)

Lemma Object_assign_snoc rs r : Object_assign (rs ++ [r]) = r ∪ Object_assign rs.
Proof. unfold Object_assign. by rewrite foldl_snoc. Qed.

Lemma Object_assign_lookup rs k v :
  Object_assign rs !! k = Some v → ∃ r, r ∈ rs ∧ r !! k = Some v.
Proof.
  induction rs as [|r rs IH] using rev_ind; [done|].
  rewrite Object_assign_snoc, lookup_union_Some_raw.
  intros [Hr|[_ Hrs]].
  - exists r. split; [|done]. apply elem_of_app. right. by left.
  - destruct (IH Hrs) as (r' & ? & ?). exists r'. split; [|done].
    apply elem_of_app. by left.
Qed.

Lemma groupBy_snoc {A} (key : A → string) l x :
  groupBy key (l ++ [x])
  = Map_set (key x) (default [] (Map_get (key x) (groupBy key l)) ++ [x])
            (groupBy key l).
Proof. unfold groupBy. by rewrite foldl_snoc. Qed.

(** The group filed under a key holds, in order, the elements with that
    key. *)
Lemma groupBy_get {A} (key : A → string) l k :
  Map_get k (groupBy key l)
  = match filter (λ x, key x = k) l with
    | [] => None
    | g => Some g
    end.
Proof.
  induction l as [|x l IH] using rev_ind; [done|].
  rewrite groupBy_snoc, filter_app, Map_get_set, filter_cons, filter_nil.
  case_decide as Hk.
  - subst k. rewrite IH. by destruct (filter _ l).
  - by rewrite app_nil_r.
Qed.

Lemma groupBy_NoDup {A} (key : A → string) l : NoDup (Map_keys (groupBy key l)).
Proof.
  induction l as [|x l IH] using rev_ind; [constructor|].
  rewrite groupBy_snoc. by apply Map_set_NoDup.
Qed.

Lemma groupBy_values {A} (key : A → string) l g :
  g ∈ Map_values (groupBy key l) →
  ∃ k, g = filter (λ x, key x = k) l ∧ g ≠ [].
Proof.
  unfold Map_values. intros Hg.
  apply list_elem_of_fmap in Hg as ([k g'] & -> & Hin). simpl.
  apply (Map_get_elem_NoDup _ _ _ (groupBy_NoDup key l)) in Hin.
  rewrite groupBy_get in Hin. exists k.
  destruct (filter _ l) eqn:E; [done|]. by simplify_eq.
Qed.

(** *** Epoch normalization *)

Lemma Object_assign_is_Some rs r k :
  r ∈ rs → is_Some (r !! k) → is_Some (Object_assign rs !! k).
Proof.
  induction rs as [|r' rs IH] using rev_ind; intros Hin Hk;
    [by apply elem_of_nil in Hin|].
  rewrite Object_assign_snoc. apply lookup_union_is_Some.
  apply elem_of_app in Hin as [Hin|Hin]; [right; by apply IH|].
  apply list_elem_of_singleton in Hin. subst. by left.
Qed.

Lemma groupBy_group {A} (key : A → string) l x :
  x ∈ l → filter (λ y, key y = key x) l ∈ Map_values (groupBy key l).
Proof.
  intros Hx. unfold Map_values. apply list_elem_of_fmap.
  exists (key x, filter (λ y, key y = key x) l). split; [done|].
  apply Map_get_Some_elem. rewrite groupBy_get.
  destruct (filter _ l) eqn:E; [|done].
  assert (x ∈ filter (λ y, key y = key x) l) as Hin
    by (by apply list_elem_of_filter).
  rewrite E in Hin. by apply elem_of_nil in Hin.
Qed.

Section EpochNormalization.
Variable slugify : string → string.
Variable diffDateISOStringInDays : string → string → Z.
Variable EPOCH_DATE : string.

(** [diffDateISOStringInDays] is the whole-day difference between two
    dates, for some numbering of the days. *)
Variable dayNumber : string → Z.
Hypothesis diff_in_days :
  ∀ a b, diffDateISOStringInDays a b = dayNumber a - dayNumber b.

(** The whole-day difference between the declared [zeroDay] of a variable
    and the epoch of the table. *)
Definition epochShift (variable : OwidVariable) : Z :=
  match zeroDay (display variable) with
  | Some z => diffDateISOStringInDays z EPOCH_DATE
  | None => 0
  end.

Lemma legacyYears_shift variable :
  yearIsDay (display variable) = true →
  legacyYears diffDateISOStringInDays EPOCH_DATE variable
  = (λ raw, raw + epochShift variable) <$> years variable.
Proof using diff_in_days.
  intros Hd. unfold legacyYears, yearsNeedTransform, epochShift. rewrite Hd.
  simpl. destruct (zeroDay (display variable)) as [z|].
  - case_bool_decide as Hz; [done|]. subst z.
    rewrite diff_in_days, Z.sub_diag. symmetry.
    etrans; [|apply list_fmap_id]. apply list_fmap_ext. intros. simpl. lia.
  - symmetry. etrans; [|apply list_fmap_id]. apply list_fmap_ext.
    intros. simpl. lia.
Qed.

(** The slug of the value column of a variable, and the row built for
    one of its observations. *)
Definition valueSlug (variable : OwidVariable) : string :=
  ColumnSpec.slug (columnSpecFromLegacyVariable slugify variable None).

Definition ingestedRow (variable : OwidVariable)
    (entityNames entityCodes : list string) (index : nat) (value : Value) : Row :=
  legacyRow diffDateISOStringInDays EPOCH_DATE variable (valueSlug variable)
            entityNames entityCodes
            (legacyAnnotations (valueSlug variable) variable) index value.

(** Under a dash-free name the row holds what its time and entity fields
    hold: the value slug and the annotations slug contain a dash. *)
Lemma ingestedRow_lookup variable entityNames entityCodes index value k :
  String_Forall (λ c, c ≠ "-"%char) k →
  ingestedRow variable entityNames entityCodes index value !! k
  = (<["entityCode" := at_index VStr entityCodes index]>
       (<["entityId" := at_index VNum (entities variable) index]>
          (<["entityName" := at_index VStr entityNames index]>
             (<[timeColumnName variable :=
                  at_index VNum
                    (legacyYears diffDateISOStringInDays EPOCH_DATE variable)
                    index]> (∅ : Row))))) !! k.
Proof.
  intros Hk. unfold ingestedRow, legacyRow.
  assert (valueSlug variable ≠ k) as Hslug.
  { unfold valueSlug. simpl. by apply append_dash_ne. }
  assert (∀ r : Row,
    match legacyAnnotations (valueSlug variable) variable with
    | Some (annotationsColumnSlug, annotationMap) =>
        <[annotationsColumnSlug :=
            match at_index VStr entityNames index with
            | VStr n => default VUndef (VStr <$> Map_get n annotationMap)
            | _ => VUndef
            end]> r
    | None => r
    end !! k = r !! k) as ->.
  { intros r.
    destruct (legacyAnnotations _ variable) as [[aslug amap]|] eqn:Ha; [|done].
    apply legacyAnnotations_Some in Ha as [-> _].
    rewrite lookup_insert_ne; [done|]. unfold makeAnnotationColumnSlug.
    change "-annotations" with ("-" +:+ "annotations").
    by apply append_dash_ne. }
  destruct (decide ("entityCode" = k)) as [<-|?];
    [by rewrite !lookup_insert_eq|rewrite !(lookup_insert_ne _ "entityCode") by done].
  destruct (decide ("entityId" = k)) as [<-|?];
    [by rewrite !lookup_insert_eq|rewrite !(lookup_insert_ne _ "entityId") by done].
  destruct (decide ("entityName" = k)) as [<-|?];
    [by rewrite !lookup_insert_eq|rewrite !(lookup_insert_ne _ "entityName") by done].
  by rewrite (lookup_insert_ne _ (valueSlug variable)).
Qed.

Lemma ingestedRow_day variable entityNames entityCodes index value v :
  ingestedRow variable entityNames entityCodes index value !! "day" = Some v →
  yearIsDay (display variable) = true ∧
  v = at_index VNum (legacyYears diffDateISOStringInDays EPOCH_DATE variable)
               index.
Proof.
  rewrite ingestedRow_lookup by (simpl; done).
  rewrite !lookup_insert_ne by done.
  unfold timeColumnName. destruct (yearIsDay (display variable)).
  - rewrite lookup_insert_eq. by intros [= <-].
  - rewrite lookup_insert_ne by done. done.
Qed.

Lemma ingestedRow_daily variable entityNames entityCodes index value :
  yearIsDay (display variable) = true →
  ingestedRow variable entityNames entityCodes index value !! "day"
    = Some (at_index VNum
              (legacyYears diffDateISOStringInDays EPOCH_DATE variable) index) ∧
  get (ingestedRow variable entityNames entityCodes index value) "year" = VUndef.
Proof.
  intros Hd. unfold get. rewrite !ingestedRow_lookup by (simpl; done).
  rewrite !lookup_insert_ne by done.
  unfold timeColumnName. rewrite Hd.
  rewrite lookup_insert_eq, lookup_insert_ne by done. done.
Qed.

Lemma ingestedRow_entityName variable entityNames entityCodes index value :
  get (ingestedRow variable entityNames entityCodes index value) "entityName"
  = at_index VStr entityNames index.
Proof.
  unfold get. rewrite ingestedRow_lookup by (simpl; done).
  rewrite !lookup_insert_ne by done. by rewrite lookup_insert_eq.
Qed.

Lemma ingestedRow_value variable entityNames entityCodes index value :
  is_Some (ingestedRow variable entityNames entityCodes index value
             !! valueSlug variable).
Proof.
  unfold ingestedRow, legacyRow.
  assert (∀ (r : Row) k (x : Value) j, is_Some (r !! j) → is_Some (<[k := x]> r !! j))
    as Hmono.
  { intros r k x j Hj. apply lookup_insert_is_Some.
    destruct (decide (k = j)); [by left|by right]. }
  destruct (legacyAnnotations _ variable) as [[aslug amap]|];
    [apply Hmono|]; do 3 apply Hmono; by rewrite lookup_insert_eq.
Qed.

(** Every accumulated row is the row built for one observation of one
    variable. *)
Lemma ingestAll_rows json vars rs specs r :
  ingestAll slugify diffDateISOStringInDays EPOCH_DATE json vars
    = Some (rs, specs) →
  r ∈ rs →
  ∃ key variable entityNames entityCodes index value,
    (key, variable) ∈ vars ∧
    values variable !! index = Some value ∧
    r = ingestedRow variable entityNames entityCodes index value.
Proof.
  revert rs specs. induction vars as [|kv vars IH] using rev_ind;
    intros rs specs Hi Hr.
  - injection Hi as <- <-. by apply elem_of_nil in Hr.
  - rewrite ingestAll_snoc in Hi.
    destruct (ingestAll _ _ _ json vars) as [[rs0 specs0]|] eqn:E; [|done].
    simpl in Hi.
    apply ingestVariable_Some in Hi as (names & codes & _ & _ & -> & _).
    apply elem_of_app in Hr as [Hr|Hr].
    + destruct (IH _ _ eq_refl Hr) as (key & v & n & c & i & val & Hin & ?).
      exists key, v, n, c, i, val. split; [|done]. apply elem_of_app. by left.
    + apply list_elem_of_lookup in Hr as [i Hr].
      rewrite list_lookup_imap in Hr.
      destruct (values kv.2 !! i) as [val|] eqn:Hval; [|done].
      simpl in Hr. injection Hr as <-.
      exists kv.1, kv.2, names, codes, i, val. split_and!; [|done..].
      apply elem_of_app. right. apply list_elem_of_singleton. by destruct kv.
Qed.

(** Conversely every observation of every variable has its row, built
    with the names of the variable's entities. *)
Lemma ingestAll_has_row json vars rs specs key variable index value :
  ingestAll slugify diffDateISOStringInDays EPOCH_DATE json vars
    = Some (rs, specs) →
  (key, variable) ∈ vars → values variable !! index = Some value →
  ∃ entityNames entityCodes,
    mapM (λ i, entity_name <$> entityKey json !! pretty i) (entities variable)
      = Some entityNames ∧
    ingestedRow variable entityNames entityCodes index value ∈ rs.
Proof.
  revert rs specs. induction vars as [|kv vars IH] using rev_ind;
    intros rs specs Hi Hin Hval; [by apply elem_of_nil in Hin|].
  rewrite ingestAll_snoc in Hi.
  destruct (ingestAll _ _ _ json vars) as [[rs0 specs0]|] eqn:E; [|done].
  simpl in Hi.
  apply ingestVariable_Some in Hi as (names & codes & Hnames & _ & -> & _).
  apply elem_of_app in Hin as [Hin|Hin].
  - destruct (IH _ _ eq_refl Hin Hval) as (n & c & ? & ?).
    exists n, c. split; [done|]. apply elem_of_app. by left.
  - apply list_elem_of_singleton in Hin. subst kv. simpl in *.
    exists names, codes. split; [done|]. apply elem_of_app. right.
    apply list_elem_of_lookup. exists index.
    by rewrite list_lookup_imap, Hval.
Qed.

(** The group key of the row of a daily observation. *)
Lemma groupKey_daily variable entityNames entityCodes index value :
  yearIsDay (display variable) = true →
  groupKey (ingestedRow variable entityNames entityCodes index value)
  = "day:" +:+
    toStr (at_index VNum
             (legacyYears diffDateISOStringInDays EPOCH_DATE variable) index)
    +:+ " " +:+ toStr (at_index VStr entityNames index).
Proof.
  intros Hd. unfold groupKey.
  destruct (ingestedRow_daily variable entityNames entityCodes index value Hd)
    as [Hday Hyear].
  rewrite Hyear, decide_False by (by intros ?).
  rewrite ingestedRow_entityName. unfold get at 1. rewrite Hday. done.
Qed.

(** Rows grouped with the row of a daily observation hold the same day,
    if they hold one. *)
Lemma groupKey_day r d name v :
  (∃ variable entityNames entityCodes index value,
     r = ingestedRow variable entityNames entityCodes index value) →
  groupKey r = "day:" +:+ pretty d +:+ " " +:+ name →
  r !! "day" = Some v → v = VNum d.
Proof.
  intros (variable & names & codes & i & val & ->) Hkey Hday.
  apply ingestedRow_day in Hday as [Hd ->].
  rewrite groupKey_daily in Hkey by done.
  injection Hkey as Hkey.
  assert (∀ x : Z, String_Forall (λ c, c ≠ " "%char) (pretty x)) as Hpretty.
  { intros x. by apply pretty_Z_chars. }
  unfold at_index in *.
  destruct (legacyYears _ _ variable !! i) as [d'|]; simpl in *.
  - cbn [String.app] in Hkey.
    apply prefix_separator_inj in Hkey as [Hd' _]; [|apply Hpretty..].
    apply (inj pretty) in Hd'. by subst.
  - exfalso.
    change ("undefined" +:+ String " "%char
              (toStr (default VUndef (VStr <$> names !! i)))
            = pretty d +:+ String " "%char name) in Hkey.
    apply prefix_separator_inj in Hkey as [Hu _];
      [|by repeat split|apply Hpretty].
    assert (String_Forall (λ c, c ≠ "u"%char) (pretty d)) as Hno
      by (by apply pretty_Z_chars).
    rewrite <-Hu in Hno. by destruct Hno as [? _].
Qed.

(** C5: in the table that [fromLegacy] builds, every day value comes from
    an observation of a daily variable and equals the raw day offset of
    that observation plus the whole-day difference between the variable's
    [zeroDay] and the epoch (no shift when no [zeroDay] is declared).
    Hence observations of two variables that fall on the same real date
    are given the same day value, and when they concern the same entity
    the table has a row with that day value and a value for both. *)
Theorem fromLegacy_day_values json t :
  fromLegacy slugify diffDateISOStringInDays EPOCH_DATE json = Some t →
  (∀ row v, row ∈ rows t → row !! "day" = Some v →
     ∃ key variable index,
       (key, variable) ∈ variables json ∧
       yearIsDay (display variable) = true ∧
       (index < length (values variable))%nat ∧
       v = at_index VNum ((λ raw, raw + epochShift variable) <$> years variable)
                    index) ∧
  (∀ key1 variable1 key2 variable2 d1 d2 index1 index2 raw1 raw2,
     (key1, variable1) ∈ variables json →
     (key2, variable2) ∈ variables json →
     yearIsDay (display variable1) = true →
     yearIsDay (display variable2) = true →
     zeroDay (display variable1) = Some d1 →
     zeroDay (display variable2) = Some d2 →
     years variable1 !! index1 = Some raw1 →
     years variable2 !! index2 = Some raw2 →
     dayNumber d1 + raw1 = dayNumber d2 + raw2 →
     raw1 + epochShift variable1 = raw2 + epochShift variable2 ∧
     raw1 + epochShift variable1 = raw1 + (dayNumber d1 - dayNumber EPOCH_DATE) ∧
     ∀ entity,
       entities variable1 !! index1 = Some entity →
       entities variable2 !! index2 = Some entity →
       is_Some (values variable1 !! index1) →
       is_Some (values variable2 !! index2) →
       ∃ row, row ∈ rows t ∧
              row !! "day" = Some (VNum (raw1 + epochShift variable1)) ∧
              is_Some (row !! valueSlug variable1) ∧
              is_Some (row !! valueSlug variable2)).
Proof using diff_in_days.
  intros Hf. unfold fromLegacy in Hf.
  fold (ingestAll slugify diffDateISOStringInDays EPOCH_DATE json (variables json))
    in Hf.
  destruct (ingestAll _ _ _ json (variables json)) as [[rs specs]|] eqn:E;
    [|done].
  simpl in Hf. injection Hf as <-. rewrite newTable_rows. split.
  - intros row v Hrow Hday.
    apply list_elem_of_fmap in Hrow as (g & -> & Hg).
    apply groupBy_values in Hg as (k & -> & _).
    apply Object_assign_lookup in Hday as (r & Hr & Hday).
    apply list_elem_of_filter in Hr as [_ Hr].
    destruct (ingestAll_rows _ _ _ _ _ E Hr)
      as (key & variable & names & codes & i & val & Hin & Hval & ->).
    apply ingestedRow_day in Hday as [Hd ->].
    exists key, variable, i. split_and!; [done..| |].
    + by eapply lookup_lt_Some.
    + by rewrite legacyYears_shift.
  - intros k1 v1 k2 v2 d1 d2 i1 i2 raw1 raw2 Hin1 Hin2 Hy1 Hy2 Hz1 Hz2 Hr1 Hr2
      Hsame.
    assert (raw1 + epochShift v1 = raw2 + epochShift v2) as Hshift.
    { unfold epochShift. rewrite Hz1, Hz2, !diff_in_days. lia. }
    split; [done|]. split.
    { unfold epochShift. rewrite Hz1, diff_in_days. done. }
    intros entity He1 He2 [val1 Hval1] [val2 Hval2].
    destruct (ingestAll_has_row _ _ _ _ _ _ _ _ E Hin1 Hval1)
      as (names1 & codes1 & Hn1 & Hrow1).
    destruct (ingestAll_has_row _ _ _ _ _ _ _ _ E Hin2 Hval2)
      as (names2 & codes2 & Hn2 & Hrow2).
    set (r1 := ingestedRow v1 names1 codes1 i1 val1) in *.
    set (r2 := ingestedRow v2 names2 codes2 i2 val2) in *.
    assert (at_index VNum (legacyYears diffDateISOStringInDays EPOCH_DATE v1) i1
            = VNum (raw1 + epochShift v1)) as Hday1.
    { rewrite legacyYears_shift by done. unfold at_index.
      by rewrite list_lookup_fmap, Hr1. }
    assert (at_index VNum (legacyYears diffDateISOStringInDays EPOCH_DATE v2) i2
            = VNum (raw1 + epochShift v1)) as Hday2.
    { rewrite legacyYears_shift by done. unfold at_index.
      rewrite list_lookup_fmap, Hr2. simpl. by rewrite Hshift. }
    assert (at_index VStr names1 i1 = at_index VStr names2 i2) as Hname.
    { apply mapM_Some in Hn1, Hn2. unfold at_index.
      destruct (Forall2_lookup_l _ _ _ _ _ Hn1 He1) as (n1 & -> & Hm1).
      destruct (Forall2_lookup_l _ _ _ _ _ Hn2 He2) as (n2 & -> & Hm2).
      simpl. rewrite Hm1 in Hm2. by injection Hm2 as ->. }
    assert (groupKey r2 = groupKey r1) as Hkey.
    { unfold r1, r2. rewrite !groupKey_daily by done.
      by rewrite Hday1, Hday2, Hname. }
    set (g := filter (λ y, groupKey y = groupKey r1) rs).
    assert (r1 ∈ g) as Hg1 by (by apply list_elem_of_filter).
    assert (r2 ∈ g) as Hg2 by (by apply list_elem_of_filter).
    exists (Object_assign g). split_and!.
    + apply list_elem_of_fmap. exists g. split; [done|].
      by apply groupBy_group.
    + destruct (Object_assign_is_Some g r1 "day") as [v Hv]; [done| |].
      { unfold r1.
        destruct (ingestedRow_daily v1 names1 codes1 i1 val1 Hy1) as [-> _].
        done. }
      rewrite Hv. f_equal.
      apply Object_assign_lookup in Hv as (r & Hr & Hv).
      apply list_elem_of_filter in Hr as [Hk Hr].
      eapply (groupKey_day r _ (toStr (at_index VStr names1 i1))); [| |done].
      * destruct (ingestAll_rows _ _ _ _ _ E Hr)
          as (key & variable & names & codes & i & val & _ & _ & ->).
        by exists variable, names, codes, i, val.
      * rewrite Hk. unfold r1. rewrite groupKey_daily by done.
        by rewrite Hday1.
    + eapply Object_assign_is_Some; [exact Hg1|apply ingestedRow_value].
    + eapply Object_assign_is_Some; [exact Hg2|apply ingestedRow_value].
Qed.
End EpochNormalization.

(** ** Chart data: what a computation may write *)

(** A computation that leaves the persisted props and the column registry
    alone: whatever it writes are cached filter values on the rows. *)
Definition frames {A} (m : M A) : Prop :=
  ∀ c a c', m c = Some (a, c') →
    props c' = props c ∧ columns (table c') = columns (table c).

Lemma frames_ret {A} (a : A) : frames (mret a).
Proof. intros c a' c' [= <- <-]. done. Qed.

Lemma frames_bind {A B} (m : M A) (k : A → M B) :
  frames m → (∀ a, frames (k a)) → frames (m ≫= k).
Proof.
  intros Hm Hk c b c' H. unfold mbind, M_bind in H.
  destruct (m c) as [[a c1]|] eqn:E; [|done].
  destruct (Hm _ _ _ E) as [Hp Hc]. destruct (Hk a _ _ _ H) as [Hp' Hc'].
  split; congruence.
Qed.

Lemma frames_getChart : frames getChart.
Proof. intros c a c' [= <- <-]. done. Qed.

Lemma frames_throw {A} : frames (@throw A).
Proof. intros c a c' [=]. Qed.

Lemma unfilteredRows_columns t view t' :
  unfilteredRows t = Some (view, t') → columns t' = columns t.
Proof.
  unfold unfilteredRows. case_decide; [by intros [= <- <-]|].
  destruct (filterPass t); simpl; [|done]. by intros [= <- <-].
Qed.

Lemma frames_table_unfilteredRows : frames table_unfilteredRows.
Proof.
  intros c a c' H. unfold table_unfilteredRows in H.
  destruct (unfilteredRows (table c)) as [[view t']|] eqn:E; [|done].
  injection H as <- <-. simpl. split; [done|].
  by eapply unfilteredRows_columns.
Qed.

Lemma frames_filterM {A} (p : A → M bool) l :
  (∀ x, frames (p x)) → frames (filterM p l).
Proof.
  intros Hp. induction l as [|x l IH]; simpl.
  - apply frames_ret.
  - apply frames_bind; [done|]. intros b.
    apply frames_bind; [done|]. intros kept. apply frames_ret.
Qed.

Lemma frames_mapM {A B} (f : A → M B) l :
  (∀ x, frames (f x)) → frames (mapM f l).
Proof.
  intros Hf. induction l as [|x l IH]; simpl.
  - apply frames_ret.
  - apply frames_bind; [done|]. intros b.
    apply frames_bind; [done|]. intros kept. apply frames_ret.
Qed.

Lemma frames_dimension_entityNamesUniq d : frames (dimension_entityNamesUniq d).
Proof.
  unfold dimension_entityNamesUniq, column_entityNamesUniq,
    column_entityNames, column_rows.
  repeat (apply frames_bind; [|intros ?]);
    auto using frames_ret, frames_table_unfilteredRows.
Qed.

Lemma frames_isValidSelection primaryDims idToName sel :
  frames (isValidSelection primaryDims idToName sel).
Proof.
  unfold isValidSelection.
  destruct (at_number _ _); [|apply frames_ret].
  destruct (negb _); [apply frames_ret|].
  apply frames_bind; [apply frames_dimension_entityNamesUniq|]. intros names.
  destruct (negb _); [apply frames_ret|].
  apply frames_bind; [apply frames_getChart|]. intros chart.
  destruct (_ && _); apply frames_ret.
Qed.

Lemma frames_selectionData : frames selectionData.
Proof.
  unfold selectionData.
  apply frames_bind; [apply frames_getChart|]. intros chart.
  apply frames_bind; [|intros ?; apply frames_ret].
  apply frames_filterM. intros sel. apply frames_isValidSelection.
Qed.

Lemma frames_keyColors : frames keyColors.
Proof.
  unfold keyColors. apply frames_bind; [apply frames_selectionData|].
  intros ?. apply frames_ret.
Qed.


Lemma frames_entityDimensionMap_loop primaryDims todo i keyData :
  frames (entityDimensionMap_loop primaryDims todo i keyData).
Proof.
  revert i keyData. induction todo as [|d todo IH]; intros i keyData; simpl.
  - apply frames_ret.
  - apply frames_bind; [apply frames_dimension_entityNamesUniq|]. intros names.
    apply frames_bind; [apply frames_getChart|]. intros chart. apply IH.
Qed.

Lemma frames_entityDimensionMap : frames entityDimensionMap.
Proof.
  unfold entityDimensionMap.
  apply frames_bind; [apply frames_getChart|]. intros chart.
  destruct (negb _); [apply frames_ret|].
  apply frames_entityDimensionMap_loop.
Qed.

Lemma frames_lookupKey key : frames (lookupKey key).
Proof.
  unfold lookupKey. apply frames_bind; [apply frames_entityDimensionMap|].
  intros keyData. destruct (Map_get key keyData);
    [apply frames_ret|apply frames_throw].
Qed.

(** ** Colouring a key *)

(** The entry written by [setKeyColor] in place of [d]. *)
Definition recolor (meta : Info.t) (color : option string)
    (d : EntitySelection.t) : EntitySelection.t :=
  if bool_decide (EntitySelection.entityId d = Info.entityId meta) &&
     bool_decide (EntitySelection.index d = Z.of_nat (Info.index meta))
  then EntitySelection.with_color color d
  else d.

(** C10: for a key of the entity-dimension index, [setKeyColor] replaces
    the persisted selection by a list of the same length in which entry
    [i] keeps the [entityId] and [index] of the old entry [i]; its colour
    is the given colour when the entry matches the [(entityId, index)] of
    the key, and the old colour otherwise.  Dimensions, mode, population
    filter and column registry are left as they were. *)
Theorem setKeyColor_selection c key color meta c1 :
  lookupKey key c = Some (meta, c1) →
  ∃ c2,
    setKeyColor key color c = Some ((), c2) ∧
    dimensions (props c2) = dimensions (props c) ∧
    props_addCountryMode (props c2) = props_addCountryMode (props c) ∧
    minPopulationFilter (props c2) = minPopulationFilter (props c) ∧
    columns (table c2) = columns (table c) ∧
    length (selectedData (props c2)) = length (selectedData (props c)) ∧
    ∀ i d, selectedData (props c) !! i = Some d →
      ∃ d', selectedData (props c2) !! i = Some d' ∧
        EntitySelection.entityId d' = EntitySelection.entityId d ∧
        EntitySelection.index d' = EntitySelection.index d ∧
        EntitySelection.color d' =
          if bool_decide (EntitySelection.entityId d = Info.entityId meta ∧
                          EntitySelection.index d = Z.of_nat (Info.index meta))
          then color else EntitySelection.color d.
Proof.
  intros Hl. destruct (frames_lookupKey key _ _ _ Hl) as [Hp Hc].
  exists (set_selectedData (recolor meta color <$> selectedData (props c1)) c1).
  split_and!.
  - unfold setKeyColor, mbind, M_bind. rewrite Hl. done.
  - simpl. by rewrite Hp.
  - simpl. by rewrite Hp.
  - simpl. by rewrite Hp.
  - done.
  - simpl. by rewrite length_fmap, Hp.
  - intros i d Hd. simpl. rewrite Hp, list_lookup_fmap, Hd. simpl.
    eexists. split; [done|]. unfold recolor.
    destruct (bool_decide (EntitySelection.entityId d = Info.entityId meta))
      eqn:E1;
      destruct (bool_decide (EntitySelection.index d = Z.of_nat (Info.index meta)))
        eqn:E2; simpl; split_and!; try done.
    + apply bool_decide_eq_true in E1, E2. by rewrite bool_decide_eq_true_2.
    + apply bool_decide_eq_false in E2. rewrite bool_decide_eq_false_2; [done|].
      by intros [_ ?].
    + apply bool_decide_eq_false in E1. rewrite bool_decide_eq_false_2; [done|].
      by intros [? _].
    + apply bool_decide_eq_false in E1. rewrite bool_decide_eq_false_2; [done|].
      by intros [? _].
Qed.

(** ** Chart data: what a computation reads on a settled table *)

(** The table of the chart has a proper registry and every filter value
    is on its rows (as after ingestion and after [addFilterColumn]). *)
Definition Settled (c : ChartConfig) : Prop :=
  WellKeyed (table c) ∧ Materialized (table c).

(** The computation returns [a] and leaves the chart as it is. *)
Definition reads {A} (m : M A) (c : ChartConfig) (a : A) : Prop :=
  m c = Some (a, c).

Lemma reads_ret {A} (a : A) c : reads (mret a) c a.
Proof. done. Qed.

Lemma reads_bind {A B} (m : M A) (k : A → M B) c a b :
  reads m c a → reads (k a) c b → reads (m ≫= k) c b.
Proof. unfold reads, mbind, M_bind. by intros -> ->. Qed.

Lemma reads_getChart c : reads getChart c c.
Proof. done. Qed.

Lemma reads_table_unfilteredRows c :
  Settled c → reads table_unfilteredRows c (visibleRows (table c)).
Proof.
  intros [Hwk Hm]. unfold reads, table_unfilteredRows.
  rewrite unfilteredRows_materialized by done. by destruct c.
Qed.

Lemma reads_filterM {A} (p : A → M bool) (q : A → bool) l c :
  (∀ x, x ∈ l → reads (p x) c (q x)) →
  reads (filterM p l) c (filter (λ x, q x = true) l).
Proof.
  induction l as [|x l IH]; intros Hp; [done|]. simpl.
  eapply reads_bind; [apply Hp; left|].
  eapply reads_bind; [apply IH; intros ??; apply Hp; by right|].
  rewrite filter_cons. destruct (q x); simpl; done.
Qed.

Lemma reads_mapM {A B} (f : A → M B) (g : A → B) l c :
  (∀ x, x ∈ l → reads (f x) c (g x)) → reads (mapM f l) c (g <$> l).
Proof.
  induction l as [|x l IH]; intros Hf; [done|]. simpl.
  eapply reads_bind; [apply Hf; left|].
  eapply reads_bind; [apply IH; intros ??; apply Hf; by right|].
  done.
Qed.

(** The values that the column accessors return. *)
Definition columnRows (t : Table) (col : Column) : list Row :=
  filter (λ row, get row (column_slug col) ≠ VUndef) (visibleRows t).

Definition entityNamesOf (t : Table) (col : Column) : list Value :=
  Set_from ((λ row, get row "entityName") <$> columnRows t col).

Lemma reads_dimension_entityNamesUniq c d :
  Settled c →
  reads (dimension_entityNamesUniq d) c
        (entityNamesOf (table c) (Dimension.column d)).
Proof.
  intros Hs. unfold dimension_entityNamesUniq, column_entityNamesUniq,
    column_entityNames, column_rows.
  eapply reads_bind; [|apply reads_ret].
  eapply reads_bind; [|apply reads_ret].
  eapply reads_bind; [by apply reads_table_unfilteredRows|apply reads_ret].
Qed.

(** The verdict of [selectionData] on one persisted entry. *)
Definition validSelection (c : ChartConfig) (sel : EntitySelection.t) : bool :=
  match at_number (primaryDimensions c) (EntitySelection.index sel) with
  | None => false
  | Some dimension =>
      let entityName :=
        Map_get_value (EntitySelection.entityId sel) (entityIdToNameMap (table c)) in
      truthy entityName &&
      bool_decide (entityName ∈ entityNamesOf (table c) (Dimension.column dimension)) &&
      negb (bool_decide (addCountryMode c = change_country) &&
            negb (bool_decide
                    (Some (EntitySelection.entityId sel) =
                     EntitySelection.entityId <$> last (selectedData (props c)))))
  end.

Lemma reads_isValidSelection c sel :
  Settled c →
  reads (isValidSelection (primaryDimensions c) (entityIdToNameMap (table c)) sel)
        c (validSelection c sel).
Proof.
  intros Hs. unfold isValidSelection, validSelection.
  destruct (at_number _ _) as [dimension|]; [|done].
  simpl. destruct (truthy _); simpl; [|done].
  eapply reads_bind; [by apply reads_dimension_entityNamesUniq|].
  destruct (bool_decide (_ ∈ _)); simpl; [|done].
  eapply reads_bind; [apply reads_getChart|].
  by destruct (_ && _).
Qed.

(** The entries kept by [selectionData], and the key of an entry. *)
Definition keptSelections (c : ChartConfig) : list EntitySelection.t :=
  uniqWith sameSelection
    (filter (λ sel, validSelection c sel = true) (selectedData (props c))).

Definition keyOfSelection (c : ChartConfig) (sel : EntitySelection.t) : string :=
  makeEntityDimensionKey
    (Map_get_value (EntitySelection.entityId sel) (entityIdToNameMap (table c)))
    (EntitySelection.index sel).

Lemma reads_selectionData c :
  Settled c →
  reads selectionData c
        ((λ sel, (keyOfSelection c sel, EntitySelection.color sel))
           <$> keptSelections c).
Proof.
  intros Hs. unfold selectionData.
  eapply reads_bind; [apply reads_getChart|].
  eapply reads_bind; [|apply reads_ret].
  apply reads_filterM. intros sel _. by apply reads_isValidSelection.
Qed.

Lemma reads_selectedKeys c :
  Settled c → reads selectedKeys c (keyOfSelection c <$> keptSelections c).
Proof.
  intros Hs. unfold selectedKeys.
  eapply reads_bind; [by apply reads_selectionData|].
  rewrite <-list_fmap_compose. done.
Qed.

(** *** Sets and [uniqWith] *)

Lemma Set_from_snoc {K} `{EqDecision K} (l : list K) x :
  Set_from (l ++ [x]) = Set_add x (Set_from l).
Proof. unfold Set_from. by rewrite foldl_snoc. Qed.

Lemma elem_of_Set_from {K} `{EqDecision K} (l : list K) x :
  x ∈ Set_from l ↔ x ∈ l.
Proof.
  revert x. induction l as [|y l IH] using rev_ind; intros x; [done|].
  rewrite Set_from_snoc. unfold Set_add. case_decide as Hy.
  - rewrite IH, elem_of_app, list_elem_of_singleton.
    apply IH in Hy. naive_solver.
  - rewrite !elem_of_app, IH. done.
Qed.

Section uniqWith_facts.
Context {A K : Type} `{EqDecision K}.
Variable key : A → K.
Variable comparator : A → A → bool.
Hypothesis comparator_key : ∀ a b, comparator a b = true ↔ key a = key b.

Lemma uniqWith_snoc l x :
  uniqWith comparator (l ++ [x])
  = if existsb (λ seen, comparator seen x) (uniqWith comparator l)
    then uniqWith comparator l
    else uniqWith comparator l ++ [x].
Proof. unfold uniqWith. by rewrite foldl_snoc. Qed.

Lemma existsb_comparator l x :
  existsb (λ seen, comparator seen x) l = true ↔ key x ∈ key <$> l.
Proof using comparator_key.
  rewrite existsb_exists, list_elem_of_fmap. split.
  - intros (y & Hy & Hc). apply comparator_key in Hc.
    exists y. split; [done|]. by apply list_elem_of_In.
  - intros (y & Hk & Hy). exists y. split; [by apply list_elem_of_In|].
    by apply comparator_key.
Qed.

Lemma uniqWith_sublist l : sublist (uniqWith comparator l) l.
Proof.
  induction l as [|x l IH] using rev_ind; [done|].
  rewrite uniqWith_snoc. destruct (existsb _ _).
  - by apply sublist_inserts_r.
  - by apply sublist_app.
Qed.


Lemma uniqWith_NoDup l : NoDup (key <$> uniqWith comparator l).
Proof using comparator_key.
  induction l as [|x l IH] using rev_ind; [constructor|].
  rewrite uniqWith_snoc.
  destruct (existsb _ _) eqn:E; [done|].
  rewrite fmap_app. apply NoDup_app. split_and!; [done| |apply NoDup_singleton].
  intros k Hk Hk'. simpl in Hk'. apply list_elem_of_singleton in Hk'. subst k.
  apply existsb_comparator in Hk. congruence.
Qed.

Lemma uniqWith_id l : NoDup (key <$> l) → uniqWith comparator l = l.
Proof using comparator_key.
  induction l as [|x l IH] using rev_ind; [done|].
  rewrite fmap_app. intros Hnd. apply NoDup_app in Hnd as (Hl & Hx & _).
  rewrite uniqWith_snoc, IH by done.
  destruct (existsb _ _) eqn:E; [|done].
  apply existsb_comparator in E. exfalso. apply (Hx _ E). simpl. left.
Qed.
End uniqWith_facts.

Definition selectionPair (sel : EntitySelection.t) : Value * Z :=
  (EntitySelection.entityId sel, EntitySelection.index sel).

Lemma sameSelection_pair a b :
  sameSelection a b = true ↔ selectionPair a = selectionPair b.
Proof.
  unfold sameSelection, selectionPair.
  rewrite andb_true_iff, !bool_decide_eq_true.
  split; [intros [-> ->]; done|]. intros [= -> ->]. done.
Qed.

(** ** Reading the selection *)

(** The validity rule for a persisted selection entry: its index
    addresses a primary dimension, its entity id resolves to a (truthy)
    entity name, and a visible row with a value in that dimension's
    column carries this name. *)
Definition ValidSelection (c : ChartConfig) (sel : EntitySelection.t) : Prop :=
  ∃ dimension name row,
    at_number (primaryDimensions c) (EntitySelection.index sel) = Some dimension ∧
    Map_get (EntitySelection.entityId sel) (entityIdToNameMap (table c)) = Some name ∧
    truthy name = true ∧
    row ∈ visibleRows (table c) ∧
    get row (column_slug (Dimension.column dimension)) ≠ VUndef ∧
    get row "entityName" = name.

(** In "change entity" mode only the entries of the entity of the last
    persisted entry are kept. *)
Definition ModeAllows (c : ChartConfig) (sel : EntitySelection.t) : Prop :=
  addCountryMode c = change_country →
  Some (EntitySelection.entityId sel)
  = EntitySelection.entityId <$> last (selectedData (props c)).

Lemma elem_of_entityNamesOf t col name :
  name ∈ entityNamesOf t col ↔
  ∃ row, row ∈ visibleRows t ∧ get row (column_slug col) ≠ VUndef ∧
         get row "entityName" = name.
Proof.
  unfold entityNamesOf, columnRows.
  rewrite elem_of_Set_from, list_elem_of_fmap.
  split.
  - intros (row & -> & Hrow). apply list_elem_of_filter in Hrow as [??]. eauto.
  - intros (row & ? & ? & <-). exists row. split; [done|].
    by apply list_elem_of_filter.
Qed.

Lemma validSelection_true c sel :
  validSelection c sel = true ↔ ValidSelection c sel ∧ ModeAllows c sel.
Proof.
  unfold validSelection, ValidSelection, ModeAllows, Map_get_value.
  destruct (at_number _ _) as [dimension|] eqn:Hd.
  2:{ split; [done|]. by intros [(? & ? & ? & ? & _) _]. }
  simpl. rewrite !andb_true_iff, bool_decide_eq_true, negb_true_iff,
    andb_false_iff, bool_decide_eq_false, negb_false_iff, bool_decide_eq_true.
  rewrite elem_of_entityNamesOf. split.
  - intros [[Ht (row & Hrow & Hcol & Hname)] Hmode].
    destruct (Map_get _ _) as [name|] eqn:Hn; [|done]. simpl in *.
    split; [by exists dimension, name, row|].
    intros Hc. by destruct Hmode.
  - intros [(d & name & row & [= <-] & -> & Ht & Hrow & Hcol & Hname) Hmode].
    simpl. split_and!; [done|by exists row|].
    destruct (decide (addCountryMode c = change_country)); [right|left]; auto.
Qed.

Lemma keptSelections_sublist c :
  sublist (keptSelections c) (selectedData (props c)).
Proof.
  unfold keptSelections. etrans; [apply uniqWith_sublist|apply sublist_filter].
Qed.

Lemma keptSelections_pairs_NoDup c : NoDup (selectionPair <$> keptSelections c).
Proof. apply (uniqWith_NoDup selectionPair), sameSelection_pair. Qed.


(** ** Entity-dimension keys *)

(** *** The key index *)

Definition addEntities (chart : ChartConfig) (primaryDims : KeyDataScope)
    (dimension : Dimension.t) (i : nat) (keyData : list (string * Info.t))
    (names : list Value) : list (string * Info.t) :=
  foldl (λ kd entityName,
           let info := entityDimensionInfo chart primaryDims dimension i entityName in
           Map_set (Info.entityDimensionKey info) info kd)
        keyData names.

Fixpoint keyDataFrom (c : ChartConfig) (primaryDims : KeyDataScope)
    (todo : list Dimension.t)
    (i : nat) (keyData : list (string * Info.t)) : list (string * Info.t) :=
  match todo with
  | [] => keyData
  | d :: rest =>
      keyDataFrom c primaryDims rest (S i)
        (addEntities c primaryDims d i keyData
           (entityNamesOf (table c) (Dimension.column d)))
  end.

(** The value of [entityDimensionMap] on a settled table. *)
Definition keyIndex (c : ChartConfig) : list (string * Info.t) :=
  if isReady c
  then keyDataFrom c (keyDataScope c) (primaryDimensions c) 0 []
  else [].

Lemma reads_entityDimensionMap_loop c primaryDims todo i keyData :
  Settled c →
  reads (entityDimensionMap_loop primaryDims todo i keyData) c
        (keyDataFrom c primaryDims todo i keyData).
Proof.
  intros Hs. revert i keyData.
  induction todo as [|d todo IH]; intros i keyData; [done|]. simpl.
  eapply reads_bind; [by apply reads_dimension_entityNamesUniq|].
  eapply reads_bind; [apply reads_getChart|]. apply IH.
Qed.

Lemma reads_entityDimensionMap c :
  Settled c → reads entityDimensionMap c (keyIndex c).
Proof.
  intros Hs. unfold entityDimensionMap, keyIndex.
  eapply reads_bind; [apply reads_getChart|].
  destruct (isReady c); simpl; [|done].
  by apply reads_entityDimensionMap_loop.
Qed.

(** An entry of the key index: filed under the key of its entity and
    index, for an entity of the primary dimension at that index. *)
Definition IndexEntry (c : ChartConfig) (k : string) (info : Info.t) : Prop :=
  k = makeEntityDimensionKey (Info.entity info) (Z.of_nat (Info.index info)) ∧
  Info.entityId info
    = Map_get_value (Info.entity info) (entityNameToIdMap (table c)) ∧
  ∃ dimension,
    primaryDimensions c !! Info.index info = Some dimension ∧
    Info.entity info ∈ entityNamesOf (table c) (Dimension.column dimension).

Lemma Map_set_elem {K V} `{EqDecision K} (k k' : K) (v v' : V) m :
  (k', v') ∈ Map_set k v m → (k', v') = (k, v) ∨ (k', v') ∈ m.
Proof.
  induction m as [|[k0 v0] m IH]; simpl.
  - intros Hin. apply list_elem_of_singleton in Hin. by left.
  - case_decide.
    + rewrite !elem_of_cons. naive_solver.
    + rewrite !elem_of_cons. naive_solver.
Qed.

Lemma addEntities_elem c primaryDims d i keyData names k info :
  (k, info) ∈ addEntities c primaryDims d i keyData names →
  (k, info) ∈ keyData ∨
  ∃ name, name ∈ names ∧ info = entityDimensionInfo c primaryDims d i name ∧
          k = Info.entityDimensionKey info.
Proof.
  unfold addEntities. revert keyData.
  induction names as [|n names IH]; intros keyData; simpl; [by left|].
  intros Hin. apply IH in Hin as [Hin|(name & ? & ? & ?)].
  - apply Map_set_elem in Hin as [[= -> ->]|Hin]; [|by left].
    right. exists n. split_and!; [left|done..].
  - right. exists name. split_and!; [by right|done..].
Qed.

Lemma addEntities_keys c primaryDims d i keyData names k :
  k ∈ Map_keys (addEntities c primaryDims d i keyData names) ↔
  k ∈ Map_keys keyData ∨
  k ∈ (λ name, makeEntityDimensionKey name (Z.of_nat i)) <$> names.
Proof. unfold addEntities. apply Map_keys_foldl_elem. Qed.

Lemma keyDataFrom_elem c primaryDims todo i keyData k info :
  (k, info) ∈ keyDataFrom c primaryDims todo i keyData →
  (k, info) ∈ keyData ∨
  ∃ j dimension name,
    todo !! j = Some dimension ∧
    name ∈ entityNamesOf (table c) (Dimension.column dimension) ∧
    info = entityDimensionInfo c primaryDims dimension (i + j) name ∧
    k = Info.entityDimensionKey info.
Proof.
  revert i keyData. induction todo as [|d todo IH]; intros i keyData; simpl;
    [by left|].
  intros Hin. apply IH in Hin as [Hin|(j & dim & name & ? & ? & ? & ?)].
  - apply addEntities_elem in Hin as [?|(name & ? & ? & ?)]; [by left|].
    right. exists 0%nat, d, name. rewrite Nat.add_0_r. done.
  - right. exists (S j), dim, name. rewrite Nat.add_succ_r. done.
Qed.

Lemma keyDataFrom_keys c primaryDims todo i keyData j dimension name :
  todo !! j = Some dimension →
  name ∈ entityNamesOf (table c) (Dimension.column dimension) →
  makeEntityDimensionKey name (Z.of_nat (i + j))
    ∈ Map_keys (keyDataFrom c primaryDims todo i keyData).
Proof.
  assert (∀ todo i keyData k,
    k ∈ Map_keys keyData → k ∈ Map_keys (keyDataFrom c primaryDims todo i keyData))
    as Hmono.
  { clear. induction todo as [|d todo IH]; intros i keyData k Hk; [done|].
    simpl. apply IH. apply addEntities_keys. by left. }
  revert i keyData j. induction todo as [|d todo IH]; intros i keyData j; [done|].
  destruct j as [|j]; simpl.
  - intros [= ->] Hname. apply Hmono. apply addEntities_keys. right.
    rewrite Nat.add_0_r. apply list_elem_of_fmap. by exists name.
  - intros Hj Hname. rewrite Nat.add_succ_r. by apply (IH (S i)).
Qed.

Lemma keyIndex_entry c k info :
  Map_get k (keyIndex c) = Some info → IndexEntry c k info.
Proof.
  intros Hget. apply Map_get_Some_elem in Hget. unfold keyIndex in Hget.
  destruct (isReady c); [|by apply elem_of_nil in Hget].
  apply keyDataFrom_elem in Hget as [Hin|(j & dim & name & Hj & Hn & -> & ->)].
  - by apply elem_of_nil in Hin.
  - split_and!; [done..|]. exists dim. done.
Qed.

Lemma keyIndex_has c j dimension name :
  isReady c = true →
  primaryDimensions c !! j = Some dimension →
  name ∈ entityNamesOf (table c) (Dimension.column dimension) →
  is_Some (Map_get (makeEntityDimensionKey name (Z.of_nat j)) (keyIndex c)).
Proof.
  intros Hr Hj Hn. apply Map_get_is_Some. unfold keyIndex. rewrite Hr.
  by apply (keyDataFrom_keys c _ _ 0%nat [] j dimension name).
Qed.

(** *** Entity names and ids *)

Lemma entityIdToNameMap_get t eid name :
  Map_get eid (entityIdToNameMap t) = Some name →
  ∃ row, row ∈ rows t ∧ get row "entityId" = eid ∧ get row "entityName" = name.
Proof.
  unfold entityIdToNameMap. rewrite Map_get_foldl. simpl.
  destruct (last _) as [row|] eqn:E; [|done]. intros [= <-].
  apply last_Some_elem_of, list_elem_of_filter in E as [??]. eauto.
Qed.

Lemma entityNameToIdMap_get t name :
  (∃ row, row ∈ rows t ∧ get row "entityName" = name) →
  ∃ row, row ∈ rows t ∧ get row "entityName" = name ∧
         Map_get name (entityNameToIdMap t) = Some (get row "entityId").
Proof.
  intros (row0 & Hrow0 & Hname0).
  unfold entityNameToIdMap. rewrite Map_get_foldl. simpl.
  destruct (last _) as [row|] eqn:E.
  - apply last_Some_elem_of, list_elem_of_filter in E as [??]. eauto.
  - apply last_None in E.
    assert (row0 ∈ filter (λ x : Row, get x "entityName" = name) (rows t)) as Hin.
    { by apply list_elem_of_filter. }
    rewrite E in Hin. by apply elem_of_nil in Hin.
Qed.

Lemma visibleRows_rows t row : row ∈ visibleRows t → row ∈ rows t.
Proof. unfold visibleRows. intros H. by apply list_elem_of_filter in H as [_ ?]. Qed.

(** ** Writing the selection back *)

(** The colour recorded for an entry: falsy colours are not recorded. *)
Definition recordedColor (color : option string) : option string :=
  match color with
  | Some col => if truthy (VStr col) then Some col else None
  | None => None
  end.

Definition recordColor (kc : gmap string string) (d : string * option string)
    : gmap string string :=
  match d.2 with
  | Some col => if truthy (VStr col) then <[d.1 := col]> kc else kc
  | None => kc
  end.

(** The value of [keyColors] on a settled table. *)
Definition colorsOf (c : ChartConfig) : gmap string string :=
  foldl recordColor ∅
    ((λ sel, (keyOfSelection c sel, EntitySelection.color sel))
       <$> keptSelections c).

Lemma reads_keyColors c : Settled c → reads keyColors c (colorsOf c).
Proof.
  intros Hs. unfold keyColors.
  eapply reads_bind; [by apply reads_selectionData|]. done.
Qed.

Lemma recordColor_lookup_ne kc d k :
  d.1 ≠ k → recordColor kc d !! k = kc !! k.
Proof.
  intros Hne. unfold recordColor. destruct d.2 as [col|]; [|done].
  destruct (truthy _); [|done]. by rewrite lookup_insert_ne.
Qed.

Lemma foldl_recordColor_fresh sd k :
  k ∉ sd.*1 → foldl recordColor ∅ sd !! k = None.
Proof.
  induction sd as [|d sd IH] using rev_ind; intros Hk; [done|].
  rewrite fmap_app, not_elem_of_app in Hk. destruct Hk as [Hk Hd].
  rewrite foldl_snoc, recordColor_lookup_ne; [by apply IH|].
  intros Heq. apply Hd. simpl. rewrite Heq. left.
Qed.

Lemma foldl_recordColor_lookup sd k color :
  NoDup sd.*1 → (k, color) ∈ sd →
  foldl recordColor ∅ sd !! k = recordedColor color.
Proof.
  induction sd as [|d sd IH] using rev_ind; intros Hnd Hin;
    [by apply elem_of_nil in Hin|].
  rewrite fmap_app in Hnd. apply NoDup_app in Hnd as (Hnd & Hfresh & _).
  rewrite foldl_snoc. apply elem_of_app in Hin as [Hin|Hin].
  - rewrite recordColor_lookup_ne; [by apply IH|].
    intros Heq. apply (Hfresh k).
    + apply list_elem_of_fmap. by exists (k, color).
    + simpl. rewrite Heq. left.
  - apply list_elem_of_singleton in Hin. subst d.
    assert (foldl recordColor ∅ sd !! k = None) as Hnone.
    { apply foldl_recordColor_fresh. intros Hk. apply (Hfresh k Hk). left. }
    revert Hnone. generalize (foldl recordColor ∅ sd) as kc. intros kc Hnone.
    unfold recordColor, recordedColor. simpl.
    destruct color as [col|]; [|done].
    destruct (negb _); [by rewrite lookup_insert_eq|done].
Qed.

(** The entry that the setter stores for a key of the index. *)
Definition entryOfKey (c : ChartConfig) (key : string)
    : option EntitySelection.t :=
  info ← Map_get key (keyIndex c);
  Some {| EntitySelection.entityId :=
            Map_get_value (Info.entity info) (entityNameToIdMap (table c));
          EntitySelection.index := Z.of_nat (Info.index info);
          EntitySelection.color := colorsOf c !! key |}.

Lemma reads_selectionOfKey c key e :
  Settled c → entryOfKey c key = Some e → reads (selectionOfKey key) c e.
Proof.
  intros Hs He. unfold entryOfKey in He.
  destruct (Map_get key (keyIndex c)) as [info|] eqn:Hinfo; [|done].
  simpl in He. injection He as <-. unfold selectionOfKey, lookupKey.
  eapply reads_bind.
  { eapply reads_bind; [by apply reads_entityDimensionMap|].
    rewrite Hinfo. apply reads_ret. }
  eapply reads_bind; [apply reads_getChart|].
  eapply reads_bind; [by apply reads_keyColors|]. done.
Qed.

Lemma reads_mapM_Forall2 {A B} (f : A → M B) l k c :
  Forall2 (λ x y, reads (f x) c y) l k → reads (mapM f l) c k.
Proof.
  induction 1 as [|x y l k Hxy _ IH]; [done|]. simpl.
  eapply reads_bind; [exact Hxy|]. eapply reads_bind; [exact IH|]. done.
Qed.

(** Table invariants of the ingested data: entity names are strings and
    an entity name belongs to one entity id. *)
Definition EntityNamed (t : Table) : Prop :=
  ∀ row, row ∈ rows t → ∃ s, get row "entityName" = VStr s.

Definition OneIdPerName (t : Table) : Prop :=
  ∀ r1 r2, r1 ∈ rows t → r2 ∈ rows t →
    get r1 "entityName" = get r2 "entityName" →
    get r1 "entityId" = get r2 "entityId".

Lemma at_number_Some {A} (l : list A) i x :
  at_number l i = Some x → ∃ j : nat, i = Z.of_nat j ∧ l !! j = Some x.
Proof.
  unfold at_number. case_decide; [|done]. intros Hx.
  exists (Z.to_nat i). split; [lia|done].
Qed.

Lemma primaryDimensions_isReady c j d :
  primaryDimensions c !! j = Some d → isReady c = true.
Proof.
  unfold primaryDimensions, filledDimensions.
  destruct (isReady c); [done|]. by rewrite filter_nil.
Qed.

Definition normalizeColor (sel : EntitySelection.t) : EntitySelection.t :=
  EntitySelection.with_color (recordedColor (EntitySelection.color sel)) sel.

Section RoundTrip.
Variable c : ChartConfig.
Hypothesis c_settled : Settled c.
Hypothesis c_named : EntityNamed (table c).
Hypothesis c_ids : OneIdPerName (table c).

(** What a kept entry stands for in the data. *)
Lemma kept_data sel :
  sel ∈ keptSelections c →
  ∃ (j : nat) dimension s row0,
    EntitySelection.index sel = Z.of_nat j ∧
    primaryDimensions c !! j = Some dimension ∧
    Map_get_value (EntitySelection.entityId sel) (entityIdToNameMap (table c))
      = VStr s ∧
    VStr s ∈ entityNamesOf (table c) (Dimension.column dimension) ∧
    row0 ∈ rows (table c) ∧
    get row0 "entityId" = EntitySelection.entityId sel ∧
    get row0 "entityName" = VStr s.
Proof using c_named.
  intros Hin. unfold keptSelections in Hin.
  apply (sublist_subseteq _ _ (uniqWith_sublist _ _)) in Hin.
  apply list_elem_of_filter in Hin as [Hv _].
  apply validSelection_true in Hv
    as [(dim & name & row & Hd & Hn & _ & Hrow & Hcol & Hname) _].
  apply at_number_Some in Hd as (j & Hj & Hd).
  destruct (c_named row) as [s Hs]; [by apply visibleRows_rows|].
  rewrite Hname in Hs. subst name.
  destruct (entityIdToNameMap_get _ _ _ Hn) as (row0 & ? & ? & ?).
  exists j, dim, s, row0. split_and!; try done.
  - unfold Map_get_value. by rewrite Hn.
  - apply elem_of_entityNamesOf. by exists row.
  - congruence.
Qed.

Lemma keyOfSelection_pair sel sel' :
  sel ∈ keptSelections c → sel' ∈ keptSelections c →
  keyOfSelection c sel = keyOfSelection c sel' →
  selectionPair sel = selectionPair sel'.
Proof using c_named c_ids.
  intros Hin Hin' Hkey.
  destruct (kept_data _ Hin) as (j & d & s & r & Hj & _ & Hn & _ & Hr & He & Hrn).
  destruct (kept_data _ Hin') as (j' & d' & s' & r' & Hj' & _ & Hn' & _ & Hr' & He' & Hrn').
  unfold keyOfSelection in Hkey. rewrite Hn, Hn' in Hkey.
  apply makeEntityDimensionKey_inj in Hkey as [-> Hidx].
  unfold selectionPair. rewrite Hidx, <-He, <-He'. f_equal.
  apply c_ids; [done..|]. by rewrite Hrn, Hrn'.
Qed.

Lemma NoDup_fmap_on {A B C} `{EqDecision C} (f : A → B) (g : A → C) (l : list A) :
  NoDup (g <$> l) →
  (∀ x y, x ∈ l → y ∈ l → f x = f y → g x = g y) →
  NoDup (f <$> l).
Proof using Type.
  induction l as [|x l IH]; intros Hnd Hfg; [constructor|].
  rewrite fmap_cons in *. apply NoDup_cons in Hnd as [Hx Hnd].
  apply NoDup_cons. split.
  - intros Hin. apply list_elem_of_fmap in Hin as (y & Hxy & Hy).
    apply Hx. apply list_elem_of_fmap. exists y. split; [|done].
    apply Hfg; [left|by right|done].
  - apply IH; [done|]. intros ?????. apply Hfg; [by right..|done].
Qed.

Lemma keptSelections_keys_NoDup : NoDup (keyOfSelection c <$> keptSelections c).
Proof using c_named c_ids.
  apply (NoDup_fmap_on _ selectionPair); [apply keptSelections_pairs_NoDup|].
  apply keyOfSelection_pair.
Qed.

Lemma entryOfKey_kept sel :
  sel ∈ keptSelections c →
  entryOfKey c (keyOfSelection c sel) = Some (normalizeColor sel).
Proof using c_named c_ids.
  intros Hin.
  destruct (kept_data _ Hin) as (j & d & s & r & Hj & Hd & Hn & Hs & Hr & He & Hrn).
  assert (keyOfSelection c sel = makeEntityDimensionKey (VStr s) (Z.of_nat j))
    as Hkey.
  { unfold keyOfSelection. by rewrite Hn, Hj. }
  destruct (keyIndex_has c j d (VStr s)) as [info Hinfo];
    [by eapply primaryDimensions_isReady|done..|].
  unfold entryOfKey. rewrite Hkey, Hinfo. simpl.
  destruct (keyIndex_entry _ _ _ Hinfo) as (Hk & _ & d' & Hd' & Hent).
  apply elem_of_entityNamesOf in Hent as (row' & Hrow' & _ & Hname').
  destruct (c_named row') as [s' Hs']; [by apply visibleRows_rows|].
  rewrite Hname' in Hs'. rewrite Hs' in Hk.
  apply makeEntityDimensionKey_inj in Hk as [<- Hidx].
  apply Nat2Z.inj in Hidx. subst j.
  f_equal. unfold normalizeColor, EntitySelection.with_color.
  destruct sel as [eid idx col]. simpl in *. f_equal.
  - rewrite Hs'.
    destruct (entityNameToIdMap_get (table c) (VStr s)) as (r1 & Hr1 & Hn1 & Hg);
      [by exists r|].
    unfold Map_get_value. rewrite Hg. simpl. rewrite <-He.
    apply c_ids; [done..|]. by rewrite Hn1, Hrn.
  - done.
  - rewrite <-Hkey. unfold colorsOf.
    apply foldl_recordColor_lookup.
    + rewrite <-list_fmap_compose. apply keptSelections_keys_NoDup.
    + apply list_elem_of_fmap. by eexists; split; [|exact Hin].
Qed.

(** Reading [selectedKeys] and assigning the result back. *)
Lemma roundtrip_when_ready :
  isReady c = true →
  (selectedKeys ≫= selectedKeys_set) c
  = Some ((), set_selectedData (normalizeColor <$> keptSelections c) c).
Proof using c_settled c_named c_ids.
  intros Hr. unfold mbind at 1, M_bind.
  rewrite (reads_selectedKeys c c_settled).
  unfold selectedKeys_set, mbind, M_bind. simpl. rewrite Hr. simpl.
  assert (reads (mapM selectionOfKey (keyOfSelection c <$> keptSelections c)) c
                (normalizeColor <$> keptSelections c)) as ->; [|done].
  apply reads_mapM_Forall2. apply Forall2_fmap, Forall_Forall2_diag.
  apply Forall_forall. intros sel Hsel.
  apply reads_selectionOfKey; [done|]. by apply entryOfKey_kept.
Qed.
End RoundTrip.

(** A chart over one ingested yearly variable (id 7) observed for France
    and Spain, with both entities selected. *)
Definition deaths_variable : OwidVariable :=
  {| id := 7; name := "deaths"; entities := [1; 2]; years := [2000; 2000];
     values := [VNum 1; VNum 2];
     unit := None; shortUnit := None; description := None; coverage := None;
     datasetId := None; datasetName := None; display := plain_display |}.

Definition deaths_table : Table :=
  default (newTable [] [])
    (fromLegacy (λ s, s) (λ _ _, 0) "2020-01-21"
       {| variables := [("7", deaths_variable)]; entityKey := two_entities |}).

Definition deaths_chart (mode : option AddCountryMode) : ChartConfig :=
  {| props :=
       {| selectedData :=
            [ {| EntitySelection.entityId := VNum 1; EntitySelection.index := 0;
                 EntitySelection.color := Some "red" |};
              {| EntitySelection.entityId := VNum 2; EntitySelection.index := 0;
                 EntitySelection.color := None |} ];
          dimensions := [ {| ChartDimension.property := "y";
                             ChartDimension.variableId := 7;
                             ChartDimension.display := plain_display |} ];
          props_addCountryMode := mode;
          minPopulationFilter := None |};
     table := deaths_table |}.

Lemma deaths_chart_settled mode : Settled (deaths_chart mode).
Proof.
  split; [split|].
  - apply (bool_decide_unpack _). vm_compute. reflexivity.
  - intros k col Hin.
    assert (Forall (λ kc, column_slug kc.2 = kc.1) (columns deaths_table)) as HF.
    { vm_compute. repeat constructor. }
    rewrite Forall_forall in HF. exact (HF _ Hin).
  - intros row s _ Hs. vm_compute in Hs. by apply elem_of_nil in Hs.
Qed.

Lemma deaths_table_named : EntityNamed deaths_table.
Proof.
  assert (Forall (λ row, ∃ s, get row "entityName" = VStr s) (rows deaths_table))
    as HF.
  { vm_compute. repeat constructor; eexists; reflexivity. }
  rewrite Forall_forall in HF. exact HF.
Qed.

Lemma deaths_table_ids : OneIdPerName deaths_table.
Proof.
  assert (Forall (λ r1, Forall (λ r2,
            get r1 "entityName" = get r2 "entityName" →
            get r1 "entityId" = get r2 "entityId") (rows deaths_table))
          (rows deaths_table)) as HF.
  { apply (bool_decide_unpack _). vm_compute. reflexivity. }
  intros r1 r2 H1 H2. rewrite Forall_forall in HF.
  specialize (HF r1 H1). rewrite Forall_forall in HF. exact (HF r2 H2).
Qed.


Lemma deaths_chart_lookupKey :
  ∃ meta c1, lookupKey "France_0" (deaths_chart None) = Some (meta, c1).
Proof.
  destruct (lookupKey "France_0" (deaths_chart None)) as [[meta c1]|] eqn:E.
  - by exists meta, c1.
  - vm_compute in E. discriminate.
Qed.

Lemma setKeyColor_selection_witness :
  ∃ c2, setKeyColor "France_0" (Some "blue") (deaths_chart None) = Some ((), c2) ∧
        length (selectedData (props c2)) = 2%nat.
Proof.
  destruct deaths_chart_lookupKey as (meta & c1 & Hl).
  destruct (setKeyColor_selection (deaths_chart None) "France_0" (Some "blue")
              meta c1 Hl) as (c2 & Hset & _ & _ & _ & _ & Hlen & _).
  exists c2. split; [exact Hset|exact Hlen].
Defined.

(** ** Two daily variables with different epochs *)

(** Modelled from the spec: [diffDateISOStringInDays] of [charts/Util] is
    not among the sources; the spec describes it as the difference between
    two dates "measured in whole days".  Dates are [YYYY-MM-DD]; the day
    number counts the days of the proleptic Gregorian calendar. *)
Definition digitValue (c : ascii) : Z :=
  match Ascii.is_nat c with
  | Some n => Z.of_nat n
  | None => 0
  end.

Fixpoint decimalValue (s : string) (acc : Z) : Z :=
  match s with
  | EmptyString => acc
  | String c rest => decimalValue rest (10 * acc + digitValue c)
  end.

Definition daysFromCivil (y m d : Z) : Z :=
  let y' := if m <=? 2 then y - 1 else y in
  let era := y' / 400 in
  let yoe := y' - era * 400 in
  let mp := (m + 9) mod 12 in
  let doy := (153 * mp + 2) / 5 + d - 1 in
  let doe := yoe * 365 + yoe / 4 - yoe / 100 + doy in
  era * 146097 + doe - 719468.

Definition isoDayNumber (s : string) : Z :=
  daysFromCivil (decimalValue (String.substring 0 4 s) 0)
                (decimalValue (String.substring 5 2 s) 0)
                (decimalValue (String.substring 8 2 s) 0).

Definition isoDiffInDays (a b : string) : Z := isoDayNumber a - isoDayNumber b.

Definition daily_display (zero : string) : OwidVariableDisplaySettings :=
  {| display_name := None; yearIsDay := true; zeroDay := Some zero;
     entityAnnotationsMap := None |}.

(** Cases counted from 2020-01-21, tests counted from 2020-01-11, both
    observed in France on 2020-01-21 and 2020-01-22. *)
Definition two_epochs : OwidVariablesAndEntityKey :=
  {| variables :=
       [ ("5", {| id := 5; name := "cases"; entities := [1; 1]; years := [0; 1];
                  values := [VNum 10; VNum 20];
                  unit := None; shortUnit := None; description := None;
                  coverage := None; datasetId := None; datasetName := None;
                  display := daily_display "2020-01-21" |});
         ("7", {| id := 7; name := "tests"; entities := [1; 1]; years := [10; 11];
                  values := [VNum 100; VNum 200];
                  unit := None; shortUnit := None; description := None;
                  coverage := None; datasetId := None; datasetName := None;
                  display := daily_display "2020-01-11" |}) ];
     entityKey := two_entities |}.

Definition two_epochs_table : Table :=
  default (newTable [] [])
    (fromLegacy (λ s, s) isoDiffInDays "2020-01-21" two_epochs).

(** The merged table holds one row per day, with the values of both
    variables. *)
Example two_epochs_rows :
  isoDayNumber "2020-01-21" - isoDayNumber "2020-01-11" = 10 ∧
  (λ row, (get row "day", get row "5-cases", get row "7-tests"))
    <$> rows two_epochs_table
  = [(VNum 0, VNum 10, VNum 100); (VNum 1, VNum 20, VNum 200)].
Proof. vm_compute. done. Qed.

Lemma fromLegacy_day_values_witness :
  ∃ key variable index,
    (key, variable) ∈ variables two_epochs ∧
    yearIsDay (display variable) = true ∧
    (index < length (values variable))%nat ∧
    VNum 1 = at_index VNum
               ((λ raw, raw + epochShift isoDiffInDays "2020-01-21" variable)
                  <$> years variable) index.
Proof.
  assert (fromLegacy (λ s, s) isoDiffInDays "2020-01-21" two_epochs
          = Some two_epochs_table) as Hf.
  { vm_compute. reflexivity. }
  destruct (fromLegacy_day_values (λ s, s) isoDiffInDays "2020-01-21"
              isoDayNumber (λ a b, eq_refl) two_epochs two_epochs_table Hf)
    as [Hday _].
  apply (Hday (default ∅ (rows two_epochs_table !! 1%nat)) (VNum 1)).
  - vm_compute. right. left.
  - vm_compute. reflexivity.
Defined.

(** ** The chart that [receiveData] leaves is settled *)

(** [ChartConfig.receiveData] *)
Definition receiveData (slugify : string → string)
    (diffDateISOStringInDays : string → string → Z) (EPOCH_DATE : string)
    (populationMap : gmap string Z)
    (json : OwidVariablesAndEntityKey) (c : ChartConfig) : option ChartConfig :=
  t ← fromLegacy slugify diffDateISOStringInDays EPOCH_DATE json;
  Some (updatePopulationFilter populationMap (set_table t c)).

(** Specs filed under their own slug, none of them a filter column. *)
Definition PlainSpecs (specs : list (string * ColumnSpec.t)) : Prop :=
  NoDup (Map_keys specs) ∧
  ∀ k s, (k, s) ∈ specs →
    ColumnSpec.slug s = k ∧ ColumnSpec.isFilterColumn s = false.

Lemma PlainSpecs_set k s specs :
  ColumnSpec.slug s = k → ColumnSpec.isFilterColumn s = false →
  PlainSpecs specs → PlainSpecs (Map_set k s specs).
Proof.
  intros Hk Hf [Hnd Hall]. split; [by apply Map_set_NoDup|].
  intros k' s' Hin. apply Map_set_elem in Hin as [[= -> ->]|Hin]; [done|].
  by apply Hall.
Qed.

Lemma identityColumnSpecs_plain : PlainSpecs identityColumnSpecs.
Proof.
  unfold identityColumnSpecs. repeat apply PlainSpecs_set; try done.
  split; [constructor|]. intros k s Hin. by apply elem_of_nil in Hin.
Qed.

Lemma newTable_columns rs specs :
  NoDup (Map_keys specs) →
  columns (newTable rs specs)
  = (λ ks, (ks.1, {| columnType := AnyColumn; spec := ks.2 |})) <$> specs.
Proof.
  intros Hnd. unfold newTable. simpl.
  assert (∀ pre post, specs = pre ++ post →
    foldl (λ cols slug,
             match Map_get slug specs with
             | Some s => Map_set slug {| columnType := AnyColumn; spec := s |} cols
             | None => cols
             end) [] (Map_keys pre)
    = (λ ks, (ks.1, {| columnType := AnyColumn; spec := ks.2 |})) <$> pre) as H.
  { induction pre as [|[k s] pre IH] using rev_ind; intros post Hspecs; [done|].
    unfold Map_keys. rewrite fmap_app.
    change ([(k, s)].*1) with [k]. rewrite foldl_snoc.
    fold (Map_keys pre).
    rewrite (IH ((k, s) :: post)) by (by rewrite Hspecs, <-app_assoc).
    rewrite (Map_get_elem_NoDup k s specs Hnd).
    2:{ rewrite Hspecs. apply elem_of_app. left. apply elem_of_app. right. left. }
    rewrite Map_set_fresh, fmap_app; [done|].
    unfold Map_keys. rewrite <-list_fmap_compose. simpl.
    rewrite Hspecs in Hnd. unfold Map_keys in Hnd.
    rewrite !fmap_app in Hnd. apply NoDup_app in Hnd as [Hnd _].
    apply NoDup_app in Hnd as (_ & Hfresh & _).
    intros Hk. apply (Hfresh k Hk). left. }
  rewrite (H specs []); [done|]. by rewrite app_nil_r.
Qed.

Lemma newTable_plain rs specs :
  PlainSpecs specs →
  WellKeyed (newTable rs specs) ∧ filterColumns (newTable rs specs) = [].
Proof.
  intros [Hnd Hall]. split; [split|].
  - rewrite newTable_columns by done. unfold Map_keys.
    rewrite <-list_fmap_compose. exact Hnd.
  - intros k col. rewrite newTable_columns by done.
    intros Hin. apply list_elem_of_fmap in Hin as ([k' s] & [= -> ->] & Hin).
    by apply Hall.
  - unfold filterColumns, columnsAsArray, Map_values.
    rewrite newTable_columns by done.
    assert (∀ c, c ∈ ((λ ks : string * ColumnSpec.t,
                         (ks.1, {| columnType := AnyColumn; spec := ks.2 |}))
                        <$> specs).*2 →
                 ColumnSpec.isFilterColumn (spec c) ≠ true) as Hno.
    { intros c Hc. apply list_elem_of_fmap in Hc as ([k c'] & -> & Hc).
      apply list_elem_of_fmap in Hc as ([k' s] & [= -> ->] & Hin). simpl.
      destruct (Hall _ _ Hin) as [_ ->]. done. }
    revert Hno. generalize (((λ ks : string * ColumnSpec.t,
                         (ks.1, {| columnType := AnyColumn; spec := ks.2 |}))
                        <$> specs).*2) as l.
    induction l as [|c l IH]; intros Hno; [done|].
    rewrite filter_cons_False; [|apply Hno; left].
    apply IH. intros ??. apply Hno. by right.
Qed.

Lemma ingestAll_plain slugify diffDateISOStringInDays EPOCH_DATE json vars rs specs :
  ingestAll slugify diffDateISOStringInDays EPOCH_DATE json vars
    = Some (rs, specs) →
  PlainSpecs specs.
Proof.
  revert rs specs. induction vars as [|kv vars IH] using rev_ind;
    intros rs specs Hi.
  - injection Hi as <- <-. apply identityColumnSpecs_plain.
  - rewrite ingestAll_snoc in Hi.
    destruct (ingestAll _ _ _ json vars) as [[rs0 specs0]|] eqn:E; [|done].
    simpl in Hi. apply ingestVariable_Some in Hi as (_ & _ & _ & _ & _ & ->).
    specialize (IH _ _ eq_refl). unfold specsAfter.
    destruct (legacyAnnotations _ _) as [[aslug amap]|];
      repeat apply PlainSpecs_set; done.
Qed.

(** A freshly ingested table has a proper registry and no filter column. *)
Lemma fromLegacy_plain slugify diffDateISOStringInDays EPOCH_DATE json t :
  fromLegacy slugify diffDateISOStringInDays EPOCH_DATE json = Some t →
  WellKeyed t ∧ filterColumns t = [].
Proof.
  unfold fromLegacy.
  fold (ingestAll slugify diffDateISOStringInDays EPOCH_DATE json (variables json)).
  destruct (ingestAll _ _ _ json (variables json)) as [[rs specs]|] eqn:E; [|done].
  simpl. intros [= <-]. apply newTable_plain. by eapply ingestAll_plain.
Qed.

Lemma addFilterColumn_slugs s p t s' :
  s' ∈ filterColumnSlugs (addFilterColumn s p t) →
  s' = s ∨ s' ∈ filterColumnSlugs t.
Proof.
  unfold filterColumnSlugs, columnsAsArray, Map_values.
  intros Hin. apply list_elem_of_fmap in Hin as (c & -> & Hc).
  apply list_elem_of_filter in Hc as [Hf Hc].
  apply list_elem_of_fmap in Hc as ([k c'] & -> & Hin). simpl in *.
  unfold addFilterColumn, _addComputedColumn in Hin. simpl in Hin.
  apply Map_set_elem in Hin as [[= -> ->]|Hin]; [by left|].
  right. apply list_elem_of_fmap. exists c'. split; [done|].
  apply list_elem_of_filter. split; [done|].
  apply list_elem_of_fmap. by exists (k, c').
Qed.

(** Registering a filter column, new or replacing one, keeps the table
    settled: the filter value is written on every row. *)
Lemma addFilterColumn_settled s p t :
  WellKeyed t → Materialized t →
  WellKeyed (addFilterColumn s p t) ∧ Materialized (addFilterColumn s p t).
Proof.
  intros [Hnd Hk] Hm. split; [split|].
  - unfold addFilterColumn, _addComputedColumn. simpl. by apply Map_set_NoDup.
  - intros k col Hin. unfold addFilterColumn, _addComputedColumn in Hin.
    simpl in Hin. apply Map_set_elem in Hin as [[= -> ->]|Hin]; [done|].
    by apply Hk.
  - intros row s' Hrow Hs'. rewrite addFilterColumn_rows in Hrow.
    apply list_elem_of_fmap in Hrow as (r & -> & Hr).
    destruct (decide (s = s')) as [->|Hne].
    + by rewrite get_insert_eq.
    + rewrite get_insert_ne by done.
      apply addFilterColumn_slugs in Hs' as [->|Hs']; [done|]. by apply Hm.
Qed.

Lemma deleteColumnBySlug_plain s t :
  WellKeyed t → filterColumns t = [] →
  WellKeyed (deleteColumnBySlug s t) ∧ Materialized (deleteColumnBySlug s t).
Proof.
  intros [Hnd Hk] Hf. split; [by split|].
  intros row s' _ Hs'. rewrite filterColumnSlugs_filterColumns in Hs'.
  change (filterColumns (deleteColumnBySlug s t)) with (filterColumns t) in Hs'.
  rewrite Hf in Hs'. by apply elem_of_nil in Hs'.
Qed.

(** The chart that [receiveData] leaves behind is settled. *)
Lemma receiveData_settled slugify diffDateISOStringInDays EPOCH_DATE
    populationMap json c c' :
  receiveData slugify diffDateISOStringInDays EPOCH_DATE populationMap json c
    = Some c' →
  Settled c'.
Proof.
  unfold receiveData. intros Hr.
  destruct (fromLegacy _ _ _ json) as [t|] eqn:E; [|done].
  simpl in Hr. injection Hr as <-.
  apply fromLegacy_plain in E as [Hwk Hf].
  assert (Materialized t) as Hm.
  { intros row s _ Hs. rewrite filterColumnSlugs_filterColumns, Hf in Hs.
    by apply elem_of_nil in Hs. }
  unfold updatePopulationFilter, Settled. simpl.
  destruct (minPopulationFilter (props c)) as [minPop|]; simpl.
  - destruct (minPop =? 0); simpl.
    + by apply deleteColumnBySlug_plain.
    + by apply addFilterColumn_settled.
  - by apply deleteColumnBySlug_plain.
Qed.

(** ** Reading the selection before the filter values are cached *)

(** The fields of a row that identify its entity. *)
Definition entityFields : list string := ["entityName"; "entityId"; "entityCode"].

Definition entityOf (row : Row) : Value * Value * Value :=
  (get row "entityId", get row "entityName", get row "entityCode").

(** The registry is keyed by slug, every filter column carries a function
    that does not look at the column's own field, and no filter column is
    filed under an entity field.  This is a condition on the registry
    alone: the rows may or may not carry filter values. *)
Record Coherent (t : Table) : Prop := {
  coherent_keys : WellKeyed t;
  coherent_fn : ∀ c, c ∈ filterColumns t →
    ∃ f, ColumnSpec.fn (spec c) = Some f ∧ ignores f (column_slug c);
  coherent_entity : ∀ s, s ∈ entityFields → s ∉ filterColumnSlugs t;
}.

(** *** The registry stays coherent *)

Lemma Coherent_columns t t' : columns t' = columns t → Coherent t → Coherent t'.
Proof.
  intros Hc [[Hnd Hk] Hfn He].
  assert (filterColumns t' = filterColumns t) as Hf.
  { unfold filterColumns, columnsAsArray. by rewrite Hc. }
  split; [split|..].
  - by rewrite Hc.
  - intros k col. rewrite Hc. apply Hk.
  - intros col. rewrite Hf. apply Hfn.
  - intros s. rewrite !filterColumnSlugs_filterColumns, Hf.
    rewrite <-filterColumnSlugs_filterColumns. apply He.
Qed.

Lemma plain_coherent t : WellKeyed t → filterColumns t = [] → Coherent t.
Proof.
  intros Hwk Hf. split; [done|..].
  - intros col. rewrite Hf. intros Hin. by apply elem_of_nil in Hin.
  - intros s _. rewrite filterColumnSlugs_filterColumns, Hf.
    apply not_elem_of_nil.
Qed.

Lemma addFilterColumn_filterColumns_elem s p t col :
  col ∈ filterColumns (addFilterColumn s p t) →
  col = filterColumnOf s p ∨ col ∈ filterColumns t.
Proof.
  unfold filterColumns, columnsAsArray, Map_values.
  intros Hin. apply list_elem_of_filter in Hin as [Hf Hin].
  apply list_elem_of_fmap in Hin as ([k col'] & -> & Hin). simpl in *.
  unfold addFilterColumn, _addComputedColumn in Hin. simpl in Hin.
  apply Map_set_elem in Hin as [[= -> ->]|Hin]; [by left|].
  right. apply list_elem_of_filter. split; [done|].
  apply list_elem_of_fmap. by exists (k, col').
Qed.

Lemma addFilterColumn_coherent s p t :
  Coherent t → s ∉ entityFields → predicate_ignores p s →
  Coherent (addFilterColumn s p t).
Proof.
  intros [[Hnd Hk] Hfn He] Hs Hp. split; [split|..].
  - unfold addFilterColumn, _addComputedColumn. simpl. by apply Map_set_NoDup.
  - intros k col Hin. unfold addFilterColumn, _addComputedColumn in Hin.
    simpl in Hin. apply Map_set_elem in Hin as [[= -> ->]|Hin]; [done|].
    by apply Hk.
  - intros col Hin.
    apply addFilterColumn_filterColumns_elem in Hin as [->|Hin]; [|by apply Hfn].
    exists (predicate_fn p). split; [done|].
    intros row v i. unfold predicate_fn. f_equal. apply Hp.
  - intros s' Hs' Hin. apply addFilterColumn_slugs in Hin as [->|Hin]; [done|].
    by apply (He s').
Qed.

Lemma deleteColumnBySlug_coherent s t :
  Coherent t → Coherent (deleteColumnBySlug s t).
Proof. by apply Coherent_columns. Qed.

Lemma updatePopulationFilter_coherent populationMap c :
  Coherent (table c) → Coherent (table (updatePopulationFilter populationMap c)).
Proof.
  intros Hc. unfold updatePopulationFilter.
  assert (Coherent (addFilterColumn "pop_filter"
            (populationPredicate populationMap
               (default 0 (minPopulationFilter (props c)))) (table c))) as Hadd.
  { apply addFilterColumn_coherent; [done| |].
    - unfold entityFields. intros Hin.
      repeat (apply elem_of_cons in Hin as [Hin|Hin]; [discriminate|]).
      by apply elem_of_nil in Hin.
    - by apply populationPredicate_ignores. }
  destruct (minPopulationFilter (props c)) as [minPop|]; simpl in *.
  - destruct (minPop =? 0); simpl; [by apply deleteColumnBySlug_coherent|done].
  - by apply deleteColumnBySlug_coherent.
Qed.


Lemma receiveData_coherent slugify diffDateISOStringInDays EPOCH_DATE
    populationMap json c c' :
  receiveData slugify diffDateISOStringInDays EPOCH_DATE populationMap json c
    = Some c' →
  Coherent (table c').
Proof.
  unfold receiveData. intros Hr.
  destruct (fromLegacy _ _ _ json) as [t|] eqn:E; [|done].
  simpl in Hr. injection Hr as <-.
  apply fromLegacy_plain in E as [Hwk Hf].
  apply updatePopulationFilter_coherent. simpl. by apply plain_coherent.
Qed.

(** A computation that leaves the registry alone leaves it coherent. *)
Lemma frames_coherent {A} (m : M A) c a c' :
  frames m → m c = Some (a, c') → Coherent (table c) → Coherent (table c').
Proof.
  intros Hm Hrun. destruct (Hm _ _ _ Hrun) as [_ Hcols].
  by apply Coherent_columns.
Qed.

(** *** One row through the filters *)







(** *** The entity fields of the rows *)









(** *** Computations on either side of the caching *)

Section Eased.
(** [c1] is the chart [c] after [unfilteredRows] has cached the filter
    values on the rows of its table. *)
Variables c c1 : ChartConfig.
Hypothesis pass_c : table_unfilteredRows c = Some (visibleRows (table c1), c1).
Hypothesis pass_c1 : table_unfilteredRows c1 = Some (visibleRows (table c1), c1).
Hypothesis same_props : props c = props c1.
Hypothesis same_columns : columns (table c) = columns (table c1).
Hypothesis same_entities :
  entityOf <$> rows (table c) = entityOf <$> rows (table c1).


















End Eased.





(** The chart of the two entities after a population threshold of 1000
    was set and taken away again: the [pop_filter] column is still
    registered, and no row carries its value. *)
Definition deaths_population : gmap string Z :=
  <["France" := 100]> (<["Spain" := 1000000]> ∅).

Definition refiltered_chart (mode : option AddCountryMode) : ChartConfig :=
  assign_minPopulationFilter deaths_population None
    (assign_minPopulationFilter deaths_population (Some 1000)
       (deaths_chart mode)).

Lemma refiltered_chart_table mode :
  table (refiltered_chart mode)
  = deleteColumnBySlug "pop_filter"
      (addFilterColumn "pop_filter"
         (populationPredicate deaths_population 1000) deaths_table).
Proof. reflexivity. Qed.

Lemma get_delete_eq (row : Row) s : get (delete s row) s = VUndef.
Proof. unfold get. by rewrite lookup_delete_eq. Qed.


Lemma refiltered_chart_unsettled mode :
  filterColumnSlugs (table (refiltered_chart mode)) = ["pop_filter"] ∧
  Forall (λ row, get row "pop_filter" = VUndef)
         (rows (table (refiltered_chart mode))) ∧
  ¬ Settled (refiltered_chart mode).
Proof.
  assert (filterColumnSlugs (table (refiltered_chart mode)) = ["pop_filter"])
    as Hslugs by (by vm_compute).
  assert (Forall (λ row, get row "pop_filter" = VUndef)
                 (rows (table (refiltered_chart mode)))) as Hrows.
  { rewrite refiltered_chart_table. unfold deleteColumnBySlug. simpl.
    apply Forall_fmap, Forall_forall. intros row _. apply get_delete_eq. }
  split_and!; [done..|]. intros [_ Hm].
  assert (length (rows (table (refiltered_chart mode))) = 2%nat) as Hlen
    by (by vm_compute).
  destruct (rows (table (refiltered_chart mode))) as [|row rs] eqn:E; [done|].
  apply Forall_cons in Hrows as [Hrow _].
  apply (Hm row "pop_filter"); [rewrite E; left| |done].
  rewrite Hslugs. left.
Qed.







(** * Further properties *)

(** ** Reading the filtered rows again *)

Lemma filterFn_cached fs row row' b :
  filterFn fs row = Some (row', b) → cached_from fs.*1 row row'.
Proof.
  revert row. induction fs as [|[s f] fs IH]; intros row Hf.
  - injection Hf as <- <-. constructor.
  - cbn [filterFn] in Hf.
    assert (∀ S S' r r', cached_from S r r' → (∀ x, x ∈ S → x ∈ S') →
                         cached_from S' r r') as Hmono.
    { intros S S' r r' Hc Hsub. induction Hc; [constructor|].
      constructor; [done|by apply Hsub]. }
    assert (∀ r1, cached_from ((s, f) :: fs).*1 row r1 →
              (if truthy (get r1 s) then filterFn fs r1 else Some (r1, false))
              = Some (row', b) → cached_from ((s, f) :: fs).*1 row row') as Hk.
    { intros r1 Hc1 Hr. destruct (truthy (get r1 s)).
      - apply IH in Hr.
        assert (cached_from ((s, f) :: fs).*1 r1 row') as Hc2.
        { eapply Hmono; [exact Hr|]. intros x Hx. by right. }
        clear -Hc1 Hc2. induction Hc2; [done|]. by constructor.
      - by injection Hr as <- <-. }
    case_decide as Hu.
    + destruct f as [g|]; [|done]. simpl in Hf.
      eapply Hk; [|exact Hf]. constructor; [constructor|left].
    + simpl in Hf. eapply Hk; [|exact Hf]. constructor.
Qed.

(** A row that went through [slugs.every(...)] goes through it again
    unchanged, and with the same verdict. *)
Lemma filterFn_stable fs row row' b :
  NoDup fs.*1 →
  (∀ s g s', (s, Some g) ∈ fs → s' ∈ fs.*1 → ignores g s') →
  filterFn fs row = Some (row', b) → filterFn fs row' = Some (row', b).
Proof.
  revert row. induction fs as [|[s f] fs IH]; intros row Hnd Hign Hf;
    [by injection Hf as <- <-|].
  apply NoDup_cons in Hnd as [Hs Hnd].
  assert (∀ s0 g s', (s0, Some g) ∈ fs → s' ∈ fs.*1 → ignores g s') as Hign'.
  { intros s0 g s' Hin Hs'. apply (Hign s0); by right. }
  cbn [filterFn] in Hf.
  set (row1 := if decide (get row s = VUndef)
               then (λ f, <[s := f row None]> row) <$> f else Some row) in Hf.
  destruct row1 as [r1|] eqn:Hr1; [|done]. simpl in Hf.
  destruct (truthy (get r1 s)) eqn:Ht.
  - pose proof (filterFn_cached _ _ _ _ Hf) as Hc.
    assert (get row' s = get r1 s) as Hget by (by eapply cached_from_get).
    cbn [filterFn]. rewrite decide_False; [|rewrite Hget; by destruct (get r1 s)].
    simpl. rewrite Hget, Ht. by eapply IH.
  - injection Hf as <- <-. cbn [filterFn].
    case_decide as Hu'; [|simpl; by rewrite Ht].
    subst row1. case_decide as Hu.
    + destruct f as [g|]; [|done]. simpl in Hr1. injection Hr1 as <-.
      simpl. rewrite get_insert_eq in Hu'. rewrite Hu'.
      assert (g (<[s := VUndef]> row) None = VUndef) as ->.
      { rewrite <-Hu'. apply (Hign s g s); by left. }
      by rewrite insert_insert_eq, get_insert_eq.
    + injection Hr1 as <-. done.
Qed.

(** X1: evaluating [unfilteredRows] a second time returns the same rows
    and leaves the table as the first evaluation left it, when the
    registry is keyed by slug and no filter function reads a filter
    field. *)
Theorem unfilteredRows_stable t view t' :
  WellKeyed t →
  (∀ c f s, c ∈ filterColumns t → ColumnSpec.fn (spec c) = Some f →
            s ∈ filterColumnSlugs t → ignores f s) →
  unfilteredRows t = Some (view, t') →
  unfilteredRows t' = Some (view, t').
Proof.
  intros Hwk Hign. unfold unfilteredRows at 1. case_decide as Hnil.
  - intros [= <- <-]. unfold unfilteredRows. by rewrite decide_True.
  - destruct (filterPass t) as [pass|] eqn:Hpass; [|done]. simpl.
    intros [= <- <-].
    unfold filterPass in Hpass. rewrite (filterFns_wellkeyed t Hwk) in Hpass.
    simpl in Hpass.
    set (fs := (λ c, (column_slug c, ColumnSpec.fn (spec c))) <$> filterColumns t)
      in Hpass.
    assert (fs.*1 = filterColumnSlugs t) as Hfs.
    { unfold fs. rewrite filterColumnSlugs_filterColumns, <-list_fmap_compose.
      done. }
    set (t' := {| rows := pass.*1; columns := columns t |}).
    assert (filterColumnSlugs t' = filterColumnSlugs t) as Hslugs by done.
    assert (filterFns t' = Some fs) as Hfns.
    { change (filterFns t') with (filterFns t). by apply filterFns_wellkeyed. }
    unfold unfilteredRows. rewrite Hslugs, decide_False by done.
    unfold filterPass. rewrite Hfns. simpl.
    assert (mapM (filterFn fs) pass.*1 = Some pass) as ->; [|done].
    apply mapM_Some. apply mapM_Some in Hpass.
    apply Forall2_fmap_l.
    assert (Forall (λ rb, filterFn fs rb.1 = Some rb) pass) as Hall.
    { apply Forall_forall. intros [row' b] Hin.
      apply list_elem_of_lookup in Hin as [i Hi].
      destruct (Forall2_lookup_r _ _ _ _ _ Hpass Hi) as (row & _ & Hrow).
      simpl. eapply filterFn_stable; [| |exact Hrow].
      - rewrite Hfs. by apply filterColumnSlugs_NoDup.
      - intros s g s' Hin Hs'.
        apply list_elem_of_fmap in Hin as (c & [= -> Hg] & Hc).
        apply (Hign c); [done..|]. by rewrite <-Hfs. }
    clear -Hall. induction Hall; by constructor.
Qed.

Lemma unfilteredRows_stable_witness :
  ∃ view t', unfilteredRows pop_filtered_table = Some (view, t') ∧
             unfilteredRows t' = Some (view, t').
Proof.
  destruct (unfilteredRows pop_filtered_table) as [[view t']|] eqn:E.
  - exists view, t'. split; [reflexivity|].
    apply (unfilteredRows_stable pop_filtered_table view t').
    + exact (sound_keys _ pop_filtered_table_sound).
    + intros c f s Hc Hf Hs.
      destruct (sound_fn _ pop_filtered_table_sound c Hc) as (g & Hg & _ & Hi & _).
      rewrite Hf in Hg. injection Hg as <-. by apply Hi.
    + exact E.
  - exfalso.
    destruct (unfilteredRows_sound _ pop_filtered_table_sound) as (? & ? & Hu & _).
    rewrite E in Hu. discriminate.
Defined.

(** ** The population filter follows its threshold *)

Lemma Map_set_keys_elem {K V} `{EqDecision K} (k : K) (v : V) m :
  k ∈ Map_keys (Map_set k v m).
Proof.
  rewrite Map_keys_set. case_decide; [done|]. apply elem_of_app. right. by left.
Qed.

Lemma Map_set_has {K V} `{EqDecision K} (k : K) (v : V) m :
  (k, v) ∈ Map_set k v m.
Proof. apply Map_get_Some_elem, Map_get_set_eq. Qed.

Lemma addFilterColumn_wellkeyed s p t :
  WellKeyed t → WellKeyed (addFilterColumn s p t).
Proof.
  intros [Hnd Hk]. split.
  - unfold addFilterColumn, _addComputedColumn. simpl. by apply Map_set_NoDup.
  - intros k col Hin. unfold addFilterColumn, _addComputedColumn in Hin.
    simpl in Hin. apply Map_set_elem in Hin as [[= -> ->]|Hin]; [done|].
    by apply Hk.
Qed.

Lemma addFilterColumn_is_filter s p t :
  s ∈ filterColumnSlugs (addFilterColumn s p t).
Proof.
  unfold filterColumnSlugs, columnsAsArray, Map_values.
  apply list_elem_of_fmap. exists (filterColumnOf s p). split; [done|].
  apply list_elem_of_filter. split; [done|].
  apply list_elem_of_fmap. exists (s, filterColumnOf s p). split; [done|].
  unfold addFilterColumn, _addComputedColumn. simpl. apply Map_set_has.
Qed.

Lemma filter_ext_in {A} (P Q : A → Prop) `{∀ x, Decision (P x)}
    `{∀ x, Decision (Q x)} (l : list A) :
  (∀ x, x ∈ l → P x ↔ Q x) → filter P l = filter Q l.
Proof.
  induction l as [|x l IH]; intros HPQ; [done|].
  rewrite !filter_cons.
  rewrite IH by (intros ??; apply HPQ; by right).
  destruct (decide (P x)) as [HP|HP], (decide (Q x)) as [HQ|HQ]; try done;
    exfalso; apply (HPQ x) in HP || apply (HPQ x) in HQ; done || by left.
Qed.

(** An entity without a population of its own that is named like an
    inherited member of the map is filtered out. *)
Lemma populationPredicate_inherited populationMap minPop row :
  populationMap !! toStr (get row "entityName") = None →
  toStr (get row "entityName") ∈ Object_prototype_members →
  populationPredicate populationMap minPop row = false.
Proof.
  intros Hown Hin. unfold populationPredicate. rewrite Hown.
  by rewrite bool_decide_eq_true_2.
Qed.

(** X2: with a non-zero threshold, [updatePopulationFilter] writes the
    verdict of the current threshold on every row, whatever an earlier
    threshold left there, and [unfilteredRows] then returns exactly the rows
    that [populationPredicate] keeps: a row whose entity has a population
    of its own in the map is kept when that population is zero or at
    least the threshold; a row whose entity has none is kept unless the
    entity is named like a member that the map inherits from
    [Object.prototype], such as [toString]. *)
Theorem updatePopulationFilter_threshold populationMap c minPop :
  WellKeyed (table c) →
  (∀ s, s ∈ filterColumnSlugs (table c) → s = "pop_filter") →
  minPopulationFilter (props c) = Some minPop → minPop ≠ 0 →
  let c' := updatePopulationFilter populationMap c in
  props c' = props c ∧
  rows (table c')
  = (λ row, <["pop_filter" := VBool (populationPredicate populationMap minPop row)]> row)
      <$> rows (table c) ∧
  unfilteredRows (table c')
  = Some (filter (λ row, populationPredicate populationMap minPop row = true)
                 (rows (table c')),
          table c').
Proof.
  intros Hwk Honly Hmin Hne. cbn zeta.
  set (p := populationPredicate populationMap minPop).
  assert (updatePopulationFilter populationMap c
          = set_table (addFilterColumn "pop_filter" p (table c)) c) as ->.
  { unfold updatePopulationFilter. rewrite Hmin.
    destruct (Z.eqb_spec minPop 0); done. }
  split; [done|]. cbn [table set_table]. split; [apply addFilterColumn_rows|].
  set (t' := addFilterColumn "pop_filter" p (table c)).
  assert (∀ s, s ∈ filterColumnSlugs t' → s = "pop_filter") as Honly'.
  { intros s Hs. apply addFilterColumn_slugs in Hs as [->|Hs]; [done|].
    by apply Honly. }
  rewrite unfilteredRows_materialized.
  - f_equal. f_equal. unfold visibleRows.
    apply filter_ext_in. intros row Hrow.
    cut (forallb (λ s, truthy (get row s)) (filterColumnSlugs t') = p row);
      [by intros ->|].
    unfold t' in Hrow. rewrite addFilterColumn_rows in Hrow.
    apply list_elem_of_fmap in Hrow as (row0 & -> & _).
    assert (p (<["pop_filter" := VBool (p row0)]> row0) = p row0) as Hp.
    { by apply populationPredicate_ignores. }
    rewrite Hp.
    pose proof (addFilterColumn_is_filter "pop_filter" p (table c)) as Hin.
    fold t' in Hin. revert Honly' Hin.
    generalize (filterColumnSlugs t') as slugs.
    induction slugs as [|s slugs IH]; intros Hall Hin;
      [by apply elem_of_nil in Hin|].
    assert (s = "pop_filter") as -> by (apply Hall; left).
    cbn [forallb]. rewrite get_insert_eq. cbn [truthy].
    destruct (p row0); [|done]. cbn [andb].
    destruct slugs as [|s' slugs']; [done|].
    apply IH; [intros ??; apply Hall; by right|].
    rewrite (Hall s') by (right; left). left.
  - by apply addFilterColumn_wellkeyed.
  - intros row s Hrow Hs. rewrite (Honly' s Hs).
    unfold t' in Hrow. rewrite addFilterColumn_rows in Hrow.
    apply list_elem_of_fmap in Hrow as (row0 & -> & _).
    by rewrite get_insert_eq.
Qed.

Lemma updatePopulationFilter_threshold_witness :
  let c := set_minPopulationFilter (Some 1000) small_and_big in
  props (updatePopulationFilter small_and_big_population c) = props c.
Proof.
  refine (proj1 (updatePopulationFilter_threshold small_and_big_population
                   (set_minPopulationFilter (Some 1000) small_and_big) 1000
                   _ _ _ _)).
  - split.
    + vm_compute. apply NoDup_singleton.
    + intros k col Hin. vm_compute in Hin.
      apply list_elem_of_singleton in Hin. by simplify_eq.
  - intros s Hs. vm_compute in Hs. by apply elem_of_nil in Hs.
  - reflexivity.
  - lia.
Defined.

(** ** Columns detected from the rows *)

Section DetectColumns_facts.
Variable Object_keys : Row → list string.
Hypothesis Object_keys_spec :
  ∀ row k, k ∈ Object_keys row ↔ is_Some (row !! k).

Lemma makeSpecsFromRows_get rs k s :
  Map_get k (makeSpecsFromRows Object_keys rs) = Some s → s = ColumnSpec.of_slug k.
Proof.
  unfold makeSpecsFromRows.
  assert (∀ m, (∀ k s, Map_get k m = Some s → s = ColumnSpec.of_slug k) →
    ∀ ks k s,
      Map_get k (foldl (λ map key, Map_set key (ColumnSpec.of_slug key) map) m ks)
        = Some s → s = ColumnSpec.of_slug k) as Hinner.
  { intros m Hm ks. revert m Hm. induction ks as [|k0 ks IH]; intros m Hm; [done|].
    simpl. apply IH. intros k1 s1. rewrite Map_get_set.
    case_decide; [by intros [= <-]; subst|apply Hm]. }
  assert (∀ m, (∀ k s, Map_get k m = Some s → s = ColumnSpec.of_slug k) →
    Map_get k (foldl (λ map row,
                        foldl (λ map key, Map_set key (ColumnSpec.of_slug key) map)
                              map (Object_keys row)) m rs) = Some s →
    s = ColumnSpec.of_slug k) as Houter.
  { induction rs as [|row rs IH]; intros m Hm; [apply Hm|].
    simpl. apply IH. intros k1 s1. by apply Hinner. }
  by apply Houter.
Qed.

Lemma makeSpecsFromRows_keys rs k :
  k ∈ Map_keys (makeSpecsFromRows Object_keys rs) ↔
  ∃ row, row ∈ rs ∧ is_Some (row !! k).
Proof using Object_keys_spec.
  unfold makeSpecsFromRows.
  assert (∀ rs m,
    k ∈ Map_keys (foldl (λ map row,
                           foldl (λ map key, Map_set key (ColumnSpec.of_slug key) map)
                                 map (Object_keys row)) m rs) ↔
    k ∈ Map_keys m ∨ ∃ row, row ∈ rs ∧ is_Some (row !! k)) as H.
  { clear rs. induction rs as [|row rs IH]; intros m.
    - simpl. split; [by left|]. intros [?|(? & Hin & _)]; [done|].
      by apply elem_of_nil in Hin.
    - simpl. rewrite IH, (Map_keys_foldl_elem (λ key, key) ColumnSpec.of_slug).
      rewrite list_fmap_id, Object_keys_spec. split.
      + intros [[?|?]|(r & ? & ?)]; [by left|right..].
        * exists row. split; [left|done].
        * exists r. split; [by right|done].
      + intros [?|(r & Hin & ?)]; [by left; left|].
        apply elem_of_cons in Hin as [->|Hin]; [by left; right|].
        right. by exists r. }
  rewrite H. split; [|by right]. intros [Hin|?]; [|done].
  by apply elem_of_nil in Hin.
Qed.

(** The columns that one pass over the detected slugs appends. *)
Lemma detect_fold (specs : list (string * ColumnSpec.t)) ks cols :
  (∀ k, k ∈ ks → Map_get k specs = Some (ColumnSpec.of_slug k)) →
  ∃ added,
    foldl (λ cols slug,
             if Map_has slug cols then cols
             else match Map_get slug specs with
                  | Some s => Map_set slug {| columnType := AnyColumn; spec := s |} cols
                  | None => cols
                  end) cols ks = cols ++ added ∧
    NoDup added.*1 ∧
    (∀ k col, (k, col) ∈ added →
       k ∈ ks ∧ (k ∉ Map_keys cols) ∧
       col = {| columnType := AnyColumn; spec := ColumnSpec.of_slug k |}) ∧
    (∀ k, k ∈ ks → k ∈ Map_keys (cols ++ added)).
Proof.
  revert cols. induction ks as [|k ks IH]; intros cols Hspecs.
  - exists []. rewrite app_nil_r. split_and!; [done|constructor| |].
    + intros ?? Hin. by apply elem_of_nil in Hin.
    + intros ? Hin. by apply elem_of_nil in Hin.
  - cbn [foldl]. destruct (Map_has k cols) eqn:Hhas;
      [apply bool_decide_eq_true in Hhas|apply bool_decide_eq_false in Hhas].
    + destruct (IH cols) as (added & -> & Hnd & Hadded & Hall);
        [intros ??; apply Hspecs; by right|].
      exists added. split_and!; [done..| |].
      * intros k' col Hin. destruct (Hadded _ _ Hin) as (? & ? & ?).
        split_and!; [by right|done..].
      * intros k' Hk'. apply elem_of_cons in Hk' as [->|Hk']; [|by apply Hall].
        unfold Map_keys. rewrite fmap_app. apply elem_of_app. left.
        by apply Map_get_is_Some.
    + rewrite (Hspecs k) by left.
      assert (k ∉ Map_keys cols) as Hfresh.
      { intros Hin. apply Hhas. by apply Map_get_is_Some. }
      rewrite Map_set_fresh by done.
      set (col := {| columnType := AnyColumn; spec := ColumnSpec.of_slug k |}).
      destruct (IH (cols ++ [(k, col)])) as (added & -> & Hnd & Hadded & Hall);
        [intros ??; apply Hspecs; by right|].
      exists ((k, col) :: added). rewrite <-app_assoc. split_and!; [done| | |].
      * rewrite fmap_cons. apply NoDup_cons. split; [|done].
        intros Hin. apply list_elem_of_fmap in Hin as ([k' c'] & Heq & Hin).
        simpl in Heq. subst k'.
        destruct (Hadded _ _ Hin) as (_ & Hnot & _). apply Hnot.
        unfold Map_keys. rewrite fmap_app. apply elem_of_app. right. by left.
      * intros k' c' Hin. apply elem_of_cons in Hin as [[= -> ->]|Hin];
          [split_and!; [left|done..]|].
        destruct (Hadded _ _ Hin) as (? & Hnot & ?).
        split_and!; [by right| |done].
        intros Hk'. apply Hnot. unfold Map_keys. rewrite fmap_app.
        apply elem_of_app. by left.
      * intros k' Hk'. apply elem_of_cons in Hk' as [->|Hk'].
        -- unfold Map_keys. rewrite fmap_app. apply elem_of_app. right. by left.
        -- change ((k, col) :: added) with ([(k, col)] ++ added).
           rewrite (app_assoc cols [(k, col)] added). by apply Hall.
Qed.

(** X3: [addRowsAndDetectColumns] appends the rows, keeps every column
    that was registered (same position, same column), appends a plain
    column for each field of a row, old or new, that had none, and so leaves
    every field of every row with a column. *)
Theorem addRowsAndDetectColumns_registry new t :
  let t' := addRowsAndDetectColumns Object_keys new t in
  rows t' = rows t ++ new ∧
  (∃ added,
     columns t' = columns t ++ added ∧
     NoDup added.*1 ∧
     ∀ k col, (k, col) ∈ added →
       (k ∉ Map_keys (columns t)) ∧
       col = {| columnType := AnyColumn; spec := ColumnSpec.of_slug k |} ∧
       ∃ row, row ∈ rows t ++ new ∧ is_Some (row !! k)) ∧
  (∀ row k, row ∈ rows t' → is_Some (row !! k) → k ∈ Map_keys (columns t')).
Proof using Object_keys_spec.
  cbn zeta. unfold addRowsAndDetectColumns, detectAndAddColumnsFromRows.
  cbn [rows columns].
  set (specs := makeSpecsFromRows Object_keys (rows t ++ new)).
  destruct (detect_fold specs (Map_keys specs) (columns t))
    as (added & -> & Hnd & Hadded & Hall).
  { intros k Hk. apply Map_get_is_Some in Hk as [s Hs].
    by rewrite Hs, (makeSpecsFromRows_get _ _ _ Hs). }
  split; [done|]. split.
  - exists added. split_and!; [done..|].
    intros k col Hin. destruct (Hadded _ _ Hin) as (Hk & ? & ?).
    split_and!; [done..|]. by apply makeSpecsFromRows_keys.
  - intros row k Hrow Hk. apply Hall. apply makeSpecsFromRows_keys. eauto.
Qed.

End DetectColumns_facts.

Lemma addRowsAndDetectColumns_registry_witness :
  let Object_keys := λ row : Row, (map_to_list row).*1 in
  let row : Row := <["a" := VNum 1]> ∅ in
  rows (addRowsAndDetectColumns Object_keys [row] (newTable [] [])) = [row].
Proof.
  refine (proj1 (addRowsAndDetectColumns_registry
                   (λ row : Row, (map_to_list row).*1) _
                   [<["a" := VNum 1]> ∅] (newTable [] []))).
  intros row k. split.
  - intros Hin. apply list_elem_of_fmap in Hin as ([k' v] & -> & Hin).
    apply elem_of_map_to_list in Hin. by exists v.
  - intros [v Hv]. apply list_elem_of_fmap. exists (k, v). split; [done|].
    by apply elem_of_map_to_list.
Defined.

(** ** The delimited export parses back *)

Lemma String_Forall_impl (P Q : ascii → Prop) s :
  (∀ c, P c → Q c) → String_Forall P s → String_Forall Q s.
Proof. intros HPQ. induction s as [|c s IH]; [done|]. intros [??]. split; auto. Qed.

Lemma String_Forall_join P sep l :
  String_Forall P sep → Forall (String_Forall P) l → String_Forall P (join sep l).
Proof.
  intros Hsep. induction 1 as [|x l Hx Hl IH]; [done|].
  destruct l as [|y l]; [done|].
  change (join sep (x :: y :: l)) with (x +:+ sep +:+ join sep (y :: l)).
  rewrite !String_Forall_app. done.
Qed.

Lemma split_sep_free d a :
  String_Forall (λ c, c ≠ d) a → split d a = [a].
Proof.
  induction a as [|c a IH]; [done|]. intros [Hc Ha].
  cbn [split]. rewrite decide_False by done. by rewrite IH.
Qed.

Lemma split_app_sep d a b :
  String_Forall (λ c, c ≠ d) a → split d (a +:+ String d b) = a :: split d b.
Proof.
  induction a as [|c a IH].
  - intros _. change ("" +:+ String d b) with (String d b).
    cbn [split]. by rewrite decide_True.
  - intros [Hc Ha].
    change (String c a +:+ String d b) with (String c (a +:+ String d b)).
    cbn [split]. rewrite decide_False by done. by rewrite IH.
Qed.

Lemma split_join d l :
  l ≠ [] → Forall (String_Forall (λ c, c ≠ d)) l →
  split d (join (String d "") l) = l.
Proof.
  intros Hne Hall. induction Hall as [|x l Hx Hl IH]; [done|].
  destruct l as [|y l]; [by apply split_sep_free|].
  change (join (String d "") (x :: y :: l))
    with (x +:+ String d (join (String d "") (y :: l))).
  rewrite split_app_sep by done. f_equal. by apply IH.
Qed.






(** ** When legacy ingestion succeeds *)

Section LegacyIngestion_total.
Variable slugify : string → string.
Variable diffDateISOStringInDays : string → string → Z.
Variable EPOCH_DATE : string.

Local Abbreviation ingest := (ingestAll slugify diffDateISOStringInDays EPOCH_DATE).
Local Abbreviation legacyTable :=
  (fromLegacy slugify diffDateISOStringInDays EPOCH_DATE).
Local Abbreviation slugOf := (valueSlug slugify).

Lemma ingestVariable_is_Some entityMetaById acc variable :
  is_Some (ingestVariable slugify diffDateISOStringInDays EPOCH_DATE
             entityMetaById acc variable) ↔
  Forall (λ i, is_Some (entityMetaById !! pretty i)) (entities variable).
Proof.
  destruct acc as [rs specs]. unfold ingestVariable.
  assert (∀ (f : EntityMeta → string),
    is_Some (mapM (λ i, f <$> entityMetaById !! pretty i) (entities variable)) ↔
    Forall (λ i, is_Some (entityMetaById !! pretty i)) (entities variable)) as H.
  { intros f. rewrite mapM_is_Some. apply Forall_proper; [|done].
    intros i. unfold compose. by rewrite fmap_is_Some. }
  split.
  - intros Hs. apply (H entity_name).
    destruct (mapM (λ i, entity_name <$> _) _); [done|].
    by destruct Hs.
  - intros Hall.
    destruct (proj2 (H entity_name) Hall) as [names ->].
    destruct (proj2 (H entity_code) Hall) as [codes ->]. done.
Qed.

Lemma ingestAll_is_Some json vars :
  is_Some (ingest json vars) ↔
  Forall (λ kv, Forall (λ i, is_Some (entityKey json !! pretty i)) (entities kv.2))
         vars.
Proof.
  induction vars as [|kv vars IH] using rev_ind.
  - split; [constructor|done].
  - rewrite ingestAll_snoc, Forall_app, Forall_singleton, <-IH.
    destruct (ingestAll _ _ _ json vars) as [acc|]; simpl.
    + rewrite ingestVariable_is_Some. split; [done|by intros [_ ?]].
    + split; [by intros []|by intros [[] _]].
Qed.

(** X5: [fromLegacy] returns a table exactly when every entity id that
    some variable lists has an entry in [entityKey]; otherwise reading the
    name of the missing entity raises. *)
Theorem fromLegacy_succeeds_iff json :
  is_Some (legacyTable json) ↔
  ∀ key variable i,
    (key, variable) ∈ variables json → i ∈ entities variable →
    is_Some (entityKey json !! pretty i).
Proof.
  unfold fromLegacy. fold (ingest json (variables json)).
  assert (is_Some (ingest json (variables json)) ↔
          is_Some (ingest json (variables json) ≫= λ '(rs, columnSpecs),
            Some (newTable (Object_assign <$> Map_values (groupBy groupKey rs))
                           columnSpecs))) as <-.
  { destruct (ingest json (variables json)) as [[rs specs]|]; simpl;
      [done|]. split; by intros []. }
  rewrite ingestAll_is_Some, Forall_forall. split.
  - intros Hall key variable i Hin Hi.
    specialize (Hall _ Hin). rewrite Forall_forall in Hall. by apply Hall.
  - intros Hall [key variable] Hin. apply Forall_forall. intros i Hi.
    by eapply Hall.
Qed.

(** ** The registry after ingestion *)

Lemma ingestAll_specs json vars rs specs k s :
  ingest json vars = Some (rs, specs) → (k, s) ∈ specs →
  s = ColumnSpec.of_slug k ∨
  ∃ key variable,
    (key, variable) ∈ vars ∧ k = slugOf variable ∧
    s = columnSpecFromLegacyVariable slugify variable
          (fst <$> legacyAnnotations (slugOf variable) variable).
Proof.
  revert rs specs. induction vars as [|kv vars IH] using rev_ind;
    intros rs specs Hi Hin.
  - injection Hi as <- <-. left. unfold identityColumnSpecs in Hin.
    repeat (apply Map_set_elem in Hin as [[= -> ->]|Hin]; [done|]).
    by apply elem_of_nil in Hin.
  - rewrite ingestAll_snoc in Hi.
    destruct (ingestAll _ _ _ json vars) as [[rs0 specs0]|] eqn:E; [|done].
    simpl in Hi. apply ingestVariable_Some in Hi as (_ & _ & _ & _ & _ & ->).
    assert ((k, s) ∈ specs0 →
            s = ColumnSpec.of_slug k ∨
            ∃ key variable,
              (key, variable) ∈ vars ++ [kv] ∧ k = slugOf variable ∧
              s = columnSpecFromLegacyVariable slugify variable
                    (fst <$> legacyAnnotations (slugOf variable) variable))
      as Hold.
    { intros Hin0. destruct (IH _ _ eq_refl Hin0) as [?|(key & v & ? & ?)];
        [by left|]. right. exists key, v. split; [|done].
      apply elem_of_app. by left. }
    unfold specsAfter in Hin.
    assert ((k, s) ∈ Map_set (valueSlug slugify kv.2)
              (columnSpecFromLegacyVariable slugify kv.2
                 (fst <$> legacyAnnotations (valueSlug slugify kv.2) kv.2))
              (Map_set (timeColumnName kv.2)
                       (ColumnSpec.of_slug (timeColumnName kv.2)) specs0) →
            s = ColumnSpec.of_slug k ∨
            ∃ key variable,
              (key, variable) ∈ vars ++ [kv] ∧ k = slugOf variable ∧
              s = columnSpecFromLegacyVariable slugify variable
                    (fst <$> legacyAnnotations (slugOf variable) variable))
      as Hnew.
    { intros Hin1. apply Map_set_elem in Hin1 as [[= -> ->]|Hin1].
      - right. exists kv.1, kv.2. split; [|done]. apply elem_of_app. right.
        apply list_elem_of_singleton. by destruct kv.
      - apply Map_set_elem in Hin1 as [[= -> ->]|Hin1]; [by left|by apply Hold]. }
    fold (valueSlug slugify kv.2) in Hin.
    destruct (legacyAnnotations _ kv.2) as [[aslug amap]|]; [|by apply Hnew].
    apply Map_set_elem in Hin as [[= -> ->]|Hin]; [by left|by apply Hnew].
Qed.

Lemma Map_keys_set_mono {K V} `{EqDecision K} (k k' : K) (v : V) m :
  k' ∈ Map_keys m → k' ∈ Map_keys (Map_set k v m).
Proof.
  intros Hin. rewrite Map_keys_set. case_decide; [done|].
  apply elem_of_app. by left.
Qed.

Lemma Map_keys_set_eq {K V} `{EqDecision K} (k : K) (v : V) m :
  k ∈ Map_keys (Map_set k v m).
Proof.
  rewrite Map_keys_set. case_decide; [done|]. apply elem_of_app. right. left.
Qed.

Lemma ingestAll_registers json vars rs specs key variable :
  ingest json vars = Some (rs, specs) → (key, variable) ∈ vars →
  timeColumnName variable ∈ Map_keys specs ∧ slugOf variable ∈ Map_keys specs.
Proof.
  revert rs specs. induction vars as [|kv vars IH] using rev_ind;
    intros rs specs Hi Hin; [by apply elem_of_nil in Hin|].
  rewrite ingestAll_snoc in Hi.
  destruct (ingestAll _ _ _ json vars) as [[rs0 specs0]|] eqn:E; [|done].
  simpl in Hi. apply ingestVariable_Some in Hi as (_ & _ & _ & _ & _ & ->).
  unfold specsAfter. fold (valueSlug slugify kv.2).
  assert (∀ k, k ∈ Map_keys
            (Map_set (valueSlug slugify kv.2)
               (columnSpecFromLegacyVariable slugify kv.2
                  (fst <$> legacyAnnotations (valueSlug slugify kv.2) kv.2))
               (Map_set (timeColumnName kv.2)
                        (ColumnSpec.of_slug (timeColumnName kv.2)) specs0)) →
          k ∈ Map_keys
                match legacyAnnotations (valueSlug slugify kv.2) kv.2 with
                | Some (annotationsColumnSlug, _) =>
                    Map_set annotationsColumnSlug
                      (ColumnSpec.of_slug annotationsColumnSlug)
                      (Map_set (valueSlug slugify kv.2)
                         (columnSpecFromLegacyVariable slugify kv.2
                            (fst <$> legacyAnnotations
                                       (valueSlug slugify kv.2) kv.2))
                         (Map_set (timeColumnName kv.2)
                            (ColumnSpec.of_slug (timeColumnName kv.2)) specs0))
                | None =>
                    Map_set (valueSlug slugify kv.2)
                      (columnSpecFromLegacyVariable slugify kv.2
                         (fst <$> legacyAnnotations
                                    (valueSlug slugify kv.2) kv.2))
                      (Map_set (timeColumnName kv.2)
                         (ColumnSpec.of_slug (timeColumnName kv.2)) specs0)
                end) as Hann.
  { intros k Hk. destruct (legacyAnnotations _ kv.2) as [[aslug amap]|];
      [by apply Map_keys_set_mono|done]. }
  apply elem_of_app in Hin as [Hin|Hin].
  - destruct (IH _ _ eq_refl Hin) as [Ht Hv].
    split; apply Hann; do 2 apply Map_keys_set_mono; done.
  - apply list_elem_of_singleton in Hin. subst kv. simpl.
    split; apply Hann.
    + apply Map_keys_set_mono, Map_keys_set_eq.
    + apply Map_keys_set_eq.
Qed.

Lemma fromLegacy_columns json t :
  legacyTable json = Some t →
  ∃ rs specs,
    ingest json (variables json) = Some (rs, specs) ∧
    NoDup (Map_keys specs) ∧
    rows t = Object_assign <$> Map_values (groupBy groupKey rs) ∧
    columns t
    = (λ ks, (ks.1, {| columnType := AnyColumn; spec := ks.2 |})) <$> specs.
Proof.
  unfold fromLegacy. fold (ingest json (variables json)).
  destruct (ingest json (variables json)) as [[rs specs]|] eqn:E; [|done].
  simpl. intros [= <-]. exists rs, specs.
  destruct (ingestAll_plain _ _ _ _ _ _ _ E) as [Hnd _].
  split_and!; [done..|]. by apply newTable_columns.
Qed.

Lemma valueSlug_ne_plain variable k :
  String_Forall (λ c, c ≠ "-"%char) k → slugOf variable ≠ k.
Proof. intros Hk. unfold valueSlug. simpl. by apply append_dash_ne. Qed.

(** X6: after [fromLegacy], [dayColumn] is defined exactly when some
    variable is measured in days; [hasDayColumn], which looks for a column
    named "day", is then true as well, and it is true otherwise only if a
    variable itself is named "day". *)
Theorem fromLegacy_day_column json t :
  legacyTable json = Some t →
  (is_Some (dayColumn t) ↔
     ∃ key variable, (key, variable) ∈ variables json ∧
                     yearIsDay (display variable) = true) ∧
  (is_Some (dayColumn t) → hasDayColumn t = true) ∧
  (hasDayColumn t = true →
     is_Some (dayColumn t) ∨
     ∃ key variable, (key, variable) ∈ variables json ∧ name variable = "day").
Proof.
  intros Ht.
  destruct (fromLegacy_columns _ _ Ht) as (rs & specs & Hi & Hnd & _ & Hcols).
  assert (∀ k, k ∈ Map_keys (columns t) ↔ k ∈ Map_keys specs) as Hkeys.
  { intros k. rewrite Hcols. unfold Map_keys.
    by rewrite <-list_fmap_compose. }
  assert (∀ col, col ∈ columnsAsArray t →
            ∃ k s, (k, s) ∈ specs ∧ col = {| columnType := AnyColumn; spec := s |})
    as Hcol.
  { intros col. unfold columnsAsArray, Map_values. rewrite Hcols.
    rewrite <-list_fmap_compose. intros Hin.
    apply list_elem_of_fmap in Hin as ([k s] & -> & Hin). by exists k, s. }
  assert (is_Some (dayColumn t) → hasDayColumn t = true) as Hhas.
  { intros Hday. unfold dayColumn in Hday.
    apply Map_get_is_Some, Hkeys in Hday.
    apply list_elem_of_fmap in Hday as ([k s] & Hk & Hin). simpl in Hk. subst k.
    unfold hasDayColumn. apply bool_decide_eq_true.
    unfold columnNames. rewrite elem_of_Set_from.
    apply list_elem_of_fmap.
    exists {| columnType := AnyColumn; spec := s |}. split.
    - destruct (ingestAll_specs _ _ _ _ _ _ Hi Hin) as [->|(? & v & _ & Hk & _)];
        [done|].
      symmetry in Hk. by apply valueSlug_ne_plain in Hk.
    - unfold columnsAsArray, Map_values. rewrite Hcols, <-list_fmap_compose.
      apply list_elem_of_fmap. by exists ("day", s). }
  split_and!; [|done|].
  - unfold dayColumn. rewrite Map_get_is_Some, Hkeys. split.
    + intros Hk.
      destruct (ingestAll_keys _ _ _ _ _ _ _ _ Hi Hk) as [Hid|(key & v & Hin & Hreg)].
      { repeat (apply elem_of_cons in Hid as [?|Hid]; [done|]).
        by apply elem_of_nil in Hid. }
      exists key, v. split; [done|].
      destruct Hreg as [Hk'|[Hk'|[Hk' _]]].
      * unfold timeColumnName in Hk'. by destruct (yearIsDay (display v)).
      * symmetry in Hk'. fold (slugOf v) in Hk'.
        by apply valueSlug_ne_plain in Hk'.
      * symmetry in Hk'. unfold makeAnnotationColumnSlug in Hk'.
        change "-annotations" with ("-" +:+ "annotations") in Hk'.
        by apply append_dash_ne in Hk'.
    + intros (key & v & Hin & Hd).
      destruct (ingestAll_registers _ _ _ _ _ _ Hi Hin) as [Htime _].
      unfold timeColumnName in Htime. by rewrite Hd in Htime.
  - intros Hnamed. unfold hasDayColumn in Hnamed.
    apply bool_decide_eq_true in Hnamed. unfold columnNames in Hnamed.
    rewrite elem_of_Set_from in Hnamed.
    apply list_elem_of_fmap in Hnamed as (col & Hname & Hin).
    destruct (Hcol _ Hin) as (k & s & Hks & ->).
    destruct (ingestAll_specs _ _ _ _ _ _ Hi Hks) as [->|(key & v & Hv & _ & ->)].
    + left. unfold dayColumn. apply Map_get_is_Some, Hkeys.
      unfold column_name in Hname. simpl in Hname. subst k.
      apply list_elem_of_fmap. by exists ("day", ColumnSpec.of_slug "day").
    + right. exists key, v. split; [done|]. by rewrite Hname.
Qed.

End LegacyIngestion_total.

Lemma fromLegacy_day_column_witness :
  hasDayColumn two_epochs_table = true.
Proof.
  refine (proj1 (proj2 (fromLegacy_day_column (λ s, s) isoDiffInDays "2020-01-21"
                          two_epochs two_epochs_table _)) _).
  - vm_compute. reflexivity.
  - vm_compute. eexists. reflexivity.
Defined.

(** ** Printed ids as a prefix *)

Lemma pretty_N_go_length x s :
  (String.length s ≤ String.length (pretty_N_go x s))%nat.
Proof.
  revert s. induction (N.lt_wf_0 x) as [x _ IH]; intros s.
  assert (x = 0 ∨ 0 < x)%N as [->|?] by lia; [by rewrite pretty_N_go_0|].
  rewrite pretty_N_go_step by done.
  etrans; [|by eapply IH, N.div_lt]. simpl. lia.
Qed.

(** A number that is not negative prints as a digit followed by digits. *)
Lemma pretty_Z_nonneg_head (a : Z) :
  0 ≤ a →
  ∃ c rest, pretty a = String c rest ∧ c ≠ "-"%char ∧
            String_Forall (λ c, c ≠ "-"%char) rest.
Proof.
  intros Ha.
  assert (String_Forall (λ c, c ≠ "-"%char) (pretty a)) as Hfree.
  { destruct a as [|p|p]; [by repeat split| |lia].
    apply (pretty_N_Forall (λ c, c ≠ "-"%char) (Npos p)).
    apply pretty_N_char_ne. intros d Hd.
    assert (d = 0 ∨ d = 1 ∨ d = 2 ∨ d = 3 ∨ d = 4 ∨ d = 5 ∨ d = 6 ∨ d = 7
            ∨ d = 8 ∨ d = 9)%N as Hcases by lia.
    destruct Hcases as [->|[->|[->|[->|[->|[->|[->|[->|[->| ->]]]]]]]]]; done. }
  destruct (pretty a) as [|c rest] eqn:E.
  - exfalso. destruct a as [|p|p]; [done| |lia].
    change (pretty (Zpos p)) with (pretty (Npos p)) in E.
    unfold pretty, pretty_N in E. rewrite decide_False in E by done.
    pose proof (pretty_N_go_length (N.pos p) "") as Hlen.
    rewrite pretty_N_go_step in Hlen, E by done.
    pose proof (pretty_N_go_length (N.pos p `div` 10)
                  (String (pretty_N_char (N.pos p `mod` 10)) "")) as Hlen'.
    rewrite E in Hlen'. simpl in Hlen'. lia.
  - destruct Hfree as [Hc Hrest]. by exists c, rest.
Qed.

Lemma pretty_Z_dash_inj (a b : Z) x y :
  pretty a +:+ "-" +:+ x = pretty b +:+ "-" +:+ y → a = b.
Proof.
  assert (∀ a b : Z, 0 ≤ a → 0 ≤ b → ∀ x y,
            pretty a +:+ "-" +:+ x = pretty b +:+ "-" +:+ y → a = b) as Hpos.
  { clear. intros a b Ha Hb x y Heq.
    destruct (pretty_Z_nonneg_head a Ha) as (ca & ra & Hpa & Hca & Hra).
    destruct (pretty_Z_nonneg_head b Hb) as (cb & rb & Hpb & Hcb & Hrb).
    apply (prefix_separator_inj "-"%char) in Heq as [Heq _].
    - by apply (inj pretty) in Heq.
    - rewrite Hpa. by split.
    - rewrite Hpb. by split. }
  assert (∀ a p : Z, 0 ≤ a → p < 0 → ∀ x y,
            pretty a +:+ "-" +:+ x ≠ pretty p +:+ "-" +:+ y) as Hmixed.
  { clear. intros a p Ha Hp x y Heq.
    destruct (pretty_Z_nonneg_head a Ha) as (ca & ra & Hpa & Hca & Hra).
    rewrite Hpa in Heq. destruct p as [|p|p]; [lia..|].
    change (pretty (Z.neg p) +:+ "-" +:+ y)
      with (String "-" (pretty (Z.pos p) +:+ "-" +:+ y)) in Heq.
    change (String ca ra +:+ "-" +:+ x)
      with (String ca (ra +:+ "-" +:+ x)) in Heq.
    by injection Heq as -> _. }
  intros Heq.
  destruct (decide (0 ≤ a)) as [Ha|Ha], (decide (0 ≤ b)) as [Hb|Hb].
  - by eapply Hpos.
  - exfalso. apply (Hmixed a b Ha) in Heq; [done|lia].
  - exfalso. symmetry in Heq. apply (Hmixed b a Hb) in Heq; [done|lia].
  - destruct a as [|pa|pa]; [lia..|]. destruct b as [|pb|pb]; [lia..|].
    change (pretty (Z.neg pa) +:+ "-" +:+ x)
      with (String "-" (pretty (Z.pos pa) +:+ "-" +:+ x)) in Heq.
    change (pretty (Z.neg pb) +:+ "-" +:+ y)
      with (String "-" (pretty (Z.pos pb) +:+ "-" +:+ y)) in Heq.
    injection Heq as Heq. apply Hpos in Heq; [|lia..]. by injection Heq as ->.
Qed.

Lemma append_assoc (a b c : string) : (a +:+ b) +:+ c = a +:+ (b +:+ c).
Proof.
  induction a as [|x a IH]; [done|].
  change (String x ((a +:+ b) +:+ c) = String x (a +:+ (b +:+ c))).
  by rewrite IH.
Qed.

Lemma length_append (a b : string) :
  String.length (a +:+ b) = (String.length a + String.length b)%nat.
Proof.
  induction a as [|x a IH]; [done|].
  change (S (String.length (a +:+ b)) = S (String.length a + String.length b)).
  by rewrite IH.
Qed.

(** ** Data for every dimension makes the chart ready *)

Lemma Map_set_elem_ne {K V} `{EqDecision K} (k k' : K) (v v' : V) m :
  k ≠ k' → (k', v') ∈ m → (k', v') ∈ Map_set k v m.
Proof.
  intros Hne. induction m as [|[k0 v0] m IH]; intros Hin;
    [by apply elem_of_nil in Hin|].
  cbn [Map_set]. case_decide as Hk.
  - subst k0. apply elem_of_cons in Hin as [[= -> ->]|Hin]; [done|by right].
  - apply elem_of_cons in Hin as [->|Hin]; [left|right; by apply IH].
Qed.

Lemma columnsByOwidVarId_has t col i :
  col ∈ columnsAsArray t → ColumnSpec.owidVariableId (spec col) = Some i →
  Map_has i (columnsByOwidVarId t) = true.
Proof.
  intros Hin Hid. unfold Map_has. apply bool_decide_eq_true, Map_get_is_Some.
  unfold columnsByOwidVarId.
  apply (Map_keys_foldl_elem
           (λ ic : nat * Column,
              default (Z.of_nat ic.1) (ColumnSpec.owidVariableId (spec ic.2)))
           (λ ic, ic.2)).
  right. apply list_elem_of_lookup in Hin as [pos Hpos].
  apply list_elem_of_fmap. exists (pos, col). split; [simpl; by rewrite Hid|].
  apply list_elem_of_lookup. exists pos. by rewrite list_lookup_imap, Hpos.
Qed.

Lemma filter_none {A} (P : A → Prop) `{∀ x, Decision (P x)} (l : list A) :
  Forall (λ x, ¬ P x) l → filter P l = [].
Proof.
  induction 1 as [|x l Hx _ IH]; [done|]. by rewrite filter_cons_False.
Qed.

Section ReceiveData_ready.
Variable slugify : string → string.
Variable diffDateISOStringInDays : string → string → Z.
Variable EPOCH_DATE : string.
Variable populationMap : gmap string Z.

(** The registry after ingestion holds, for every variable ingested, a
    value column that carries the variable's id. *)
Definition HasId (specs : list (string * ColumnSpec.t)) (i : Z) : Prop :=
  ∃ variable s, (valueSlug slugify variable, s) ∈ specs ∧ id variable = i ∧
                ColumnSpec.owidVariableId s = Some i.

Lemma valueSlug_id variable variable' :
  valueSlug slugify variable = valueSlug slugify variable' →
  id variable = id variable'.
Proof. unfold valueSlug. simpl. apply pretty_Z_dash_inj. Qed.

Lemma annotationSlug_id variable variable' :
  valueSlug slugify variable
    = makeAnnotationColumnSlug (valueSlug slugify variable') →
  id variable = id variable'.
Proof.
  unfold valueSlug, makeAnnotationColumnSlug. simpl. intros Heq.
  rewrite append_assoc in Heq. eapply pretty_Z_dash_inj. exact Heq.
Qed.

Lemma annotationSlug_ne variable :
  makeAnnotationColumnSlug (valueSlug slugify variable)
  ≠ valueSlug slugify variable.
Proof.
  unfold makeAnnotationColumnSlug. intros Heq.
  apply (f_equal String.length) in Heq.
  rewrite length_append in Heq. simpl in Heq. lia.
Qed.

Lemma specsAfter_eq variable specs :
  specsAfter slugify variable specs
  = let slug := valueSlug slugify variable in
    let base :=
      Map_set slug
        (columnSpecFromLegacyVariable slugify variable
           (fst <$> legacyAnnotations slug variable))
        (Map_set (timeColumnName variable)
                 (ColumnSpec.of_slug (timeColumnName variable)) specs) in
    match legacyAnnotations slug variable with
    | Some _ =>
        Map_set (makeAnnotationColumnSlug slug)
                (ColumnSpec.of_slug (makeAnnotationColumnSlug slug)) base
    | None => base
    end.
Proof.
  unfold specsAfter, valueSlug. cbn zeta.
  destruct (legacyAnnotations _ variable) as [[aslug amap]|] eqn:Ha; [|done].
  by apply legacyAnnotations_Some in Ha as [-> _].
Qed.

Lemma HasId_specsAfter variable specs i :
  HasId specs i ∨ i = id variable → HasId (specsAfter slugify variable specs) i.
Proof.
  set (slug := valueSlug slugify variable).
  set (sp := columnSpecFromLegacyVariable slugify variable
               (fst <$> legacyAnnotations slug variable)).
  assert ((slug, sp) ∈ specsAfter slugify variable specs) as Hown.
  { rewrite specsAfter_eq. cbn zeta. fold slug. fold sp.
    destruct (legacyAnnotations slug variable) as [[aslug amap]|] eqn:Ha;
      [|apply Map_set_has].
    apply Map_set_elem_ne; [apply annotationSlug_ne|apply Map_set_has]. }
  assert (HasId (specsAfter slugify variable specs) (id variable)) as Hnew.
  { exists variable, sp. done. }
  intros [(v & s & Hin & Hid & Hs)| ->]; [|done].
  destruct (decide (id v = id variable)) as [Heq|Hne];
    [by rewrite <-Hid, Heq|].
  exists v, s. split_and!; [|done..].
  rewrite specsAfter_eq. cbn zeta. fold slug. fold sp.
  assert ((valueSlug slugify v, s)
            ∈ Map_set slug sp
                (Map_set (timeColumnName variable)
                         (ColumnSpec.of_slug (timeColumnName variable)) specs))
    as Hin'.
  { apply Map_set_elem_ne; [intros Heq; apply Hne; by apply valueSlug_id|].
    apply Map_set_elem_ne; [|done].
    intros Heq. symmetry in Heq. revert Heq. apply valueSlug_ne_plain.
    unfold timeColumnName. by destruct (yearIsDay (display variable)). }
  destruct (legacyAnnotations slug variable) as [[aslug amap]|] eqn:Ha; [|done].
  apply Map_set_elem_ne; [|done].
  intros Heq. apply Hne. symmetry in Heq. by apply annotationSlug_id.
Qed.

Lemma ingestAll_HasId json vars rs specs key variable :
  ingestAll slugify diffDateISOStringInDays EPOCH_DATE json vars
    = Some (rs, specs) →
  (key, variable) ∈ vars → HasId specs (id variable).
Proof.
  revert rs specs. induction vars as [|kv vars IH] using rev_ind;
    intros rs specs Hi Hin; [by apply elem_of_nil in Hin|].
  rewrite ingestAll_snoc in Hi.
  destruct (ingestAll _ _ _ json vars) as [[rs0 specs0]|] eqn:E; [|done].
  simpl in Hi. apply ingestVariable_Some in Hi as (_ & _ & _ & _ & _ & ->).
  apply HasId_specsAfter. apply elem_of_app in Hin as [Hin|Hin].
  - left. by eapply IH.
  - right. apply list_elem_of_singleton in Hin. by subst kv.
Qed.

Lemma fromLegacy_id_column json t key variable :
  fromLegacy slugify diffDateISOStringInDays EPOCH_DATE json = Some t →
  (key, variable) ∈ variables json →
  ∃ k col, (k, col) ∈ columns t ∧ k ≠ "pop_filter" ∧
           ColumnSpec.owidVariableId (spec col) = Some (id variable).
Proof.
  intros Ht Hin.
  destruct (fromLegacy_columns _ _ _ _ _ Ht) as (rs & specs & Hi & Hnd & _ & Hcols).
  destruct (ingestAll_HasId _ _ _ _ _ _ Hi Hin) as (v & s & Hs & _ & Hid).
  exists (valueSlug slugify v), {| columnType := AnyColumn; spec := s |}.
  split_and!; [|by apply valueSlug_ne_plain|done].
  rewrite Hcols. apply list_elem_of_fmap. by exists (valueSlug slugify v, s).
Qed.

(** X7: when the data received holds a variable for every dimension of
    the chart, the chart is ready after [receiveData]: no variable id is
    left loading, and the filled dimensions are as many as the configured
    ones. *)
Theorem receiveData_ready json c c' :
  receiveData slugify diffDateISOStringInDays EPOCH_DATE populationMap json c
    = Some c' →
  (∀ dim, dim ∈ dimensions (props c) →
     ∃ key variable, (key, variable) ∈ variables json ∧
                     id variable = ChartDimension.variableId dim) →
  props c' = props c ∧
  loadingVarIds c' = [] ∧
  isReady c' = true ∧
  length (filledDimensions c') = length (dimensions (props c)).
Proof.
  intros Hr Hdims. unfold receiveData in Hr.
  destruct (fromLegacy _ _ _ json) as [t|] eqn:Ht; [|done].
  simpl in Hr. injection Hr as <-.
  assert (props (updatePopulationFilter populationMap (set_table t c)) = props c)
    as Hprops.
  { unfold updatePopulationFilter. simpl.
    destruct (minPopulationFilter (props c)) as [m|]; [|done].
    by destruct (Z.eqb m 0). }
  assert (∀ k col, (k, col) ∈ columns t → k ≠ "pop_filter" →
            col ∈ columnsAsArray
                    (table (updatePopulationFilter populationMap (set_table t c))))
    as Hkeep.
  { intros k col Hin Hk. unfold columnsAsArray, Map_values.
    apply list_elem_of_fmap. exists (k, col). split; [done|].
    unfold updatePopulationFilter. simpl.
    destruct (minPopulationFilter (props c)) as [m|]; [|done].
    destruct (Z.eqb m 0); [done|]. simpl.
    apply Map_set_elem_ne; [intros Heq; by apply Hk|done]. }
  assert (loadingVarIds (updatePopulationFilter populationMap (set_table t c)) = [])
    as Hloading.
  { unfold loadingVarIds. rewrite Hprops.
    apply filter_none, Forall_forall. intros i Hi.
    apply list_elem_of_fmap in Hi as (dim & -> & Hdim).
    destruct (Hdims dim Hdim) as (key & v & Hin & <-).
    destruct (fromLegacy_id_column _ _ _ _ Ht Hin) as (k & col & Hcol & Hk & Hid).
    rewrite (columnsByOwidVarId_has _ col); [done| |done].
    by eapply Hkeep. }
  assert (isReady (updatePopulationFilter populationMap (set_table t c)) = true)
    as Hready.
  { unfold isReady. by rewrite Hloading. }
  split_and!; [done..|].
  rewrite filledDimensions_length by done. by rewrite Hprops.
Qed.
End ReceiveData_ready.

Lemma receiveData_ready_witness :
  ∃ c', receiveData (λ s, s) (λ _ _, 0) "2020-01-21" ∅
          {| variables := [("7", deaths_variable)]; entityKey := two_entities |}
          (deaths_chart None) = Some c' ∧
        isReady c' = true.
Proof.
  eexists. split; [vm_compute; reflexivity|].
  refine (proj1 (proj2 (proj2
    (receiveData_ready (λ s, s) (λ _ _, 0) "2020-01-21" ∅
       {| variables := [("7", deaths_variable)]; entityKey := two_entities |}
       (deaths_chart None) _ _ _)))).
  - vm_compute. reflexivity.
  - intros dim Hdim. vm_compute in Hdim.
    apply list_elem_of_singleton in Hdim as ->.
    exists "7", deaths_variable. split; [left|reflexivity].
Defined.

(** ** The rows after ingestion *)

(** The time part of the key under which [fromLegacy] groups a row. *)
Definition timeText (r : Row) : string :=
  if decide (get r "year" ≠ VUndef)
  then "year:" +:+ toStr (get r "year")
  else "day:" +:+ toStr (get r "day").

(** A row built from an observation holds a year or a day, never both,
    and what it holds is a number. *)
Record TimeShape (r : Row) : Prop := {
  shape_year :
    get r "year" = VUndef ∨ (∃ z, get r "year" = VNum z) ∧ get r "day" = VUndef;
  shape_day : get r "day" = VUndef ∨ ∃ z, get r "day" = VNum z;
}.

Lemma groupKey_timeText r :
  groupKey r = timeText r +:+ String " "%char (toStr (get r "entityName")).
Proof. done. Qed.

Lemma pretty_ne_undefined (z : Z) : pretty z ≠ "undefined".
Proof.
  intros Heq.
  assert (String_Forall (λ c, c ≠ "u"%char) (pretty z)) as Hno
    by (by apply pretty_Z_chars).
  rewrite Heq in Hno. by destruct Hno.
Qed.

Lemma timeText_no_space r :
  TimeShape r → String_Forall (λ c, c ≠ " "%char) (timeText r).
Proof.
  intros [Hy Hd]. unfold timeText.
  assert (∀ z : Z, String_Forall (λ c, c ≠ " "%char) (pretty z)) as Hpretty.
  { intros z. by apply pretty_Z_chars. }
  case_decide as Hu.
  - destruct Hy as [Hy|[[z Hz] _]]; [done|]. rewrite Hz.
    apply String_Forall_app. split; [by repeat split|apply Hpretty].
  - destruct Hd as [->|[z ->]]; [by repeat split|].
    apply String_Forall_app. split; [by repeat split|apply Hpretty].
Qed.

Lemma timeText_inj r r' :
  TimeShape r → TimeShape r' → timeText r = timeText r' →
  get r "year" = get r' "year" ∧ get r "day" = get r' "day".
Proof.
  intros [Hy Hd] [Hy' Hd']. unfold timeText.
  destruct (decide (get r "year" ≠ VUndef)) as [Hu|Hu],
           (decide (get r' "year" ≠ VUndef)) as [Hu'|Hu'].
  - destruct Hy as [?|[[z Hz] Hday]]; [done|].
    destruct Hy' as [?|[[z' Hz'] Hday']]; [done|].
    rewrite Hz, Hz', Hday, Hday'. intros Heq.
    apply (inj (String.append "year:")) in Heq. simpl in Heq.
    apply (inj pretty) in Heq. by subst.
  - intros Heq. by injection Heq.
  - intros Heq. by injection Heq.
  - apply dec_stable in Hu. apply dec_stable in Hu'. rewrite Hu, Hu'.
    intros Heq. apply (inj (String.append "day:")) in Heq. split; [done|].
    destruct Hd as [Hd|[z Hd]], Hd' as [Hd'|[z' Hd']];
      rewrite Hd, Hd' in Heq |- *; simpl in Heq.
    + done.
    + symmetry in Heq. by apply pretty_ne_undefined in Heq.
    + by apply pretty_ne_undefined in Heq.
    + apply (inj pretty) in Heq. by subst.
Qed.

Lemma groupKey_inj r r' :
  TimeShape r → TimeShape r' → groupKey r = groupKey r' →
  get r "year" = get r' "year" ∧ get r "day" = get r' "day" ∧
  toStr (get r "entityName") = toStr (get r' "entityName").
Proof.
  intros Hs Hs'. rewrite !groupKey_timeText. intros Heq.
  apply prefix_separator_inj in Heq as [Ht Hn];
    [|by apply timeText_no_space..].
  destruct (timeText_inj _ _ Hs Hs' Ht). done.
Qed.

Lemma groupKey_fields r r' :
  get r "year" = get r' "year" → get r "day" = get r' "day" →
  toStr (get r "entityName") = toStr (get r' "entityName") →
  groupKey r = groupKey r'.
Proof. unfold groupKey. by intros -> -> ->. Qed.

Lemma Object_assign_get g k :
  g ≠ [] → ∃ r, r ∈ g ∧ get (Object_assign g) k = get r k.
Proof.
  intros Hne. unfold get. destruct (Object_assign g !! k) as [v|] eqn:E.
  - apply Object_assign_lookup in E as (r & Hr & Hv). exists r. by rewrite Hv.
  - destruct g as [|r g]; [done|]. exists r. split; [left|].
    destruct (r !! k) as [v|] eqn:Er; [|done].
    destruct (Object_assign_is_Some (r :: g) r k) as [x Hx]; [left|done|].
    by rewrite Hx in E.
Qed.

(** The row that a group is merged into sits at the time and entity of
    every row of the group. *)
Lemma merged_group_fields rs k r :
  (∀ r, r ∈ rs → TimeShape r) →
  r ∈ filter (λ y, groupKey y = k) rs →
  let merged := Object_assign (filter (λ y, groupKey y = k) rs) in
  get merged "year" = get r "year" ∧ get merged "day" = get r "day" ∧
  toStr (get merged "entityName") = toStr (get r "entityName") ∧
  groupKey merged = k.
Proof.
  intros Hshape Hr. cbn zeta. set (g := filter (λ y, groupKey y = k) rs) in *.
  assert (g ≠ []) as Hne by (intros Hg; rewrite Hg in Hr; by apply elem_of_nil in Hr).
  assert (∀ r', r' ∈ g →
            get r' "year" = get r "year" ∧ get r' "day" = get r "day" ∧
            toStr (get r' "entityName") = toStr (get r "entityName")) as Hsame.
  { intros r' Hr'. apply list_elem_of_filter in Hr as [Hk Hin].
    apply list_elem_of_filter in Hr' as [Hk' Hin'].
    apply groupKey_inj; [by apply Hshape..|]. by rewrite Hk, Hk'. }
  destruct (Object_assign_get g "year" Hne) as (r1 & Hr1 & ->).
  destruct (Object_assign_get g "day" Hne) as (r2 & Hr2 & ->).
  destruct (Object_assign_get g "entityName" Hne) as (r3 & Hr3 & ->).
  destruct (Hsame _ Hr1) as (Hy & _ & _).
  destruct (Hsame _ Hr2) as (_ & Hd & _).
  destruct (Hsame _ Hr3) as (_ & _ & Hn).
  split_and!; [done..|].
  apply list_elem_of_filter in Hr as [<- _]. unfold groupKey.
  destruct (Object_assign_get g "year" Hne) as (r1' & Hr1' & ->).
  destruct (Object_assign_get g "day" Hne) as (r2' & Hr2' & ->).
  destruct (Object_assign_get g "entityName" Hne) as (r3' & Hr3' & ->).
  destruct (Hsame _ Hr1') as (-> & _ & _).
  destruct (Hsame _ Hr2') as (_ & -> & _).
  destruct (Hsame _ Hr3') as (_ & _ & ->). done.
Qed.

Lemma groupBy_elem {A} (key : A → string) l k g :
  (k, g) ∈ groupBy key l → g = filter (λ x, key x = k) l ∧ g ≠ [].
Proof.
  intros Hin.
  pose proof (Map_get_elem_NoDup _ _ _ (groupBy_NoDup key l) Hin) as Hget.
  rewrite groupBy_get in Hget.
  destruct (filter (λ x, key x = k) l) as [|x g'] eqn:E; [done|].
  by injection Hget as <-.
Qed.

Section LegacyRows.
Variable slugify : string → string.
Variable diffDateISOStringInDays : string → string → Z.
Variable EPOCH_DATE : string.

Lemma ingestedRow_shape variable entityNames entityCodes index value :
  TimeShape (ingestedRow slugify diffDateISOStringInDays EPOCH_DATE variable
               entityNames entityCodes index value).
Proof.
  assert (∀ k, k = "year" ∨ k = "day" →
    get (ingestedRow slugify diffDateISOStringInDays EPOCH_DATE variable
           entityNames entityCodes index value) k
    = if decide (timeColumnName variable = k)
      then at_index VNum (legacyYears diffDateISOStringInDays EPOCH_DATE variable)
                    index
      else VUndef) as Hget.
  { intros k Hk. unfold get. rewrite ingestedRow_lookup
      by (destruct Hk as [->| ->]; by repeat split).
    rewrite !lookup_insert_ne by (destruct Hk as [->| ->]; done).
    case_decide as Ht; [by rewrite Ht, lookup_insert_eq|].
    by rewrite lookup_insert_ne. }
  assert (∀ l, at_index VNum l index = VUndef ∨ ∃ z, at_index VNum l index = VNum z)
    as Hnum.
  { intros l. unfold at_index. destruct (l !! index); [right; eauto|by left]. }
  split; rewrite !Hget by auto; unfold timeColumnName;
    destruct (yearIsDay (display variable)); simpl.
  - by left.
  - destruct (Hnum (legacyYears diffDateISOStringInDays EPOCH_DATE variable))
      as [->|[z ->]]; [by left|right]. split; [eauto|done].
  - apply Hnum.
  - by left.
Qed.

Lemma ingestAll_rows_named json vars rs specs r :
  ingestAll slugify diffDateISOStringInDays EPOCH_DATE json vars
    = Some (rs, specs) →
  r ∈ rs →
  ∃ key variable entityNames entityCodes index value,
    (key, variable) ∈ vars ∧
    mapM (λ i, entity_name <$> entityKey json !! pretty i) (entities variable)
      = Some entityNames ∧
    values variable !! index = Some value ∧
    r = ingestedRow slugify diffDateISOStringInDays EPOCH_DATE variable
          entityNames entityCodes index value.
Proof.
  revert rs specs. induction vars as [|kv vars IH] using rev_ind;
    intros rs specs Hi Hr.
  - injection Hi as <- <-. by apply elem_of_nil in Hr.
  - rewrite ingestAll_snoc in Hi.
    destruct (ingestAll _ _ _ json vars) as [[rs0 specs0]|] eqn:E; [|done].
    simpl in Hi.
    apply ingestVariable_Some in Hi as (names & codes & Hnames & _ & -> & _).
    apply elem_of_app in Hr as [Hr|Hr].
    + destruct (IH _ _ eq_refl Hr) as (key & v & n & c & i & val & Hin & ?).
      exists key, v, n, c, i, val. split; [|done]. apply elem_of_app. by left.
    + apply list_elem_of_lookup in Hr as [i Hr].
      rewrite list_lookup_imap in Hr.
      destruct (values kv.2 !! i) as [val|] eqn:Hval; [|done].
      simpl in Hr. injection Hr as <-.
      exists kv.1, kv.2, names, codes, i, val. split_and!; [|done..].
      apply elem_of_app. right. apply list_elem_of_singleton. by destruct kv.
Qed.

Lemma ingestAll_shape json vars rs specs r :
  ingestAll slugify diffDateISOStringInDays EPOCH_DATE json vars
    = Some (rs, specs) →
  r ∈ rs → TimeShape r.
Proof.
  intros Hi Hr.
  destruct (ingestAll_rows_named _ _ _ _ _ Hi Hr)
    as (? & v & n & c & i & val & _ & _ & _ & ->).
  apply ingestedRow_shape.
Qed.

(** X8: the table that [fromLegacy] builds has one row per time and
    entity: two rows that agree on year, day and entity name are the same
    row. *)
Theorem fromLegacy_one_row_per_time_and_entity json t i j row1 row2 :
  fromLegacy slugify diffDateISOStringInDays EPOCH_DATE json = Some t →
  rows t !! i = Some row1 → rows t !! j = Some row2 →
  get row1 "year" = get row2 "year" →
  get row1 "day" = get row2 "day" →
  get row1 "entityName" = get row2 "entityName" →
  i = j.
Proof.
  intros Ht Hi Hj Hy Hd Hn.
  destruct (fromLegacy_columns _ _ _ _ _ Ht) as (rs & specs & Hing & _ & Hrows & _).
  rewrite Hrows in Hi, Hj. unfold Map_values in Hi, Hj.
  rewrite <-list_fmap_compose, list_lookup_fmap in Hi, Hj.
  destruct (groupBy groupKey rs !! i) as [[k1 g1]|] eqn:E1; [|done].
  destruct (groupBy groupKey rs !! j) as [[k2 g2]|] eqn:E2; [|done].
  simpl in Hi, Hj. injection Hi as <-. injection Hj as <-.
  assert (∀ i k g, groupBy groupKey rs !! i = Some (k, g) →
            groupKey (Object_assign g) = k) as Hkey.
  { intros i0 k g Hl. apply list_elem_of_lookup_2, groupBy_elem in Hl as [-> Hne].
    destruct (filter (λ x, groupKey x = k) rs) as [|r g'] eqn:E; [done|].
    rewrite <-E.
    refine (proj2 (proj2 (proj2 (merged_group_fields rs k r _ _)))).
    - intros ??. by eapply ingestAll_shape.
    - rewrite E. left. }
  assert (k1 = k2) as Hk.
  { rewrite <-(Hkey _ _ _ E1), <-(Hkey _ _ _ E2).
    apply groupKey_fields; [done..|]. by rewrite Hn. }
  pose proof (groupBy_NoDup groupKey rs) as Hnd. unfold Map_keys in Hnd.
  eapply NoDup_lookup; [exact Hnd|..];
    rewrite list_lookup_fmap; [by rewrite E1|by rewrite E2, Hk].
Qed.
End LegacyRows.

Lemma fromLegacy_one_row_per_time_and_entity_witness :
  let row := default ∅ (rows two_epochs_table !! 1%nat) in
  get row "day" = VNum 1 ∧ 1%nat = 1%nat.
Proof.
  split; [vm_compute; reflexivity|].
  apply (fromLegacy_one_row_per_time_and_entity (λ s, s) isoDiffInDays "2020-01-21"
           two_epochs two_epochs_table 1 1
           (default ∅ (rows two_epochs_table !! 1%nat))
           (default ∅ (rows two_epochs_table !! 1%nat)));
    vm_compute; reflexivity.
Defined.

(** ** Observations and cells *)

Section LegacyObservations.
Variable slugify : string → string.
Variable diffDateISOStringInDays : string → string → Z.
Variable EPOCH_DATE : string.

Local Abbreviation rowOf :=
  (ingestedRow slugify diffDateISOStringInDays EPOCH_DATE).
Local Abbreviation yearsOf := (legacyYears diffDateISOStringInDays EPOCH_DATE).

Lemma ingestedRow_own_value variable entityNames entityCodes index value :
  rowOf variable entityNames entityCodes index value !! valueSlug slugify variable
  = Some value.
Proof.
  unfold ingestedRow, legacyRow.
  assert (∀ k, String_Forall (λ c, c ≠ "-"%char) k → k ≠ valueSlug slugify variable)
    as Hplain.
  { intros k Hk Heq. symmetry in Heq. by apply valueSlug_ne_plain in Heq. }
  destruct (legacyAnnotations _ variable) as [[aslug amap]|] eqn:Ha.
  - apply legacyAnnotations_Some in Ha as [-> _].
    rewrite lookup_insert_ne by apply annotationSlug_ne.
    rewrite !lookup_insert_ne by (apply Hplain; by repeat split).
    by rewrite lookup_insert_eq.
  - rewrite !lookup_insert_ne by (apply Hplain; by repeat split).
    by rewrite lookup_insert_eq.
Qed.

Lemma ingestedRow_slug_lookup variable entityNames entityCodes index value w x :
  rowOf variable entityNames entityCodes index value !! valueSlug slugify w = Some x →
  valueSlug slugify w = valueSlug slugify variable ∧ x = value ∨
  valueSlug slugify w = makeAnnotationColumnSlug (valueSlug slugify variable).
Proof.
  destruct (decide (valueSlug slugify w
                    = makeAnnotationColumnSlug (valueSlug slugify variable)))
    as [?|Hann]; [by right|].
  destruct (decide (valueSlug slugify w = valueSlug slugify variable))
    as [Heq|Hne].
  { rewrite Heq, ingestedRow_own_value. intros [= ->]. by left. }
  intros Hl. exfalso. revert Hl.
  assert (∀ k, String_Forall (λ c, c ≠ "-"%char) k → k ≠ valueSlug slugify w)
    as Hplain.
  { intros k Hk Heq. symmetry in Heq. by apply valueSlug_ne_plain in Heq. }
  assert (timeColumnName variable ≠ valueSlug slugify w) as Htime.
  { apply Hplain. unfold timeColumnName.
    by destruct (yearIsDay (display variable)). }
  unfold ingestedRow, legacyRow.
  destruct (legacyAnnotations _ variable) as [[aslug amap]|] eqn:Ha.
  - apply legacyAnnotations_Some in Ha as [-> _].
    rewrite lookup_insert_ne by done.
    rewrite !lookup_insert_ne by (apply Hplain; by repeat split).
    rewrite lookup_insert_ne by done. by rewrite lookup_insert_ne.
  - rewrite !lookup_insert_ne by (apply Hplain; by repeat split).
    rewrite lookup_insert_ne by done. by rewrite lookup_insert_ne.
Qed.

Lemma ingestedRow_time_and_name variable entityNames entityCodes index value :
  get (rowOf variable entityNames entityCodes index value) (timeColumnName variable)
    = at_index VNum (yearsOf variable) index ∧
  get (rowOf variable entityNames entityCodes index value) "entityName"
    = at_index VStr entityNames index.
Proof.
  split; [|apply ingestedRow_entityName].
  unfold get. rewrite ingestedRow_lookup
    by (unfold timeColumnName; destruct (yearIsDay (display variable));
        by repeat split).
  rewrite !lookup_insert_ne
    by (unfold timeColumnName; by destruct (yearIsDay (display variable))).
  by rewrite lookup_insert_eq.
Qed.

Lemma legacyYears_length variable :
  length (yearsOf variable) = length (years variable).
Proof.
  unfold legacyYears. destruct (yearsNeedTransform EPOCH_DATE _); [|done].
  destruct (zeroDay (display variable)); [|done].
  unfold convertLegacyYears. by rewrite length_fmap.
Qed.

(** The arrays of a variable have one entry per observation. *)
Definition Aligned (variable : OwidVariable) : Prop :=
  length (entities variable) = length (values variable) ∧
  length (years variable) = length (values variable).

(** What the row of an aligned observation holds. *)
Lemma ingestedRow_aligned json variable entityNames entityCodes index value :
  Aligned variable →
  mapM (λ i, entity_name <$> entityKey json !! pretty i) (entities variable)
    = Some entityNames →
  values variable !! index = Some value →
  ∃ e meta y,
    entities variable !! index = Some e ∧
    entityKey json !! pretty e = Some meta ∧
    yearsOf variable !! index = Some y ∧
    get (rowOf variable entityNames entityCodes index value)
        (timeColumnName variable) = VNum y ∧
    get (rowOf variable entityNames entityCodes index value) "entityName"
      = VStr (entity_name meta).
Proof.
  intros [He Hy] Hnames Hval.
  pose proof (lookup_lt_Some _ _ _ Hval) as Hlt.
  destruct (lookup_lt_is_Some_2 (entities variable) index) as [e Hent]; [lia|].
  destruct (lookup_lt_is_Some_2 (yearsOf variable) index) as [y Hyear];
    [rewrite legacyYears_length; lia|].
  apply mapM_Some in Hnames.
  destruct (Forall2_lookup_l _ _ _ _ _ Hnames Hent) as (n & Hn & Hmeta).
  destruct (entityKey json !! pretty e) as [meta|] eqn:Hm; [|done].
  simpl in Hmeta. injection Hmeta as <-.
  exists e, meta, y. split_and!; [done..| |].
  - rewrite (proj1 (ingestedRow_time_and_name _ _ _ _ _)).
    unfold at_index. by rewrite Hyear.
  - rewrite (proj2 (ingestedRow_time_and_name _ _ _ _ _)).
    unfold at_index. by rewrite Hn.
Qed.

(** X9: for data whose variables have distinct ids and one year and one
    entity per value, the cells of [fromLegacy]'s table are the
    observations: a value found under a variable's slug is a value of that
    variable, observed at the row's time and entity; every observation has
    a row at its time and entity that holds a value for the variable; and
    that value is the observation's own when the variable has no other
    observation at the same time for an entity of the same name. *)
Theorem fromLegacy_observations json t :
  fromLegacy slugify diffDateISOStringInDays EPOCH_DATE json = Some t →
  (∀ key variable, (key, variable) ∈ variables json → Aligned variable) →
  (∀ key1 variable1 key2 variable2,
     (key1, variable1) ∈ variables json → (key2, variable2) ∈ variables json →
     id variable1 = id variable2 → variable1 = variable2) →
  (∀ row key variable value,
     row ∈ rows t → (key, variable) ∈ variables json →
     row !! valueSlug slugify variable = Some value →
     ∃ index e meta y,
       values variable !! index = Some value ∧
       entities variable !! index = Some e ∧
       entityKey json !! pretty e = Some meta ∧
       yearsOf variable !! index = Some y ∧
       get row (timeColumnName variable) = VNum y ∧
       get row "entityName" = VStr (entity_name meta)) ∧
  (∀ key variable index value e meta y,
     (key, variable) ∈ variables json →
     values variable !! index = Some value →
     entities variable !! index = Some e →
     entityKey json !! pretty e = Some meta →
     yearsOf variable !! index = Some y →
     ∃ row,
       row ∈ rows t ∧
       get row (timeColumnName variable) = VNum y ∧
       get row "entityName" = VStr (entity_name meta) ∧
       is_Some (row !! valueSlug slugify variable) ∧
       ((∀ index' e' meta',
           entities variable !! index' = Some e' →
           entityKey json !! pretty e' = Some meta' →
           yearsOf variable !! index' = Some y →
           entity_name meta' = entity_name meta → index' = index) →
        row !! valueSlug slugify variable = Some value)).
Proof.
  intros Ht Haligned Hids.
  destruct (fromLegacy_columns _ _ _ _ _ Ht) as (rs & specs & Hing & _ & Hrows & _).
  assert (∀ r, r ∈ rs → TimeShape r) as Hshape.
  { intros r Hr. by eapply ingestAll_shape. }
  (* a row of [rs] that holds a value under the slug of a variable *)
  assert (∀ r key variable value,
    r ∈ rs → (key, variable) ∈ variables json →
    r !! valueSlug slugify variable = Some value →
    ∃ entityNames entityCodes index,
      mapM (λ i, entity_name <$> entityKey json !! pretty i) (entities variable)
        = Some entityNames ∧
      values variable !! index = Some value ∧
      r = rowOf variable entityNames entityCodes index value) as Hcell.
  { intros r key variable value Hr Hin Hl.
    destruct (ingestAll_rows_named _ _ _ _ _ _ _ _ Hing Hr)
      as (key' & v' & names & codes & i & val & Hin' & Hnames & Hval & ->).
    assert (v' = variable) as ->.
    { apply ingestedRow_slug_lookup in Hl as [[Hs _]|Hs];
        symmetry; eapply Hids; try done.
      - by apply (valueSlug_id slugify).
      - by apply (annotationSlug_id slugify). }
    rewrite ingestedRow_own_value in Hl. injection Hl as ->.
    by exists names, codes, i. }
  (* a merged row takes its name from rows of aligned variables *)
  assert (∀ r, r ∈ rs → ∃ s, get r "entityName" = VStr s) as Hnamed.
  { intros r Hr.
    destruct (ingestAll_rows_named _ _ _ _ _ _ _ _ Hing Hr)
      as (key' & v' & names & codes & i & val & Hin' & Hnames & Hval & ->).
    destruct (ingestedRow_aligned json v' names codes i val)
      as (? & meta & ? & _ & _ & _ & _ & Hn); [by eapply Haligned|done..|].
    eauto. }
  assert (∀ k r, r ∈ filter (λ y, groupKey y = k) rs →
    let merged := Object_assign (filter (λ y, groupKey y = k) rs) in
    get merged "year" = get r "year" ∧ get merged "day" = get r "day" ∧
    get merged "entityName" = get r "entityName") as Hmerged.
  { intros k r Hr. cbn zeta.
    destruct (merged_group_fields rs k r Hshape Hr) as (Hy & Hd & Hn & _).
    split_and!; [done..|].
    assert (filter (λ y, groupKey y = k) rs ≠ []) as Hne.
    { intros Hnil. rewrite Hnil in Hr. by apply elem_of_nil in Hr. }
    destruct (Object_assign_get _ "entityName" Hne) as (r3 & Hr3 & Heq).
    rewrite Heq in Hn |- *.
    apply list_elem_of_filter in Hr3 as [_ Hr3].
    apply list_elem_of_filter in Hr as [_ Hr].
    destruct (Hnamed _ Hr3) as [s3 Hs3]. destruct (Hnamed _ Hr) as [s Hs].
    rewrite Hs3, Hs in Hn |- *. simpl in Hn. by subst. }
  assert (∀ k r variable, r ∈ filter (λ y, groupKey y = k) rs →
    get (Object_assign (filter (λ y, groupKey y = k) rs)) (timeColumnName variable)
    = get r (timeColumnName variable)) as Htime.
  { intros k r variable Hr. destruct (Hmerged k r Hr) as (Hy & Hd & _).
    unfold timeColumnName. by destruct (yearIsDay (display variable)). }
  split.
  - intros row key variable value Hrow Hin Hl.
    rewrite Hrows in Hrow. unfold Map_values in Hrow.
    rewrite <-list_fmap_compose in Hrow.
    apply list_elem_of_fmap in Hrow as ([k g] & -> & Hg). simpl in Hl |- *.
    apply groupBy_elem in Hg as [-> Hne].
    apply Object_assign_lookup in Hl as (r & Hr & Hl).
    pose proof Hr as Hr'. apply list_elem_of_filter in Hr' as [_ Hr'].
    destruct (Hcell r key variable value Hr' Hin Hl)
      as (names & codes & i & Hnames & Hval & ->).
    destruct (ingestedRow_aligned json variable names codes i value)
      as (e & meta & y & He & Hm & Hy & Hrt & Hrn); [by eapply Haligned|done..|].
    exists i, e, meta, y. split_and!; [done..| |].
    + by rewrite (Htime _ _ variable Hr).
    + destruct (Hmerged _ _ Hr) as (_ & _ & ->). done.
  - intros key variable i value e meta y Hin Hval He Hm Hy.
    destruct (ingestAll_has_row _ _ _ _ _ _ _ _ _ _ _ Hing Hin Hval)
      as (names & codes & Hnames & Hr).
    set (r := rowOf variable names codes i value) in *.
    set (g := filter (λ x, groupKey x = groupKey r) rs).
    assert (r ∈ g) as Hrg by (by apply list_elem_of_filter).
    destruct (ingestedRow_aligned json variable names codes i value)
      as (e0 & meta0 & y0 & He0 & Hm0 & Hy0 & Hrt & Hrn); [by eapply Haligned|done..|].
    rewrite He in He0. injection He0 as <-.
    rewrite Hm in Hm0. injection Hm0 as <-.
    rewrite Hy in Hy0. injection Hy0 as <-.
    fold r in Hrt, Hrn.
    exists (Object_assign g). split_and!.
    + rewrite Hrows. apply list_elem_of_fmap. exists g. split; [done|].
      by apply groupBy_group.
    + unfold g. by rewrite (Htime _ _ variable Hrg).
    + destruct (Hmerged _ _ Hrg) as (_ & _ & Hn). unfold g. by rewrite Hn.
    + eapply Object_assign_is_Some; [exact Hrg|]. unfold r.
      by rewrite ingestedRow_own_value.
    + intros Huniq.
      destruct (Object_assign_is_Some g r (valueSlug slugify variable)) as [x Hx];
        [done|unfold r; by rewrite ingestedRow_own_value|].
      rewrite Hx. f_equal.
      apply Object_assign_lookup in Hx as (r' & Hr' & Hl).
      pose proof Hr' as Hr''. apply list_elem_of_filter in Hr'' as [Hk Hin'].
      destruct (Hcell r' key variable x Hin' Hin Hl)
        as (names' & codes' & j & Hnames' & Hvalj & ->).
      rewrite Hnames in Hnames'. injection Hnames' as <-.
      destruct (ingestedRow_aligned json variable names codes' j x)
        as (e' & meta' & y' & He' & Hm' & Hy' & Hrt' & Hrn');
        [by eapply Haligned|done..|].
      destruct (groupKey_inj _ _ (Hshape _ Hin') (Hshape _ Hr) Hk)
        as (Hyear & Hday & Hname).
      assert (j = i) as ->.
      { apply (Huniq j e' meta'); [done..| |].
        - assert (get (rowOf variable names codes' j x) (timeColumnName variable)
                  = get r (timeColumnName variable)) as Ht'.
          { unfold timeColumnName.
            by destruct (yearIsDay (display variable)). }
          rewrite Hrt', Hrt in Ht'. injection Ht' as ->. done.
        - rewrite Hrn', Hrn in Hname. done. }
      rewrite Hval in Hvalj. by injection Hvalj.
Qed.
End LegacyObservations.

Lemma fromLegacy_observations_witness :
  ∃ row, row ∈ rows two_epochs_table ∧
         get row "day" = VNum 1 ∧
         get row "entityName" = VStr "France" ∧
         is_Some (row !! "7-tests").
Proof.
  assert (fromLegacy (λ s, s) isoDiffInDays "2020-01-21" two_epochs
          = Some two_epochs_table) as Hf by (vm_compute; reflexivity).
  assert (∀ key variable, (key, variable) ∈ variables two_epochs →
            Aligned variable) as Ha.
  { intros key variable Hin. simpl in Hin.
    repeat (apply elem_of_cons in Hin as [Heq|Hin];
            [injection Heq as -> ->; split; reflexivity|]).
    by apply elem_of_nil in Hin. }
  assert (∀ key1 variable1 key2 variable2,
            (key1, variable1) ∈ variables two_epochs →
            (key2, variable2) ∈ variables two_epochs →
            id variable1 = id variable2 → variable1 = variable2) as Hids.
  { intros k1 v1 k2 v2 H1 H2 Hid. simpl in H1, H2.
    apply elem_of_cons in H1 as [E1|H1];
      [|apply list_elem_of_singleton in H1 as E1];
      (apply elem_of_cons in H2 as [E2|H2];
       [|apply list_elem_of_singleton in H2 as E2]);
      injection E1 as -> ->; injection E2 as -> ->;
      first [reflexivity | discriminate Hid]. }
  destruct (proj2 (fromLegacy_observations (λ s, s) isoDiffInDays "2020-01-21"
                     two_epochs two_epochs_table Hf Ha Hids)
              "7" (default deaths_variable (snd <$> variables two_epochs !! 1%nat))
              1%nat (VNum 200) 1
              {| entity_name := "France"; entity_code := "FRA" |} 1)
    as (row & Hrow & Hday & Hname & Hval & _).
  - right. left.
  - reflexivity.
  - reflexivity.
  - reflexivity.
  - vm_compute. reflexivity.
  - exists row. split_and!; [exact Hrow|exact Hday|exact Hname|exact Hval].
Defined.

(** ** Parsing entity annotations *)

(** [trim] strips a no-break space (U+00A0) and an em space (U+2003) as
    it strips a blank. *)
Lemma trim_unicode_white_space :
  trim (utf8 ["194"; "160"]%char +:+ " a b" +:+ utf8 ["226"; "128"; "131"]%char)
  = "a b".
Proof. vm_compute. reflexivity. Qed.

(** A key or word that [annotationsToMap] reads back unchanged: no colon,
    no line break, no white space (as [trim] understands it) at either
    end. *)
Definition PlainWord (s : string) : Prop :=
  trim s = s ∧ String_Forall (λ c, c ≠ ":"%char ∧ c ≠ "010"%char) s.

(** One line of annotations text: the entity, then the words of its
    annotation separated by colons. *)
Definition annotationLine (entry : string * list string) : string :=
  entry.1 +:+ ": " +:+ join ":" entry.2.

Lemma annotationLine_words key words :
  PlainWord key → words ≠ [] → Forall PlainWord words →
  trim <$> split ":"%char (annotationLine (key, words)) = key :: words.
Proof.
  intros [Hk Hkc] Hne Hws. unfold annotationLine. simpl.
  destruct words as [|w ws]; [done|].
  assert (" " +:+ join ":" (w :: ws) = join ":" (String " "%char w :: ws)) as Hjoin.
  { destruct ws; done. }
  change (key +:+ ": " +:+ join ":" (w :: ws))
    with (key +:+ String ":"%char (" " +:+ join ":" (w :: ws))).
  rewrite Hjoin, split_app_sep.
  2:{ eapply String_Forall_impl; [|exact Hkc]. by intros c [??]. }
  rewrite split_join; [|done|].
  - rewrite !fmap_cons, Hk. f_equal.
    apply Forall_cons in Hws as [[Hw _] Hws]. f_equal.
    + exact Hw.
    + rewrite <-(list_fmap_id ws) at 2. apply Forall_fmap_ext_1.
      eapply Forall_impl; [exact Hws|]. by intros s [? _].
  - apply Forall_cons in Hws as [[_ Hw] Hws]. constructor.
    + split; [done|]. eapply String_Forall_impl; [|exact Hw]. by intros c [??].
    + eapply Forall_impl; [exact Hws|]. intros s [_ Hs].
      eapply String_Forall_impl; [|exact Hs]. by intros c [??].
Qed.

Lemma annotationLine_no_newline key words :
  PlainWord key → Forall PlainWord words →
  String_Forall (λ c, c ≠ "010"%char) (annotationLine (key, words)).
Proof.
  intros [_ Hk] Hws. unfold annotationLine. simpl.
  rewrite !String_Forall_app. split_and!.
  - eapply String_Forall_impl; [|exact Hk]. by intros c [??].
  - by repeat split.
  - apply String_Forall_join; [by repeat split|].
    eapply Forall_impl; [exact Hws|]. intros s [_ Hs].
    eapply String_Forall_impl; [|exact Hs]. by intros c [??].
Qed.

(** X10: [annotationsToMap] reads back annotations written one entity
    per line as "entity: word:word...": each entity maps to its words
    joined by colons again, and for an entity listed twice the later line
    wins. *)
Theorem annotationsToMap_parses entries key :
  entries ≠ [] →
  (∀ entry, entry ∈ entries →
     PlainWord entry.1 ∧ entry.2 ≠ [] ∧ Forall PlainWord entry.2) →
  Map_get key
    (annotationsToMap (join newline (annotationLine <$> entries)))
  = (λ entry, join ":" entry.2) <$> last (filter (λ entry, entry.1 = key) entries).
Proof.
  intros Hne Hplain. unfold annotationsToMap, newline.
  rewrite split_join.
  - trans (Map_get key (foldl (λ m entry, Map_set entry.1 (join ":" entry.2) m)
                              [] entries)).
    2:{ rewrite (Map_get_foldl (λ entry : string * list string, entry.1)
                               (λ entry, join ":" entry.2)).
        by destruct (last _). }
    f_equal. rewrite foldl_fmap.
    assert (∀ m : list (string * string),
      foldl (λ b entry,
               match trim <$> split ":"%char (annotationLine entry) with
               | [] => b
               | key0 :: words => Map_set key0 (join ":" words) b
               end) m entries
      = foldl (λ m entry, Map_set entry.1 (join ":" entry.2) m) m entries) as H;
      [|apply H].
    revert Hplain. clear Hne. induction entries as [|[k ws] entries IH];
      intros Hplain m; [done|].
    simpl. destruct (Hplain (k, ws)) as (Hk & Hws & Hall); [left|].
    rewrite annotationLine_words by done. apply IH.
    intros ??. apply Hplain. by right.
  - intros Heq. apply fmap_nil_inv in Heq. done.
  - apply Forall_fmap, Forall_forall. intros [k ws] Hin. simpl.
    destruct (Hplain _ Hin) as (Hk & _ & Hall). by apply annotationLine_no_newline.
Qed.

Lemma annotationsToMap_parses_witness :
  Map_get "France" (annotationsToMap "France: provisional:2020") = Some "provisional:2020".
Proof.
  apply (annotationsToMap_parses [("France", ["provisional"; "2020"])] "France").
  - done.
  - intros entry Hin. apply list_elem_of_singleton in Hin as ->.
    assert (∀ s, trim s = s →
              String_Forall (λ c, c ≠ ":"%char ∧ c ≠ "010"%char) s → PlainWord s)
      as Hword by (by split).
    split_and!; [|done|repeat apply Forall_cons_2; [..|apply Forall_nil_2]];
      (apply Hword; [reflexivity|repeat split; discriminate]).
Defined.

(** ** Looking keys up *)

Lemma lookupKey_settled c key :
  Settled c →
  lookupKey key c = (λ info, (info, c)) <$> Map_get key (keyIndex c).
Proof.
  intros Hs. unfold lookupKey, mbind, M_bind.
  rewrite (reads_entityDimensionMap c Hs).
  by destruct (Map_get key (keyIndex c)).
Qed.

Lemma keyIndex_elem c k info :
  Map_get k (keyIndex c) = Some info →
  ∃ (j : nat) dimension name,
    primaryDimensions c !! j = Some dimension ∧
    name ∈ entityNamesOf (table c) (Dimension.column dimension) ∧
    info = entityDimensionInfo c (keyDataScope c) dimension j name ∧
    k = makeEntityDimensionKey name (Z.of_nat j).
Proof.
  intros Hget. apply Map_get_Some_elem in Hget. unfold keyIndex in Hget.
  destruct (isReady c); [|by apply elem_of_nil in Hget].
  apply keyDataFrom_elem in Hget as [Hin|(j & dim & name & Hj & Hn & -> & ->)].
  - by apply elem_of_nil in Hin.
  - exists j, dim, name. done.
Qed.

Lemma entityNamesOf_named t col name :
  EntityNamed t → name ∈ entityNamesOf t col → ∃ s, name = VStr s.
Proof.
  intros Hnamed Hin. apply elem_of_entityNamesOf in Hin as (row & Hrow & _ & <-).
  apply Hnamed. by apply visibleRows_rows.
Qed.

(** X11: on a settled chart whose entity names are strings, [lookupKey]
    inverts [makeEntityDimensionKey]: the key made from an entity of the
    j-th primary dimension resolves to the record of that entity and that
    dimension, and [lookupKey] raises exactly on the keys that are not made
    from an entity of a primary dimension. *)
Theorem lookupKey_inverts_makeEntityDimensionKey c :
  Settled c → EntityNamed (table c) →
  (∀ (j : nat) dimension name,
     primaryDimensions c !! j = Some dimension →
     VStr name ∈ entityNamesOf (table c) (Dimension.column dimension) →
     lookupKey (makeEntityDimensionKey (VStr name) (Z.of_nat j)) c
     = Some (entityDimensionInfo c (keyDataScope c) dimension j (VStr name), c)) ∧
  (∀ key,
     lookupKey key c = None ↔
     ∀ (j : nat) dimension name,
       primaryDimensions c !! j = Some dimension →
       name ∈ entityNamesOf (table c) (Dimension.column dimension) →
       key ≠ makeEntityDimensionKey name (Z.of_nat j)).
Proof.
  intros Hs Hnamed. split.
  - intros j d name Hj Hname. rewrite lookupKey_settled by done.
    destruct (keyIndex_has c j d (VStr name)) as [info Hinfo];
      [by eapply primaryDimensions_isReady|done..|].
    rewrite Hinfo. simpl. f_equal. f_equal.
    destruct (keyIndex_elem _ _ _ Hinfo) as (j' & d' & name' & Hj' & Hn' & -> & Hk).
    destruct (entityNamesOf_named _ _ _ Hnamed Hn') as [s ->].
    apply makeEntityDimensionKey_inj in Hk as [-> Hidx].
    apply Nat2Z.inj in Hidx. subst j'. rewrite Hj in Hj'. by injection Hj' as <-.
  - intros key. rewrite lookupKey_settled by done. split.
    + intros Hnone j d name Hj Hname ->.
      destruct (keyIndex_has c j d name) as [info Hinfo];
        [by eapply primaryDimensions_isReady|done..|].
      by rewrite Hinfo in Hnone.
    + intros Hno. destruct (Map_get key (keyIndex c)) as [info|] eqn:E; [|done].
      exfalso.
      destruct (keyIndex_elem _ _ _ E) as (j & d & name & Hj & Hn & _ & Hk).
      by eapply Hno.
Qed.

(** The first primary dimension of the chart over [deaths_table]. *)
Definition deaths_dimension : Dimension.t :=
  default {| Dimension.index := 0%nat;
             Dimension.props := {| ChartDimension.property := "y";
                                   ChartDimension.variableId := 7;
                                   ChartDimension.display := plain_display |};
             Dimension.column := {| columnType := AnyColumn;
                                    spec := ColumnSpec.of_slug "" |} |}
          (primaryDimensions (deaths_chart None) !! 0%nat).

Lemma lookupKey_inverts_makeEntityDimensionKey_witness :
  ∃ info, lookupKey "France_0" (deaths_chart None) = Some (info, deaths_chart None) ∧
          Info.entity info = VStr "France".
Proof.
  destruct (lookupKey_inverts_makeEntityDimensionKey (deaths_chart None)
              (deaths_chart_settled None) deaths_table_named) as [Hfound _].
  eexists. split.
  - apply (Hfound 0%nat deaths_dimension "France").
    + vm_compute. reflexivity.
    + vm_compute. left.
  - reflexivity.
Defined.

(** ** Selected keys are known keys *)

Lemma kept_key_resolves c sel :
  Settled c → sel ∈ keptSelections c →
  is_Some (Map_get (keyOfSelection c sel) (keyIndex c)).
Proof.
  intros Hs Hin. unfold keptSelections in Hin.
  apply (sublist_subseteq _ _ (uniqWith_sublist _ _)) in Hin.
  apply list_elem_of_filter in Hin as [Hv _].
  apply validSelection_true in Hv
    as [(dim & name & row & Hd & Hn & _ & Hrow & Hcol & Hname) _].
  apply at_number_Some in Hd as (j & Hj & Hd).
  unfold keyOfSelection, Map_get_value. rewrite Hn, Hj. simpl.
  apply (keyIndex_has c j dim name); [by eapply primaryDimensions_isReady|done|].
  apply elem_of_entityNamesOf. by exists row.
Qed.

Lemma NoDup_Set_from {K} `{EqDecision K} (l : list K) : NoDup (Set_from l).
Proof.
  induction l as [|x l IH] using rev_ind; [constructor|].
  rewrite Set_from_snoc. unfold Set_add. case_decide as Hin; [done|].
  apply NoDup_app. split_and!; [done| |apply NoDup_singleton].
  intros y Hy Hx. apply list_elem_of_singleton in Hx. by subst.
Qed.

(** X12: on a settled chart every key that [selectedKeys] returns is a
    key that [lookupKey] resolves, to a record filed under that key; so
    [selectedEntities], which looks every selected key up, does not raise,
    and it lists no entity twice. *)
Theorem selectedKeys_resolve c :
  Settled c →
  ∃ keys entities,
    selectedKeys c = Some (keys, c) ∧
    (∀ key, key ∈ keys →
       ∃ info, lookupKey key c = Some (info, c) ∧
               Info.entityDimensionKey info = key) ∧
    selectedEntities c = Some (entities, c) ∧
    NoDup entities.
Proof.
  intros Hs.
  set (keys := keyOfSelection c <$> keptSelections c).
  assert (∀ key, key ∈ keys → ∃ info, Map_get key (keyIndex c) = Some info ∧
                                       Info.entityDimensionKey info = key) as Hres.
  { intros key Hkey. apply list_elem_of_fmap in Hkey as (sel & -> & Hsel).
    destruct (kept_key_resolves c sel Hs Hsel) as [info Hinfo].
    exists info. split; [done|].
    by destruct (keyIndex_elem _ _ _ Hinfo) as (? & ? & ? & _ & _ & -> & ->). }
  set (entityOf := λ key, default VUndef (Info.entity <$> Map_get key (keyIndex c))).
  exists keys, (uniq (entityOf <$> keys)). split_and!.
  - by apply reads_selectedKeys.
  - intros key Hkey. destruct (Hres key Hkey) as (info & Hinfo & Hk).
    exists info. split; [|done]. rewrite lookupKey_settled by done.
    by rewrite Hinfo.
  - unfold selectedEntities. eapply reads_bind; [by apply reads_selectedKeys|].
    fold keys. eapply reads_bind; [|apply reads_ret].
    apply reads_mapM. intros key Hkey.
    destruct (Hres key Hkey) as (info & Hinfo & _).
    unfold reads, mbind, M_bind. rewrite lookupKey_settled by done.
    unfold entityOf. by rewrite Hinfo.
  - apply NoDup_Set_from.
Qed.

Lemma selectedKeys_resolve_witness :
  ∃ keys entities,
    selectedKeys (deaths_chart None) = Some (keys, deaths_chart None) ∧
    selectedEntities (deaths_chart None) = Some (entities, deaths_chart None).
Proof.
  destruct (selectedKeys_resolve (deaths_chart None) (deaths_chart_settled None))
    as (keys & entities & Hk & _ & He & _).
  exists keys, entities. split; [exact Hk|exact He].
Defined.

(** ** Assigning the selected keys and reading them back *)

(** An entity id belongs to one entity name. *)
Definition OneNamePerId (t : Table) : Prop :=
  ∀ r1 r2, r1 ∈ rows t → r2 ∈ rows t →
    get r1 "entityId" = get r2 "entityId" →
    get r1 "entityName" = get r2 "entityName".

Lemma entityIdToNameMap_has t eid :
  (∃ row, row ∈ rows t ∧ get row "entityId" = eid) →
  ∃ row, row ∈ rows t ∧ get row "entityId" = eid ∧
         Map_get eid (entityIdToNameMap t) = Some (get row "entityName").
Proof.
  intros (row0 & Hrow0 & Hid0).
  unfold entityIdToNameMap. rewrite Map_get_foldl. simpl.
  destruct (last _) as [row|] eqn:E.
  - apply last_Some_elem_of, list_elem_of_filter in E as [??]. eauto.
  - apply last_None in E.
    assert (row0 ∈ filter (λ x : Row, get x "entityId" = eid) (rows t)) as Hin.
    { by apply list_elem_of_filter. }
    rewrite E in Hin. by apply elem_of_nil in Hin.
Qed.

(** Name to id and back. *)
Lemma entityName_id_name t name :
  OneNamePerId t →
  (∃ row, row ∈ rows t ∧ get row "entityName" = name) →
  Map_get (Map_get_value name (entityNameToIdMap t)) (entityIdToNameMap t)
  = Some name.
Proof.
  intros Hone Hrow.
  destruct (entityNameToIdMap_get t name Hrow) as (r1 & Hr1 & Hn1 & Hg).
  unfold Map_get_value. rewrite Hg. simpl.
  destruct (entityIdToNameMap_has t (get r1 "entityId")) as (r2 & Hr2 & Hi2 & ->);
    [by exists r1|].
  f_equal. rewrite <-Hn1. by apply Hone.
Qed.

Lemma at_number_nat {A} (l : list A) (j : nat) : at_number l (Z.of_nat j) = l !! j.
Proof.
  unfold at_number. rewrite decide_True by lia. by rewrite Nat2Z.id.
Qed.

Lemma Forall2_fmap_eq {A B} (f : B → A) (P : B → Prop) l k :
  Forall2 (λ x y, P y ∧ f y = x) l k → f <$> k = l ∧ Forall P k.
Proof.
  induction 1 as [|x y l k [HP Hf] _ [IH1 IH2]]; [done|].
  rewrite fmap_cons, Hf, IH1. split; [done|by constructor].
Qed.

Section SetThenGet.
Variable c : ChartConfig.
Hypothesis c_settled : Settled c.
Hypothesis c_named : EntityNamed (table c).
Hypothesis c_names : OneNamePerId (table c).
Hypothesis c_ready : isReady c = true.
Hypothesis c_mode : addCountryMode c ≠ change_country.

(** The entry stored for a key of a named entity is kept by the next
    read, and stands for the same key. *)
Lemma stored_entry_valid key info e es :
  Map_get key (keyIndex c) = Some info → Info.entity info ≠ VStr "" →
  entryOfKey c key = Some e →
  validSelection (set_selectedData es c) e = true ∧
  keyOfSelection (set_selectedData es c) e = key.
Proof using c_named c_names c_mode.
  intros Hinfo Hne He. unfold entryOfKey in He. rewrite Hinfo in He.
  simpl in He. injection He as <-.
  destruct (keyIndex_elem _ _ _ Hinfo) as (j & d & name & Hj & Hn & -> & ->).
  cbn [entityDimensionInfo Info.entity Info.index] in *.
  destruct (entityNamesOf_named _ _ _ c_named Hn) as [s ->].
  assert (Map_get (Map_get_value (VStr s) (entityNameToIdMap (table c)))
                  (entityIdToNameMap (table c)) = Some (VStr s)) as Hback.
  { apply entityName_id_name; [done|].
    apply elem_of_entityNamesOf in Hn as (row & Hrow & _ & Hname).
    exists row. split; [by apply visibleRows_rows|done]. }
  split.
  - apply validSelection_true. split.
    + exists d, (VStr s).
      apply elem_of_entityNamesOf in Hn as (row & Hrow & Hcol & Hname).
      exists row. cbn [EntitySelection.index EntitySelection.entityId].
      split_and!; [|exact Hback| |exact Hrow|exact Hcol|exact Hname].
      * rewrite at_number_nat. exact Hj.
      * simpl. destruct s; [done|done].
    + intros Hmode. by destruct c_mode.
  - unfold keyOfSelection, Map_get_value.
    cbn [EntitySelection.index EntitySelection.entityId table set_selectedData].
    unfold Map_get_value in Hback. by rewrite Hback.
Qed.

(** Assigning keys of named entities and reading [selectedKeys] again. *)
Lemma selectedKeys_set_get keys :
  NoDup keys →
  (∀ key, key ∈ keys →
     ∃ info, Map_get key (keyIndex c) = Some info ∧ Info.entity info ≠ VStr "") →
  ∃ es,
    length es = length keys ∧
    selectedKeys_set keys c = Some ((), set_selectedData es c) ∧
    selectedKeys (set_selectedData es c) = Some (keys, set_selectedData es c).
Proof using c_settled c_named c_names c_ready c_mode.
  intros Hnd Hkeys.
  assert (is_Some (mapM (entryOfKey c) keys)) as [es Hes].
  { apply mapM_is_Some, Forall_forall. intros key Hkey.
    destruct (Hkeys key Hkey) as (info & Hinfo & _).
    unfold compose, entryOfKey. by rewrite Hinfo. }
  apply mapM_Some in Hes. exists es.
  assert (∀ es0,
    Forall2 (λ key e, validSelection (set_selectedData es0 c) e = true ∧
                      keyOfSelection (set_selectedData es0 c) e = key)
            keys es) as Hvalid0.
  { intros es0. clear Hnd. induction Hes as [|key e keys es He _ IH]; constructor.
    - destruct (Hkeys key) as (info & Hinfo & Hne); [left|].
      by eapply stored_entry_valid.
    - apply IH. intros ??. apply Hkeys. by right. }
  set (c' := set_selectedData es c).
  pose proof (Hvalid0 es) as Hvalid. fold c' in Hvalid.
  apply Forall2_fmap_eq in Hvalid as [Hk Hvalid].
  split_and!.
  - symmetry. by eapply Forall2_length.
  - unfold selectedKeys_set, mbind, M_bind. simpl. rewrite c_ready. simpl.
    assert (reads (mapM selectionOfKey keys) c es) as ->; [|done].
    apply reads_mapM_Forall2. eapply Forall2_impl; [exact Hes|].
    intros key e He. by apply reads_selectionOfKey.
  - assert (Settled c') as Hs' by exact c_settled.
    rewrite (reads_selectedKeys c' Hs').
    assert (keptSelections c' = es) as ->; [|by rewrite Hk].
    unfold keptSelections. cbn [selectedData props c' set_selectedData].
    rewrite filter_all.
    + apply (uniqWith_id selectionPair); [apply sameSelection_pair|].
      apply (NoDup_fmap_on _ (keyOfSelection c')); [by rewrite Hk|].
      intros x y _ _ Hp. unfold keyOfSelection.
      unfold selectionPair in Hp. by injection Hp as -> ->.
    + exact Hvalid.
Qed.
End SetThenGet.

(** X13: on a ready, settled chart that is not in "change entity" mode
    and whose entity ids and names correspond, assigning to [selectedKeys]
    a list of distinct keys that [lookupKey] resolves to entities with a
    name stores one selection entry per key, touches nothing else, and
    [selectedKeys] then returns the very list assigned. *)
Theorem selectedKeys_set_then_get c keys :
  Settled c → EntityNamed (table c) → OneNamePerId (table c) →
  isReady c = true → addCountryMode c ≠ change_country →
  NoDup keys →
  (∀ key, key ∈ keys →
     ∃ info, lookupKey key c = Some (info, c) ∧ Info.entity info ≠ VStr "") →
  ∃ c',
    selectedKeys_set keys c = Some ((), c') ∧
    table c' = table c ∧
    dimensions (props c') = dimensions (props c) ∧
    props_addCountryMode (props c') = props_addCountryMode (props c) ∧
    minPopulationFilter (props c') = minPopulationFilter (props c) ∧
    length (selectedData (props c')) = length keys ∧
    selectedKeys c' = Some (keys, c').
Proof.
  intros Hs Hnamed Hnames Hready Hmode Hnd Hkeys.
  destruct (selectedKeys_set_get c Hs Hnamed Hnames Hready Hmode keys Hnd)
    as (es & Hlen & Hset & Hget).
  { intros key Hkey. destruct (Hkeys key Hkey) as (info & Hl & Hne).
    exists info. split; [|done]. rewrite lookupKey_settled in Hl by done.
    destruct (Map_get key (keyIndex c)); [|done]. simpl in Hl. by simplify_eq. }
  exists (set_selectedData es c). split_and!; done.
Qed.

Lemma deaths_table_names : OneNamePerId deaths_table.
Proof.
  assert (Forall (λ r1, Forall (λ r2,
            get r1 "entityId" = get r2 "entityId" →
            get r1 "entityName" = get r2 "entityName") (rows deaths_table))
          (rows deaths_table)) as HF.
  { apply (bool_decide_unpack _). vm_compute. reflexivity. }
  intros r1 r2 H1 H2. rewrite Forall_forall in HF.
  specialize (HF r1 H1). rewrite Forall_forall in HF. exact (HF r2 H2).
Qed.

Lemma deaths_chart_key key :
  key ∈ ["Spain_0"; "France_0"] →
  ∃ info, lookupKey key (deaths_chart None) = Some (info, deaths_chart None) ∧
          Info.entity info ≠ VStr "".
Proof.
  intros Hkey. rewrite lookupKey_settled by apply deaths_chart_settled.
  destruct (Map_get key (keyIndex (deaths_chart None))) as [info|] eqn:E.
  - exists info. split; [done|].
    destruct (keyIndex_elem _ _ _ E) as (j & d & name & _ & Hn & -> & _).
    simpl. intros ->.
    apply elem_of_entityNamesOf in Hn as (row & Hrow & _ & Hname).
    apply visibleRows_rows in Hrow.
    assert (Forall (λ row, get row "entityName" ≠ VStr "") (rows deaths_table))
      as HF by (vm_compute; repeat constructor; discriminate).
    rewrite Forall_forall in HF. by apply (HF row).
  - exfalso. repeat (apply elem_of_cons in Hkey as [->|Hkey];
                     [vm_compute in E; discriminate|]).
    by apply elem_of_nil in Hkey.
Qed.

Lemma selectedKeys_set_then_get_witness :
  ∃ c', selectedKeys_set ["Spain_0"] (deaths_chart None) = Some ((), c') ∧
        selectedKeys c' = Some (["Spain_0"], c').
Proof.
  destruct (selectedKeys_set_then_get (deaths_chart None) ["Spain_0"]
              (deaths_chart_settled None) deaths_table_named deaths_table_names)
    as (c' & Hset & _ & _ & _ & _ & _ & Hget).
  - vm_compute. reflexivity.
  - discriminate.
  - apply NoDup_singleton.
  - intros key Hkey. apply deaths_chart_key.
    apply list_elem_of_singleton in Hkey as ->. left.
  - exists c'. split; [exact Hset|exact Hget].
Defined.

(** ** Toggling a key *)

Lemma kept_key_named c sel :
  Settled c → EntityNamed (table c) → sel ∈ keptSelections c →
  ∃ info, Map_get (keyOfSelection c sel) (keyIndex c) = Some info ∧
          Info.entity info ≠ VStr "".
Proof.
  intros Hs Hnamed Hin.
  destruct (kept_key_resolves c sel Hs Hin) as [info Hinfo].
  exists info. split; [done|].
  unfold keptSelections in Hin.
  apply (sublist_subseteq _ _ (uniqWith_sublist _ _)) in Hin.
  apply list_elem_of_filter in Hin as [Hv _].
  apply validSelection_true in Hv
    as [(dim & name & row & Hd & Hn & Ht & Hrow & Hcol & Hname) _].
  destruct (Hnamed row) as [s Hs']; [by apply visibleRows_rows|].
  rewrite Hname in Hs'. subst name.
  destruct (keyIndex_elem _ _ _ Hinfo) as (j & d & name' & _ & Hn' & -> & Hk).
  destruct (entityNamesOf_named _ _ _ Hnamed Hn') as [s' ->].
  unfold keyOfSelection, Map_get_value in Hk. rewrite Hn in Hk. simpl in Hk.
  rewrite Hs' in Hk, Ht.
  apply makeEntityDimensionKey_inj in Hk as [-> _].
  simpl. intros [= ->]. done.
Qed.

(** X14: on a ready, settled chart that is not in "change entity" mode
    and whose entity ids and names correspond one to one, [toggleKey] of a
    key that [lookupKey] resolves to a named entity changes nothing but the
    selection, and [selectedKeys] afterwards is the previous list without
    that key if it was selected, and the previous list followed by that key
    if it was not. *)
Theorem toggleKey_selectedKeys c key keys :
  Settled c → EntityNamed (table c) →
  OneIdPerName (table c) → OneNamePerId (table c) →
  isReady c = true → addCountryMode c ≠ change_country →
  (∃ info, lookupKey key c = Some (info, c) ∧ Info.entity info ≠ VStr "") →
  selectedKeys c = Some (keys, c) →
  ∃ c',
    toggleKey key c = Some ((), c') ∧
    table c' = table c ∧
    dimensions (props c') = dimensions (props c) ∧
    selectedKeys c'
    = Some (if bool_decide (key ∈ keys)
            then filter (λ k, k ≠ key) keys else keys ++ [key], c').
Proof.
  intros Hs Hnamed Hids Hnames Hready Hmode (info & Hl & Hne) Hkeys.
  rewrite lookupKey_settled in Hl by done.
  destruct (Map_get key (keyIndex c)) as [info'|] eqn:Hinfo; [|done].
  simpl in Hl. injection Hl as ->.
  pose proof (reads_selectedKeys c Hs) as Hread. unfold reads in Hread.
  rewrite Hread in Hkeys. injection Hkeys as <-.
  set (keys := keyOfSelection c <$> keptSelections c) in *.
  assert (NoDup keys) as Hnd by (by apply keptSelections_keys_NoDup).
  assert (∀ k, k ∈ keys →
            ∃ info, Map_get k (keyIndex c) = Some info ∧ Info.entity info ≠ VStr "")
    as Hres.
  { intros k Hk. apply list_elem_of_fmap in Hk as (sel & -> & Hsel).
    by apply kept_key_named. }
  set (keys' := if bool_decide (key ∈ keys)
                then filter (λ k, k ≠ key) keys else keys ++ [key]).
  destruct (selectedKeys_set_get c Hs Hnamed Hnames Hready Hmode keys')
    as (es & _ & Hset & Hget).
  { unfold keys'. case_bool_decide as Hin; [by apply NoDup_filter|].
    apply NoDup_app. split_and!; [done| |apply NoDup_singleton].
    intros k Hk Hk'. apply list_elem_of_singleton in Hk'. by subst. }
  { intros k Hk. unfold keys' in Hk. case_bool_decide as Hin.
    - apply list_elem_of_filter in Hk as [_ Hk]. by apply Hres.
    - apply elem_of_app in Hk as [Hk|Hk]; [by apply Hres|].
      apply list_elem_of_singleton in Hk as ->. eauto. }
  exists (set_selectedData es c). split_and!; [|done..].
  unfold toggleKey, mbind, M_bind. rewrite Hread. fold keys.
  unfold keys' in Hset. case_bool_decide; by rewrite Hread.
Qed.

Lemma toggleKey_selectedKeys_witness :
  ∃ c', toggleKey "Spain_0" (deaths_chart None) = Some ((), c') ∧
        selectedKeys c' = Some (["France_0"], c').
Proof.
  destruct (toggleKey_selectedKeys (deaths_chart None) "Spain_0"
              ["France_0"; "Spain_0"]
              (deaths_chart_settled None) deaths_table_named deaths_table_ids
              deaths_table_names)
    as (c' & Htoggle & _ & _ & Hget).
  - vm_compute. reflexivity.
  - discriminate.
  - apply deaths_chart_key. left.
  - vm_compute. reflexivity.
  - exists c'. split; [exact Htoggle|exact Hget].
Defined.

(** ** Colouring a selected key *)

Lemma uniqWith_fmap {A} (comparator : A → A → bool) (f : A → A) l :
  (∀ a b, comparator (f a) (f b) = comparator a b) →
  uniqWith comparator (f <$> l) = f <$> uniqWith comparator l.
Proof.
  intros Hf. unfold uniqWith.
  induction l as [|x l IH] using rev_ind; [done|].
  rewrite fmap_app. simpl. rewrite !foldl_snoc, IH.
  assert (existsb (λ seen, comparator seen (f x))
                  (f <$> foldl (λ result value,
                                  if existsb (λ seen, comparator seen value) result
                                  then result else result ++ [value]) [] l)
          = existsb (λ seen, comparator seen x)
                    (foldl (λ result value,
                              if existsb (λ seen, comparator seen value) result
                              then result else result ++ [value]) [] l)) as ->.
  { generalize (foldl (λ result value,
                         if existsb (λ seen, comparator seen value) result
                         then result else result ++ [value]) [] l) as r.
    induction r as [|y r IHr]; [done|].
    rewrite fmap_cons. cbn [existsb]. by rewrite Hf, IHr. }
  destruct (existsb _ _); [done|]. by rewrite fmap_app.
Qed.

Lemma filter_fmap_comm {A} (P Q : A → Prop) `{∀ x, Decision (P x)}
    `{∀ x, Decision (Q x)} (f : A → A) (l : list A) :
  (∀ x, P (f x) ↔ Q x) → filter P (f <$> l) = f <$> filter Q l.
Proof.
  intros HPQ. induction l as [|x l IH]; [done|].
  rewrite fmap_cons, !filter_cons, IH.
  destruct (decide (P (f x))) as [HP|HP], (decide (Q x)) as [HQ|HQ];
    try done; exfalso; apply HPQ in HP || apply HPQ in HQ; done.
Qed.

(** Recolouring the persisted entries recolours the entries that the
    read keeps. *)
Lemma keptSelections_recolor c meta color :
  keptSelections
    (set_selectedData (recolor meta color <$> selectedData (props c)) c)
  = recolor meta color <$> keptSelections c.
Proof.
  set (c' := set_selectedData (recolor meta color <$> selectedData (props c)) c).
  assert (∀ sel, EntitySelection.entityId (recolor meta color sel)
                 = EntitySelection.entityId sel ∧
                 EntitySelection.index (recolor meta color sel)
                 = EntitySelection.index sel) as Hsame.
  { intros sel. unfold recolor. by destruct (_ && _). }
  unfold keptSelections. cbn [selectedData props c' set_selectedData].
  rewrite (filter_fmap_comm _ (λ sel, validSelection c sel = true)).
  - apply uniqWith_fmap. intros a b. unfold sameSelection.
    destruct (Hsame a) as [-> ->]. by destruct (Hsame b) as [-> ->].
  - intros sel. unfold validSelection.
    change (primaryDimensions c') with (primaryDimensions c).
    change (table c') with (table c).
    change (addCountryMode c') with (addCountryMode c).
    cbn [selectedData props c' set_selectedData].
    destruct (Hsame sel) as [-> ->].
    rewrite fmap_last.
    destruct (last (selectedData (props c))) as [x|]; [|done].
    simpl. by destruct (Hsame x) as [-> _].
Qed.

(** X15: on a settled chart whose entity names are strings and belong to
    one id each, [setKeyColor] on a selected key leaves the selected keys
    as they are and makes [keyColors] hold the new colour under that key
    (no colour when the new colour is undefined or the empty string), the
    colours recorded under the other keys being unchanged. *)
Theorem setKeyColor_keyColors c key color keys kc :
  Settled c → EntityNamed (table c) → OneIdPerName (table c) →
  selectedKeys c = Some (keys, c) → key ∈ keys →
  keyColors c = Some (kc, c) →
  ∃ c' kc',
    setKeyColor key color c = Some ((), c') ∧
    selectedKeys c' = Some (keys, c') ∧
    keyColors c' = Some (kc', c') ∧
    kc' !! key = recordedColor color ∧
    ∀ k, k ≠ key → kc' !! k = kc !! k.
Proof.
  intros Hs Hnamed Hids Hkeys Hkey Hkc.
  pose proof (reads_selectedKeys c Hs) as Hread. unfold reads in Hread.
  rewrite Hread in Hkeys. injection Hkeys as <-.
  pose proof (reads_keyColors c Hs) as Hcol. unfold reads in Hcol.
  rewrite Hcol in Hkc. injection Hkc as <-.
  apply list_elem_of_fmap in Hkey as (sel0 & -> & Hsel0).
  destruct (kept_key_resolves c sel0 Hs Hsel0) as [meta Hmeta].
  assert (selectionPair sel0 = (Info.entityId meta, Z.of_nat (Info.index meta)))
    as Hpair.
  { pose proof (entryOfKey_kept c Hnamed Hids sel0 Hsel0) as He.
    unfold entryOfKey in He. rewrite Hmeta in He. simpl in He.
    apply (inj Some) in He.
    destruct (keyIndex_entry _ _ _ Hmeta) as (_ & Hid & _).
    apply (f_equal selectionPair) in He. unfold selectionPair in He.
    simpl in He. unfold selectionPair. by rewrite Hid, <-He. }
  set (c' := set_selectedData (recolor meta color <$> selectedData (props c)) c).
  assert (Settled c') as Hs' by exact Hs.
  assert (∀ sel, keyOfSelection c' (recolor meta color sel) = keyOfSelection c sel)
    as Hkeyof.
  { intros sel. unfold keyOfSelection, recolor. by destruct (_ && _). }
  assert (∀ sel, sel ∈ keptSelections c →
            EntitySelection.color (recolor meta color sel)
            = if decide (keyOfSelection c sel = keyOfSelection c sel0)
              then color else EntitySelection.color sel) as Hcolor.
  { intros sel Hsel. unfold recolor. case_decide as Hk.
    - pose proof (keyOfSelection_pair c Hnamed Hids _ _ Hsel Hsel0 Hk) as Hp.
      rewrite Hpair in Hp. unfold selectionPair in Hp. injection Hp as -> ->.
      by rewrite !bool_decide_eq_true_2.
    - destruct (bool_decide _ && bool_decide _) eqn:Hb; [|done].
      exfalso. apply Hk. apply andb_true_iff in Hb as [Hb1 Hb2].
      apply bool_decide_eq_true in Hb1, Hb2.
      unfold keyOfSelection. rewrite Hb1, Hb2.
      unfold selectionPair in Hpair. by injection Hpair as -> ->. }
  assert (keptSelections c' = recolor meta color <$> keptSelections c) as Hkept
    by apply keptSelections_recolor.
  exists c', (colorsOf c').
  assert (colorsOf c'
          = foldl recordColor ∅
              ((λ sel, (keyOfSelection c sel,
                        EntitySelection.color (recolor meta color sel)))
                 <$> keptSelections c)) as Hcolors.
  { unfold colorsOf. rewrite Hkept, <-list_fmap_compose. f_equal.
    apply list_fmap_ext. intros i sel _. simpl. by rewrite Hkeyof. }
  assert (NoDup ((λ sel, (keyOfSelection c sel,
                          EntitySelection.color (recolor meta color sel)))
                   <$> keptSelections c).*1) as Hnd'.
  { rewrite <-list_fmap_compose. by apply keptSelections_keys_NoDup. }
  assert (NoDup ((λ sel, (keyOfSelection c sel, EntitySelection.color sel))
                   <$> keptSelections c).*1) as Hnd.
  { rewrite <-list_fmap_compose. by apply keptSelections_keys_NoDup. }
  split_and!.
  - unfold setKeyColor, mbind, M_bind. rewrite lookupKey_settled by done.
    by rewrite Hmeta.
  - rewrite (reads_selectedKeys c' Hs'), Hkept, <-list_fmap_compose.
    f_equal. f_equal. apply list_fmap_ext. intros i sel _. apply Hkeyof.
  - apply (reads_keyColors c' Hs').
  - rewrite Hcolors.
    rewrite (foldl_recordColor_lookup _ (keyOfSelection c sel0)
               (EntitySelection.color (recolor meta color sel0))); [|done|].
    + rewrite Hcolor by done. by rewrite decide_True.
    + apply list_elem_of_fmap. by exists sel0.
  - intros k Hk. rewrite Hcolors. unfold colorsOf.
    destruct (decide (k ∈ keyOfSelection c <$> keptSelections c)) as [Hin|Hout].
    + apply list_elem_of_fmap in Hin as (sel & -> & Hsel).
      rewrite (foldl_recordColor_lookup _ (keyOfSelection c sel)
                 (EntitySelection.color (recolor meta color sel))); [|done|].
      2:{ apply list_elem_of_fmap. by exists sel. }
      rewrite (foldl_recordColor_lookup _ (keyOfSelection c sel)
                 (EntitySelection.color sel)); [|done|].
      2:{ apply list_elem_of_fmap. by exists sel. }
      rewrite Hcolor by done. by rewrite decide_False.
    + rewrite !foldl_recordColor_fresh; [done|..];
        by rewrite <-list_fmap_compose.
Qed.

Lemma setKeyColor_keyColors_witness :
  ∃ c' kc',
    setKeyColor "Spain_0" (Some "blue") (deaths_chart None) = Some ((), c') ∧
    keyColors c' = Some (kc', c') ∧ kc' !! "Spain_0" = Some "blue".
Proof.
  destruct (setKeyColor_keyColors (deaths_chart None) "Spain_0" (Some "blue")
              ["France_0"; "Spain_0"] (<["France_0" := "red"]> ∅)
              (deaths_chart_settled None) deaths_table_named deaths_table_ids)
    as (c' & kc' & Hset & _ & Hcol & Hkey & _).
  - vm_compute. reflexivity.
  - right. left.
  - vm_compute. reflexivity.
  - exists c', kc'. split_and!; [exact Hset|exact Hcol|exact Hkey].
Defined.

(** ** Dimension slots *)

Section DimensionSlots_facts.
Variables ScatterPlot TimeScatter SlopeChart : string.
Variable type : string.

Local Abbreviation slots := (dimensionSlots ScatterPlot TimeScatter SlopeChart type).
Local Abbreviation multiple := (allowMultiple ScatterPlot TimeScatter SlopeChart type).
Local Abbreviation valid := (validDimensions ScatterPlot TimeScatter SlopeChart type).
Local Abbreviation ofSlot p := (λ d : ChartDimension.t, ChartDimension.property d = p).

Lemma dimensionSlots_NoDup : NoDup slots.
Proof.
  unfold dimensionSlots.
  destruct (isScatter _ _); [|destruct (isTimeScatter _ _);
    [|destruct (isSlopeChart _ _)]];
    repeat (apply NoDup_cons; split; [set_solver|]); apply NoDup_nil_2.
Qed.

Lemma existsb_sameSlot p l x :
  existsb (λ seen, sameSlot p seen x) l = true
  ↔ ChartDimension.property x = p ∧ filter (ofSlot p) l ≠ [].
Proof.
  rewrite existsb_exists. unfold sameSlot. split.
  - intros (seen & Hin & Hc). apply andb_true_iff in Hc as [H1 H2].
    apply bool_decide_eq_true in H1, H2. split; [congruence|].
    intros Hnil. apply list_elem_of_In in Hin.
    assert (seen ∈ filter (ofSlot p) l) as Hf
      by (by apply list_elem_of_filter).
    rewrite Hnil in Hf. by apply elem_of_nil in Hf.
  - intros [Hx Hne]. destruct (filter (ofSlot p) l) as [|seen f] eqn:Hf; [done|].
    assert (seen ∈ filter (ofSlot p) l) as Hin by (rewrite Hf; left).
    apply list_elem_of_filter in Hin as [Hp Hin]. exists seen.
    split; [by apply list_elem_of_In|].
    apply andb_true_iff. rewrite !bool_decide_eq_true. split; congruence.
Qed.

Lemma take_1_app_ne {A} (l k : list A) : l ≠ [] → take 1 (l ++ k) = take 1 l.
Proof. by destruct l. Qed.

Lemma take_1_nil {A} (l : list A) : take 1 l = [] → l = [].
Proof. by destruct l. Qed.

(** Removing duplicates for slot [p] keeps the first dimension of [p] and
    every dimension of the other properties. *)
Lemma filter_uniqWith_sameSlot p q l :
  filter (ofSlot q) (uniqWith (sameSlot p) l)
  = if decide (q = p) then take 1 (filter (ofSlot p) l)
    else filter (ofSlot q) l.
Proof.
  destruct (decide (q = p)) as [->|Hq].
  - induction l as [|x l IH] using rev_ind; [done|].
    rewrite uniqWith_snoc, filter_app.
    destruct (existsb _ _) eqn:E.
    + apply existsb_sameSlot in E as [Hx Hne]. rewrite IH in Hne |- *.
      rewrite take_1_app_ne; [done|]. intros Hnil. by rewrite Hnil in Hne.
    + rewrite filter_app, IH.
      destruct (decide (ChartDimension.property x = p)) as [Hx|Hx].
      * assert (filter (ofSlot p) (uniqWith (sameSlot p) l) = []) as Hnil.
        { destruct (filter (ofSlot p) (uniqWith (sameSlot p) l)) eqn:Hf;
            [done|].
          assert (existsb (λ seen, sameSlot p seen x)
                    (uniqWith (sameSlot p) l) = true) as E'.
          { apply existsb_sameSlot. split; [done|]. by rewrite Hf. }
          congruence. }
        rewrite IH in Hnil. rewrite Hnil. apply take_1_nil in Hnil.
        rewrite Hnil, (filter_cons_True (ofSlot p)) by done. done.
      * rewrite !(filter_cons_False (ofSlot p)) by done.
        by rewrite !app_nil_r.
  - induction l as [|x l IH] using rev_ind; [done|].
    rewrite uniqWith_snoc, filter_app.
    destruct (existsb _ _) eqn:E.
    + apply existsb_sameSlot in E as [Hx Hne]. rewrite IH.
      rewrite (filter_cons_False (ofSlot q)) by congruence.
      by rewrite app_nil_r.
    + by rewrite filter_app, IH.
Qed.

Lemma uniqWith_sameSlot_sublist p l : sublist (uniqWith (sameSlot p) l) l.
Proof.
  induction l as [|x l IH] using rev_ind; [done|].
  rewrite uniqWith_snoc. destruct (existsb _ _).
  - by apply sublist_inserts_r.
  - by apply sublist_app.
Qed.

(** A list with at most one dimension of slot [p] is left as it is. *)
Lemma uniqWith_sameSlot_id p l :
  (length (filter (ofSlot p) l) ≤ 1)%nat → uniqWith (sameSlot p) l = l.
Proof.
  induction l as [|x l IH] using rev_ind; [done|].
  rewrite filter_app, length_app. intros Hlen.
  rewrite uniqWith_snoc, IH by lia.
  destruct (existsb _ _) eqn:E; [|done].
  apply existsb_sameSlot in E as [Hx Hne]. exfalso.
  rewrite (filter_cons_True (ofSlot p)) in Hlen by done. simpl in Hlen.
  destruct (filter (ofSlot p) l); [done|]. simpl in Hlen. lia.
Qed.

(** The loop of [validDimensions] over a list of slots. *)
Definition dedupeSlots (ps : list string) (l : list ChartDimension.t)
    : list ChartDimension.t :=
  foldl (λ validDimensions slot,
           if negb (multiple slot)
           then uniqWith (sameSlot slot) validDimensions
           else validDimensions)
        l ps.

Lemma dedupeSlots_cons p ps l :
  dedupeSlots (p :: ps) l
  = dedupeSlots ps (if negb (multiple p) then uniqWith (sameSlot p) l else l).
Proof. done. Qed.

Lemma take_1_take_1 {A} (l : list A) : take 1 (take 1 l) = take 1 l.
Proof. by destruct l. Qed.

Lemma filter_dedupeSlots ps q l :
  filter (ofSlot q) (dedupeSlots ps l)
  = if bool_decide (q ∈ ps) && negb (multiple q)
    then take 1 (filter (ofSlot q) l)
    else filter (ofSlot q) l.
Proof.
  revert l. induction ps as [|p ps IH]; intros l; [done|].
  rewrite dedupeSlots_cons, IH.
  destruct (decide (q = p)) as [->|Hq].
  - rewrite (bool_decide_eq_true_2 (p ∈ p :: ps)) by left. simpl.
    destruct (multiple p) eqn:Hm; simpl.
    + by rewrite andb_false_r.
    + rewrite filter_uniqWith_sameSlot, decide_True by done.
      rewrite andb_true_r. case_bool_decide; [|done]. apply take_1_take_1.
  - assert (bool_decide (q ∈ p :: ps) = bool_decide (q ∈ ps)) as ->.
    { apply bool_decide_ext. rewrite elem_of_cons. naive_solver. }
    destruct (negb (multiple p)); [|done].
    by rewrite filter_uniqWith_sameSlot, decide_False.
Qed.

Lemma dedupeSlots_sublist ps l : sublist (dedupeSlots ps l) l.
Proof.
  revert l. induction ps as [|p ps IH]; intros l; [done|].
  rewrite dedupeSlots_cons.
  etrans; [apply IH|]. destruct (negb _); [|done].
  apply uniqWith_sameSlot_sublist.
Qed.

Lemma dedupeSlots_id ps l :
  (∀ p, p ∈ ps → multiple p = false →
     (length (filter (ofSlot p) l) ≤ 1)%nat) →
  dedupeSlots ps l = l.
Proof.
  induction ps as [|p ps IH]; intros Hl; [done|].
  rewrite dedupeSlots_cons.
  destruct (multiple p) eqn:Hm; simpl.
  - apply IH. intros q Hq. apply Hl. by right.
  - rewrite uniqWith_sameSlot_id by (apply Hl; [left|done]).
    apply IH. intros q Hq. apply Hl. by right.
Qed.

Lemma filter_filter_slot (ps : list string) q (l : list ChartDimension.t) :
  filter (ofSlot q) (filter (λ dim, ChartDimension.property dim ∈ ps) l)
  = if bool_decide (q ∈ ps) then filter (ofSlot q) l else [].
Proof.
  induction l as [|x l IH]; [by case_bool_decide|].
  destruct (decide (ChartDimension.property x ∈ ps)) as [Hx|Hx].
  - rewrite (filter_cons_True (λ dim, ChartDimension.property dim ∈ ps)) by done.
    destruct (decide (ChartDimension.property x = q)) as [Hq|Hq].
    + rewrite !(filter_cons_True (ofSlot q)), IH by done.
      subst q. by rewrite bool_decide_eq_true_2.
    + rewrite !(filter_cons_False (ofSlot q)), IH by done. done.
  - rewrite (filter_cons_False (λ dim, ChartDimension.property dim ∈ ps)) by done.
    rewrite IH. case_bool_decide as Hq; [|done].
    rewrite (filter_cons_False (ofSlot q)); [done|]. congruence.
Qed.

Lemma take_1_length {A} (l : list A) : (length (take 1 l) ≤ 1)%nat.
Proof. destruct l; simpl; lia. Qed.

Lemma validDimensions_dedupe c :
  valid c
  = dedupeSlots slots
      (filter (λ dim, ChartDimension.property dim ∈ slots)
              (dimensions (props c))).
Proof. done. Qed.

Lemma validDimensions_slot c p :
  filter (ofSlot p) (valid c)
  = if bool_decide (p ∈ slots)
    then if multiple p
         then slot_dimensions p c else take 1 (slot_dimensions p c)
    else [].
Proof.
  rewrite validDimensions_dedupe, filter_dedupeSlots, filter_filter_slot.
  unfold slot_dimensions.
  by destruct (bool_decide _), (multiple p).
Qed.

Lemma validDimensions_valid c d :
  d ∈ valid c → ChartDimension.property d ∈ slots.
Proof.
  rewrite validDimensions_dedupe. intros Hin.
  apply (sublist_subseteq _ _ (dedupeSlots_sublist _ _)) in Hin.
  by apply list_elem_of_filter in Hin as [? _].
Qed.

Lemma validDimensions_idem c :
  valid (set_dimensions (valid c) c) = valid c.
Proof.
  rewrite (validDimensions_dedupe (set_dimensions _ _)). simpl.
  rewrite filter_all.
  - apply dedupeSlots_id. intros p Hp Hm.
    rewrite validDimensions_slot, bool_decide_eq_true_2, Hm by done.
    apply take_1_length.
  - apply Forall_forall. apply validDimensions_valid.
Qed.

(** X16: [validDimensions] keeps the configured dimensions in their order
    and, slot by slot, holds every dimension of a slot that allows several,
    only the first dimension of a slot that allows one, and no dimension
    whose property is not a slot of the chart type. *)
Theorem validDimensions_per_slot c :
  sublist (valid c) (dimensions (props c)) ∧
  ∀ property,
    filter (λ d, ChartDimension.property d = property) (valid c)
    = if bool_decide (property ∈ slots)
      then if multiple property
           then slot_dimensions property c
           else take 1 (slot_dimensions property c)
      else [].
Proof.
  split; [|apply validDimensions_slot].
  rewrite validDimensions_dedupe.
  etrans; [apply dedupeSlots_sublist|apply sublist_filter].
Qed.

(** X17: the reaction of [ensureValidConfig] on the dimensions stores
    [validDimensions] and nothing else, and the stored list is valid as it
    is: running the reaction again changes nothing. *)
Theorem ensureValidDimensions_settles c :
  let c' := ensureValidDimensions ScatterPlot TimeScatter SlopeChart type c in
  dimensions (props c') = valid c ∧
  valid c' = dimensions (props c') ∧
  ensureValidDimensions ScatterPlot TimeScatter SlopeChart type c' = c' ∧
  selectedData (props c') = selectedData (props c) ∧
  props_addCountryMode (props c') = props_addCountryMode (props c) ∧
  minPopulationFilter (props c') = minPopulationFilter (props c) ∧
  table c' = table c.
Proof.
  intros c'.
  assert (dimensions (props c') = valid c ∧ valid c' = valid c) as [Hd Hv].
  { subst c'. unfold ensureValidDimensions. case_bool_decide as Heq.
    - split; [done|]. rewrite <-Heq at 2.
      rewrite <-validDimensions_idem. f_equal.
      destruct c as [[] ?]. unfold set_dimensions. simpl in *. by rewrite <-Heq.
    - split; [done|]. apply validDimensions_idem. }
  split_and!; [done|congruence| |subst c'; unfold ensureValidDimensions;
                                  by case_bool_decide..].
  unfold ensureValidDimensions at 1.
  rewrite bool_decide_eq_true_2; [done|congruence].
Qed.

Lemma filter_slot_other q s (l : list ChartDimension.t) :
  q ≠ s → Forall (ofSlot s) l → filter (ofSlot q) l = [].
Proof.
  intros Hq. induction 1 as [|x l Hx _ IH]; [done|].
  rewrite filter_cons_False; [done|]. congruence.
Qed.

Lemma filter_slot_filter q s (l : list ChartDimension.t) :
  filter (ofSlot q) (filter (ofSlot s) l)
  = if decide (q = s) then filter (ofSlot q) l else [].
Proof.
  case_decide as Hq.
  - subst q. apply filter_all, Forall_forall. intros x Hx.
    by apply list_elem_of_filter in Hx as [? _].
  - apply (filter_slot_other q s); [done|]. apply Forall_forall.
    intros x Hx. by apply list_elem_of_filter in Hx as [? _].
Qed.

(** What the loop of the setter gives to a slot. *)
Lemma filter_newDimensions p dims c ps q acc :
  NoDup ps → Forall (ofSlot p) dims →
  filter (ofSlot q)
    (foldl (λ newDimensions slot,
              if bool_decide (slot = p)
              then newDimensions ++ dims
              else newDimensions ++ slot_dimensions slot c)
           acc ps)
  = filter (ofSlot q) acc ++
    if bool_decide (q ∈ ps)
    then if decide (q = p) then dims else slot_dimensions q c
    else [].
Proof.
  intros Hnd Hdims. revert acc.
  induction Hnd as [|s ps Hs _ IH]; intros acc; [by rewrite app_nil_r|].
  simpl. rewrite IH. destruct (decide (q = s)) as [->|Hq].
  - rewrite (bool_decide_eq_false_2 (s ∈ ps)) by done.
    rewrite (bool_decide_eq_true_2 (s ∈ s :: ps)) by left.
    rewrite app_nil_r. destruct (decide (s = p)) as [->|Hp].
    + rewrite bool_decide_eq_true_2, filter_app by done.
      f_equal. by apply filter_all.
    + rewrite bool_decide_eq_false_2, filter_app by done.
      f_equal. unfold slot_dimensions.
      by rewrite filter_slot_filter, decide_True.
  - assert (bool_decide (q ∈ s :: ps) = bool_decide (q ∈ ps)) as ->.
    { apply bool_decide_ext. rewrite elem_of_cons. naive_solver. }
    f_equal. destruct (decide (s = p)) as [->|Hp].
    + rewrite bool_decide_eq_true_2, filter_app by done.
      by rewrite (filter_slot_other q p dims), app_nil_r.
    + rewrite bool_decide_eq_false_2, filter_app by done.
      unfold slot_dimensions.
      by rewrite filter_slot_filter, decide_False, app_nil_r.
Qed.

End DimensionSlots_facts.

Section DimensionSlots_assign.
Variables ScatterPlot TimeScatter SlopeChart : string.
Variable type : string.

Local Abbreviation slots := (dimensionSlots ScatterPlot TimeScatter SlopeChart type).
Local Abbreviation multiple := (allowMultiple ScatterPlot TimeScatter SlopeChart type).
Local Abbreviation valid := (validDimensions ScatterPlot TimeScatter SlopeChart type).

(** What the setter alone leaves in a slot. *)
Lemma slot_dimensions_set_slot property dims c q :
  Forall (λ d, ChartDimension.property d = property) dims →
  slot_dimensions q
    (slot_dimensions_set ScatterPlot TimeScatter SlopeChart type property dims c)
  = if bool_decide (q ∈ slots)
    then if decide (q = property) then dims else slot_dimensions q c
    else [].
Proof.
  intros Hdims. unfold slot_dimensions at 1, slot_dimensions_set. simpl.
  rewrite filter_newDimensions; [done|apply dimensionSlots_NoDup|done].
Qed.

Lemma ensureValidDimensions_dimensions c :
  dimensions (props (ensureValidDimensions ScatterPlot TimeScatter SlopeChart
                       type c))
  = valid c.
Proof. unfold ensureValidDimensions. by case_bool_decide. Qed.

(** X18: assigning to a slot of the chart type a list of dimensions of the
    slot's own property.  In Node, where no reaction is installed, the
    slot reads back as the assigned list and every other slot of the chart
    type as before.  Elsewhere the reaction of [ensureValidConfig] runs on
    the assigned list: a slot that allows several dimensions reads the
    same way, a slot that allows one reads the first dimension only, of
    the assigned list for the assigned slot and of its former dimensions
    for another slot.  A property that is no slot of the chart type
    reads empty; selection and table are left as they were. *)
Theorem slot_dimensions_assign_get isNode property dims c :
  property ∈ slots →
  Forall (λ d, ChartDimension.property d = property) dims →
  let c' := slot_dimensions_assign ScatterPlot TimeScatter SlopeChart type
              isNode property dims c in
  let stored q (l : list ChartDimension.t) :=
    if isNode || multiple q then l else take 1 l in
  slot_dimensions property c' = stored property dims ∧
  (∀ q, q ∈ slots → q ≠ property →
     slot_dimensions q c' = stored q (slot_dimensions q c)) ∧
  (∀ q, q ∉ slots → slot_dimensions q c' = []) ∧
  selectedData (props c') = selectedData (props c) ∧
  table c' = table c.
Proof.
  intros Hp Hdims c' stored.
  assert (∀ q, slot_dimensions q c'
               = if bool_decide (q ∈ slots)
                 then stored q (if decide (q = property) then dims
                                else slot_dimensions q c)
                 else []) as Hget.
  { intros q. subst c' stored. unfold slot_dimensions_assign.
    destruct isNode; simpl.
    - by apply slot_dimensions_set_slot.
    - unfold slot_dimensions at 1.
      rewrite ensureValidDimensions_dimensions.
      rewrite validDimensions_slot.
      rewrite slot_dimensions_set_slot by done.
      case_bool_decide; [|done]. by destruct (multiple q). }
  split_and!.
  - by rewrite Hget, bool_decide_eq_true_2, decide_True.
  - intros q Hq Hne. by rewrite Hget, bool_decide_eq_true_2, decide_False.
  - intros q Hq. by rewrite Hget, bool_decide_eq_false_2.
  - subst c'. unfold slot_dimensions_assign, ensureValidDimensions.
    destruct isNode; [done|]. by case_bool_decide.
  - subst c'. unfold slot_dimensions_assign, ensureValidDimensions.
    destruct isNode; [done|]. by case_bool_decide.
Qed.

End DimensionSlots_assign.

Definition scatter_dimension (property : string) (variableId : Z)
    : ChartDimension.t :=
  {| ChartDimension.property := property;
     ChartDimension.variableId := variableId;
     ChartDimension.display := plain_display |}.

Lemma slot_dimensions_assign_get_witness :
  let c := set_dimensions
             [scatter_dimension "y" 1; scatter_dimension "x" 2]
             (deaths_chart None) in
  slot_dimensions "x"
    (slot_dimensions_assign "ScatterPlot" "TimeScatter" "SlopeChart"
       "ScatterPlot" false "x"
       [scatter_dimension "x" 3; scatter_dimension "x" 4] c)
  = [scatter_dimension "x" 3].
Proof.
  intros c.
  apply (slot_dimensions_assign_get "ScatterPlot" "TimeScatter" "SlopeChart"
           "ScatterPlot" false "x"
           [scatter_dimension "x" 3; scatter_dimension "x" 4] c).
  - vm_compute. right. left.
  - repeat constructor.
Defined.

(** ** Selecting one entity *)

Lemma kept_key_entity c sel :
  Settled c → EntityNamed (table c) → sel ∈ keptSelections c →
  ∃ info, Map_get (keyOfSelection c sel) (keyIndex c) = Some info ∧
          Info.entity info
          = Map_get_value (EntitySelection.entityId sel)
                          (entityIdToNameMap (table c)).
Proof.
  intros Hs Hnamed Hin.
  destruct (kept_key_resolves c sel Hs Hin) as [info Hinfo].
  exists info. split; [done|].
  unfold keptSelections in Hin.
  apply (sublist_subseteq _ _ (uniqWith_sublist _ _)) in Hin.
  apply list_elem_of_filter in Hin as [Hv _].
  apply validSelection_true in Hv
    as [(dim & name & row & Hd & Hn & Ht & Hrow & Hcol & Hname) _].
  destruct (Hnamed row) as [s Hs']; [by apply visibleRows_rows|].
  rewrite Hname in Hs'. subst name.
  destruct (keyIndex_elem _ _ _ Hinfo) as (j & d & name' & _ & Hn' & -> & Hk).
  destruct (entityNamesOf_named _ _ _ Hnamed Hn') as [s' ->].
  unfold keyOfSelection, Map_get_value in Hk. rewrite Hn in Hk. simpl in Hk.
  rewrite Hs' in Hk, Hn.
  apply makeEntityDimensionKey_inj in Hk as [-> _].
  unfold Map_get_value. rewrite Hn. done.
Qed.

Lemma Set_from_constant {K} `{EqDecision K} (l : list K) x :
  Forall (λ y, y = x) l → Set_from l = [] ∨ Set_from l = [x].
Proof.
  induction l as [|y l IH] using rev_ind; [by left|].
  intros Hl. apply Forall_app in Hl as [Hl Hy].
  rewrite Forall_singleton in Hy. subst y.
  rewrite Set_from_snoc. unfold Set_add.
  destruct (IH Hl) as [->| ->]; right.
  - by rewrite decide_False by apply not_elem_of_nil.
  - rewrite decide_True; [done|left].
Qed.

(** X19: on a settled chart whose entity names are strings,
    [setSelectedEntity] gives every persisted entry the entity id and
    keeps its dimension index and colour; afterwards [selectedEntities]
    lists at most one entity, the name recorded for that id. *)
Theorem setSelectedEntity_selectedEntities c entityId :
  Settled c → EntityNamed (table c) →
  ∃ c' entities,
    setSelectedEntity entityId c = Some ((), c') ∧
    table c' = table c ∧
    dimensions (props c') = dimensions (props c) ∧
    Forall2 (λ d d', EntitySelection.entityId d' = VNum entityId ∧
                     EntitySelection.index d' = EntitySelection.index d ∧
                     EntitySelection.color d' = EntitySelection.color d)
            (selectedData (props c)) (selectedData (props c')) ∧
    selectedEntities c' = Some (entities, c') ∧
    (entities = [] ∨
     entities = [Map_get_value (VNum entityId) (entityIdToNameMap (table c))]).
Proof.
  intros Hs Hnamed.
  set (entry := λ d, {| EntitySelection.entityId := VNum entityId;
                        EntitySelection.index := EntitySelection.index d;
                        EntitySelection.color := EntitySelection.color d |}).
  set (c' := set_selectedData (entry <$> selectedData (props c)) c).
  assert (Settled c') as Hs' by exact Hs.
  set (entityOf := λ key, default VUndef (Info.entity <$> Map_get key (keyIndex c'))).
  set (keys := keyOfSelection c' <$> keptSelections c').
  exists c', (uniq (entityOf <$> keys)). split_and!; [done..| | |].
  - simpl. apply Forall2_fmap_r, Forall_Forall2_diag, Forall_forall. done.
  - unfold selectedEntities. eapply reads_bind; [by apply reads_selectedKeys|].
    fold keys. eapply reads_bind; [|apply reads_ret].
    apply reads_mapM. intros key Hkey.
    apply list_elem_of_fmap in Hkey as (sel & -> & Hsel).
    destruct (kept_key_resolves c' sel Hs' Hsel) as [info Hinfo].
    unfold reads, mbind, M_bind. rewrite lookupKey_settled by done.
    unfold entityOf. by rewrite Hinfo.
  - apply Set_from_constant, Forall_fmap, Forall_fmap, Forall_forall.
    intros sel Hsel. simpl.
    destruct (kept_key_entity c' sel Hs' Hnamed Hsel) as (info & Hinfo & He).
    unfold entityOf. rewrite Hinfo. simpl. rewrite He.
    apply (sublist_subseteq _ _ (keptSelections_sublist c')) in Hsel.
    simpl in Hsel. apply list_elem_of_fmap in Hsel as (d & -> & _). done.
Qed.

Lemma setSelectedEntity_selectedEntities_witness :
  ∃ c',
    setSelectedEntity 2 (deaths_chart None) = Some ((), c') ∧
    selectedEntities c' = Some ([VStr "Spain"], c').
Proof.
  destruct (setSelectedEntity_selectedEntities (deaths_chart None) 2
              (deaths_chart_settled None) deaths_table_named)
    as (c' & entities & Hset & _ & _ & _ & Hsel & _).
  exists c'. split; [exact Hset|].
  injection Hset as <-. vm_compute. reflexivity.
Defined.

(** ** The keys of an entity *)

Definition groupKeys (keyData : list (string * Info.t))
    : list (Value * list string) :=
  foldl (λ keysByEntity entry,
           Map_set (Info.entity entry.2)
             (default [] (Map_get (Info.entity entry.2) keysByEntity)
                ++ [entry.1])
             keysByEntity)
        [] keyData.

Lemma groupKeys_get keyData entity :
  Map_get entity (groupKeys keyData)
  = match (filter (λ entry, Info.entity entry.2 = entity) keyData).*1 with
    | [] => None
    | keys => Some keys
    end.
Proof.
  induction keyData as [|[key info] keyData IH] using rev_ind; [done|].
  unfold groupKeys. rewrite foldl_snoc. fold (groupKeys keyData). simpl.
  rewrite filter_app, fmap_app.
  destruct (decide (Info.entity info = entity)) as [<-|Hne].
  - rewrite Map_get_set_eq, IH.
    rewrite (filter_cons_True (λ entry, Info.entity entry.2 = Info.entity info))
      by done.
    simpl. destruct (_.*1) as [|k ks]; done.
  - rewrite Map_get_set_ne by done. rewrite IH.
    rewrite (filter_cons_False (λ entry, Info.entity entry.2 = entity)) by done.
    simpl. by rewrite app_nil_r.
Qed.

Lemma addEntities_NoDup chart scope dimension i keyData names :
  NoDup (Map_keys keyData) →
  NoDup (Map_keys (addEntities chart scope dimension i keyData names)).
Proof.
  apply (Map_keys_foldl_NoDup
           (λ entityName,
              Info.entityDimensionKey
                (entityDimensionInfo chart scope dimension i entityName))
           (λ entityName,
              entityDimensionInfo chart scope dimension i entityName)).
Qed.

Lemma keyDataFrom_NoDup c scope todo i keyData :
  NoDup (Map_keys keyData) →
  NoDup (Map_keys (keyDataFrom c scope todo i keyData)).
Proof.
  revert i keyData. induction todo as [|d todo IH]; intros i keyData Hnd;
    [done|].
  simpl. apply IH. by apply addEntities_NoDup.
Qed.

Lemma keyIndex_NoDup c : NoDup (Map_keys (keyIndex c)).
Proof.
  unfold keyIndex. destruct (isReady c); [|apply NoDup_nil_2].
  apply keyDataFrom_NoDup, NoDup_nil_2.
Qed.

(** X20: on a settled chart [availableKeysByEntity] files every key of
    the index under the entity of its record and under no other: the entry
    of an entity is never empty, repeats no key, and holds exactly the keys
    that [lookupKey] resolves to a record of that entity. *)
Theorem availableKeysByEntity_groups c :
  Settled c →
  ∃ keysByEntity,
    availableKeysByEntity c = Some (keysByEntity, c) ∧
    (∀ entity keys, Map_get entity keysByEntity = Some keys →
       keys ≠ [] ∧ NoDup keys ∧
       ∀ key, key ∈ keys ↔
         ∃ info, lookupKey key c = Some (info, c) ∧
                 Info.entity info = entity) ∧
    (∀ key info, lookupKey key c = Some (info, c) →
       ∃ keys, Map_get (Info.entity info) keysByEntity = Some keys ∧
               key ∈ keys).
Proof.
  intros Hs. exists (groupKeys (keyIndex c)).
  assert (∀ key info, lookupKey key c = Some (info, c)
                      ↔ (key, info) ∈ keyIndex c) as Hlook.
  { intros key info. rewrite lookupKey_settled by done. split.
    - destruct (Map_get key (keyIndex c)) as [info'|] eqn:Hget; [|done].
      intros [= <-]. by apply Map_get_Some_elem.
    - intros Hin. by rewrite (Map_get_elem_NoDup _ _ _ (keyIndex_NoDup c) Hin). }
  assert (∀ entity key,
            key ∈ (filter (λ entry, Info.entity entry.2 = entity) (keyIndex c)).*1
            ↔ ∃ info, lookupKey key c = Some (info, c) ∧
                      Info.entity info = entity) as Hin.
  { intros entity key. rewrite list_elem_of_fmap. split.
    - intros ([key' info] & -> & Hentry).
      apply list_elem_of_filter in Hentry as [He Hentry].
      exists info. split; [by apply Hlook|done].
    - intros (info & Hl & He). exists (key, info). split; [done|].
      apply list_elem_of_filter. split; [done|by apply Hlook]. }
  split_and!.
  - unfold availableKeysByEntity.
    eapply reads_bind; [by apply reads_entityDimensionMap|]. done.
  - intros entity keys Hget. rewrite groupKeys_get in Hget.
    assert (keys = (filter (λ entry, Info.entity entry.2 = entity)
                           (keyIndex c)).*1 ∧ keys ≠ []) as [-> Hne].
    { destruct (_.*1); [done|]. by injection Hget as <-. }
    split_and!; [done| |apply Hin].
    eapply sublist_NoDup; [apply (keyIndex_NoDup c)|].
    unfold Map_keys. apply fmap_sublist, sublist_filter.
  - intros key info Hl. rewrite groupKeys_get.
    assert (key ∈ (filter (λ entry, Info.entity entry.2 = Info.entity info)
                           (keyIndex c)).*1) as Hkey.
    { apply Hin. by exists info. }
    destruct (_.*1) as [|k ks] eqn:E; [by apply elem_of_nil in Hkey|].
    by exists (k :: ks).
Qed.

Lemma availableKeysByEntity_groups_witness :
  ∃ keysByEntity,
    availableKeysByEntity (deaths_chart None)
      = Some (keysByEntity, deaths_chart None).
Proof.
  destruct (availableKeysByEntity_groups (deaths_chart None)
              (deaths_chart_settled None)) as (keysByEntity & Hk & _).
  exists keysByEntity. exact Hk.
Defined.

(** ** Selecting a key *)

Lemma uniqWith_keys_Set_from {A K} `{EqDecision K} (key : A → K)
    (comparator : A → A → bool) (l : list A) :
  (∀ x y, x ∈ l → y ∈ l → comparator x y = true ↔ key x = key y) →
  key <$> uniqWith comparator l = Set_from (key <$> l).
Proof.
  induction l as [|x l IH] using rev_ind; intros Hc; [done|].
  rewrite uniqWith_snoc, fmap_app.
  change (key <$> [x]) with [key x]. rewrite Set_from_snoc.
  rewrite <-IH by (intros ????; apply Hc; apply elem_of_app; by left).
  unfold Set_add. simpl.
  assert (existsb (λ seen, comparator seen x) (uniqWith comparator l) = true
          ↔ key x ∈ key <$> uniqWith comparator l) as Hex.
  { rewrite existsb_exists, list_elem_of_fmap. split.
    - intros (y & Hy & Hcmp). apply list_elem_of_In in Hy. exists y.
      split; [|done]. symmetry. apply Hc; [|by apply elem_of_app; right; left|done].
      apply elem_of_app. left.
      by apply (sublist_subseteq _ _ (uniqWith_sublist comparator l)).
    - intros (y & Hk & Hy). exists y. split; [by apply list_elem_of_In|].
      apply Hc; [|by apply elem_of_app; right; left|done].
      apply elem_of_app. left.
      by apply (sublist_subseteq _ _ (uniqWith_sublist comparator l)). }
  destruct (existsb _ _) eqn:E.
  - rewrite decide_True; [done|]. by apply Hex.
  - rewrite decide_False; [by rewrite fmap_app|].
    intros Hin. apply Hex in Hin. done.
Qed.

Lemma Set_from_NoDup {K} `{EqDecision K} (l : list K) :
  NoDup l → Set_from l = l.
Proof.
  induction l as [|x l IH] using rev_ind; [done|].
  intros Hnd. apply NoDup_app in Hnd as (Hl & Hx & _).
  rewrite Set_from_snoc, IH by done. unfold Set_add.
  rewrite decide_False; [done|]. intros Hin. apply (Hx _ Hin). left.
Qed.

Lemma Forall2_fmap_key {A B} (f : B → A) l k :
  Forall2 (λ x y, f y = x) l k → f <$> k = l.
Proof.
  induction 1 as [|x y l k Hf _ IH]; [done|]. by rewrite fmap_cons, Hf, IH.
Qed.

Section SetDuplicates.
Variable c : ChartConfig.
Hypothesis c_settled : Settled c.
Hypothesis c_named : EntityNamed (table c).
Hypothesis c_names : OneNamePerId (table c).
Hypothesis c_ready : isReady c = true.
Hypothesis c_mode : addCountryMode c ≠ change_country.

(** Assigning keys of named entities, some of them more than once, and
    reading [selectedKeys] again: every key is read back once. *)
Lemma selectedKeys_set_get_uniq keys :
  (∀ key, key ∈ keys →
     ∃ info, Map_get key (keyIndex c) = Some info ∧ Info.entity info ≠ VStr "") →
  ∃ es,
    selectedKeys_set keys c = Some ((), set_selectedData es c) ∧
    selectedKeys (set_selectedData es c)
    = Some (uniq keys, set_selectedData es c).
Proof using c_settled c_named c_names c_ready c_mode.
  intros Hkeys.
  assert (is_Some (mapM (entryOfKey c) keys)) as [es Hes].
  { apply mapM_is_Some, Forall_forall. intros key Hkey.
    destruct (Hkeys key Hkey) as (info & Hinfo & _).
    unfold compose, entryOfKey. by rewrite Hinfo. }
  apply mapM_Some in Hes. exists es.
  assert (∀ es0,
    Forall2 (λ key e, entryOfKey c key = Some e ∧
                      validSelection (set_selectedData es0 c) e = true ∧
                      keyOfSelection (set_selectedData es0 c) e = key)
            keys es) as Hvalid0.
  { intros es0. induction Hes as [|key e keys0 es1 He _ IH]; constructor.
    - destruct (Hkeys key) as (info & Hinfo & Hne); [left|].
      split; [done|]. by eapply stored_entry_valid.
    - apply IH. intros ??. apply Hkeys. by right. }
  set (c' := set_selectedData es c).
  pose proof (Hvalid0 es) as Hvalid. fold c' in Hvalid.
  assert (keyOfSelection c' <$> es = keys) as Hk.
  { apply Forall2_fmap_key. eapply Forall2_impl; [exact Hvalid|].
    by intros key e (_ & _ & ?). }
  assert (∀ e, e ∈ es → validSelection c' e = true ∧
                         entryOfKey c (keyOfSelection c' e) = Some e) as Hentry.
  { intros e He. apply list_elem_of_lookup in He as [i Hi].
    destruct (Forall2_lookup_r _ _ _ _ _ Hvalid Hi)
      as (key & _ & Hek & Hv & <-) . done. }
  split.
  - unfold selectedKeys_set, mbind, M_bind. simpl. rewrite c_ready. simpl.
    assert (reads (mapM selectionOfKey keys) c es) as ->; [|done].
    apply reads_mapM_Forall2. eapply Forall2_impl; [exact Hes|].
    intros key e He. by apply reads_selectionOfKey.
  - assert (Settled c') as Hs' by exact c_settled.
    rewrite (reads_selectedKeys c' Hs'). f_equal. f_equal.
    unfold keptSelections. cbn [selectedData props c' set_selectedData].
    rewrite filter_all by (apply Forall_forall; intros e He; by apply Hentry).
    rewrite uniqWith_keys_Set_from; [by rewrite Hk|].
    intros x y Hx Hy. rewrite sameSelection_pair. split.
    + intros Hp. unfold keyOfSelection.
      unfold selectionPair in Hp. by injection Hp as -> ->.
    + intros Heq. destruct (Hentry x Hx) as [_ Ex].
      destruct (Hentry y Hy) as [_ Ey]. rewrite Heq, Ey in Ex.
      by injection Ex as ->.
Qed.
End SetDuplicates.

(** X21: on a ready, settled chart that is not in "change entity" mode
    and whose entity ids and names correspond one to one,
    [selectEntityDimensionKey] of a key that [lookupKey] resolves to a
    named entity changes nothing but the selection; [selectedKeys]
    afterwards is the previous list followed by that key, or the previous
    list itself when the key was selected already. *)
Theorem selectEntityDimensionKey_selectedKeys c key keys :
  Settled c → EntityNamed (table c) →
  OneIdPerName (table c) → OneNamePerId (table c) →
  isReady c = true → addCountryMode c ≠ change_country →
  (∃ info, lookupKey key c = Some (info, c) ∧ Info.entity info ≠ VStr "") →
  selectedKeys c = Some (keys, c) →
  ∃ c',
    selectEntityDimensionKey key c = Some ((), c') ∧
    table c' = table c ∧
    dimensions (props c') = dimensions (props c) ∧
    selectedKeys c'
    = Some (if bool_decide (key ∈ keys) then keys else keys ++ [key], c').
Proof.
  intros Hs Hnamed Hids Hnames Hready Hmode (info & Hl & Hne) Hkeys.
  rewrite lookupKey_settled in Hl by done.
  destruct (Map_get key (keyIndex c)) as [info'|] eqn:Hinfo; [|done].
  simpl in Hl. injection Hl as ->.
  pose proof (reads_selectedKeys c Hs) as Hread. unfold reads in Hread.
  rewrite Hread in Hkeys. injection Hkeys as <-.
  set (keys := keyOfSelection c <$> keptSelections c) in *.
  assert (NoDup keys) as Hnd by (by apply keptSelections_keys_NoDup).
  destruct (selectedKeys_set_get_uniq c Hs Hnamed Hnames Hready Hmode
              (keys ++ [key])) as (es & Hset & Hget).
  { intros k Hk. apply elem_of_app in Hk as [Hk|Hk].
    - apply list_elem_of_fmap in Hk as (sel & -> & Hsel).
      by apply kept_key_named.
    - apply list_elem_of_singleton in Hk as ->. eauto. }
  exists (set_selectedData es c). split_and!; [|done..|].
  - unfold selectEntityDimensionKey, mbind, M_bind. by rewrite Hread.
  - rewrite Hget. f_equal. f_equal. unfold uniq.
    rewrite Set_from_snoc, Set_from_NoDup by done. unfold Set_add.
    case_bool_decide; [by rewrite decide_True|by rewrite decide_False].
Qed.

Lemma selectEntityDimensionKey_selectedKeys_witness :
  ∃ c', selectEntityDimensionKey "Spain_0" (deaths_chart None) = Some ((), c') ∧
        selectedKeys c' = Some (["France_0"; "Spain_0"], c').
Proof.
  destruct (selectEntityDimensionKey_selectedKeys (deaths_chart None) "Spain_0"
              ["France_0"; "Spain_0"]
              (deaths_chart_settled None) deaths_table_named deaths_table_ids
              deaths_table_names)
    as (c' & Hselect & _ & _ & Hget).
  - vm_compute. reflexivity.
  - discriminate.
  - apply deaths_chart_key. left.
  - vm_compute. reflexivity.
  - exists c'. split; [exact Hselect|exact Hget].
Defined.

(** ** Hiding colliding ticks *)

Section HorizontalAxis_facts.
Context {Tick Bounds : Type}.
Variable intersects : Bounds → Bounds → bool.
Variable padWidth : Bounds → Z → Bounds.
Variable boundsOf : Tick → Bounds.

Local Abbreviation Placement := (@TickPlacement Tick Bounds).
Local Abbreviation collide a b := (intersects a (padWidth b (-5))).
Local Abbreviation step := (visit intersects padWidth).

(** A later state of the placements: same ticks and rectangles, and what
    was hidden stays hidden. *)
Definition Hides (ps ps' : list Placement) : Prop :=
  Forall2 (λ t t', tick t' = tick t ∧ bounds t' = bounds t ∧
                   (isHidden t = true → isHidden t' = true)) ps ps'.

Lemma Hides_refl ps : Hides ps ps.
Proof. apply Forall_Forall2_diag, Forall_forall. done. Qed.

Lemma Hides_trans ps1 ps2 ps3 : Hides ps1 ps2 → Hides ps2 ps3 → Hides ps1 ps3.
Proof.
  unfold Hides. intros H12. revert ps3.
  induction H12 as [|t1 t2 ps1 ps2 (Ht & Hb & Hh) _ IH]; intros ps3 H23;
    inversion H23 as [|? t3 ? ps3' (Ht' & Hb' & Hh') H23']; subst;
    constructor; [|by apply IH].
  split_and!; [congruence..|]. auto.
Qed.

Lemma Hides_alter k ps : Hides ps (alter hide k ps).
Proof.
  apply Forall2_alter_r; [apply Hides_refl|].
  intros t t' _ _ (Ht & Hb & Hh). done.
Qed.

Lemma Hides_visit i j ps : Hides ps (step i j ps).
Proof.
  unfold visit. destruct (ps !! i) as [t1|]; [|apply Hides_refl].
  destruct (ps !! j) as [t2|]; [|apply Hides_refl].
  repeat (match goal with |- context [if ?b then _ else _] => destruct b end);
    first [apply Hides_refl|apply Hides_alter].
Qed.

Lemma Hides_length ps ps' : Hides ps ps' → length ps' = length ps.
Proof. intros H. symmetry. by eapply Forall2_length. Qed.

Lemma Hides_ticks ps ps' : Hides ps ps' → tick <$> ps' = tick <$> ps.
Proof.
  induction 1 as [|t t' ps ps' (Ht & _) _ IH]; [done|].
  by rewrite !fmap_cons, Ht, IH.
Qed.

(** The pairs in the order in which the loops visit them. *)
Definition visited (n : nat) : list (nat * nat) :=
  i ← seq 0 n; (λ j, (i, j)) <$> seq 1 (n - 1).

Definition run (pairs : list (nat * nat)) (ps : list Placement)
    : list Placement :=
  foldl (λ ps p, step p.1 p.2 ps) ps pairs.

Lemma hideCollisions_run ps :
  hideCollisions intersects padWidth ps = run (visited (length ps)) ps.
Proof.
  unfold hideCollisions, visited, run.
  generalize (seq 1 (length ps - 1)). intros js.
  generalize (seq 0 (length ps)). intros indices. revert ps.
  induction indices as [|i indices IH]; intros ps; [done|].
  simpl. rewrite foldl_app, <-IH. f_equal.
  clear. revert ps. induction js as [|j js IH]; intros ps; [done|].
  simpl. by rewrite IH.
Qed.

Lemma elem_of_visited n i j :
  (i, j) ∈ visited n ↔ (i < n)%nat ∧ (1 ≤ j < n)%nat.
Proof.
  unfold visited. rewrite list_elem_of_bind. split.
  - intros (i' & Hin & Hi). apply list_elem_of_fmap in Hin as (j' & [= -> ->] & Hj).
    apply elem_of_seq in Hi, Hj. lia.
  - intros [Hi Hj]. exists i. split.
    + apply list_elem_of_fmap. exists j. split; [done|].
      apply elem_of_seq. lia.
    + apply elem_of_seq. lia.
Qed.

Lemma run_snoc pairs p ps : run (pairs ++ [p]) ps = step p.1 p.2 (run pairs ps).
Proof. unfold run. by rewrite foldl_snoc. Qed.

Lemma Hides_run pairs ps : Hides ps (run pairs ps).
Proof.
  induction pairs as [|p pairs IH] using rev_ind; [apply Hides_refl|].
  rewrite run_snoc. eapply Hides_trans; [exact IH|apply Hides_visit].
Qed.

(** The first placement is never hidden. *)
Lemma visit_first i j (ps : list Placement) t :
  (1 ≤ j)%nat → ps !! 0%nat = Some t → isHidden t = false →
  step i j ps !! 0%nat = Some t.
Proof.
  intros Hj H0 Ht. unfold visit.
  destruct (ps !! i) as [t1|] eqn:H1; [|done].
  destruct (ps !! j) as [t2|] eqn:H2; [|done].
  destruct (_ || _); [done|]. destruct (intersects _ _); [|done].
  case_bool_decide as Hi.
  - rewrite list_lookup_alter_ne by lia. done.
  - case_bool_decide.
    + rewrite list_lookup_alter_ne by lia. done.
    + rewrite list_lookup_alter_ne by lia. done.
Qed.

Lemma run_first pairs (ps : list Placement) t :
  (∀ p, p ∈ pairs → (1 ≤ p.2)%nat) →
  ps !! 0%nat = Some t → isHidden t = false →
  run pairs ps !! 0%nat = Some t.
Proof.
  intros Hj H0 Ht.
  induction pairs as [|p pairs IH] using rev_ind; [done|].
  rewrite run_snoc. apply visit_first; [|apply IH|done].
  - apply Hj. apply elem_of_app. right. left.
  - intros q Hq. apply Hj. apply elem_of_app. by left.
Qed.

(** After a pair was visited, its two placements do not both stay shown
    while colliding. *)
Lemma visit_resolved i j (ps : list Placement) t1 t2 :
  i ≠ j →
  step i j ps !! i = Some t1 → step i j ps !! j = Some t2 →
  isHidden t1 = false → isHidden t2 = false →
  collide (bounds t1) (bounds t2) = false.
Proof.
  intros Hij H1 H2 Hs1 Hs2.
  destruct (Forall2_lookup_r _ _ _ _ _ (Hides_visit i j ps) H1)
    as (u1 & Hu1 & _ & Hb1 & Hh1).
  destruct (Forall2_lookup_r _ _ _ _ _ (Hides_visit i j ps) H2)
    as (u2 & Hu2 & _ & Hb2 & Hh2).
  rewrite Hb1, Hb2. revert H1 H2. unfold visit. rewrite Hu1, Hu2.
  rewrite bool_decide_eq_false_2 by done.
  destruct (isHidden u1) eqn:E1; [rewrite Hh1 in Hs1; done|].
  destruct (isHidden u2) eqn:E2; [rewrite Hh2 in Hs2; done|]. simpl.
  destruct (intersects _ _); [|done].
  assert (∀ k t, alter hide k ps !! k = Some t → isHidden t = true) as Hhid.
  { intros k t. rewrite list_lookup_alter_eq.
    destruct (ps !! k); [|done]. by intros [= <-]. }
  intros H1 H2.
  repeat (match type of H1 with context [if ?b then _ else _] =>
            destruct b end);
    first [apply Hhid in H1 | apply Hhid in H2]; congruence.
Qed.

Lemma run_resolved pairs (ps : list Placement) i j t1 t2 :
  (i, j) ∈ pairs → i ≠ j →
  run pairs ps !! i = Some t1 → run pairs ps !! j = Some t2 →
  isHidden t1 = false → isHidden t2 = false →
  collide (bounds t1) (bounds t2) = false.
Proof.
  revert t1 t2.
  induction pairs as [|p pairs IH] using rev_ind; intros t1 t2 Hin Hij;
    [by apply elem_of_nil in Hin|].
  rewrite run_snoc. intros H1 H2 Hs1 Hs2.
  apply elem_of_app in Hin as [Hin|Hin].
  - destruct (Forall2_lookup_r _ _ _ _ _ (Hides_visit p.1 p.2 _) H1)
      as (u1 & Hu1 & _ & Hb1 & Hh1).
    destruct (Forall2_lookup_r _ _ _ _ _ (Hides_visit p.1 p.2 _) H2)
      as (u2 & Hu2 & _ & Hb2 & Hh2).
    rewrite Hb1, Hb2. apply IH; [done..| |].
    + destruct (isHidden u1); [|done]. rewrite Hh1 in Hs1; done.
    + destruct (isHidden u2); [|done]. rewrite Hh2 in Hs2; done.
  - apply list_elem_of_singleton in Hin. subst p. simpl in *.
    by eapply visit_resolved.
Qed.

(** The last placement is hidden only by a collision with the first. *)
Definition LastByFirst (ps : list Placement) : Prop :=
  ∀ t0 t, ps !! 0%nat = Some t0 → last ps = Some t → isHidden t = true →
    collide (bounds t0) (bounds t) = true.

Lemma visit_last i j (ps : list Placement) :
  (1 ≤ j)%nat → LastByFirst ps → LastByFirst (step i j ps).
Proof.
  intros Hj HQ t0 t H0 Hl Ht.
  pose proof (Hides_visit i j ps) as HH.
  rewrite last_lookup, (Hides_length _ _ HH) in Hl.
  destruct (Forall2_lookup_r _ _ _ _ _ HH H0) as (u0 & Hu0 & _ & Hb0 & _).
  destruct (Forall2_lookup_r _ _ _ _ _ HH Hl) as (u & Hu & _ & Hb & _).
  rewrite Hb0, Hb.
  destruct (isHidden u) eqn:Eu.
  { apply HQ; [done| |done]. by rewrite last_lookup. }
  revert Hl. unfold visit.
  destruct (ps !! i) as [t1|] eqn:H1; [|congruence].
  destruct (ps !! j) as [t2|] eqn:H2; [|congruence].
  destruct (bool_decide (i = j)) eqn:Eij; simpl; [congruence|].
  apply bool_decide_eq_false in Eij.
  destruct (isHidden t1 || isHidden t2); [congruence|].
  destruct (intersects (bounds t1) (padWidth (bounds t2) (-5))) eqn:Ec;
    [|congruence].
  assert (Init.Nat.pred (length ps) = (length ps - 1)%nat) as Hp by lia.
  case_bool_decide as Hi.
  - subst i. destruct (decide (j = Init.Nat.pred (length ps))) as [->|Hne].
    + intros _. congruence.
    + rewrite list_lookup_alter_ne by done. congruence.
  - case_bool_decide as Hjn.
    + rewrite list_lookup_alter_ne by lia. congruence.
    + rewrite list_lookup_alter_ne by lia. congruence.
Qed.

Lemma run_last pairs (ps : list Placement) :
  (∀ p, p ∈ pairs → (1 ≤ p.2)%nat) → LastByFirst ps → LastByFirst (run pairs ps).
Proof.
  intros Hj HQ.
  induction pairs as [|p pairs IH] using rev_ind; [done|].
  rewrite run_snoc. apply visit_last.
  - apply Hj. apply elem_of_app. right. left.
  - apply IH. intros q Hq. apply Hj. apply elem_of_app. by left.
Qed.

(** Two positions of a filtered list come from two positions of the list,
    in the same order. *)
Lemma filter_lookup_1 {A} (P : A → Prop) `{∀ x, Decision (P x)} (l : list A)
    (p : nat) a :
  filter P l !! p = Some a → ∃ i, (p ≤ i)%nat ∧ l !! i = Some a ∧ P a.
Proof.
  revert p. induction l as [|x l IH]; intros p; [done|].
  rewrite filter_cons. case_decide as Hx.
  - destruct p as [|p]; simpl.
    + intros [= <-]. exists 0%nat. split_and!; [lia|done..].
    + intros Hp. destruct (IH _ Hp) as (i & Hi & Hl & Ha).
      exists (S i). split_and!; [lia|done..].
  - intros Hp. destruct (IH _ Hp) as (i & Hi & Hl & Ha).
    exists (S i). split_and!; [lia|done..].
Qed.

Lemma filter_lookup_2 {A} (P : A → Prop) `{∀ x, Decision (P x)} (l : list A)
    (p q : nat) a b :
  (p < q)%nat → filter P l !! p = Some a → filter P l !! q = Some b →
  ∃ i j, (p ≤ i)%nat ∧ (i < j)%nat ∧
         l !! i = Some a ∧ l !! j = Some b ∧ P a ∧ P b.
Proof.
  revert p q. induction l as [|x l IH]; intros p q Hpq; [done|].
  rewrite filter_cons. case_decide as Hx.
  - destruct p as [|p], q as [|q]; simpl; try lia.
    + intros [= <-] Hq. destruct (filter_lookup_1 _ _ _ _ Hq) as (j & _ & Hl & Hb).
      exists 0%nat, (S j). split_and!; [lia..|done|done|done|done].
    + intros Hp Hq. destruct (IH p q ltac:(lia) Hp Hq)
        as (i & j & Hi & Hj & Hli & Hlj & Ha & Hb).
      exists (S i), (S j). split_and!; [lia..|done|done|done|done].
  - intros Hp Hq. destruct (IH p q Hpq Hp Hq)
      as (i & j & Hi & Hj & Hli & Hlj & Ha & Hb).
    exists (S i), (S j). split_and!; [lia..|done|done|done|done].
Qed.

Lemma tickPlacements_lookup baseTicks (i : nat) t :
  tickPlacements boundsOf baseTicks !! i = Some t →
  baseTicks !! i = Some (tick t) ∧ bounds t = boundsOf (tick t) ∧
  isHidden t = false.
Proof.
  unfold tickPlacements. rewrite list_lookup_fmap.
  destruct (baseTicks !! i); [|done]. by intros [= <-].
Qed.

(** What the loops leave at a position. *)
Lemma hideCollisions_lookup baseTicks (i : nat) t :
  hideCollisions intersects padWidth (tickPlacements boundsOf baseTicks) !! i
    = Some t →
  baseTicks !! i = Some (tick t) ∧ bounds t = boundsOf (tick t).
Proof.
  rewrite hideCollisions_run. intros Hi.
  destruct (Forall2_lookup_r _ _ _ _ _ (Hides_run _ _) Hi)
    as (u & Hu & Ht & Hb & _).
  apply tickPlacements_lookup in Hu as (Hu & Hbu & _).
  rewrite Ht, Hb. done.
Qed.

(** X22: on a scale that is not discrete, [ticks] returns base ticks in
    their order, beginning with the first base tick; the label of a
    returned tick does not intersect the narrowed label of a tick returned
    after it, nor, unless it is the first, the other way round; and the
    last base tick is hidden exactly when the label of the first
    intersects its narrowed label. *)
Theorem ticks_no_collision tickValues baseTicks :
  let shown := ticks intersects padWidth boundsOf false tickValues baseTicks in
  sublist shown baseTicks ∧
  head shown = head baseTicks ∧
  (∀ (p q : nat) a b,
     (p < q)%nat → shown !! p = Some a → shown !! q = Some b →
     intersects (boundsOf a) (padWidth (boundsOf b) (-5)) = false ∧
     ((0 < p)%nat →
      intersects (boundsOf b) (padWidth (boundsOf a) (-5)) = false)) ∧
  (∀ first final,
     (2 ≤ length baseTicks)%nat →
     head baseTicks = Some first → last baseTicks = Some final →
     ∃ t, last (hideCollisions intersects padWidth
                  (tickPlacements boundsOf baseTicks)) = Some t ∧
          tick t = final ∧
          isHidden t
          = intersects (boundsOf first) (padWidth (boundsOf final) (-5))).
Proof.
  intros shown. subst shown. unfold ticks.
  set (ps0 := tickPlacements boundsOf baseTicks).
  set (ps := hideCollisions intersects padWidth ps0).
  assert (Hides ps0 ps) as HH.
  { subst ps. rewrite hideCollisions_run. apply Hides_run. }
  assert (length ps0 = length baseTicks) as Hlen0
    by (subst ps0; unfold tickPlacements; by rewrite length_fmap).
  assert (tick <$> ps = baseTicks) as Hticks.
  { rewrite (Hides_ticks _ _ HH). subst ps0. unfold tickPlacements.
    rewrite <-list_fmap_compose. apply list_fmap_id. }
  assert (∀ p, p ∈ visited (length ps0) → (1 ≤ p.2)%nat) as Hj.
  { intros [i j] Hin. apply elem_of_visited in Hin. simpl. lia. }
  assert (∀ t0, ps0 !! 0%nat = Some t0 → ps !! 0%nat = Some t0) as Hfirst.
  { intros t0 H0. subst ps. rewrite hideCollisions_run.
    apply run_first; [done..|]. by apply tickPlacements_lookup in H0 as (_ & _ & ?). }
  assert (∀ (i j : nat) t1 t2,
            i ≠ j → (1 ≤ j)%nat → ps !! i = Some t1 → ps !! j = Some t2 →
            isHidden t1 = false → isHidden t2 = false →
            intersects (boundsOf (tick t1)) (padWidth (boundsOf (tick t2)) (-5))
            = false) as Hres.
  { intros i j t1 t2 Hij Hj1 H1 H2 Hs1 Hs2.
    destruct (hideCollisions_lookup _ _ _ H1) as [_ <-].
    destruct (hideCollisions_lookup _ _ _ H2) as [_ <-].
    revert H1 H2. subst ps. rewrite hideCollisions_run. intros H1 H2.
    apply (run_resolved (visited (length ps0)) ps0 i j); [|done..].
    apply elem_of_visited.
    apply lookup_lt_Some in H1, H2.
    rewrite (Hides_length _ _ (Hides_run _ _)) in H1, H2. lia. }
  split_and!.
  - rewrite <-Hticks. apply fmap_sublist, sublist_filter.
  - rewrite <-Hticks. destruct ps as [|t0 ps'] eqn:Eps; [done|].
    assert (isHidden t0 = false) as Ht0.
    { destruct ps0 as [|u0 ps0'] eqn:E0.
      - apply Hides_length in HH. done.
      - specialize (Hfirst u0 eq_refl). injection Hfirst as ->.
        assert (ps0 !! 0%nat = Some u0) as Hu by (by rewrite E0).
        subst ps0. by apply tickPlacements_lookup in Hu as (_ & _ & ?). }
    by rewrite filter_cons_True.
  - intros p q a b Hpq Hp Hq.
    rewrite list_lookup_fmap in Hp, Hq.
    destruct (filter _ ps !! p) as [t1|] eqn:E1; [|done].
    destruct (filter _ ps !! q) as [t2|] eqn:E2; [|done].
    injection Hp as <-. injection Hq as <-.
    destruct (filter_lookup_2 _ _ _ _ _ _ Hpq E1 E2)
      as (i & j & Hi & Hij & Hli & Hlj & Hs1 & Hs2).
    split.
    + apply (Hres i j); [lia..|done|done|done|done].
    + intros Hp0. apply (Hres j i); [lia..|done|done|done|done].
  - intros first final Hn Hhead Hlast.
    assert (is_Some (last ps)) as [t Ht].
    { rewrite last_lookup. apply lookup_lt_is_Some.
      rewrite (Hides_length _ _ HH), Hlen0. lia. }
    exists t. split; [done|].
    assert (tick t = final) as Hfinal.
    { apply (f_equal (fmap tick)) in Ht. rewrite <-fmap_last, Hticks in Ht.
      rewrite Hlast in Ht. by injection Ht as <-. }
    split; [done|].
    assert (is_Some (ps0 !! 0%nat)) as [t0 H0].
    { apply lookup_lt_is_Some. lia. }
    pose proof (Hfirst _ H0) as H0'.
    apply tickPlacements_lookup in H0 as (Hb0 & Hbb0 & Hs0).
    rewrite <-head_lookup, Hhead in Hb0. injection Hb0 as Hb0.
    rewrite <-Hfinal, Hb0.
    destruct (isHidden t) eqn:Et.
    + symmetry. assert (LastByFirst ps) as HQ.
      { subst ps. rewrite hideCollisions_run. apply run_last; [done|].
        intros u0 u _ Hu Hhid. rewrite last_lookup in Hu.
        apply tickPlacements_lookup in Hu as (_ & _ & ?). congruence. }
      specialize (HQ t0 t H0' Ht Et).
      rewrite last_lookup in Ht.
      destruct (hideCollisions_lookup _ _ _ Ht) as [_ <-].
      by rewrite <-Hbb0.
    + symmetry. rewrite last_lookup in Ht.
      apply (Hres 0%nat (Init.Nat.pred (length ps)) t0 t); [| |done..];
        rewrite (Hides_length _ _ HH), Hlen0; lia.
Qed.

End HorizontalAxis_facts.

(** ** Entity annotations of an ingested variable *)

(** What the annotations column holds for an entity name. *)
Definition annotationOf (annotationMap : list (string * string))
    (entityName : Value) : Value :=
  match entityName with
  | VStr n => default VUndef (VStr <$> Map_get n annotationMap)
  | _ => VUndef
  end.

Lemma Map_get_fmap_values {K A B} `{EqDecision K} (f : A → B)
    (m : list (K * A)) k :
  Map_get k ((λ ks, (ks.1, f ks.2)) <$> m) = f <$> Map_get k m.
Proof.
  induction m as [|[k' a] m IH]; [done|]. simpl.
  case_decide; [done|apply IH].
Qed.

Section LegacyAnnotations.
Variable slugify : string → string.
Variable diffDateISOStringInDays : string → string → Z.
Variable EPOCH_DATE : string.

Local Abbreviation ingest :=
  (ingestAll slugify diffDateISOStringInDays EPOCH_DATE).
Local Abbreviation slugOf := (valueSlug slugify).
Local Abbreviation rowOf :=
  (ingestedRow slugify diffDateISOStringInDays EPOCH_DATE).
Local Abbreviation annSlugOf v :=
  (makeAnnotationColumnSlug (valueSlug slugify v)).

Lemma annotationSlug_ne_plain variable k :
  String_Forall (λ c, c ≠ "-"%char) k → annSlugOf variable ≠ k.
Proof.
  intros Hk Heq. unfold makeAnnotationColumnSlug, valueSlug in Heq.
  simpl in Heq. rewrite append_assoc in Heq. revert Heq.
  by apply append_dash_ne.
Qed.

Lemma annotationSlugs_id variable variable' :
  annSlugOf variable = annSlugOf variable' → id variable = id variable'.
Proof.
  unfold makeAnnotationColumnSlug, valueSlug. simpl. intros Heq.
  rewrite !append_assoc in Heq. eapply pretty_Z_dash_inj. exact Heq.
Qed.

(** With distinct ids, the value column and the annotations column of an
    annotated variable are registered as [fromLegacy] builds them. *)
Lemma ingestAll_annotated json vars rs specs key variable aslug amap :
  ingest json vars = Some (rs, specs) →
  (∀ key' variable', (key', variable') ∈ vars →
     id variable' = id variable → variable' = variable) →
  (key, variable) ∈ vars →
  legacyAnnotations (slugOf variable) variable = Some (aslug, amap) →
  Map_get (slugOf variable) specs
    = Some (columnSpecFromLegacyVariable slugify variable (Some aslug)) ∧
  Map_get aslug specs = Some (ColumnSpec.of_slug aslug).
Proof.
  intros Hi Hids Hin Ha. revert rs specs Hi Hids Hin.
  induction vars as [|kv vars IH] using rev_ind; intros rs specs Hi Hids Hin;
    [by apply elem_of_nil in Hin|].
  rewrite ingestAll_snoc in Hi.
  destruct (ingestAll _ _ _ json vars) as [[rs0 specs0]|] eqn:E; [|done].
  simpl in Hi. apply ingestVariable_Some in Hi as (_ & _ & _ & _ & _ & ->).
  rewrite (specsAfter_eq slugify). cbn zeta.
  pose proof Ha as Ha'. apply legacyAnnotations_Some in Ha' as [-> _].
  destruct (decide (id kv.2 = id variable)) as [Hid|Hid].
  - assert (kv.2 = variable) as ->.
    { apply (Hids kv.1); [|done]. apply elem_of_app. right.
      apply list_elem_of_singleton. by destruct kv. }
    rewrite Ha. simpl. split.
    + rewrite Map_get_set_ne by apply (annotationSlug_ne slugify).
      by rewrite Map_get_set_eq.
    + by rewrite Map_get_set_eq.
  - assert ((key, variable) ∈ vars) as Hin'.
    { apply elem_of_app in Hin as [?|Hin]; [done|].
      apply list_elem_of_singleton in Hin. subst kv. done. }
    assert (∀ key' variable', (key', variable') ∈ vars →
              id variable' = id variable → variable' = variable) as Hids'.
    { intros key' variable' Hin0. apply (Hids key').
      apply elem_of_app. by left. }
    destruct (IH _ _ eq_refl Hids' Hin') as [Hv Hann].
    assert (timeColumnName kv.2 ≠ slugOf variable) as Ht1.
    { intros Heq. symmetry in Heq. revert Heq. apply valueSlug_ne_plain.
      unfold timeColumnName. by destruct (yearIsDay (display kv.2)). }
    assert (timeColumnName kv.2 ≠ annSlugOf variable) as Ht2.
    { intros Heq. symmetry in Heq. revert Heq. apply annotationSlug_ne_plain.
      unfold timeColumnName. by destruct (yearIsDay (display kv.2)). }
    assert (slugOf kv.2 ≠ slugOf variable) as Hs1.
    { intros Heq. by apply (valueSlug_id slugify) in Heq. }
    assert (slugOf kv.2 ≠ annSlugOf variable) as Hs2.
    { intros Heq. by apply (annotationSlug_id slugify) in Heq. }
    assert (annSlugOf kv.2 ≠ slugOf variable) as Ha1.
    { intros Heq. symmetry in Heq.
      apply (annotationSlug_id slugify) in Heq. by symmetry in Heq. }
    split.
    + destruct (legacyAnnotations _ kv.2);
        rewrite ?(Map_get_set_ne (annSlugOf kv.2)) by done;
        by rewrite !Map_get_set_ne.
    + destruct (legacyAnnotations _ kv.2).
      * rewrite Map_get_set. case_decide as Hk; [by rewrite Hk|].
        by rewrite !Map_get_set_ne.
      * by rewrite !Map_get_set_ne.
Qed.

Lemma ingestedRow_annotation variable names codes index value aslug amap :
  legacyAnnotations (slugOf variable) variable = Some (aslug, amap) →
  rowOf variable names codes index value !! aslug
  = Some (annotationOf amap (at_index VStr names index)).
Proof.
  intros Ha. unfold ingestedRow, legacyRow. rewrite Ha.
  by rewrite lookup_insert_eq.
Qed.

Lemma ingestedRow_other_annotation variable' names codes index value variable :
  id variable' ≠ id variable →
  rowOf variable' names codes index value !! annSlugOf variable = None.
Proof.
  intros Hid.
  assert (∀ k, String_Forall (λ c, c ≠ "-"%char) k → k ≠ annSlugOf variable)
    as Hplain.
  { intros k Hk Heq. symmetry in Heq. by apply annotationSlug_ne_plain in Heq. }
  assert (timeColumnName variable' ≠ annSlugOf variable) as Htime.
  { apply Hplain. unfold timeColumnName.
    by destruct (yearIsDay (display variable')). }
  assert (slugOf variable' ≠ annSlugOf variable) as Hslug.
  { intros Heq. by apply (annotationSlug_id slugify) in Heq. }
  unfold ingestedRow, legacyRow.
  destruct (legacyAnnotations _ variable') as [[aslug' amap']|] eqn:Ha.
  - apply legacyAnnotations_Some in Ha as [-> _].
    rewrite lookup_insert_ne
      by (intros Heq; by apply annotationSlugs_id in Heq).
    rewrite !lookup_insert_ne by (apply Hplain; by repeat split).
    rewrite lookup_insert_ne by done. by rewrite lookup_insert_ne.
  - rewrite !lookup_insert_ne by (apply Hplain; by repeat split).
    rewrite lookup_insert_ne by done. by rewrite lookup_insert_ne.
Qed.

Local Abbreviation legacyTable :=
  (fromLegacy slugify diffDateISOStringInDays EPOCH_DATE).

(** The variable has an observation for an entity of this name. *)
Definition Observed (json : OwidVariablesAndEntityKey)
    (variable : OwidVariable) (entityName : string) : Prop :=
  ∃ (index : nat) e meta,
    (index < length (values variable))%nat ∧
    entities variable !! index = Some e ∧
    entityKey json !! pretty e = Some meta ∧
    entity_name meta = entityName.

Section Cells.
Variable json : OwidVariablesAndEntityKey.
Variable rs : list Row.
Variable specs : list (string * ColumnSpec.t).
Hypothesis ingested : ingest json (variables json) = Some (rs, specs).
Hypothesis aligned :
  ∀ key variable, (key, variable) ∈ variables json → Aligned variable.
Hypothesis distinct :
  ∀ key1 variable1 key2 variable2,
    (key1, variable1) ∈ variables json → (key2, variable2) ∈ variables json →
    id variable1 = id variable2 → variable1 = variable2.

Lemma ingested_row_named r :
  r ∈ rs → ∃ s, get r "entityName" = VStr s.
Proof using ingested aligned.
  intros Hr.
  destruct (ingestAll_rows_named _ _ _ _ _ _ _ _ ingested Hr)
    as (key' & v' & names & codes & i & val & Hin' & Hnames & Hval & ->).
  destruct (ingestedRow_aligned slugify diffDateISOStringInDays EPOCH_DATE
              json v' names codes i val)
    as (? & meta & ? & _ & _ & _ & _ & Hn); [by eapply aligned|done..|].
  eauto.
Qed.

Lemma merged_group_name k r :
  r ∈ filter (λ y, groupKey y = k) rs →
  get (Object_assign (filter (λ y, groupKey y = k) rs)) "entityName"
  = get r "entityName".
Proof using ingested aligned.
  intros Hr.
  assert (∀ r, r ∈ rs → TimeShape r) as Hshape.
  { intros r' Hr'. by eapply ingestAll_shape. }
  destruct (merged_group_fields rs k r Hshape Hr) as (_ & _ & Hn & _).
  assert (filter (λ y, groupKey y = k) rs ≠ []) as Hne.
  { intros Hnil. rewrite Hnil in Hr. by apply elem_of_nil in Hr. }
  destruct (Object_assign_get _ "entityName" Hne) as (r3 & Hr3 & Heq).
  rewrite Heq in Hn |- *.
  apply list_elem_of_filter in Hr3 as [_ Hr3].
  apply list_elem_of_filter in Hr as [_ Hr].
  destruct (ingested_row_named _ Hr3) as [s3 Hs3].
  destruct (ingested_row_named _ Hr) as [s Hs].
  rewrite Hs3, Hs in Hn |- *. simpl in Hn. by subst.
Qed.

(** A row of [rs] with a field under the annotations slug of a variable
    is a row of that variable. *)
Lemma annotated_row key variable aslug amap r v :
  (key, variable) ∈ variables json →
  legacyAnnotations (slugOf variable) variable = Some (aslug, amap) →
  r ∈ rs → r !! aslug = Some v →
  v = annotationOf amap (get r "entityName") ∧
  ∃ s, get r "entityName" = VStr s ∧ Observed json variable s.
Proof using ingested aligned distinct.
  intros Hin Ha Hr Hl.
  destruct (ingestAll_rows_named _ _ _ _ _ _ _ _ ingested Hr)
    as (key' & v' & names & codes & i & val & Hin' & Hnames & Hval & ->).
  pose proof Ha as Ha'. apply legacyAnnotations_Some in Ha' as [-> _].
  destruct (decide (id v' = id variable)) as [Hid|Hid].
  - assert (v' = variable) as -> by (by eapply distinct).
    rewrite (ingestedRow_annotation _ _ _ _ _ _ _ Ha) in Hl.
    injection Hl as <-. rewrite ingestedRow_entityName. split; [done|].
    destruct (ingestedRow_aligned slugify diffDateISOStringInDays EPOCH_DATE
                json variable names codes i val)
      as (e & meta & ? & He & Hm & _ & _ & Hn); [by eapply aligned|done..|].
    rewrite ingestedRow_entityName in Hn.
    exists (entity_name meta). split; [done|].
    exists i, e, meta. split_and!; [|done..].
    by eapply lookup_lt_Some.
  - by rewrite ingestedRow_other_annotation in Hl.
Qed.

End Cells.

(** The cells of the annotations column in the table of [fromLegacy]. *)
Lemma fromLegacy_annotation_cells json t key variable aslug amap :
  legacyTable json = Some t →
  (∀ key variable, (key, variable) ∈ variables json → Aligned variable) →
  (∀ key1 variable1 key2 variable2,
     (key1, variable1) ∈ variables json → (key2, variable2) ∈ variables json →
     id variable1 = id variable2 → variable1 = variable2) →
  (key, variable) ∈ variables json →
  legacyAnnotations (slugOf variable) variable = Some (aslug, amap) →
  (∀ row, row ∈ rows t → get row aslug ≠ VUndef →
     get row aslug = annotationOf amap (get row "entityName") ∧
     ∃ s, get row "entityName" = VStr s ∧ Observed json variable s) ∧
  (∀ s, Observed json variable s →
     ∃ row, row ∈ rows t ∧ get row "entityName" = VStr s ∧
            get row aslug = annotationOf amap (VStr s)).
Proof.
  intros Ht Haligned Hids Hin Ha.
  destruct (fromLegacy_columns _ _ _ _ _ Ht) as (rs & specs & Hing & _ & Hrows & _).
  split.
  - intros row Hrow Hdef. rewrite Hrows in Hrow. unfold Map_values in Hrow.
    rewrite <-list_fmap_compose in Hrow.
    apply list_elem_of_fmap in Hrow as ([k g] & -> & Hg). simpl in *.
    apply groupBy_elem in Hg as [-> Hne].
    unfold get in Hdef |- * at 1.
    destruct (Object_assign _ !! aslug) as [v|] eqn:Hl; [|done]. simpl in *.
    apply Object_assign_lookup in Hl as (r & Hr & Hl).
    pose proof Hr as Hr'. apply list_elem_of_filter in Hr' as [_ Hr'].
    destruct (annotated_row json rs specs Hing Haligned Hids
                key variable aslug amap r v Hin Ha Hr' Hl) as [-> Hobs].
    by rewrite (merged_group_name json rs specs Hing Haligned k r Hr).
  - intros s (i & e & meta & Hi & He & Hm & <-).
    destruct (lookup_lt_is_Some_2 _ _ Hi) as [value Hval].
    destruct (ingestAll_has_row _ _ _ _ _ _ _ _ _ _ _ Hing Hin Hval)
      as (names & codes & Hnames & Hr).
    set (r := rowOf variable names codes i value) in *.
    set (g := filter (λ x, groupKey x = groupKey r) rs).
    assert (r ∈ g) as Hrg by (by apply list_elem_of_filter).
    destruct (ingestedRow_aligned slugify diffDateISOStringInDays EPOCH_DATE
                json variable names codes i value)
      as (e0 & meta0 & y0 & He0 & Hm0 & _ & _ & Hrn); [by eapply Haligned|done..|].
    rewrite He in He0. injection He0 as <-.
    rewrite Hm in Hm0. injection Hm0 as <-.
    fold r in Hrn.
    assert (get (Object_assign g) "entityName" = VStr (entity_name meta)) as Hname.
    { unfold g. rewrite (merged_group_name json rs specs Hing Haligned _ r Hrg).
      done. }
    exists (Object_assign g). split_and!; [|done|].
    + rewrite Hrows. apply list_elem_of_fmap. exists g. split; [done|].
      by apply groupBy_group.
    + destruct (Object_assign_is_Some g r aslug) as [x Hx]; [done| |].
      { unfold r. by rewrite (ingestedRow_annotation _ _ _ _ _ _ _ Ha). }
      unfold get at 1. rewrite Hx. simpl.
      apply Object_assign_lookup in Hx as (r' & Hr' & Hl).
      pose proof Hr' as Hr''. apply list_elem_of_filter in Hr'' as [_ Hr''].
      destruct (annotated_row json rs specs Hing Haligned Hids
                  key variable aslug amap r' x Hin Ha Hr'' Hl) as [-> _].
      rewrite <-(merged_group_name json rs specs Hing Haligned _ r' Hr').
      fold g. by rewrite Hname.
Qed.

Lemma fromLegacy_visible json t :
  legacyTable json = Some t →
  WellKeyed t ∧ Materialized t ∧ visibleRows t = rows t.
Proof.
  intros Ht. destruct (fromLegacy_plain _ _ _ _ _ Ht) as [Hwk Hf].
  assert (filterColumnSlugs t = []) as Hs
    by (by rewrite filterColumnSlugs_filterColumns, Hf).
  split_and!; [done| |].
  - intros row s _ Hin. rewrite Hs in Hin. by apply elem_of_nil in Hin.
  - unfold visibleRows. rewrite Hs. apply filter_all, Forall_forall. done.
Qed.

Lemma annotationSlug_truthy slug :
  truthy (VStr (makeAnnotationColumnSlug slug)) = true.
Proof.
  simpl. destruct (String.eqb_spec (makeAnnotationColumnSlug slug) "")
    as [Heq|]; [|done].
  apply (f_equal String.length) in Heq. unfold makeAnnotationColumnSlug in Heq.
  rewrite length_append in Heq. simpl in Heq. lia.
Qed.

(** X23: for data whose variables have distinct ids and one year and one
    entity per value, the value column of a variable that comes with
    entity annotations answers [getAnnotationsFor] from those annotations:
    for the name of an entity that the variable has an observation for, it
    returns what [annotationsToMap] holds for that name (undefined when the
    name is not annotated), and for every other name it returns
    undefined. *)
Theorem getAnnotationsFor_fromLegacy json c key variable annotations :
  legacyTable json = Some (table c) →
  (∀ key variable, (key, variable) ∈ variables json → Aligned variable) →
  (∀ key1 variable1 key2 variable2,
     (key1, variable1) ∈ variables json → (key2, variable2) ∈ variables json →
     id variable1 = id variable2 → variable1 = variable2) →
  (key, variable) ∈ variables json →
  entityAnnotationsMap (display variable) = Some annotations →
  annotations ≠ "" →
  ∃ col,
    Map_get (slugOf variable) (columns (table c)) = Some col ∧
    ∀ entityName, ∃ v,
      getAnnotationsFor col entityName c = Some (v, c) ∧
      (Observed json variable entityName →
         v = default VUndef
               (VStr <$> Map_get entityName (annotationsToMap annotations))) ∧
      (v ≠ VUndef → Observed json variable entityName).
Proof.
  intros Ht Haligned Hids Hin Hann Hne.
  set (aslug := makeAnnotationColumnSlug (slugOf variable)).
  set (amap := annotationsToMap annotations).
  assert (legacyAnnotations (slugOf variable) variable = Some (aslug, amap))
    as Ha.
  { unfold legacyAnnotations. rewrite Hann. simpl.
    destruct (String.eqb_spec annotations ""); done. }
  destruct (fromLegacy_columns _ _ _ _ _ Ht)
    as (rs & specs & Hing & _ & _ & Hcols).
  assert (∀ key' variable', (key', variable') ∈ variables json →
            id variable' = id variable → variable' = variable) as Hids'.
  { intros key' variable' Hin' Hid. by eapply Hids. }
  destruct (ingestAll_annotated json (variables json) rs specs key variable
              aslug amap Hing Hids' Hin Ha) as [Hv Has].
  destruct (fromLegacy_visible _ _ Ht) as (Hwk & Hm & Hvis).
  destruct (fromLegacy_annotation_cells json (table c) key variable aslug amap
              Ht Haligned Hids Hin Ha) as [Hcell Hobs].
  assert (∀ k, Map_get k (columns (table c))
               = (λ s, {| columnType := AnyColumn; spec := s |})
                   <$> Map_get k specs) as Hget.
  { intros k. rewrite Hcols.
    apply (Map_get_fmap_values (λ s, {| columnType := AnyColumn; spec := s |})). }
  eexists. split; [by rewrite Hget, Hv|].
  intros entityName.
  set (annotated := filter (λ row, get row aslug ≠ VUndef) (rows (table c))).
  set (entityMap :=
         foldl (λ map row, Map_set (get row "entityName") (get row aslug) map)
               [] annotated).
  exists (Map_get_value (VStr entityName) entityMap). split.
  - unfold getAnnotationsFor.
    apply (reads_bind _ _ _ (Some entityMap)); [|done].
    unfold column_annotationsMap. simpl. fold aslug.
    change (negb (aslug =? "")%string) with (truthy (VStr aslug)).
    unfold aslug at 1. rewrite annotationSlug_truthy. simpl.
    apply (reads_bind _ _ _ c); [apply reads_getChart|].
    rewrite Hget, Has. simpl.
    apply (reads_bind _ _ _ entityMap); [|done].
    unfold column_entityMap.
    apply (reads_bind _ _ _ annotated); [|done].
    unfold column_rows.
    apply (reads_bind _ _ _ (rows (table c))); [|done].
    rewrite <-Hvis. by apply reads_table_unfilteredRows.
  - unfold Map_get_value, entityMap.
    rewrite (Map_get_foldl (λ row, get row "entityName")
               (λ row, get row aslug)).
    destruct (last _) as [row|] eqn:Hlast; simpl.
    + apply last_Some_elem_of in Hlast.
      apply list_elem_of_filter in Hlast as [Hname Hrow].
      apply list_elem_of_filter in Hrow as [Hdef Hrow].
      destruct (Hcell row Hrow Hdef) as (Hval & s & Hs & Hobserved).
      rewrite Hname in Hs. injection Hs as <-.
      split; [|done]. intros _. by rewrite Hval, Hname.
    + split; [|done]. intros Hobserved.
      destruct (Hobs _ Hobserved) as (row & Hrow & Hname & Hval).
      destruct (decide (get row aslug = VUndef)) as [Hu|Hdef].
      * rewrite Hu in Hval. done.
      * apply last_None in Hlast. exfalso.
        assert (row ∈ filter (λ row, get row "entityName" = VStr entityName)
                              annotated) as Hin'.
        { apply list_elem_of_filter. split; [done|].
          by apply list_elem_of_filter. }
        rewrite Hlast in Hin'. by apply elem_of_nil in Hin'.
Qed.

End LegacyAnnotations.

Lemma getAnnotationsFor_fromLegacy_witness :
  ∃ col,
    Map_get "5-cases" (columns (table annotated_chart)) = Some col ∧
    getAnnotationsFor col "France" annotated_chart
    = Some (VStr "provisional", annotated_chart) ∧
    getAnnotationsFor col "Spain" annotated_chart
    = Some (VUndef, annotated_chart).
Proof.
  destruct (getAnnotationsFor_fromLegacy (λ s, s) (λ _ _, 0) "2020-01-21"
              {| variables := [("5", annotated_variable)];
                 entityKey := two_entities |}
              annotated_chart "5" annotated_variable "France: provisional")
    as (col & Hcol & _).
  - vm_compute. reflexivity.
  - intros key variable Hin. apply list_elem_of_singleton in Hin.
    injection Hin as -> ->. split; reflexivity.
  - intros k1 v1 k2 v2 H1 H2 _.
    apply list_elem_of_singleton in H1, H2. congruence.
  - left.
  - reflexivity.
  - discriminate.
  - exists col. split; [exact Hcol|].
    vm_compute in Hcol. injection Hcol as <-.
    split; vm_compute; reflexivity.
Defined.

(** ** Resolving the dimensions *)

(** X24: [columnsByOwidVarId] holds under a key the last column of the
    registry filed under it, where a column is filed under its
    [owidVariableId], or under its position in the registry when it has
    none.  When [isReady] holds, [filledDimensions] has one element per
    configured dimension, element [i] carries index [i] and the [i]-th
    dimension, and its column is the one the map holds under the
    dimension's [variableId]; while [isReady] is false, [filledDimensions]
    is empty. *)
Theorem filledDimensions_columnsByOwidVarId c :
  (∀ id, Map_get id (columnsByOwidVarId (table c))
         = snd <$> last (filter (λ ic : nat * Column,
                                   default (Z.of_nat ic.1)
                                     (ColumnSpec.owidVariableId (spec ic.2)) = id)
                                (imap (λ index column, (index, column))
                                      (columnsAsArray (table c))))) ∧
  (isReady c = true →
     length (filledDimensions c) = length (dimensions (props c)) ∧
     ∀ i d, filledDimensions c !! i = Some d →
       Dimension.index d = i ∧
       dimensions (props c) !! i = Some (Dimension.props d) ∧
       Map_get (Dimension.variableId d) (columnsByOwidVarId (table c))
       = Some (Dimension.column d)) ∧
  (isReady c = false → filledDimensions c = []).
Proof.
  split_and!.
  - intros id. unfold columnsByOwidVarId. rewrite Map_get_foldl.
    by destruct (last _).
  - intros Hr. split; [by apply filledDimensions_length|].
    intros i d Hd.
    apply filledDimensions_lookup in Hd as (_ & dim & Hdim & Hget & Hi & Hp).
    split_and!; [done|by rewrite Hp|].
    unfold Dimension.variableId. by rewrite Hp.
  - intros Hr. unfold filledDimensions. by rewrite Hr.
Qed.
